(** * Slot arena and chunked pool of the fox template library

    A shallow embedding of [fox::inplace_free_list<T, Capacity>]
    (include/fox/inplace_free_list.hpp), of [fox::free_list<T, ChunkCapacity>]
    (include/fox/free_list.hpp) and of [fox::ptr_vector<T>]
    (include/fox/ptr_vector.hpp), the vector that holds the chunks of a pool,
    followed by the properties of allocation, release, bounds-checked access,
    move construction and compaction.

    Modelling conventions.
    - The template parameters are a type class [arena_params]: the slot count
      [Capacity] and [sizeof_T], the only property of [T] the layout reads.
    - [offset_type] values and [std::size_t] values are integers in [Z]; every
      cast and every increment or decrement writes its wrap-around out.
    - The storage array is a list of slots.  The code overlays a value and a
      free-chain link in the same bytes, slot by slot when a link record has
      the size of a [T] (the instantiations called [instantiable]); the model
      tags each slot with what was last constructed there.  Reading a slot
      through the other type, indexing outside the array, a failed [assert],
      an exception leaving a [noexcept] function and a loop that never ends
      have no result: the operation is [None].
    - A [T*] into an arena is the slot index it points at ([data() + idx]); a
      [T*] into a pool is the pair of the chunk position and the slot index.
      Chunks are appended and dropped at the back only, so a chunk keeps its
      position while it lives; a pointer into a chunk that was dropped is
      dangling in C++ and is not used here.
    - A relocation callback is modelled by the list of the argument pairs it
      is called with, in call order.
    - A [ptr_vector] is modelled with the blocks of its allocator: a [T*] is
      the address of a block, [allocate(1)] gives a block that is not out and
      does not fail, and an iterator is the position of its [base()] in
      [storage_] (the class [indirect_iterator] wraps a storage iterator).
      When a constructor throws, the state the exception leaves behind is
      kept with the outcome. *)

From Stdlib Require Import ZArith Lia.
From stdpp Require Import base tactics option list list_numbers numbers strings sets sorting gmap.

Set Warnings "-clear-no-such-hyp".

Open Scope Z_scope.

(** ** Template parameters *)

Class arena_params := {
  Capacity : Z;
  sizeof_T : Z
}.

Section layout.
Context {p : arena_params}.

(** [using offset_type = std::conditional_t<sizeof(T) == 1, uint8_t, uint16_t>] *)
Definition offset_bits : Z := if sizeof_T =? 1 then 8 else 16.

(** [std::numeric_limits<offset_type>::max()] *)
Definition offset_type_npos : Z := 2 ^ offset_bits - 1.

(** [static_cast<offset_type>(x)] *)
Definition to_offset (x : Z) : Z := x mod 2 ^ offset_bits.

(** arithmetic in [std::size_t] *)
Definition to_size (x : Z) : Z := x mod 2 ^ 64.

(** [static_cast<std::uint16_t>(x)] *)
Definition to_u16 (x : Z) : Z := x mod 2 ^ 16.

(** [static_assert(Capacity < offset_type_npos)]: an instantiation compiles
    only when this holds. *)
Definition static_assert_capacity : Prop := Capacity < offset_type_npos.

(** [sizeof(offset_type)] *)
Definition sizeof_offset_type : Z := offset_bits / 8.

(** [sizeof(offset_accessor)].  [offset_accessor] is [offset_accessor_a], the
    link alone, when [sizeof(T) == sizeof(offset_type)]; otherwise it is
    [offset_accessor_b], the link followed by
    [sizeof(T) - sizeof(offset_type)] bytes of padding, a record the compiler
    rounds up to the alignment of the link. *)
Definition sizeof_offset_accessor : Z :=
  if sizeof_T =? sizeof_offset_type then sizeof_offset_type
  else
    let members := sizeof_offset_type + (sizeof_T - sizeof_offset_type) in
    sizeof_offset_type * ((members + sizeof_offset_type - 1) / sizeof_offset_type).

(** An instantiation compiles, the held type has a size, and the array has a
    slot ([initialize_empty] writes slot [Capacity - 1]). *)
Definition compiles : Prop :=
  static_assert_capacity ∧ 0 < Capacity ∧ 0 < sizeof_T.

(** The instantiations this development is about.  The code reaches the link
    of slot [i] as [reinterpret_cast<offset_accessor*>(std::data(storage_))[i]]
    and the value of slot [i] as [reinterpret_cast<T*>(std::data(storage_))[i]];
    the two are the same bytes, as the model of the arena below has them, when
    a link record has the size of a [T].  That is so when [sizeof(T)] is 1 or
    even; for an odd [sizeof(T)] from 3 on the record is one byte longer than
    a [T], the links lie across the values, and the arena below is not what
    the code does. *)
Definition instantiable : Prop :=
  static_assert_capacity ∧ 0 < Capacity ∧ 0 < sizeof_T ∧
  sizeof_offset_accessor = sizeof_T.

#[global] Instance compiles_dec : Decision compiles.
Proof. unfold compiles, static_assert_capacity. apply _. Defined.

#[global] Instance instantiable_dec : Decision instantiable.
Proof. unfold instantiable, static_assert_capacity. apply _. Defined.
End layout.

(** The width the specification describes: the smallest unsigned width whose
    largest value, kept as sentinel, lies strictly above [cap]. *)
Definition smallest_width (cap : Z) : Z :=
  if cap <? 2 ^ 8 - 1 then 8
  else if cap <? 2 ^ 16 - 1 then 16
  else if cap <? 2 ^ 32 - 1 then 32
  else 64.

(** ** The slot arena: [fox::inplace_free_list] *)

Module Arena.
Section arena.
Context {T : Type} {p : arena_params}.

(** One slot of [storage_]: a live [T], or an [offset_accessor] holding the
    link to the next free slot. *)
Inductive slot :=
| Occupied (v : T)
| Free (offset : Z).

Record inplace_free_list := {
  storage_ : list slot;
  first_free_ : Z;
  size_ : Z
}.

(** *** Array and bitset access *)

Definition slot_at (st : list slot) (i : Z) : option slot :=
  if decide (0 ≤ i) then st !! Z.to_nat i else None.

(** [reinterpret_cast<offset_accessor*>(std::data(storage_))[i].offset]: the
    link in slot [i], a link record having the size of a [T]
    ([instantiable]). *)
Definition read_offset (st : list slot) (i : Z) : option Z :=
  match slot_at st i with
  | Some (Free o) => Some o
  | _ => None
  end.

(** [*(reinterpret_cast<T*>(std::data(storage_)) + i)] *)
Definition read_value (st : list slot) (i : Z) : option T :=
  match slot_at st i with
  | Some (Occupied v) => Some v
  | _ => None
  end.

(** [std::construct_at] of a value or of a link at slot [i], and the
    assignment to the [offset] field of slot [i]. *)
Definition write_slot (st : list slot) (i : Z) (s : slot) : option (list slot) :=
  if decide (0 ≤ i < Z.of_nat (length st)) then Some (<[Z.to_nat i := s]> st)
  else None.

(** [std::bitset<Capacity>]: bit [i] of the integer is bit [i] of the set;
    [test], [set] and [reset] throw for a position outside the set. *)
Definition bitset_test (m pos : Z) : option bool :=
  if decide (0 ≤ pos < Capacity) then Some (Z.testbit m pos) else None.

Definition bitset_set (m pos : Z) : option Z :=
  if decide (0 ≤ pos < Capacity) then Some (Z.setbit m pos) else None.

Definition bitset_reset (m pos : Z) : option Z :=
  if decide (0 ≤ pos < Capacity) then Some (Z.clearbit m pos) else None.

(** [std::bitset::all] *)
Definition bitset_all (m : Z) : bool := bool_decide (m = Z.ones Capacity).

(** *** Observers *)

Definition capacity : Z := Capacity.
Definition size (a : inplace_free_list) : Z := size_ a.
Definition first_free_offset (a : inplace_free_list) : Z := first_free_ a.
Definition empty (a : inplace_free_list) : bool := bool_decide (size a = 0).
Definition full (a : inplace_free_list) : bool :=
  bool_decide (first_free_ a = offset_type_npos).

(** The walk along the free chain that [free_mask], [is_sorted] and
    [initialize_move] share: from [i], follow the links until the sentinel.
    On a cyclic chain the C++ loops do not end; a chain of distinct slots has
    at most [Capacity] of them, so with that much fuel the walk gives up
    exactly when the loop would not end. *)
Fixpoint free_walk (fuel : nat) (st : list slot) (i : Z) : option (list Z) :=
  if decide (i = offset_type_npos) then Some []
  else match fuel with
       | O => None
       | S fuel' =>
           if decide (0 ≤ i < Capacity) then
             next ← read_offset st i;
             ch ← free_walk fuel' st next;
             Some (i :: ch)
           else None
       end.

(** The free chain of an arena: the slots visited from [first_free_]. *)
Definition free_chain (a : inplace_free_list) : option (list Z) :=
  free_walk (Z.to_nat Capacity) (storage_ a) (first_free_ a).

(** [for (i = first_free_; i != npos; i = begin[i].offset) out.set(i);] *)
Fixpoint free_mask_loop (fuel : nat) (st : list slot) (i out : Z) : option Z :=
  if decide (i = offset_type_npos) then Some out
  else match fuel with
       | O => None
       | S fuel' =>
           out' ← bitset_set out i;
           next ← read_offset st i;
           free_mask_loop fuel' st next out'
       end.

Definition free_mask (a : inplace_free_list) : option Z :=
  free_mask_loop (Z.to_nat Capacity) (storage_ a) (first_free_ a) 0.

(** [while (current != npos && is_sorted_) { next = ...; ... }] *)
Fixpoint is_sorted_loop (fuel : nat) (st : list slot) (current : Z)
    (is_sorted_ : bool) : option bool :=
  if decide (current ≠ offset_type_npos ∧ is_sorted_ = true) then
    match fuel with
    | O => None
    | S fuel' =>
        next ← read_offset st current;
        is_sorted_loop fuel' st next (is_sorted_ && bool_decide (next > current))
    end
  else Some is_sorted_.

Definition is_sorted (a : inplace_free_list) : option bool :=
  is_sorted_loop (Z.to_nat Capacity) (storage_ a) (first_free_ a) true.

(** *** Pointers and checked access *)

(** [owns(data() + idx)] *)
Definition owns (ptr : Z) : bool := bool_decide (0 ≤ ptr < Capacity).

(** [as_index]: [assert_own(ptr); return ptr - data();] *)
Definition as_index (ptr : Z) : option Z :=
  if owns ptr then Some ptr else None.

(** [holds_value]: [!free_mask().test(as_index(ptr))] *)
Definition holds_value (a : inplace_free_list) (ptr : Z) : option bool :=
  idx ← as_index ptr;
  mask ← free_mask a;
  b ← bitset_test mask idx;
  Some (negb b).

(** [holds_value_at]: [assert_own(data() + idx); return !free_mask().test(idx);] *)
Definition holds_value_at (a : inplace_free_list) (idx : Z) : option bool :=
  _ ← as_index idx;
  mask ← free_mask a;
  b ← bitset_test mask idx;
  Some (negb b).

(** What [at] gives back: the pointer, or the [std::out_of_range] it throws. *)
Inductive access :=
| Found (ptr : Z)
| OutOfRange (what : string).

Definition at_ (a : inplace_free_list) (idx : Z) : option access :=
  let ptr := idx in
  if negb (owns ptr) then Some (OutOfRange "Index is out of range.")
  else
    held ← holds_value a ptr;
    if negb held then Some (OutOfRange "Index doesn't hold value.")
    else Some (Found ptr).

(** [*ptr] for a pointer an operation returned *)
Definition deref (a : inplace_free_list) (ptr : Z) : option T :=
  read_value (storage_ a) ptr.

(** *** Construction *)

(** [initialize_empty]: [size_ = {}; first_free_ = {};] then slot [k] gets
    the link [++i], and the last slot the sentinel.  The loop steps through
    the array by link records, which are the slots when a link record has the
    size of a [T] ([instantiable]).  Every slot is overwritten, so the result
    does not depend on what the arena held. *)
Definition initialize_empty : option inplace_free_list :=
  let links := (λ k, Free (to_offset (k + 1))) <$> seqZ 0 Capacity in
  st ← write_slot links (Capacity - 1) (Free offset_type_npos);
  Some {| storage_ := st; first_free_ := 0; size_ := 0 |}.

(** The array [initialize_empty] leaves behind, written in one piece. *)
Definition empty_storage : list slot :=
  <[Z.to_nat (Capacity - 1) := Free offset_type_npos]>
    ((λ k, Free (to_offset (k + 1))) <$> seqZ 0 Capacity).

(** [destroy_all]: destroys the value of every slot the mask does not mark
    free; the storage bytes stay as they are. *)
Definition destroy_all (a : inplace_free_list) : option unit :=
  mask ← free_mask a;
  _ ← mapM (λ i : Z, b ← bitset_test mask i;
                     if b : bool then Some tt
                     else (λ _, tt) <$> read_value (storage_ a) i)
           (seqZ 0 Capacity);
  Some tt.

(** [clear]: [destroy_all(); initialize_empty();] *)
Definition clear (a : inplace_free_list) : option inplace_free_list :=
  _ ← destroy_all a; initialize_empty.

(** [initialize_move]: the arena built from [other].  A trivially copy
    constructible [T] takes the array as it is; otherwise the links of the
    chain are copied along a walk of the chain and every other slot is move
    constructed from the value [other] holds there. *)
Definition initialize_move (trivially_copy_constructible : bool)
    (other : inplace_free_list) : option inplace_free_list :=
  if trivially_copy_constructible then
    Some {| storage_ := storage_ other; first_free_ := first_free_ other;
            size_ := size_ other |}
  else
    ch ← free_chain other;
    st ← mapM (λ i, if bool_decide (i ∈ ch)
                    then Free <$> read_offset (storage_ other) i
                    else Occupied <$> read_value (storage_ other) i)
              (seqZ 0 Capacity);
    Some {| storage_ := st; first_free_ := first_free_ other;
            size_ := size_ other |}.

(** [inplace_free_list(inplace_free_list&& other)]: the new arena and what
    is left in [other]. *)
Definition move_construct (trivially_copy_constructible : bool)
    (other : inplace_free_list) : option (inplace_free_list * inplace_free_list) :=
  this ← initialize_move trivially_copy_constructible other;
  other' ← initialize_empty;
  Some (this, other').

(** [operator=(inplace_free_list&& other)], with [other] another object than
    [*this]; [move_assign_self] below is the call on one object. *)
Definition move_assign (trivially_copy_constructible : bool)
    (this other : inplace_free_list) : option (inplace_free_list * inplace_free_list) :=
  _ ← destroy_all this;
  this' ← initialize_move trivially_copy_constructible other;
  other' ← initialize_empty;
  Some (this', other').

(** *** Allocation and release *)

(** What the constructor of [T] does with the arguments of [emplace]: it
    constructs a value, or it throws.  [std::construct_at] runs the
    constructor on the bytes of the slot, over the link that was there: when
    it throws no [T] lives in the slot, and [leftover] is what the bytes of the
    link hold then (the old link when the constructor threw before it wrote
    anything). *)
Inductive construction :=
| Constructs (v : T)
| CtorThrows (leftover : Z).

(** How [emplace] ends: the null pointer, the pointer to the new value, or
    the constructor's exception leaving [emplace]. *)
Inductive emplace_result :=
| Full
| Placed (out : Z)
| Raised.

(** [emplace]: a full arena returns the null pointer; otherwise [out] is the
    head of the chain, [first_free_] becomes the link read there, the
    constructor runs at [out], and [size_] is counted up.  There is no
    handler: when the constructor throws, [first_free_] has moved on and
    [size_] has not been counted. *)
Definition emplace (a : inplace_free_list) (c : construction)
    : option (inplace_free_list * emplace_result) :=
  if decide (first_free_ a = offset_type_npos) then Some (a, Full)
  else
    let out := first_free_ a in
    next ← read_offset (storage_ a) (first_free_ a);
    match c with
    | CtorThrows leftover =>
        st ← write_slot (storage_ a) out (Free (to_offset leftover));
        Some ({| storage_ := st; first_free_ := next; size_ := size_ a |},
              Raised)
    | Constructs v =>
        st ← write_slot (storage_ a) out (Occupied v);
        Some ({| storage_ := st; first_free_ := next;
                 size_ := to_size (size_ a + 1) |}, Placed out)
    end.

(** [insert(value)]: [emplace] with the copy (or move) of a value. *)
Definition insert (a : inplace_free_list) (v : T)
    : option (inplace_free_list * emplace_result) :=
  emplace a (Constructs v).

(** [erase]: [assert_holds_value(ptr)], destroy the value, construct the
    link to the old head in its place, make the slot the head. *)
Definition erase (a : inplace_free_list) (ptr : Z) : option inplace_free_list :=
  held ← holds_value a ptr;
  if held : bool then
    _ ← read_value (storage_ a) ptr;
    st ← write_slot (storage_ a) ptr (Free (first_free_ a));
    Some {| storage_ := st; first_free_ := to_offset ptr;
            size_ := to_size (size_ a - 1) |}
  else None.

(** *** Sorting the chain and compaction *)

(** The body of [sort]'s loop for the counters [idx] of the list, in order:
    [rev_idx = Capacity - idx - 1; if (mask.test(rev_idx)) { ... }]. *)
Fixpoint sort_loop (idxs : list Z) (st : list slot) (mask next_offset : Z)
    : option (list slot * Z) :=
  match idxs with
  | [] => Some (st, next_offset)
  | idx :: idxs' =>
      let rev_idx := to_offset (Capacity - idx - 1) in
      b ← bitset_test mask rev_idx;
      if b : bool then
        st' ← write_slot st rev_idx (Free next_offset);
        sort_loop idxs' st' mask rev_idx
      else sort_loop idxs' st mask next_offset
  end.

(** [sort]: the counter [idx] runs over [0 .. Capacity - 1] (it cannot wrap:
    [Capacity] is below the sentinel). *)
Definition sort (a : inplace_free_list) : option inplace_free_list :=
  mask ← free_mask a;
  '(st, next_offset) ← sort_loop (seqZ 0 Capacity) (storage_ a) mask offset_type_npos;
  Some {| storage_ := st; first_free_ := next_offset; size_ := size_ a |}.

(** The two cursors of [optimize_at] with the state its loop changes. *)
Record cursors := {
  c_storage : list slot;
  c_mask : Z;
  c_left : Z;
  c_right : Z;
  c_first_free : Z;
  c_calls : list (Z * Z)
}.

(** [while (left < right) { ... }] of [optimize_at]; [cb(right, left)] adds
    the pair to [c_calls]. *)
Fixpoint optimize_loop (fuel : nat) (c : cursors) : option cursors :=
  if decide (c_left c < c_right c) then
    match fuel with
    | O => None
    | S fuel' =>
        let left := c_left c in
        let right := c_right c in
        free_left ← bitset_test (c_mask c) left;
        if free_left : bool then
          free_right ← bitset_test (c_mask c) right;
          if free_right : bool then
            st ← write_slot (c_storage c) right (Free (to_offset (right + 1)));
            optimize_loop fuel'
              {| c_storage := st; c_mask := c_mask c; c_left := left;
                 c_right := to_offset (right - 1);
                 c_first_free := c_first_free c; c_calls := c_calls c |}
          else
            v ← read_value (c_storage c) right;
            st1 ← write_slot (c_storage c) left (Occupied v);
            st2 ← write_slot st1 right (Free (to_offset (right + 1)));
            mask1 ← bitset_reset (c_mask c) left;
            mask2 ← bitset_set mask1 right;
            optimize_loop fuel'
              {| c_storage := st2; c_mask := mask2; c_left := left;
                 c_right := right; c_first_free := right;
                 c_calls := c_calls c ++ [(right, left)] |}
        else
          optimize_loop fuel'
            {| c_storage := c_storage c; c_mask := c_mask c;
               c_left := to_offset (left + 1); c_right := right;
               c_first_free := c_first_free c; c_calls := c_calls c |}
    end
  else Some c.

(** [optimize_at]: the compacted arena and the calls of the callback.  Each
    turn of the loop moves a cursor or clears the mask bit under [left], so
    [2 * Capacity] turns are more than the loop can take. *)
Definition optimize_at (a : inplace_free_list)
    : option (inplace_free_list * list (Z * Z)) :=
  mask ← free_mask a;
  c ← optimize_loop (Z.to_nat (2 * Capacity))
        {| c_storage := storage_ a; c_mask := mask; c_left := 0;
           c_right := to_offset (Capacity - 1);
           c_first_free := first_free_ a; c_calls := [] |};
  let right := c_right c in
  free_right ← bitset_test (c_mask c) right;
  '(st, first_free) ←
    (if bool_decide (right >= 0) && free_right then
       st ← write_slot (c_storage c) right (Free (to_offset (right + 1)));
       Some (st, right)
     else Some (c_storage c, c_first_free c));
  free_last ← bitset_test (c_mask c) (Capacity - 1);
  st' ← (if free_last : bool then write_slot st (Capacity - 1) (Free offset_type_npos)
         else Some st);
  Some ({| storage_ := st'; first_free_ := first_free; size_ := size_ a |},
        c_calls c).

(** *** What an arena holds *)

Definition slot_value (s : slot) : option T :=
  match s with Occupied v => Some v | Free _ => None end.

(** The live values of a storage array, in slot order. *)
Definition values (st : list slot) : list T := omap slot_value st.

Definition live_values (a : inplace_free_list) : list T := values (storage_ a).

(** The slots that hold a value. *)
Definition occupied_indices (a : inplace_free_list) : list Z :=
  filter (λ i, is_Some (read_value (storage_ a) i)) (seqZ 0 Capacity).

(** An arena is compacted when its values fill the slots [0 .. size() - 1]. *)
Definition compacted (a : inplace_free_list) : Prop :=
  occupied_indices a = seqZ 0 (size a).

(** The state invariant: the array has [Capacity] slots, the chain from
    [first_free_] ends, visits no slot twice and visits every slot that holds
    a link, and [size_] counts the other slots. *)
Definition wf_arena (a : inplace_free_list) : Prop :=
  length (storage_ a) = Z.to_nat Capacity ∧
  match free_chain a with
  | Some ch =>
      NoDup ch ∧
      Forall (λ i, is_Some (read_offset (storage_ a) i) → i ∈ ch) (seqZ 0 Capacity) ∧
      size_ a = Capacity - Z.of_nat (length ch)
  | None => False
  end.

#[global] Instance wf_arena_dec a : Decision (wf_arena a).
Proof. unfold wf_arena. destruct (free_chain a); apply _. Defined.

(** The chain as a relation: [chain st i ch] when the links of [st] lead
    from [i] through the slots [ch], in order, to the sentinel. *)
Inductive chain (st : list slot) : Z → list Z → Prop :=
| chain_end : chain st offset_type_npos []
| chain_link i next ch :
    i ≠ offset_type_npos →
    0 ≤ i < Capacity →
    read_offset st i = Some next →
    chain st next ch →
    chain st i (i :: ch).

(** The mask [free_mask] builds along a chain. *)
Definition mask_of (out : Z) (ch : list Z) : Z :=
  foldl (λ m i, Z.setbit m i) out ch.

(** The loop invariant of [optimize_at] on the arena [a], whose free mask was
    [mask0]: below [left] every slot holds a value, above [right] every slot
    holds the link to its successor, the mask says which slots hold links,
    the values are those of [a], each call [(from, to)] of the callback stands
    for a value of [a] that went from [from] to [to], and the values the
    callback was not called for are where they were. *)
Record optimize_inv (a : inplace_free_list) (mask0 : Z) (c : cursors) : Prop := {
  inv_length : Z.of_nat (length (c_storage c)) = Capacity;
  inv_cursors : 0 ≤ c_left c ≤ c_right c ∧ c_right c < Capacity;
  inv_mask : ∀ j, 0 ≤ j < Capacity →
    Z.testbit (c_mask c) j = true ↔ is_Some (read_offset (c_storage c) j);
  inv_prefix : ∀ j, 0 ≤ j < c_left c → Z.testbit (c_mask c) j = false;
  inv_suffix : ∀ j, c_right c < j < Capacity →
    read_offset (c_storage c) j = Some (j + 1);
  inv_values : values (c_storage c) ≡ₚ values (storage_ a);
  inv_started :
    (c_right c = Capacity - 1 ∧ c_storage c = storage_ a ∧ c_mask c = mask0 ∧
     c_first_free c = first_free_ a ∧ c_calls c = []) ∨
    Z.testbit (c_mask c) (c_right c) = true ∨
    Z.testbit (c_mask c) (c_left c) = true;
  inv_from_once : NoDup (c_calls c).*1;
  inv_to_once : NoDup (c_calls c).*2;
  inv_calls : ∀ f t, (f, t) ∈ c_calls c →
    0 ≤ t ≤ c_left c ∧ t < f ∧ c_right c ≤ f < Capacity ∧
    Z.testbit (c_mask c) t = false ∧ Z.testbit (c_mask c) f = true ∧
    Z.testbit mask0 f = false ∧
    is_Some (read_value (storage_ a) f) ∧
    read_value (c_storage c) t = read_value (storage_ a) f;
  inv_kept : ∀ j, 0 ≤ j < Capacity → Z.testbit mask0 j = false →
    j ∉ (c_calls c).*1 →
    Z.testbit (c_mask c) j = false ∧
    read_value (c_storage c) j = read_value (storage_ a) j;
  inv_free : ∀ j, 0 ≤ j < Capacity → Z.testbit mask0 j = true →
    j ∉ (c_calls c).*2 → Z.testbit (c_mask c) j = true
}.

(** The turns the loop of [optimize_at] has left at most. *)
Definition optimize_measure (c : cursors) : Z :=
  2 * (c_right c - c_left c) + (if Z.testbit (c_mask c) (c_left c) then 1 else 0).

(** The constructions in which the constructor of [T] returns. *)
Definition constructs (c : construction) : Prop :=
  match c with
  | Constructs _ => True
  | CtorThrows _ => False
  end.

(** Sequences of allocations and releases.  An allocation comes with what the
    constructor of [T] does in it; the exception of a constructor that throws
    leaves [emplace], and the caller goes on with the arena as it is then. *)
Inductive arena_op :=
| OpEmplace (c : construction)
| OpErase (ptr : Z).

Definition arena_step (a : inplace_free_list) (op : arena_op)
    : option inplace_free_list :=
  match op with
  | OpEmplace c => fst <$> emplace a c
  | OpErase ptr => erase a ptr
  end.

(** The operations in which no constructor throws. *)
Definition op_constructs (op : arena_op) : Prop :=
  match op with
  | OpEmplace c => constructs c
  | OpErase _ => True
  end.

#[global] Instance constructs_dec c : Decision (constructs c).
Proof. destruct c; simpl; apply _. Defined.

#[global] Instance op_constructs_dec op : Decision (op_constructs op).
Proof. destruct op; simpl; apply _. Defined.

Fixpoint arena_run (a : inplace_free_list) (ops : list arena_op)
    : option inplace_free_list :=
  match ops with
  | [] => Some a
  | op :: ops' => a' ← arena_step a op; arena_run a' ops'
  end.
(** *** Copying and unchecked indexing *)

(** [data()]: the address of slot 0.  A pointer is the index of its slot. *)
Definition data : Z := 0.

(** [operator[](idx)]: [data() + idx], the assertion is commented out. *)
Definition subscript (idx : Z) : Z := data + idx.

(** [operator[](idx) const]: [assert_holds_value(data() + idx)] first. *)
Definition subscript_const (a : inplace_free_list) (idx : Z) : option Z :=
  let ptr := data + idx in
  held ← holds_value a ptr;
  if held : bool then Some ptr else None.

(** [initialize_copy]: as [initialize_move], with every value copy
    constructed from the value [other] holds in the same slot. *)
Definition initialize_copy (trivially_copy_constructible : bool)
    (other : inplace_free_list) : option inplace_free_list :=
  if trivially_copy_constructible then
    Some {| storage_ := storage_ other; first_free_ := first_free_ other;
            size_ := size_ other |}
  else
    ch ← free_chain other;
    st ← mapM (λ i, if bool_decide (i ∈ ch)
                    then Free <$> read_offset (storage_ other) i
                    else Occupied <$> read_value (storage_ other) i)
              (seqZ 0 Capacity);
    Some {| storage_ := st; first_free_ := first_free_ other;
            size_ := size_ other |}.

(** [inplace_free_list(const inplace_free_list& other)] *)
Definition copy_construct (trivially_copy_constructible : bool)
    (other : inplace_free_list) : option inplace_free_list :=
  initialize_copy trivially_copy_constructible other.

(** [operator=(const inplace_free_list& other)], with [other] another object
    than [*this]. *)
Definition copy_assign (trivially_copy_constructible : bool)
    (this other : inplace_free_list) : option inplace_free_list :=
  _ ← destroy_all this;
  initialize_copy trivially_copy_constructible other.

(** [initialize_copy] and [initialize_move] of the object itself, as the
    assignment operators reach them when [other] is [*this]: neither operator
    compares [&other] with [this], and [destroy_all()] has ended the lifetime
    of every value by then.  A trivially copy constructible [T] assigns the
    array to itself.  For any other [T] each link of the chain is constructed
    from itself, and each other slot from the value that was destroyed in
    that very slot, which has no result. *)
Definition initialize_from_self (trivially_copy_constructible : bool)
    (this : inplace_free_list) : option inplace_free_list :=
  if trivially_copy_constructible then
    Some {| storage_ := storage_ this; first_free_ := first_free_ this;
            size_ := size_ this |}
  else
    ch ← free_chain this;
    st ← mapM (λ i, if bool_decide (i ∈ ch)
                    then Free <$> read_offset (storage_ this) i
                    else None)
              (seqZ 0 Capacity);
    Some {| storage_ := st; first_free_ := first_free_ this;
            size_ := size_ this |}.

(** [a = a]: [destroy_all()] and [initialize_copy] on the one object. *)
Definition copy_assign_self (trivially_copy_constructible : bool)
    (this : inplace_free_list) : option inplace_free_list :=
  _ ← destroy_all this;
  initialize_from_self trivially_copy_constructible this.

(** [a = std::move(a)]: [destroy_all()] and [initialize_move] on the one
    object, and then [other.initialize_empty()], which empties it. *)
Definition move_assign_self (trivially_copy_constructible : bool)
    (this : inplace_free_list) : option inplace_free_list :=
  _ ← destroy_all this;
  _ ← initialize_from_self trivially_copy_constructible this;
  initialize_empty.

(** Calls of the members that change an arena, and runs of such calls.  A
    call of [emplace] comes with what the constructor of [T] does in it. *)
Inductive arena_call :=
| CallEmplace (c : construction)
| CallErase (ptr : Z)
| CallSort
| CallOptimizeAt
| CallClear.

Definition arena_apply (a : inplace_free_list) (call : arena_call)
    : option inplace_free_list :=
  match call with
  | CallEmplace c => fst <$> emplace a c
  | CallErase ptr => erase a ptr
  | CallSort => sort a
  | CallOptimizeAt => fst <$> optimize_at a
  | CallClear => clear a
  end.

(** The calls in which no constructor throws. *)
Definition call_constructs (call : arena_call) : Prop :=
  match call with
  | CallEmplace c => constructs c
  | _ => True
  end.

#[global] Instance call_constructs_dec call : Decision (call_constructs call).
Proof. destruct call; simpl; apply _. Defined.

Fixpoint arena_calls (a : inplace_free_list) (calls : list arena_call)
    : option inplace_free_list :=
  match calls with
  | [] => Some a
  | call :: calls' => a' ← arena_apply a call; arena_calls a' calls'
  end.

(** Insertions one after the other, as the fill loops of the callers make
    them; the results come back in call order. *)
Fixpoint emplace_all (a : inplace_free_list) (vs : list T)
    : option (inplace_free_list * list emplace_result) :=
  match vs with
  | [] => Some (a, [])
  | v :: vs' =>
      '(a1, r) ← emplace a (Constructs v);
      '(a2, rs) ← emplace_all a1 vs';
      Some (a2, r :: rs)
  end.
End arena.

Arguments slot : clear implicits.
Arguments inplace_free_list : clear implicits.
Arguments construction : clear implicits.
Arguments arena_op : clear implicits.
Arguments arena_call : clear implicits.
Arguments cursors : clear implicits.
End Arena.

(** ** The chunked pool: [fox::free_list] *)

Module Pool.
Section pool.
Import Arena.
Context {T : Type} {p : arena_params}.

(** A pool is its member [chunks_], the chunks in order; each chunk is an
    [inplace_free_list<T, ChunkCapacity>] and [ChunkCapacity] is [Capacity]. *)
Abbreviation chunk_type := (inplace_free_list T).
Abbreviation free_list := (list (inplace_free_list T)).

(** [chunks_[i]]: no bounds check in [ptr_vector::operator[]]. *)
Definition chunk_at (chunks_ : free_list) (i : Z) : option chunk_type :=
  if decide (0 ≤ i) then chunks_ !! Z.to_nat i else None.

Definition set_chunk (chunks_ : free_list) (i : Z) (c : chunk_type) : free_list :=
  <[Z.to_nat i := c]> chunks_.

(** [chunks_.pop_back()] *)
Definition pop_back (chunks_ : free_list) : free_list :=
  take (length chunks_ - 1)%nat chunks_.

Definition chunk_capacity : Z := Capacity.

Definition capacity (chunks_ : free_list) : Z :=
  to_size (Z.of_nat (length chunks_) * chunk_capacity).

Definition size (chunks_ : free_list) : Z :=
  foldl (λ out c, to_size (out + Arena.size c)) 0 chunks_.

Definition empty (chunks_ : free_list) : bool := bool_decide (size chunks_ = 0).

(** [pack_index]: [(size_type(chunk) << 16) | size_type(position)] *)
Definition pack_index (chunk position : Z) : Z :=
  Z.lor (to_size (Z.shiftl chunk 16)) position.

Definition unpack_index (index : Z) : Z * Z :=
  let position := to_u16 (Z.land index 65535) in
  let chunk := to_u16 (Z.land (Z.shiftr index 16) 65535) in
  (chunk, position).

(** [emplace]: the first chunk that is not full, or a new chunk at the back,
    takes the value.  The pointer returned is the chunk position with the
    arena's result. *)
Definition emplace (chunks_ : free_list) (c : construction T)
    : option (free_list * (Z * emplace_result)) :=
  '(chunks1, k) ←
    match list_find (λ v, full v = false) chunks_ with
    | Some (k, _) => Some (chunks_, k)
    | None => fresh ← initialize_empty; Some (chunks_ ++ [fresh], length chunks_)
    end;
  chunk ← chunks1 !! k;
  '(chunk', r) ← Arena.emplace chunk c;
  Some (<[k := chunk']> chunks1, (Z.of_nat k, r)).

(** [owning_chunk(ptr)]: the chunk whose storage contains the address;
    [assert(chunk != nullptr)]. *)
Definition owning_chunk (chunks_ : free_list) (ptr : Z * Z) : option Z :=
  _ ← chunk_at chunks_ ptr.1;
  if owns ptr.2 then Some ptr.1 else None.

(** [erase]: release in the owning chunk; when that chunk is now empty and
    is the last one, [chunks_.pop_back()]. *)
Definition erase (chunks_ : free_list) (ptr : Z * Z) : option free_list :=
  k ← owning_chunk chunks_ ptr;
  chunk ← chunk_at chunks_ k;
  chunk' ← Arena.erase chunk ptr.2;
  let chunks1 := set_chunk chunks_ k chunk' in
  if Arena.empty chunk' && bool_decide (k = Z.of_nat (length chunks1) - 1)
  then Some (pop_back chunks1)
  else Some chunks1.

(** [as_index(ptr)] *)
Definition as_index (chunks_ : free_list) (ptr : Z * Z) : option Z :=
  k ← owning_chunk chunks_ ptr;
  index ← Arena.as_index ptr.2;
  Some (pack_index (to_u16 k) (to_u16 index)).

(** [at(idx)]: [std::data(chunks_)[chunk]->at(index)], the pointer tagged
    with the chunk position. *)
Definition at_ (chunks_ : free_list) (idx : Z) : option (Z * access) :=
  let '(chunk, index) := unpack_index idx in
  chunk_ptr ← chunk_at chunks_ chunk;
  r ← Arena.at_ chunk_ptr index;
  Some (chunk, r).

(** [shrink]: [while (chunks_.back().empty()) chunks_.pop_back();] read on
    the reversed chunk list; [back()] of an empty collection has no result. *)
Fixpoint shrink_rev (rev_chunks : free_list) : option free_list :=
  match rev_chunks with
  | [] => None
  | c :: rest => if Arena.empty c then shrink_rev rest else Some rev_chunks
  end.

Definition shrink (chunks_ : free_list) : option free_list :=
  reverse <$> shrink_rev (reverse chunks_).

(** [sort]: every chunk is sorted. *)
Definition sort (chunks_ : free_list) : option free_list :=
  mapM Arena.sort chunks_.

(** The [for] loop of [optimize_at] that drains [chunk_j] into [chunk_i],
    for the counters [idx] of the list. *)
Fixpoint drain_loop (idxs : list Z) (chunks_ : free_list) (chunk_i chunk_j : Z)
    (calls : list (Z * Z)) : option (free_list * list (Z * Z)) :=
  match idxs with
  | [] => Some (chunks_, calls)
  | idx :: idxs' =>
      let rev_idx := to_u16 (Capacity - idx - 1) in
      cj ← chunk_at chunks_ chunk_j;
      held ← holds_value_at cj rev_idx;
      not_full ← (if held : bool
                  then ci ← chunk_at chunks_ chunk_i; Some (negb (full ci))
                  else Some false);
      if not_full : bool then
        src ← Arena.at_ cj rev_idx;
        match src with
        | OutOfRange _ => None
        | Found source =>
            v ← deref cj source;
            let packed_from := pack_index chunk_j rev_idx in
            ci ← chunk_at chunks_ chunk_i;
            '(ci', r) ← Arena.emplace ci (Constructs v);
            match r with
            | Placed dest =>
                dest_idx ← Arena.as_index dest;
                let packed_to := pack_index chunk_i (to_u16 dest_idx) in
                let chunks1 := set_chunk chunks_ chunk_i ci' in
                cj1 ← chunk_at chunks1 chunk_j;
                cj' ← Arena.erase cj1 source;
                drain_loop idxs' (set_chunk chunks1 chunk_j cj') chunk_i chunk_j
                  (calls ++ [(packed_from, packed_to)])
            | _ => None
            end
        end
      else drain_loop idxs' chunks_ chunk_i chunk_j calls
  end.

(** [while (chunk_i <= chunk_j && chunk_j > 0) { ... }] of [optimize_at]. *)
Fixpoint optimize_loop (fuel : nat) (chunks_ : free_list) (chunk_i chunk_j : Z)
    (calls : list (Z * Z)) : option (free_list * list (Z * Z)) :=
  if decide (chunk_i ≤ chunk_j ∧ chunk_j > 0) then
    match fuel with
    | O => None
    | S fuel' =>
        ci ← chunk_at chunks_ chunk_i;
        if decide (Arena.size ci = Capacity) then
          optimize_loop fuel' chunks_ (to_u16 (chunk_i + 1)) chunk_j calls
        else
          sorted ← Arena.sort ci;
          let chunks1 := set_chunk chunks_ chunk_i sorted in
          if decide (chunk_i = chunk_j) then
            '(compacted, moved) ← Arena.optimize_at sorted;
            Some (set_chunk chunks1 chunk_i compacted,
                  calls ++ ((λ ft, (pack_index chunk_i (to_u16 ft.1),
                                    pack_index chunk_i (to_u16 ft.2))) <$> moved))
          else
            '(chunks2, calls2) ←
              drain_loop (seqZ 0 Capacity) chunks1 chunk_i chunk_j calls;
            ci2 ← chunk_at chunks2 chunk_i;
            let chunk_i' := if full ci2 then to_u16 (chunk_i + 1) else chunk_i in
            cj2 ← chunk_at chunks2 chunk_j;
            let chunk_j' := if Arena.empty cj2 then to_u16 (chunk_j - 1)
                            else chunk_j in
            optimize_loop fuel' chunks2 chunk_i' chunk_j' calls2
    end
  else Some (chunks_, calls).

(** [optimize_at]: the loop, then [shrink()].  A turn of the loop on a
    well-formed pool advances [chunk_i], retreats [chunk_j] or leaves the
    loop, so twice the chunk count bounds its turns. *)
Definition optimize_at (chunks_ : free_list) : option (free_list * list (Z * Z)) :=
  '(chunks1, calls) ←
    optimize_loop (2 * length chunks_ + 1) chunks_ 0
      (to_u16 (to_size (Z.of_nat (length chunks_) - 1))) [];
  chunks2 ← shrink chunks1;
  Some (chunks2, calls).

(** The live values of a pool, chunk by chunk. *)
Definition live_values (chunks_ : free_list) : list T :=
  concat (Arena.live_values <$> chunks_).

(** [static_assert(ChunkCapacity < 65535)] and [assert(size(chunks_) < 65535)]
    of [pack_index], with the invariant of every chunk. *)
Definition wf_pool (chunks_ : free_list) : Prop :=
  Capacity < 65535 ∧ Z.of_nat (length chunks_) < 65535 ∧ Forall wf_arena chunks_.

#[global] Instance wf_pool_dec chunks_ : Decision (wf_pool chunks_).
Proof. unfold wf_pool. apply _. Defined.

(** The loop invariant of the pool's [optimize_at] on the chunks [chunks0]:
    the chunks below [chunk_i] are full, the chunks above [chunk_j] are empty,
    and the values are those of [chunks0]. *)
Record optimize_inv (chunks0 chunks_ : free_list) (chunk_i chunk_j : Z) : Prop := {
  inv_chunks : length chunks_ = length chunks0;
  inv_wf : Forall wf_arena chunks_;
  inv_cursors : 0 ≤ chunk_i ≤ chunk_j + 1 ∧ 0 ≤ chunk_j < Z.of_nat (length chunks_);
  inv_full : ∀ m c, 0 ≤ m < chunk_i → chunk_at chunks_ m = Some c →
    size_ c = Capacity;
  inv_empty : ∀ m c, chunk_j < m → chunk_at chunks_ m = Some c → size_ c = 0;
  inv_values : live_values chunks_ ≡ₚ live_values chunks0
}.

(** How the loop of [optimize_at] ends: the cursors crossed, or [chunk_j]
    reached the first chunk, or they met on a later chunk, which was then
    compacted. *)
Definition optimize_exit (chunks_ : free_list) (chunk_i chunk_j : Z) : Prop :=
  chunk_i = chunk_j + 1 ∨
  (chunk_i = 0 ∧ chunk_j = 0) ∨
  (chunk_i = chunk_j ∧ 1 ≤ chunk_j ∧
   ∃ c, chunk_at chunks_ chunk_i = Some c ∧ compacted c).

(** Sequences of insertions and erasures on a pool; an insertion comes with
    what the constructor of [T] does in it. *)
Inductive pool_op :=
| OpEmplace (c : construction T)
| OpErase (ptr : Z * Z).

Definition pool_step (chunks_ : free_list) (op : pool_op) : option free_list :=
  match op with
  | OpEmplace c => fst <$> emplace chunks_ c
  | OpErase ptr => erase chunks_ ptr
  end.

Fixpoint pool_run (chunks_ : free_list) (ops : list pool_op) : option free_list :=
  match ops with
  | [] => Some chunks_
  | op :: ops' => chunks' ← pool_step chunks_ op; pool_run chunks' ops'
  end.
(** *** The other members of the pool *)

(** [clear]: [chunks_.clear()] *)
Definition clear (chunks_ : free_list) : free_list := [].

(** [insert(value)]: [emplace] with the copy (or move) of a value. *)
Definition insert (chunks_ : free_list) (v : T)
    : option (free_list * (Z * emplace_result)) :=
  emplace chunks_ (Constructs v).

(** [is_sorted]: the chunks in order, up to the first one that is not
    sorted. *)
Fixpoint is_sorted (chunks_ : free_list) : option bool :=
  match chunks_ with
  | [] => Some true
  | chunk :: rest =>
      b ← Arena.is_sorted chunk;
      if b : bool then is_sorted rest else Some false
  end.

(** [first_free_index]: [(size_type(distance) << 16) | size_type(position)]
    for the first chunk that is not full, with the head of its chain as the
    16-bit [position]; the largest [size_type] when there is none. *)
Definition first_free_index (chunks_ : free_list) : Z :=
  match list_find (λ v, full v = false) chunks_ with
  | Some (k, r) =>
      let position := to_u16 (first_free_offset r) in
      Z.lor (to_size (Z.shiftl (Z.of_nat k) 16)) position
  | None => 2 ^ 64 - 1
  end.

(** [owning_chunk_no_assert(ptr)]: the position of the chunk whose storage
    contains the address, [None] for the null pointer. *)
Definition owning_chunk_no_assert (chunks_ : free_list) (ptr : Z * Z) : option Z :=
  _ ← chunk_at chunks_ ptr.1;
  if Arena.owns ptr.2 then Some ptr.1 else None.

(** [owns(ptr)] *)
Definition owns (chunks_ : free_list) (ptr : Z * Z) : bool :=
  bool_decide (is_Some (owning_chunk_no_assert chunks_ ptr)).

(** [holds_value(ptr)]: [owning_chunk(ptr)->holds_value(ptr)] *)
Definition holds_value (chunks_ : free_list) (ptr : Z * Z) : option bool :=
  k ← owning_chunk chunks_ ptr;
  chunk ← chunk_at chunks_ k;
  Arena.holds_value chunk ptr.2.

(** [holds_value_at(idx)]: [assert(chunk < std::size(chunks_))], then the
    chunk's own [holds_value_at]. *)
Definition holds_value_at (chunks_ : free_list) (idx : Z) : option bool :=
  let '(chunk, index) := unpack_index idx in
  if decide (chunk < Z.of_nat (length chunks_)) then
    chunk_ptr ← chunk_at chunks_ chunk;
    Arena.holds_value_at chunk_ptr index
  else None.

(** [operator[](idx)]: [std::data(chunks_)[chunk]->operator[](index)] *)
Definition subscript (chunks_ : free_list) (idx : Z) : option (Z * Z) :=
  let '(chunk, index) := unpack_index idx in
  _ ← chunk_at chunks_ chunk;
  Some (chunk, Arena.subscript index).

(** The value a packed index names: the value in its slot of its chunk, when
    the chunk is there and the slot holds one. *)
Definition value_at (chunks_ : free_list) (idx : Z) : option T :=
  let '(chunk, index) := unpack_index idx in
  c ← chunk_at chunks_ chunk;
  deref c index.

(** What the holder of packed indices does on a call [cb(from, to)] of the
    relocation callback: the value known at [from] is known at [to] from now
    on, and no longer at [from]. *)
Definition relocate (known : Z → option T) (ft : Z * Z) : Z → option T :=
  λ idx, if decide (idx = ft.2) then known ft.1
         else if decide (idx = ft.1) then None
         else known idx.

(** The calls of the callback, followed in call order. *)
Definition replay (calls : list (Z * Z)) (known : Z → option T) : Z → option T :=
  foldl relocate known calls.

(** A pool that was filled in order up to chunk [q], slot [r]: the chunks
    before [q] are full, and chunk [q], present when [r] is not 0, has the
    slots from [r] on as its free chain. *)
Definition filled_to (chunks_ : free_list) (q r : Z) : Prop :=
  Forall wf_arena chunks_ ∧ 0 ≤ q ∧ 0 ≤ r < Capacity ∧
  Z.of_nat (length chunks_) = (if decide (r = 0) then q else q + 1) ∧
  (∀ (m : nat) c, Z.of_nat m < q → chunks_ !! m = Some c → full c = true) ∧
  (r ≠ 0 → ∃ c, chunks_ !! Z.to_nat q = Some c ∧
                free_chain c = Some (seqZ r (Capacity - r))).

(** Insertions one after the other; the pointers come back in call order. *)
Fixpoint emplace_all (chunks_ : free_list) (vs : list T)
    : option (free_list * list (Z * emplace_result)) :=
  match vs with
  | [] => Some (chunks_, [])
  | v :: vs' =>
      '(chunks1, r) ← emplace chunks_ (Constructs v);
      '(chunks2, rs) ← emplace_all chunks1 vs';
      Some (chunks2, r :: rs)
  end.
End pool.

Arguments pool_op : clear implicits.
End Pool.

(** ** The vector of owned objects: [fox::ptr_vector] *)

Module PtrVector.
Section construction.
Context {T : Type}.

(** What the constructor of [T] does in the block it is given. *)
Inductive construction :=
| Constructs (v : T)
| CtorThrows.
End construction.

Arguments construction : clear implicits.

Section ptr_vector.
Context {T : Type}.

(** A block of the allocator: storage for one [T], raw or holding an
    object. *)
Inductive block :=
| Raw
| Object (v : T).

(** A vector is its member [storage_], the [std::vector<T*>] of its
    elements' addresses ([None] is the null pointer), together with the
    blocks its allocator has handed out and not taken back. *)
Record ptr_vector := {
  storage_ : list (option positive);
  memory_ : gmap positive block
}.

(** How a call ends: it returns, or an exception leaves it. *)
Inductive outcome (A : Type) :=
| Returns (a : A)
| Throws.
#[global] Arguments Returns {A} a.
#[global] Arguments Throws {A}.

(** [get_allocator().allocate(1)]: a block no live allocation has. *)
Definition allocate (m : gmap positive block) : positive * gmap positive block :=
  let p := fresh (dom m) in (p, <[p := Raw]> m).

(** [get_allocator().deallocate(ptr, 1)]: [ptr] is a block of the
    allocator. *)
Definition deallocate (m : gmap positive block) (ptr : option positive)
    : option (gmap positive block) :=
  p ← ptr; _ ← m !! p; Some (delete p m).

(** [std::construct_at(ptr, value)] on raw storage, the constructor
    returning. *)
Definition construct_at (m : gmap positive block) (p : positive) (v : T)
    : option (gmap positive block) :=
  match m !! p with
  | Some Raw => Some (<[p := Object v]> m)
  | _ => None
  end.

(** [std::destroy_at(ptr)]: [ptr] points at an object. *)
Definition destroy_at (m : gmap positive block) (ptr : option positive)
    : option (gmap positive block) :=
  p ← ptr;
  match m !! p with
  | Some (Object _) => Some (<[p := Raw]> m)
  | _ => None
  end.

(** [*ptr] *)
Definition deref (m : gmap positive block) (ptr : option positive) : option T :=
  p ← ptr;
  match m !! p with
  | Some (Object v) => Some v
  | _ => None
  end.

(** [_construct_object(args...)]: the new object's address; when the
    constructor throws, the block goes back before the exception leaves. *)
Definition _construct_object (m : gmap positive block) (c : construction T)
    : option (gmap positive block * outcome positive) :=
  let '(last_allocation, m1) := allocate m in
  match c with
  | Constructs v =>
      m2 ← construct_at m1 last_allocation v; Some (m2, Returns last_allocation)
  | CtorThrows =>
      m2 ← deallocate m1 (Some last_allocation); Some (m2, Throws)
  end.

(** [_destroy_all()]: [for (auto e : storage_) { destroy_at(e);
    deallocate(e, 1); }] *)
Fixpoint destroy_each (ptrs : list (option positive)) (m : gmap positive block)
    : option (gmap positive block) :=
  match ptrs with
  | [] => Some m
  | e :: ptrs' =>
      m1 ← destroy_at m e; m2 ← deallocate m1 e; destroy_each ptrs' m2
  end.

Definition _destroy_all (pv : ptr_vector) : option (gmap positive block) :=
  destroy_each (storage_ pv) (memory_ pv).

Definition size (pv : ptr_vector) : nat := length (storage_ pv).

Definition empty (pv : ptr_vector) : bool := bool_decide (storage_ pv = []).

(** [operator[](pos)]: [*storage_[pos]], no bounds check. *)
Definition subscript (pv : ptr_vector) (pos : nat) : option T :=
  ptr ← storage_ pv !! pos; deref (memory_ pv) ptr.

(** [at(pos)]: [*storage_.at(pos)], which throws [std::out_of_range]. *)
Definition at_ (pv : ptr_vector) (pos : nat) : option (outcome T) :=
  match storage_ pv !! pos with
  | Some ptr => Returns <$> deref (memory_ pv) ptr
  | None => Some Throws
  end.

(** [front()], [back()] *)
Definition front (pv : ptr_vector) : option T :=
  ptr ← head (storage_ pv); deref (memory_ pv) ptr.

Definition back (pv : ptr_vector) : option T :=
  ptr ← last (storage_ pv); deref (memory_ pv) ptr.

(** [clear()]: [_destroy_all(); storage_.clear();] *)
Definition clear (pv : ptr_vector) : option ptr_vector :=
  m ← _destroy_all pv; Some {| storage_ := []; memory_ := m |}.

(** [emplace_back(args...)]: the address of the new element, [&*out]. *)
Definition emplace_back (pv : ptr_vector) (c : construction T)
    : option (ptr_vector * outcome positive) :=
  '(m, r) ← _construct_object (memory_ pv) c;
  match r with
  | Returns ptr =>
      Some ({| storage_ := storage_ pv ++ [Some ptr]; memory_ := m |}, Returns ptr)
  | Throws => Some ({| storage_ := storage_ pv; memory_ := m |}, Throws)
  end.

(** [pop_back()] *)
Definition pop_back (pv : ptr_vector) : option ptr_vector :=
  ptr ← last (storage_ pv);
  let st := take (length (storage_ pv) - 1)%nat (storage_ pv) in
  m1 ← destroy_at (memory_ pv) ptr;
  m2 ← deallocate m1 ptr;
  Some {| storage_ := st; memory_ := m2 |}.

(** An iterator is the position of its [base()] in [storage_]; [begin()] is
    0 and [end()] is [size()].

    [emplace(pos, args...)]: the iterator to the new element. *)
Definition emplace (pv : ptr_vector) (pos : nat) (c : construction T)
    : option (ptr_vector * outcome nat) :=
  '(m, r) ← _construct_object (memory_ pv) c;
  match r with
  | Returns ptr =>
      if decide (pos ≤ length (storage_ pv))%nat then
        Some ({| storage_ := take pos (storage_ pv) ++ Some ptr :: drop pos (storage_ pv);
                 memory_ := m |}, Returns pos)
      else None
  | Throws => Some ({| storage_ := storage_ pv; memory_ := m |}, Throws)
  end.

(** [erase(pos)]: the pointer is taken out of [storage_] and its object
    destroyed; the iterator returned follows the element. *)
Definition erase (pv : ptr_vector) (pos : nat) : option (ptr_vector * nat) :=
  ptr ← storage_ pv !! pos;
  let st := delete pos (storage_ pv) in
  m ← destroy_at (memory_ pv) ptr;
  Some ({| storage_ := st; memory_ := m |}, pos).

(** [erase(first, last)]: every element of the range is destroyed and its
    block given back, then the pointers leave [storage_].  The loop
    [for (it = first; it != last; ++it)] meets [last] only from below. *)
Definition erase_range (pv : ptr_vector) (first last : nat)
    : option (ptr_vector * nat) :=
  if decide (first ≤ last ≤ length (storage_ pv))%nat then
    m ← destroy_each (take (last - first) (drop first (storage_ pv))) (memory_ pv);
    Some ({| storage_ := take first (storage_ pv) ++ drop last (storage_ pv);
             memory_ := m |}, first)
  else None.

(** [_undo_partial_construction(storage_begin, storage_end)]:
    a [for] loop on [storage_begin != storage_end] whose body destroys the
    object [storage_begin] points at and gives its block back; the iterator
    is never advanced.
    Positions are integers here: [storage_end] can lie one before the
    range. *)
Fixpoint _undo_partial_construction (fuel : nat) (st : list (option positive))
    (m : gmap positive block) (storage_begin storage_end : Z)
    : option (gmap positive block) :=
  if decide (storage_begin = storage_end) then Some m
  else
    match fuel with
    | O => None
    | S fuel' =>
        ptr ← (if decide (0 ≤ storage_begin) then st !! Z.to_nat storage_begin
               else None);
        m1 ← destroy_at m ptr;
        m2 ← deallocate m1 ptr;
        _undo_partial_construction fuel' st m2 storage_begin storage_end
    end.

(** The loop of [_construct_splat(storage_begin, storage_end, value)] from
    position [k] for [n] more elements; [copy i] is what the copy
    constructor of [T] does at its [i]-th call for this range.  When it
    throws, the last block goes back and
    [_undo_partial_construction(original_begin, storage_begin - 1)] runs. *)
Fixpoint construct_splat_loop (n : nat) (st : list (option positive))
    (m : gmap positive block) (original_begin k : nat)
    (copy : nat → construction T)
    : option ((list (option positive) * gmap positive block) * outcome unit) :=
  match n with
  | O => Some ((st, m), Returns tt)
  | S n' =>
      let '(last_allocation, m1) := allocate m in
      match copy (k - original_begin)%nat with
      | Constructs v =>
          m2 ← construct_at m1 last_allocation v;
          if decide (k < length st)%nat then
            construct_splat_loop n' (<[k := Some last_allocation]> st) m2
              original_begin (S k) copy
          else None
      | CtorThrows =>
          m2 ← deallocate m1 (Some last_allocation);
          m3 ← _undo_partial_construction 2 st m2
                 (Z.of_nat original_begin) (Z.of_nat k - 1);
          Some ((st, m3), Throws)
      end
  end.

Definition _construct_splat (st : list (option positive))
    (m : gmap positive block) (storage_begin storage_end : nat)
    (copy : nat → construction T)
    : option ((list (option positive) * gmap positive block) * outcome unit) :=
  if decide (storage_begin ≤ storage_end)%nat then
    construct_splat_loop (storage_end - storage_begin) st m storage_begin
      storage_begin copy
  else None.

(** [insert(pos, count, value)]: [count] null pointers go into [storage_]
    and are then filled; when filling throws, the [count] entries are taken
    out again and the exception leaves. *)
Definition insert_count (pv : ptr_vector) (pos count : nat)
    (copy : nat → construction T) : option (ptr_vector * outcome nat) :=
  if decide (pos ≤ length (storage_ pv))%nat then
    let original_pos := pos in
    let st := take pos (storage_ pv) ++ replicate count None
              ++ drop pos (storage_ pv) in
    '((st1, m1), r) ← _construct_splat st (memory_ pv) original_pos
                         (original_pos + count) copy;
    match r with
    | Returns _ => Some ({| storage_ := st1; memory_ := m1 |}, Returns original_pos)
    | Throws =>
        Some ({| storage_ := take original_pos st1
                             ++ drop (original_pos + count) st1;
                 memory_ := m1 |}, Throws)
    end
  else None.

(** [resize(count, value)] *)
Definition resize (pv : ptr_vector) (count : nat) (copy : nat → construction T)
    : option (ptr_vector * outcome unit) :=
  pv1 ← (if decide (count = 0)%nat then clear pv else Some pv);
  if decide (count < length (storage_ pv1))%nat then
    '(pv2, _) ← erase_range pv1 (length (storage_ pv1) - count - 1)
                  (length (storage_ pv1));
    Some (pv2, Returns tt)
  else if decide (length (storage_ pv1) < count)%nat then
    '(pv2, r) ← insert_count pv1 (length (storage_ pv1))
                  (count - length (storage_ pv1)) copy;
    Some (pv2, match r with Returns _ => Returns tt | Throws => Throws end)
  else Some (pv1, Returns tt).

(** The elements in order. *)
Definition contents (pv : ptr_vector) : option (list T) :=
  mapM (deref (memory_ pv)) (storage_ pv).

(** The vector owns its blocks: every entry of [storage_] points at an
    object, no two at the same one, and the allocator has no other block
    out. *)
Definition wf_ptr_vector (pv : ptr_vector) : Prop :=
  NoDup (storage_ pv) ∧
  Forall (λ ptr, is_Some (deref (memory_ pv) ptr)) (storage_ pv) ∧
  dom (memory_ pv) = list_to_set (omap id (storage_ pv)).

#[global] Instance wf_ptr_vector_dec pv : Decision (wf_ptr_vector pv).
Proof. unfold wf_ptr_vector. apply _. Defined.

(** The entries [st] with the blocks [m] hold the values [vs], each in a
    block of its own, and [m] has no other block. *)
Definition owned (st : list (option positive)) (m : gmap positive block)
    (vs : list T) : Prop :=
  NoDup st ∧ Forall2 (λ ptr v, deref m ptr = Some v) st vs ∧
  ∀ q : positive, is_Some (m !! q) ↔ Some q ∈ st.

(** The blocks no entry of [storage_] points at. *)
Definition leaked (pv : ptr_vector) : gset positive :=
  dom (memory_ pv) ∖ list_to_set (omap id (storage_ pv)).

(** Calls of the members that change a vector, and runs of such calls. *)
Inductive vector_call :=
| CallEmplaceBack (c : construction T)
| CallPopBack
| CallClear
| CallEmplace (pos : nat) (c : construction T)
| CallEraseRange (first last : nat)
| CallResize (count : nat) (v : T).

Definition vector_apply (pv : ptr_vector) (call : vector_call)
    : option ptr_vector :=
  match call with
  | CallEmplaceBack c => fst <$> emplace_back pv c
  | CallPopBack => pop_back pv
  | CallClear => clear pv
  | CallEmplace pos c => fst <$> emplace pv pos c
  | CallEraseRange first last => fst <$> erase_range pv first last
  | CallResize count v => fst <$> resize pv count (λ _, Constructs v)
  end.

Fixpoint vector_calls (pv : ptr_vector) (calls : list vector_call)
    : option ptr_vector :=
  match calls with
  | [] => Some pv
  | call :: calls' => pv' ← vector_apply pv call; vector_calls pv' calls'
  end.

(** [ptr_vector()]: no element, no block. *)
Definition new : ptr_vector := {| storage_ := []; memory_ := ∅ |}.
End ptr_vector.

Arguments block : clear implicits.
Arguments ptr_vector : clear implicits.
Arguments vector_call : clear implicits.
End PtrVector.

(** ** Instantiations used in the examples *)

(** [inplace_free_list<std::int32_t, 4>] *)
Definition int32_4 : arena_params := {| Capacity := 4; sizeof_T := 4 |}.

(** [free_list<std::int32_t, 2>] *)
Definition int32_2 : arena_params := {| Capacity := 2; sizeof_T := 4 |}.

(** * Properties *)

Import Arena.

(** ** Integer casts *)

Section casts.
Context {p : arena_params}.

Lemma offset_bits_cases : offset_bits = 8 ∨ offset_bits = 16.
Proof. unfold offset_bits. destruct (sizeof_T =? 1); auto. Qed.

Lemma npos_cases : offset_type_npos = 255 ∨ offset_type_npos = 65535.
Proof.
  unfold offset_type_npos. destruct offset_bits_cases as [-> | ->]; auto.
Qed.

Lemma to_offset_small x : 0 ≤ x ≤ offset_type_npos → to_offset x = x.
Proof.
  unfold to_offset, offset_type_npos.
  destruct offset_bits_cases as [-> | ->]; intros; apply Z.mod_small; lia.
Qed.

Lemma to_size_small x : 0 ≤ x < 2 ^ 64 → to_size x = x.
Proof. intros. unfold to_size. apply Z.mod_small; lia. Qed.

Lemma to_u16_small x : 0 ≤ x < 65536 → to_u16 x = x.
Proof. intros. unfold to_u16. apply Z.mod_small; lia. Qed.

Lemma npos_le_u16 : offset_type_npos ≤ 65535.
Proof. destruct npos_cases; lia. Qed.

(** A link record has the size of a [T] exactly when [sizeof(T)] is 1 or
    even. *)
Lemma accessor_fits_iff :
  0 < sizeof_T →
  sizeof_offset_accessor = sizeof_T ↔ sizeof_T = 1 ∨ Z.even sizeof_T = true.
Proof.
  intros Hpos. unfold sizeof_offset_accessor, sizeof_offset_type, offset_bits.
  destruct (Z.eqb_spec sizeof_T 1) as [Heq|Hne].
  { change (8 / 8) with 1. rewrite Heq. simpl. split; auto. }
  change (16 / 8) with 2.
  destruct (Z.eqb_spec sizeof_T 2) as [Heq2|Hne2].
  { rewrite Heq2. simpl. split; auto. }
  cbv zeta. replace (2 + (sizeof_T - 2) + 2 - 1) with (sizeof_T + 1) by lia.
  rewrite Z.even_spec. split.
  - intros Heq. right. exists ((sizeof_T + 1) / 2). lia.
  - intros [?|[k Hk]]; [done|]. rewrite Hk.
    replace (2 * k + 1) with (1 + k * 2) by lia.
    rewrite Z.div_add by lia. change (1 / 2) with 0. lia.
Qed.

Lemma instantiable_compiles : instantiable → compiles.
Proof. intros (? & ? & ? & _). by split_and!. Qed.
End casts.

(** ** Array access *)

Section storage.
Context {T : Type} {p : arena_params}.
Implicit Types (st : list (slot T)) (i j : Z).

Lemma slot_at_Some st i s :
  slot_at st i = Some s → 0 ≤ i < Z.of_nat (length st).
Proof.
  unfold slot_at. case_decide; [|done]. intros ?%lookup_lt_Some. lia.
Qed.

Lemma slot_at_is_Some st i :
  0 ≤ i < Z.of_nat (length st) → is_Some (slot_at st i).
Proof.
  intros. unfold slot_at. rewrite decide_True by lia.
  apply lookup_lt_is_Some. lia.
Qed.

Lemma read_offset_Some st i o :
  read_offset st i = Some o ↔ slot_at st i = Some (Free o).
Proof.
  unfold read_offset. destruct (slot_at st i) as [[]|]; naive_solver.
Qed.

Lemma read_value_Some st i v :
  read_value st i = Some v ↔ slot_at st i = Some (Occupied v).
Proof.
  unfold read_value. destruct (slot_at st i) as [[]|]; naive_solver.
Qed.

Lemma slot_cases st i :
  0 ≤ i < Z.of_nat (length st) →
  (∃ v, read_value st i = Some v ∧ read_offset st i = None) ∨
  (∃ o, read_offset st i = Some o ∧ read_value st i = None).
Proof.
  intros [s Hs]%slot_at_is_Some. unfold read_value, read_offset. rewrite Hs.
  destruct s; eauto.
Qed.

Lemma write_slot_Some st i s :
  0 ≤ i < Z.of_nat (length st) →
  write_slot st i s = Some (<[Z.to_nat i := s]> st).
Proof. intros. unfold write_slot. by rewrite decide_True. Qed.

Lemma write_slot_inv st i s st' :
  write_slot st i s = Some st' →
  0 ≤ i < Z.of_nat (length st) ∧ st' = <[Z.to_nat i := s]> st.
Proof. unfold write_slot. destruct (decide _); [by intros [= <-] | done]. Qed.

Lemma write_slot_length st i s st' :
  write_slot st i s = Some st' → length st' = length st.
Proof. intros [_ ->]%write_slot_inv. apply length_insert. Qed.

Lemma slot_at_write_eq st i s st' :
  write_slot st i s = Some st' → slot_at st' i = Some s.
Proof.
  intros [? ->]%write_slot_inv. unfold slot_at. rewrite decide_True by lia.
  apply list_lookup_insert_eq. lia.
Qed.

Lemma slot_at_write_ne st i s st' j :
  write_slot st i s = Some st' → i ≠ j → slot_at st' j = slot_at st j.
Proof.
  intros [? ->]%write_slot_inv ?. unfold slot_at. case_decide; [|done].
  apply list_lookup_insert_ne. lia.
Qed.

Lemma read_offset_write_eq st i o st' :
  write_slot st i (Free o) = Some st' → read_offset st' i = Some o.
Proof. intros H. apply read_offset_Some. by eapply slot_at_write_eq. Qed.

Lemma read_offset_write_ne st i s st' j :
  write_slot st i s = Some st' → i ≠ j → read_offset st' j = read_offset st j.
Proof. intros. unfold read_offset. by erewrite slot_at_write_ne. Qed.

Lemma read_offset_write_value st i v st' :
  write_slot st i (Occupied v) = Some st' → read_offset st' i = None.
Proof.
  intros H. unfold read_offset. by rewrite (slot_at_write_eq _ _ _ _ H).
Qed.

Lemma read_value_write_eq st i v st' :
  write_slot st i (Occupied v) = Some st' → read_value st' i = Some v.
Proof. intros H. apply read_value_Some. by eapply slot_at_write_eq. Qed.

Lemma read_value_write_ne st i s st' j :
  write_slot st i s = Some st' → i ≠ j → read_value st' j = read_value st j.
Proof. intros. unfold read_value. by erewrite slot_at_write_ne. Qed.

Lemma read_value_write_link st i o st' :
  write_slot st i (Free o) = Some st' → read_value st' i = None.
Proof.
  intros H. unfold read_value. by rewrite (slot_at_write_eq _ _ _ _ H).
Qed.
End storage.


(** ** The free chain *)

Section chain.
Context {T : Type} {p : arena_params}.
Implicit Types (st : list (slot T)) (i j : Z) (ch : list Z).

Lemma chain_head st i ch : chain st i ch → head ch = None ↔ i = offset_type_npos.
Proof. destruct 1; simpl; split; congruence. Qed.

Lemma chain_npos_inv st ch : chain st offset_type_npos ch → ch = [].
Proof. by inversion 1. Qed.

Lemma chain_cons_inv st i j ch :
  chain st i (j :: ch) →
  j = i ∧ i ≠ offset_type_npos ∧ 0 ≤ i < Capacity ∧
  ∃ next, read_offset st i = Some next ∧ chain st next ch.
Proof. inversion 1; subst. eauto 10. Qed.

Lemma chain_functional st i ch ch' : chain st i ch → chain st i ch' → ch = ch'.
Proof.
  intros H. revert ch'. induction H as [|i next ch Hne Hr Hread _ IH]; intros ch' H'.
  - by inversion H'.
  - inversion H' as [|? next' ch'' ? ? Hread' Hch']; subst; [done|].
    rewrite Hread in Hread'. injection Hread' as <-. f_equal. by apply IH.
Qed.

Lemma chain_elem st i ch j :
  chain st i ch → j ∈ ch →
  0 ≤ j < Capacity ∧ j ≠ offset_type_npos ∧ is_Some (read_offset st j).
Proof.
  induction 1 as [|i next ch Hne Hr Hread _ IH]; intros Hj.
  - by apply elem_of_nil in Hj.
  - apply elem_of_cons in Hj as [-> | Hj]; eauto.
Qed.

(** A chain only reads the slots it visits. *)
Lemma chain_frame st st' i ch :
  chain st i ch →
  (∀ j, j ∈ ch → read_offset st' j = read_offset st j) →
  chain st' i ch.
Proof.
  induction 1 as [|i next ch Hne Hr Hread _ IH]; intros Hsame.
  - constructor.
  - econstructor; [done | done | |].
    + rewrite Hsame; [done | set_solver].
    + apply IH. intros. apply Hsame. set_solver.
Qed.

Lemma chain_suffix st i ch1 j ch2 :
  chain st i (ch1 ++ j :: ch2) → chain st j (j :: ch2).
Proof.
  revert i. induction ch1 as [|k ch1 IH]; intros i H; simpl in H.
  - by apply chain_cons_inv in H as H'; destruct H' as [-> _].
  - apply chain_cons_inv in H as (_ & _ & _ & next & _ & H'). eauto.
Qed.

(** A chain never visits a slot twice: it would go round for ever. *)
Lemma chain_NoDup st i ch : chain st i ch → NoDup ch.
Proof.
  induction 1 as [|i next ch Hne Hr Hread Hch IH]; constructor; [|done].
  intros Hin. apply list_elem_of_split in Hin as (ch1 & ch2 & ->).
  pose proof (chain_suffix _ _ _ _ _ Hch) as Hsuf.
  apply chain_cons_inv in Hsuf as (_ & _ & _ & next' & Hread' & Hch').
  rewrite Hread in Hread'. injection Hread' as <-.
  pose proof (chain_functional _ _ _ _ Hch Hch') as Heq.
  apply (f_equal length) in Heq. rewrite length_app in Heq. simpl in Heq. lia.
Qed.

Lemma chain_length st i ch : chain st i ch → (length ch ≤ Z.to_nat Capacity)%nat.
Proof.
  intros H. pose proof (chain_NoDup _ _ _ H) as Hnd.
  assert (ch ⊆+ seqZ 0 Capacity) as Hsub.
  { apply NoDup_submseteq; [done|]. intros j Hj.
    apply elem_of_seqZ. pose proof (chain_elem _ _ _ _ H Hj). lia. }
  apply submseteq_length in Hsub. by rewrite length_seqZ in Hsub.
Qed.

Lemma free_walk_chain fuel st i ch : free_walk fuel st i = Some ch → chain st i ch.
Proof.
  revert i ch. induction fuel as [|fuel IH]; intros i ch; simpl.
  - case_decide; [|done]. intros [= <-]. subst. constructor.
  - case_decide; [intros [= <-]; subst; constructor|].
    case_decide; [|done].
    destruct (read_offset st i) as [next|] eqn:Hread; [|done]. simpl.
    destruct (free_walk fuel st next) as [ch'|] eqn:Hw; [|done]. simpl.
    intros [= <-]. econstructor; eauto.
Qed.

Lemma chain_free_walk fuel st i ch :
  chain st i ch → (length ch ≤ fuel)%nat → free_walk fuel st i = Some ch.
Proof.
  intros H. revert fuel. induction H as [|i next ch Hne Hr Hread _ IH]; intros fuel Hlen.
  - destruct fuel; simpl; by rewrite decide_True.
  - destruct fuel as [|fuel]; simpl in *; [lia|].
    rewrite decide_False by done. rewrite decide_True by done.
    rewrite Hread. simpl. rewrite IH by lia. done.
Qed.

(** The fuel of [free_chain] is enough for every chain. *)
Lemma free_chain_iff (a : inplace_free_list T) ch :
  free_chain a = Some ch ↔ chain (storage_ a) (first_free_ a) ch.
Proof.
  unfold free_chain. split; [apply free_walk_chain|].
  intros H. apply chain_free_walk; [done|]. by eapply chain_length.
Qed.

Lemma mask_of_testbit out ch j :
  (∀ k, k ∈ ch → 0 ≤ k) →
  Z.testbit (mask_of out ch) j = true ↔ j ∈ ch ∨ Z.testbit out j = true.
Proof.
  unfold mask_of. revert out. induction ch as [|k ch IH]; intros out Hpos; simpl.
  - set_solver.
  - rewrite IH by (intros; apply Hpos; set_solver).
    rewrite Z.setbit_iff by (apply Hpos; set_solver). set_solver.
Qed.

Lemma free_mask_loop_chain fuel st i ch out :
  chain st i ch → (length ch ≤ fuel)%nat →
  free_mask_loop fuel st i out = Some (mask_of out ch).
Proof.
  intros H. revert fuel out.
  induction H as [|i next ch Hne Hr Hread _ IH]; intros fuel out Hlen.
  - destruct fuel; simpl; by rewrite decide_True.
  - destruct fuel as [|fuel]; simpl in *; [lia|].
    rewrite decide_False by done. unfold bitset_set. rewrite decide_True by done.
    simpl. rewrite Hread. simpl. apply IH. lia.
Qed.

Lemma free_mask_loop_inv fuel st i out m :
  free_mask_loop fuel st i out = Some m →
  ∃ ch, chain st i ch ∧ m = mask_of out ch.
Proof.
  revert i out. induction fuel as [|fuel IH]; intros i out; simpl.
  - case_decide; [|done]. intros [= <-]. subst. exists []. split; [constructor|done].
  - case_decide; [intros [= <-]; subst; exists []; split; [constructor|done]|].
    unfold bitset_set. case_decide; [|done]. simpl.
    destruct (read_offset st i) as [next|] eqn:Hread; [|done]. simpl.
    intros (ch & Hch & ->)%IH. exists (i :: ch). split; [|done].
    econstructor; eauto.
Qed.

Lemma free_mask_chain (a : inplace_free_list T) ch :
  free_chain a = Some ch → free_mask a = Some (mask_of 0 ch).
Proof.
  intros H%free_chain_iff. unfold free_mask.
  apply free_mask_loop_chain; [done|]. by eapply chain_length.
Qed.

Lemma free_mask_inv (a : inplace_free_list T) m :
  free_mask a = Some m → ∃ ch, free_chain a = Some ch ∧ m = mask_of 0 ch.
Proof.
  intros (ch & Hch & ->)%free_mask_loop_inv. exists ch.
  split; [|done]. by apply free_chain_iff.
Qed.

Lemma mask_of_chain_testbit st i ch j :
  chain st i ch → Z.testbit (mask_of 0 ch) j = true ↔ j ∈ ch.
Proof.
  intros H. rewrite mask_of_testbit.
  - rewrite Z.bits_0. naive_solver.
  - intros k Hk. pose proof (chain_elem _ _ _ _ H Hk). lia.
Qed.

(** Links that count up from [k] to the last slot, which holds the
    sentinel, form the ascending chain of the slots from [k] on. *)
Lemma ascending_chain st (n : nat) :
  0 < Capacity < offset_type_npos →
  (n ≤ Z.to_nat Capacity)%nat →
  (∀ j, Capacity - Z.of_nat n ≤ j < Capacity →
        read_offset st j =
        Some (if decide (j = Capacity - 1) then offset_type_npos else j + 1)) →
  chain st (if decide (n = O) then offset_type_npos else Capacity - Z.of_nat n)
    (seqZ (Capacity - Z.of_nat n) (Z.of_nat n)).
Proof.
  intros Hcap. induction n as [|n IH]; intros Hn Hlinks.
  - simpl. constructor.
  - rewrite decide_False by done.
    replace (Z.of_nat (S n)) with (Z.succ (Z.of_nat n)) by lia.
    rewrite seqZ_cons by lia.
    econstructor.
    + lia.
    + lia.
    + apply Hlinks. lia.
    + replace (Z.pred (Z.succ (Z.of_nat n))) with (Z.of_nat n) by lia.
      replace (Z.succ (Capacity - Z.succ (Z.of_nat n)))
        with (Capacity - Z.of_nat n) by lia.
      specialize (IH ltac:(lia) ltac:(intros; apply Hlinks; lia)).
      destruct n as [|n].
      * rewrite decide_True by lia. by rewrite decide_True in IH.
      * rewrite decide_False by lia. rewrite decide_False in IH by done.
        by replace (Capacity - Z.succ (Z.of_nat (S n)) + 1)
             with (Capacity - Z.of_nat (S n)) by lia.
Qed.

Lemma ascending_chain_from st k :
  0 < Capacity < offset_type_npos →
  0 ≤ k < Capacity →
  (∀ j, k ≤ j < Capacity →
        read_offset st j =
        Some (if decide (j = Capacity - 1) then offset_type_npos else j + 1)) →
  chain st k (seqZ k (Capacity - k)).
Proof.
  intros Hcap Hk Hlinks.
  pose proof (ascending_chain st (Z.to_nat (Capacity - k)) Hcap ltac:(lia)) as H.
  rewrite decide_False in H by lia. rewrite Z2Nat.id in H by lia.
  replace (Capacity - (Capacity - k)) with k in H by lia. by apply H.
Qed.
End chain.


(** ** The arena invariant *)

Section invariant.
Context {T : Type} {p : arena_params}.
Implicit Types (a : inplace_free_list T) (st : list (slot T)) (i j : Z) (ch : list Z).

Lemma wf_arena_iff a :
  wf_arena a ↔
  length (storage_ a) = Z.to_nat Capacity ∧
  ∃ ch, chain (storage_ a) (first_free_ a) ch ∧
        (∀ i, is_Some (read_offset (storage_ a) i) → i ∈ ch) ∧
        size_ a = Capacity - Z.of_nat (length ch).
Proof.
  unfold wf_arena. split.
  - intros [Hlen H]. split; [done|].
    destruct (free_chain a) as [ch|] eqn:Hch; [|done].
    destruct H as (_ & Hall & Hsize). exists ch.
    split; [by apply free_chain_iff|]. split; [|done].
    intros i [o Ho]. rewrite Forall_forall in Hall. apply Hall; [|by eexists].
    apply elem_of_seqZ. apply read_offset_Some, slot_at_Some in Ho. lia.
  - intros (Hlen & ch & Hch & Hall & Hsize). split; [done|].
    apply free_chain_iff in Hch as Hfc. rewrite Hfc.
    split; [by eapply chain_NoDup|]. split; [|done].
    apply Forall_forall. intros i _. apply Hall.
Qed.

Lemma wf_free_chain a : wf_arena a → is_Some (free_chain a).
Proof. intros [_ H]. destruct (free_chain a); [by eexists | done]. Qed.

Lemma wf_length a :
  wf_arena a → 0 ≤ Capacity → Z.of_nat (length (storage_ a)) = Capacity.
Proof. intros [H _]. lia. Qed.

(** In a well-formed arena the chain is the set of the slots that hold a
    link, and every other slot of the array holds a value. *)
Lemma wf_chain_slots a ch i :
  wf_arena a → free_chain a = Some ch → 0 ≤ i < Capacity →
  (i ∈ ch ∧ is_Some (read_offset (storage_ a) i) ∧ read_value (storage_ a) i = None) ∨
  ((i ∉ ch) ∧ is_Some (read_value (storage_ a) i) ∧ read_offset (storage_ a) i = None).
Proof.
  intros (Hlen & ch' & Hch' & Hall & _)%wf_arena_iff Hch%free_chain_iff Hi.
  rewrite (chain_functional _ _ _ _ Hch Hch') in *. clear Hch.
  destruct (slot_cases (storage_ a) i) as [(v & Hv & Ho) | (o & Ho & Hv)]; [lia | |].
  - right. split_and!; [|by eexists|done].
    intros Hin. destruct (chain_elem _ _ _ _ Hch' Hin) as (_ & _ & [? ?]). congruence.
  - left. split_and!; [|by eexists|done]. apply Hall. by eexists.
Qed.

Lemma wf_size_bounds a ch :
  wf_arena a → free_chain a = Some ch → 0 ≤ Capacity →
  size_ a = Capacity - Z.of_nat (length ch) ∧ 0 ≤ size_ a ≤ Capacity.
Proof.
  intros (Hlen & ch' & Hch' & _ & Hsize)%wf_arena_iff Hch%free_chain_iff ?.
  rewrite (chain_functional _ _ _ _ Hch Hch') in *.
  pose proof (chain_length _ _ _ Hch'). lia.
Qed.

Lemma free_mask_wf a ch :
  free_chain a = Some ch →
  ∃ m, free_mask a = Some m ∧ ∀ j, Z.testbit m j = true ↔ j ∈ ch.
Proof.
  intros Hch. exists (mask_of 0 ch). split; [by apply free_mask_chain|].
  intros j. eapply mask_of_chain_testbit. by apply free_chain_iff.
Qed.

Lemma holds_value_chain a ch ptr :
  free_chain a = Some ch → 0 ≤ ptr < Capacity →
  holds_value a ptr = Some (bool_decide (ptr ∉ ch)).
Proof.
  intros (m & Hm & Hbits)%free_mask_wf Hptr.
  unfold holds_value, as_index, owns. rewrite bool_decide_eq_true_2 by done.
  simpl. rewrite Hm. simpl. unfold bitset_test. rewrite decide_True by done.
  simpl. f_equal. specialize (Hbits ptr).
  destruct (Z.testbit m ptr); simpl; symmetry.
  - apply bool_decide_eq_false_2. naive_solver.
  - apply bool_decide_eq_true_2. intros ?. naive_solver.
Qed.

Lemma holds_value_at_eq a idx : holds_value_at a idx = holds_value a idx.
Proof.
  unfold holds_value_at, holds_value, as_index. by destruct (owns idx).
Qed.

Lemma holds_value_outside a ptr : ¬ 0 ≤ ptr < Capacity → holds_value a ptr = None.
Proof.
  intros. unfold holds_value, as_index, owns. by rewrite bool_decide_eq_false_2.
Qed.
End invariant.


(** ** The empty arena *)

Section empty_arena.
Context {T : Type} {p : arena_params}.
Hypothesis Hp : instantiable.
Implicit Types (a : inplace_free_list T) (st : list (slot T)) (i j : Z) (ch : list Z).

Lemma capacity_bounds : 0 < Capacity < offset_type_npos.
Proof. destruct Hp as (? & ? & _). unfold static_assert_capacity in *. lia. Qed.

Lemma to_offset_index i : 0 ≤ i ≤ Capacity → to_offset i = i.
Proof. intros. apply to_offset_small. pose proof capacity_bounds. lia. Qed.

Lemma index_not_npos i : 0 ≤ i ≤ Capacity → i ≠ offset_type_npos.
Proof. pose proof capacity_bounds. lia. Qed.

Lemma initialize_empty_eq :
  initialize_empty (T:=T) =
  Some {| storage_ := empty_storage; first_free_ := 0; size_ := 0 |}.
Proof.
  pose proof capacity_bounds. unfold initialize_empty.
  rewrite write_slot_Some; [done|]. rewrite length_fmap, length_seqZ. lia.
Qed.

Lemma empty_storage_length : length (empty_storage (T:=T)) = Z.to_nat Capacity.
Proof.
  unfold empty_storage. by rewrite length_insert, length_fmap, length_seqZ.
Qed.

Lemma empty_storage_link i :
  0 ≤ i < Capacity →
  read_offset (empty_storage (T:=T)) i =
  Some (if decide (i = Capacity - 1) then offset_type_npos else i + 1).
Proof.
  intros Hi. apply read_offset_Some. unfold slot_at, empty_storage.
  rewrite decide_True by lia. case_decide as Hlast.
  - subst i. apply list_lookup_insert_eq.
    rewrite length_fmap, length_seqZ. lia.
  - rewrite list_lookup_insert_ne by lia.
    rewrite list_lookup_fmap, lookup_seqZ_lt by lia. simpl.
    do 2 f_equal. rewrite to_offset_index by lia. lia.
Qed.

Lemma initialize_empty_chain a :
  initialize_empty = Some a → free_chain a = Some (seqZ 0 Capacity).
Proof.
  rewrite initialize_empty_eq. intros [= <-]. apply free_chain_iff. simpl.
  pose proof capacity_bounds as Hcap.
  pose proof (ascending_chain_from (empty_storage (T:=T)) 0 Hcap ltac:(lia)) as H.
  rewrite Z.sub_0_r in H. apply H. intros j Hj. apply empty_storage_link. lia.
Qed.

Lemma initialize_empty_wf a : initialize_empty = Some a → wf_arena a.
Proof.
  intros Ha. pose proof (initialize_empty_chain _ Ha) as Hch.
  rewrite initialize_empty_eq in Ha. injection Ha as <-.
  apply wf_arena_iff. simpl. split; [apply empty_storage_length|].
  exists (seqZ 0 Capacity). split; [by apply free_chain_iff in Hch|].
  pose proof capacity_bounds. split; [|rewrite length_seqZ; lia].
  intros i [o Ho]. apply elem_of_seqZ.
  apply read_offset_Some, slot_at_Some in Ho.
  rewrite empty_storage_length in Ho. lia.
Qed.

Lemma mask_of_seqZ_ones : mask_of 0 (seqZ 0 Capacity) = Z.ones Capacity.
Proof.
  pose proof capacity_bounds. apply Z.bits_inj'. intros j Hj.
  rewrite Z.testbit_ones_nonneg by lia.
  destruct (Z.testbit (mask_of 0 (seqZ 0 Capacity)) j) eqn:Hbit.
  - apply mask_of_testbit in Hbit as [Hin%elem_of_seqZ | Hbit].
    + symmetry. apply Z.ltb_lt. lia.
    + by rewrite Z.bits_0 in Hbit.
    + intros k ?%elem_of_seqZ. lia.
  - symmetry. apply Z.ltb_ge. destruct (decide (j < Capacity)); [|lia].
    assert (Z.testbit (mask_of 0 (seqZ 0 Capacity)) j = true); [|congruence].
    apply mask_of_testbit; [intros k ?%elem_of_seqZ; lia|].
    left. apply elem_of_seqZ. lia.
Qed.

Lemma initialize_empty_mask a :
  initialize_empty = Some a → free_mask a = Some (Z.ones Capacity).
Proof.
  intros Ha. rewrite <- mask_of_seqZ_ones.
  by apply free_mask_chain, initialize_empty_chain.
Qed.
End empty_arena.


(** ** Allocation and release keep the invariant *)

Section alloc.
Context {T : Type} {p : arena_params}.
Hypothesis Hp : instantiable.
Implicit Types (a : inplace_free_list T) (st : list (slot T)) (i j : Z) (ch : list Z).

Lemma to_size_count x : 0 ≤ x ≤ Capacity + 1 → to_size x = x.
Proof.
  intros. pose proof (capacity_bounds Hp). pose proof npos_le_u16.
  apply to_size_small. lia.
Qed.

Lemma emplace_full a c :
  first_free_ a = offset_type_npos → emplace a c = Some (a, Full).
Proof. intros. unfold emplace. by rewrite decide_True. Qed.

Lemma free_chain_nil a :
  free_chain a = Some [] ↔ first_free_ a = offset_type_npos.
Proof.
  rewrite free_chain_iff. split.
  - intros H. by apply (chain_head _ _ _ H).
  - intros ->. constructor.
Qed.

Lemma free_chain_cons a i ch :
  free_chain a = Some (i :: ch) →
  first_free_ a = i ∧ i ≠ offset_type_npos ∧ 0 ≤ i < Capacity ∧
  ∃ next, read_offset (storage_ a) i = Some next ∧ chain (storage_ a) next ch.
Proof.
  intros H%free_chain_iff. apply chain_cons_inv in H. naive_solver.
Qed.

(** Taking the head of the chain. *)
Lemma emplace_placed a v i ch :
  wf_arena a → free_chain a = Some (i :: ch) →
  ∃ next a',
    read_offset (storage_ a) i = Some next ∧
    a' = {| storage_ := <[Z.to_nat i := Occupied v]> (storage_ a);
            first_free_ := next; size_ := size_ a + 1 |} ∧
    emplace a (Constructs v) = Some (a', Placed i) ∧
    wf_arena a' ∧ free_chain a' = Some ch.
Proof.
  intros Hwf Hch. pose proof (capacity_bounds Hp) as Hcap.
  destruct (free_chain_cons _ _ _ Hch) as (Hff & Hne & Hi & next & Hread & Hnext).
  pose proof (wf_length _ Hwf ltac:(lia)) as Hlen.
  destruct (wf_size_bounds _ _ Hwf Hch ltac:(lia)) as [Hsize Hsz]. simpl in Hsize.
  pose proof (chain_NoDup _ _ _ (proj1 (free_chain_iff _ _) Hch)) as Hnd.
  apply NoDup_cons in Hnd as [Hnotin Hnd].
  assert (write_slot (storage_ a) i (Occupied v)
          = Some (<[Z.to_nat i := Occupied v]> (storage_ a))) as Hw
    by (apply write_slot_Some; lia).
  eexists next, _. split; [done|]. split; [done|]. split.
  { unfold emplace. rewrite Hff, decide_False by done. rewrite Hread. simpl.
    rewrite Hw. simpl. rewrite to_size_count by lia. done. }
  assert (chain (<[Z.to_nat i := Occupied v]> (storage_ a)) next ch) as Hch'.
  { eapply chain_frame; [done|]. intros j Hj.
    eapply read_offset_write_ne; [done|]. intros ->. done. }
  split; [|by apply free_chain_iff].
  apply wf_arena_iff. simpl. split; [rewrite length_insert; lia|].
  exists ch. split; [done|]. split; [|lia].
  intros j Hsome. destruct (decide (j = i)) as [->|Hji].
  - rewrite (read_offset_write_value _ _ _ _ Hw) in Hsome. by destruct Hsome.
  - rewrite (read_offset_write_ne _ _ _ _ j Hw) in Hsome by done.
    destruct (wf_chain_slots a (i :: ch) j Hwf Hch) as [(Hin & _) | (_ & _ & Hnone)].
    + destruct Hsome as [o Ho]. apply read_offset_Some, slot_at_Some in Ho. lia.
    + set_solver.
    + rewrite Hnone in Hsome. by destruct Hsome.
Qed.

(** Taking the head of the chain for a constructor that throws: the slot is
    off the chain and holds no value. *)
Lemma emplace_raised a leftover i ch :
  wf_arena a → free_chain a = Some (i :: ch) →
  ∃ next a',
    read_offset (storage_ a) i = Some next ∧
    write_slot (storage_ a) i (Free (to_offset leftover)) = Some (storage_ a') ∧
    a' = {| storage_ := <[Z.to_nat i := Free (to_offset leftover)]> (storage_ a);
            first_free_ := next; size_ := size_ a |} ∧
    emplace a (CtorThrows leftover) = Some (a', Raised) ∧
    free_chain a' = Some ch ∧ (i ∉ ch) ∧ ¬ wf_arena a'.
Proof.
  intros Hwf Hch. pose proof (capacity_bounds Hp) as Hcap.
  destruct (free_chain_cons _ _ _ Hch) as (Hff & Hne & Hi & next & Hread & Hnext).
  pose proof (wf_length _ Hwf ltac:(lia)) as Hlen.
  pose proof (chain_NoDup _ _ _ (proj1 (free_chain_iff _ _) Hch)) as Hnd.
  apply NoDup_cons in Hnd as [Hnotin _].
  assert (write_slot (storage_ a) i (Free (to_offset leftover))
          = Some (<[Z.to_nat i := Free (to_offset leftover)]> (storage_ a))) as Hw
    by (apply write_slot_Some; lia).
  set (a' := {| storage_ := <[Z.to_nat i := Free (to_offset leftover)]> (storage_ a);
                first_free_ := next; size_ := size_ a |}).
  assert (free_chain a' = Some ch) as Hch'.
  { apply free_chain_iff. simpl. eapply chain_frame; [done|]. intros j Hj.
    eapply read_offset_write_ne; [done|]. by intros ->. }
  exists next, a'. split; [done|]. split; [done|]. split; [done|]. split.
  { unfold emplace. rewrite Hff, decide_False by done. rewrite Hread. simpl.
    by rewrite Hw. }
  split; [done|]. split; [done|].
  intros Hwf'. destruct (wf_chain_slots a' ch i Hwf' Hch' Hi)
    as [(Hin & _) | (_ & [v Hv] & _)]; [done|].
  simpl in Hv. rewrite (read_value_write_link _ _ _ _ Hw) in Hv. done.
Qed.

(** Pushing a released slot on the chain. *)
Lemma erase_held a ptr ch :
  wf_arena a → free_chain a = Some ch → 0 ≤ ptr < Capacity → ptr ∉ ch →
  ∃ a',
    a' = {| storage_ := <[Z.to_nat ptr := Free (first_free_ a)]> (storage_ a);
            first_free_ := ptr; size_ := size_ a - 1 |} ∧
    erase a ptr = Some a' ∧ wf_arena a' ∧ free_chain a' = Some (ptr :: ch).
Proof.
  intros Hwf Hch Hptr Hnotin. pose proof (capacity_bounds Hp) as Hcap.
  pose proof (wf_length _ Hwf ltac:(lia)) as Hlen.
  destruct (wf_size_bounds _ _ Hwf Hch ltac:(lia)) as [Hsize Hsz].
  destruct (wf_chain_slots a ch ptr Hwf Hch Hptr) as [(Hin & _) | (_ & [v Hv] & Hnone)];
    [done|].
  apply free_chain_iff in Hch as Hchain.
  assert (write_slot (storage_ a) ptr (Free (first_free_ a))
          = Some (<[Z.to_nat ptr := Free (first_free_ a)]> (storage_ a))) as Hw
    by (apply write_slot_Some; lia).
  assert (chain (<[Z.to_nat ptr := Free (first_free_ a)]> (storage_ a)) ptr (ptr :: ch))
    as Hch'.
  { econstructor; [apply (index_not_npos Hp); lia | done | by eapply read_offset_write_eq |].
    eapply chain_frame; [done|]. intros j Hj.
    eapply read_offset_write_ne; [done|]. intros ->. done. }
  assert (Z.of_nat (length (ptr :: ch)) ≤ Capacity) as Hlen'.
  { pose proof (chain_length _ _ _ Hch'). lia. }
  simpl in Hlen'.
  eexists. split; [done|]. split.
  { unfold erase. rewrite (holds_value_chain _ _ _ Hch Hptr).
    rewrite bool_decide_eq_true_2 by done. simpl. rewrite Hv. simpl.
    rewrite Hw. simpl. rewrite (to_offset_index Hp) by lia.
    rewrite to_size_count by lia. done. }
  split; [|by apply free_chain_iff].
  apply wf_arena_iff. simpl. split; [rewrite length_insert; lia|].
  exists (ptr :: ch). split; [done|]. split; [|simpl; lia].
  intros j Hsome. destruct (decide (j = ptr)) as [->|Hj]; [set_solver|].
  rewrite (read_offset_write_ne _ _ _ _ j Hw) in Hsome by done.
  destruct (wf_chain_slots a ch j Hwf Hch) as [(Hin & _) | (_ & _ & Hnone')].
  - destruct Hsome as [o Ho]. apply read_offset_Some, slot_at_Some in Ho. lia.
  - set_solver.
  - rewrite Hnone' in Hsome. by destruct Hsome.
Qed.

(** [assert_holds_value]: releasing a slot that is on the chain, or a
    pointer outside the array, has no result. *)
Lemma erase_not_held a ptr ch :
  free_chain a = Some ch → ptr ∈ ch ∨ ¬ 0 ≤ ptr < Capacity → erase a ptr = None.
Proof.
  intros Hch Hbad. unfold erase.
  destruct (decide (0 ≤ ptr < Capacity)) as [Hptr|Hptr].
  - rewrite (holds_value_chain _ _ _ Hch Hptr). simpl.
    rewrite bool_decide_eq_false_2; [done|]. naive_solver.
  - by rewrite holds_value_outside.
Qed.

Lemma erase_inv a ptr a' :
  wf_arena a → erase a ptr = Some a' →
  ∃ ch, free_chain a = Some ch ∧ 0 ≤ ptr < Capacity ∧ ptr ∉ ch.
Proof.
  intros [ch Hch]%wf_free_chain He. exists ch. split; [done|].
  destruct (decide (0 ≤ ptr < Capacity)) as [Hptr|Hptr].
  - split; [done|]. intros Hin.
    rewrite (erase_not_held _ _ _ Hch) in He; [done | by left].
  - rewrite (erase_not_held _ _ _ Hch) in He; [done | by right].
Qed.

Lemma emplace_inv a v a' r :
  wf_arena a → emplace a (Constructs v) = Some (a', r) →
  (r = Full ∧ a' = a ∧ free_chain a = Some []) ∨
  (∃ i ch, r = Placed i ∧ free_chain a = Some (i :: ch)).
Proof.
  intros Hwf He. destruct (wf_free_chain _ Hwf) as [[|i ch] Hch].
  - left. apply free_chain_nil in Hch as Hff.
    rewrite emplace_full in He by done. by injection He as <- <-.
  - right. destruct (emplace_placed a v i ch Hwf Hch) as (? & ? & _ & _ & He' & _).
    rewrite He' in He. injection He as <- <-. eauto.
Qed.

(** On a well-formed arena [emplace] always returns, and [erase] returns
    exactly when [assert_holds_value] passes. *)
Lemma emplace_is_Some a c : wf_arena a → is_Some (emplace a c).
Proof.
  intros Hwf. destruct (wf_free_chain _ Hwf) as [[|i ch] Hch].
  - apply free_chain_nil in Hch. rewrite emplace_full by done. by eexists.
  - destruct c as [v|leftover].
    + destruct (emplace_placed a v i ch Hwf Hch) as (? & ? & _ & _ & -> & _).
      by eexists.
    + destruct (emplace_raised a leftover i ch Hwf Hch)
        as (? & ? & _ & _ & _ & -> & _).
      by eexists.
Qed.

(** A constructor that throws in a well-formed arena that is not full: the
    head of the chain is gone from the chain and [size_] did not count it. *)
Lemma emplace_raised_not_full a leftover :
  wf_arena a → full a = false →
  ∃ a' i ch,
    emplace a (CtorThrows leftover) = Some (a', Raised) ∧
    free_chain a = Some (i :: ch) ∧ free_chain a' = Some ch ∧
    size a' = size a ∧ ¬ wf_arena a'.
Proof.
  intros Hwf Hfull. destruct (wf_free_chain _ Hwf) as [[|i ch] Hch].
  - apply free_chain_nil in Hch. unfold full in Hfull.
    by rewrite bool_decide_eq_true_2 in Hfull.
  - destruct (emplace_raised a leftover i ch Hwf Hch)
      as (next & a' & _ & _ & Ha' & He & Hch' & _ & Hnwf).
    exists a', i, ch. split_and!; try done. by subst a'.
Qed.

Lemma erase_is_Some_iff a ptr :
  wf_arena a → is_Some (erase a ptr) ↔ holds_value a ptr = Some true.
Proof.
  intros Hwf. split.
  - intros [a' He]. unfold erase in He.
    by destruct (holds_value a ptr) as [[|]|].
  - intros Hheld. destruct (wf_free_chain _ Hwf) as [ch Hch].
    destruct (decide (0 ≤ ptr < Capacity)) as [Hptr|Hptr];
      [|by rewrite holds_value_outside in Hheld].
    rewrite (holds_value_chain _ _ _ Hch Hptr) in Hheld.
    injection Hheld as Hheld%bool_decide_eq_true.
    destruct (erase_held a ptr ch Hwf Hch Hptr Hheld) as (? & _ & -> & _).
    by eexists.
Qed.

Lemma arena_step_wf a op a' :
  wf_arena a → op_constructs op → arena_step a op = Some a' → wf_arena a'.
Proof.
  intros Hwf Hop. destruct op as [[v|leftover]|ptr]; simpl; [|done|].
  - destruct (emplace a (Constructs v)) as [[a1 r]|] eqn:He; [|done].
    simpl. intros [= <-].
    destruct (emplace_inv _ _ _ _ Hwf He) as [(_ & -> & _) | (i & ch & _ & Hch)]; [done|].
    destruct (emplace_placed a v i ch Hwf Hch) as (? & ? & _ & _ & He' & Hwf' & _).
    rewrite He' in He. by injection He as <- _.
  - intros He. destruct (erase_inv _ _ _ Hwf He) as (ch & Hch & Hptr & Hnotin).
    destruct (erase_held a ptr ch Hwf Hch Hptr Hnotin) as (? & _ & He' & Hwf' & _).
    rewrite He' in He. by injection He as <-.
Qed.

Lemma arena_run_wf ops a a' :
  wf_arena a → Forall op_constructs ops → arena_run a ops = Some a' →
  wf_arena a'.
Proof.
  revert a. induction ops as [|op ops IH]; intros a Hwf Hops; simpl.
  - by intros [= <-].
  - apply Forall_cons in Hops as [Hop Hops].
    destruct (arena_step a op) as [a1|] eqn:Hs; [|done]. simpl.
    apply IH; [by eapply arena_step_wf | done].
Qed.
End alloc.


(** ** Capacity conservation *)

Section conservation.
Context {T : Type} {p : arena_params}.
Hypothesis Hp : instantiable.
Implicit Types (a : inplace_free_list T) (ops : list (arena_op T)).

Lemma arena_run_app a ops1 ops2 :
  arena_run a (ops1 ++ ops2) = a' ← arena_run a ops1; arena_run a' ops2.
Proof.
  revert a. induction ops1 as [|op ops1 IH]; intros a; simpl; [done|].
  destruct (arena_step a op); simpl; [apply IH | done].
Qed.

Lemma arena_run_take a ops a' n :
  arena_run a ops = Some a' → is_Some (arena_run a (take n ops)).
Proof.
  rewrite <- (take_drop n ops) at 1. rewrite arena_run_app.
  destruct (arena_run a (take n ops)); [by eexists | done].
Qed.

Lemma wf_conservation a :
  wf_arena a →
  ∃ ch, free_chain a = Some ch ∧ size a + Z.of_nat (length ch) = capacity (p:=p) ∧
        size a = Capacity - Z.of_nat (length ch).
Proof.
  intros Hwf. destruct (wf_free_chain _ Hwf) as [ch Hch]. exists ch.
  pose proof (capacity_bounds Hp).
  destruct (wf_size_bounds _ _ Hwf Hch ltac:(lia)) as [Hsize _].
  unfold size, capacity. split; [done|]. lia.
Qed.

Lemma pool_emplace_length (chunks_ chunks' : list (inplace_free_list T)) c r :
  Pool.emplace chunks_ c = Some (chunks', r) →
  length chunks' = length chunks_ ∨ length chunks' = S (length chunks_).
Proof.
  unfold Pool.emplace. intros H.
  destruct (list_find _ chunks_) as [[k ?]|]; simpl in H.
  - destruct (chunks_ !! k); simpl in H; [|done].
    destruct (emplace _ c) as [[? ?]|]; simpl in H; [|done].
    injection H as <- _. left. apply length_insert.
  - destruct initialize_empty as [fresh|]; simpl in H; [|done].
    destruct ((chunks_ ++ [fresh]) !! length chunks_); simpl in H; [|done].
    destruct (emplace _ c) as [[? ?]|]; simpl in H; [|done].
    injection H as <- _. right. rewrite length_insert, length_app. simpl. lia.
Qed.

Lemma pool_erase_length (chunks_ chunks' : list (inplace_free_list T)) ptr :
  Pool.erase chunks_ ptr = Some chunks' →
  length chunks' = length chunks_ ∨ S (length chunks') = length chunks_.
Proof.
  unfold Pool.erase. intros H.
  destruct (Pool.owning_chunk chunks_ ptr) as [k|] eqn:Hk; simpl in H; [|done].
  destruct (Pool.chunk_at chunks_ k) as [c|] eqn:Hc; simpl in H; [|done].
  destruct (erase c ptr.2) as [c'|]; simpl in H; [|done].
  assert (length chunks_ ≠ O) as Hne.
  { unfold Pool.chunk_at in Hc. case_decide; [|done].
    apply lookup_lt_Some in Hc. lia. }
  destruct (_ && _); injection H as <-; unfold Pool.pop_back, Pool.set_chunk.
  - right. rewrite length_take, length_insert. lia.
  - left. apply length_insert.
Qed.
End conservation.

(** C4, as the code has it.  After every operation of a sequence of
    allocations and releases in which no constructor throws, on an arena that
    starts empty, [size()] plus the number of slots on the free chain is
    [capacity()], that is [size_] is [Capacity] minus the length of the
    chain; in every such state an
    allocation returns, whatever the constructor does, and a release returns
    exactly when the pointer holds a value (the assertion of [erase]); an
    allocation whose constructor throws in such a state that is not full
    leaves the sum one below [capacity()] and the arena not well formed.
    [capacity()] of the arena is the constant [Capacity], and [capacity()] of
    a pool changes under [emplace] or [erase] only by one chunk appended or
    one chunk dropped. *)
Theorem capacity_conservation {T : Type} {p : arena_params}
    (e a : inplace_free_list T) (ops : list (arena_op T)) :
  instantiable →
  initialize_empty = Some e →
  Forall op_constructs ops →
  arena_run e ops = Some a →
  (∀ n, ∃ a' ch,
      arena_run e (take n ops) = Some a' ∧ free_chain a' = Some ch ∧
      size a' + Z.of_nat (length ch) = capacity (p:=p) ∧
      size a' = Capacity - Z.of_nat (length ch) ∧
      (∀ c, is_Some (arena_step a' (OpEmplace c))) ∧
      (∀ ptr, is_Some (arena_step a' (OpErase ptr)) ↔
              holds_value a' ptr = Some true) ∧
      (∀ leftover, full a' = false →
         ∃ a'' ch'',
           arena_step a' (OpEmplace (CtorThrows leftover)) = Some a'' ∧
           free_chain a'' = Some ch'' ∧
           size a'' + Z.of_nat (length ch'') = capacity (p:=p) - 1 ∧
           ¬ wf_arena a'')) ∧
  capacity (p:=p) = Capacity ∧
  (∀ (chunks_ chunks' : list (inplace_free_list T)) op,
      Pool.pool_step chunks_ op = Some chunks' →
      Pool.capacity chunks' ≠ Pool.capacity chunks_ →
      length chunks' = S (length chunks_) ∨ S (length chunks') = length chunks_).
Proof.
  intros Hp He Hops Hrun. split_and!.
  - intros n. destruct (arena_run_take _ _ _ n Hrun) as [a' Ha'].
    assert (wf_arena a') as Hwf.
    { eapply (arena_run_wf Hp); [|by apply Forall_take|done].
      by apply (initialize_empty_wf Hp). }
    destruct (wf_conservation Hp _ Hwf) as (ch & Hch & Hsum & ?). exists a', ch.
    split_and!; try done.
    + intros c. simpl. destruct (emplace_is_Some Hp a' c Hwf) as [? ->]. by eexists.
    + intros ptr. simpl. by apply (erase_is_Some_iff Hp).
    + intros leftover Hfull.
      destruct (emplace_raised_not_full Hp a' leftover Hwf Hfull)
        as (a'' & i & ch'' & Hem & Hch0 & Hch'' & Hsz & Hnwf).
      exists a'', ch''. simpl. rewrite Hem. split_and!; try done.
      rewrite Hch in Hch0. injection Hch0 as ->. simpl in Hsum. lia.
  - done.
  - intros chunks_ chunks' op Hstep Hcap.
    assert (length chunks' ≠ length chunks_) as Hne.
    { intros Heq. unfold Pool.capacity in Hcap. by rewrite Heq in Hcap. }
    destruct op as [c|ptr]; simpl in Hstep.
    + destruct (Pool.emplace chunks_ c) as [[c' r]|] eqn:Hem; [|done].
      injection Hstep as <-. destruct (pool_emplace_length _ _ _ _ Hem); [done | by left].
    + destruct (pool_erase_length _ _ _ Hstep); [done | by right].
Qed.

Section capacity_conservation_example.
#[local] Existing Instance int32_4.

Lemma capacity_conservation_witness :
  ∃ e a : inplace_free_list Z,
    let ops :=
      [OpEmplace (Constructs 10); OpEmplace (Constructs 11); OpErase 0;
       OpEmplace (Constructs 12)] in
    initialize_empty = Some e ∧ arena_run e ops = Some a ∧
    ∀ n, ∃ a' ch,
      arena_run e (take n ops) = Some a' ∧ free_chain a' = Some ch ∧
      size a' + Z.of_nat (length ch) = 4 ∧ size a' = 4 - Z.of_nat (length ch) ∧
      (∀ c, is_Some (arena_step a' (OpEmplace c))) ∧
      (∀ ptr, is_Some (arena_step a' (OpErase ptr)) ↔
              holds_value a' ptr = Some true) ∧
      (∀ leftover, full a' = false →
         ∃ a'' ch'',
           arena_step a' (OpEmplace (CtorThrows leftover)) = Some a'' ∧
           free_chain a'' = Some ch'' ∧
           size a'' + Z.of_nat (length ch'') = 4 - 1 ∧
           ¬ wf_arena a'').
Proof.
  eexists _, _. intros ops. split; [reflexivity|]. split; [reflexivity|].
  refine (proj1 (capacity_conservation _ _ ops _ eq_refl _ eq_refl)).
  - repeat split.
  - apply (bool_decide_unpack _). vm_compute. exact I.
Defined.

(** C4 as stated fails.  One allocation whose constructor throws, on a newly
    constructed arena of capacity 4: no value is held, three slots are on the chain, and the sum
    stays at three although the three allocations that follow fill the arena,
    which then reports full while [size()] is 3. *)
Lemma capacity_conservation_counterexample :
  ∃ e a a3 : inplace_free_list Z,
    initialize_empty = Some e ∧
    arena_run e [OpEmplace (CtorThrows 1)] = Some a ∧
    size a = 0 ∧ free_chain a = Some [1; 2; 3] ∧
    size a + Z.of_nat (length [1; 2; 3]) ≠ capacity ∧
    arena_run a [OpEmplace (Constructs 10); OpEmplace (Constructs 11);
                 OpEmplace (Constructs 12)] = Some a3 ∧
    full a3 = true ∧ free_chain a3 = Some [] ∧ size a3 = 3 ∧
    size a3 + Z.of_nat (length (@nil Z)) ≠ capacity.
Proof. eexists _, _, _. by split_and!. Qed.
End capacity_conservation_example.


(** ** Allocation reports a full arena *)

(** C6. In a well-formed arena [emplace] returns the null pointer exactly when
    the free chain is empty, and then changes nothing; otherwise it takes the
    head of the chain: the value is constructed in that slot, [size_] grows by
    one, the rest of the chain stays, and the pointer to the slot is returned.
    In an arena of capacity 4 filled with A, B, C, D a fifth [emplace] reports
    full; after the release of slot 1 [free_mask()] has bit 1 alone set, and
    the next [emplace] reuses slot 1. *)
Theorem emplace_full_iff_chain_empty {T : Type} {p : arena_params}
    (a : inplace_free_list T) (v : T) :
  instantiable →
  wf_arena a →
  (∃ a' r,
      emplace a (Constructs v) = Some (a', r) ∧
      (r = Full ↔ free_chain a = Some []) ∧
      (r = Full → a' = a) ∧
      (∀ i ch, free_chain a = Some (i :: ch) →
               r = Placed i ∧ free_chain a' = Some ch ∧ deref a' i = Some v ∧
               size a' = size a + 1)) ∧
  (∀ A B C D E : T,
      ∃ e a4 a3 a4',
        initialize_empty (p:=int32_4) = Some e ∧
        arena_run (p:=int32_4) e
          [OpEmplace (Constructs A); OpEmplace (Constructs B);
           OpEmplace (Constructs C); OpEmplace (Constructs D)] = Some a4 ∧
        emplace (p:=int32_4) a4 (Constructs E) = Some (a4, Full) ∧
        erase (p:=int32_4) a4 1 = Some a3 ∧
        free_mask (p:=int32_4) a3 = Some (Z.setbit 0 1) ∧
        emplace (p:=int32_4) a3 (Constructs E) = Some (a4', Placed 1) ∧
        deref a4' 1 = Some E).
Proof.
  intros Hp Hwf. split.
  - destruct (wf_free_chain _ Hwf) as [[|i ch] Hch].
    + apply free_chain_nil in Hch as Hff. exists a, Full.
      split; [by apply emplace_full|]. split; [done|]. split; [done|].
      intros i ch Hch'. congruence.
    + destruct (emplace_placed Hp a v i ch Hwf Hch) as (next & a' & Hread & Ha' & He & Hwf' & Hch').
      exists a', (Placed i). split; [done|]. split; [|split; [done|]].
      * split; [done | congruence].
      * intros i' ch' Heq. rewrite Hch in Heq. injection Heq as <- <-.
        split; [done|]. split; [done|]. split; [|by subst a'].
        subst a'. unfold deref. simpl. eapply read_value_write_eq.
        apply write_slot_Some.
        destruct (free_chain_cons _ _ _ Hch) as (_ & _ & ? & _).
        pose proof (capacity_bounds Hp). pose proof (wf_length _ Hwf ltac:(lia)). lia.
  - intros A B C D E. by eexists _, _, _, _.
Qed.

Section emplace_example.
#[local] Existing Instance int32_4.

Lemma emplace_full_iff_chain_empty_witness :
  let a : inplace_free_list Z :=
    {| storage_ := [Occupied 7; Free 65535; Occupied 9; Free 1];
       first_free_ := 3; size_ := 2 |} in
  ∃ a' r,
    emplace a (Constructs 8) = Some (a', r) ∧
    (r = Full ↔ free_chain a = Some []) ∧
    (r = Full → a' = a) ∧
    (∀ i ch, free_chain a = Some (i :: ch) →
             r = Placed i ∧ free_chain a' = Some ch ∧ deref a' i = Some 8 ∧
             size a' = size a + 1).
Proof.
  intros a.
  refine (proj1 (emplace_full_iff_chain_empty a 8 _ _)).
  - repeat split.
  - apply (bool_decide_unpack _). vm_compute. exact I.
Defined.
End emplace_example.

(** ** Checked access *)

Section checked_access.
Context {T : Type} {p : arena_params}.
Hypothesis Hp : instantiable.
Implicit Types (a : inplace_free_list T).

(** [erase] returns on a pointer that holds a value; [at] found the pointer
    before and throws on its index afterwards. *)
Lemma at_erased a ptr :
  wf_arena a → holds_value a ptr = Some true →
  ∃ a' idx,
    erase a ptr = Some a' ∧ as_index ptr = Some idx ∧
    at_ a idx = Some (Found ptr) ∧
    at_ a' idx = Some (OutOfRange "Index doesn't hold value.").
Proof.
  intros Hwf Hheld. pose proof (capacity_bounds Hp) as Hcap.
  destruct (wf_free_chain _ Hwf) as [ch Hch].
  destruct (decide (0 ≤ ptr < Capacity)) as [Hptr|Hptr];
    [|by rewrite holds_value_outside in Hheld].
  assert (ptr ∉ ch) as Hnotin.
  { rewrite (holds_value_chain _ _ _ Hch Hptr) in Hheld.
    by injection Hheld as Hheld%bool_decide_eq_true. }
  destruct (erase_held Hp a ptr ch Hwf Hch Hptr Hnotin)
    as (a' & _ & He & Hwf' & Hch').
  assert (owns ptr = true) as Hown by (by apply bool_decide_eq_true_2).
  exists a', ptr. split; [done|]. split; [unfold as_index; by rewrite Hown|].
  split.
  - unfold at_. rewrite Hown. simpl. by rewrite Hheld.
  - unfold at_. rewrite Hown. simpl.
    rewrite (holds_value_chain _ _ _ Hch' Hptr). simpl.
    rewrite bool_decide_eq_false_2; [done|]. intros Hn. apply Hn. set_solver.
Qed.
End checked_access.

(** C7. A value inserted into a well-formed arena that is not full is read
    back through [at(as_index(emplace(v)))], and once that pointer is erased
    [at] on the same index throws [std::out_of_range] and returns no pointer.
    The same holds for every pointer that holds a value in a well-formed
    arena: [erase] returns on it, [at] on its index found it before and
    throws afterwards; and [erase] returns on no other pointer. *)
Theorem at_roundtrip {T : Type} {p : arena_params}
    (a : inplace_free_list T) (v : T) :
  instantiable →
  wf_arena a →
  (full a = false →
   ∃ a' ptr idx,
     emplace a (Constructs v) = Some (a', Placed ptr) ∧
     as_index ptr = Some idx ∧
     at_ a' idx = Some (Found ptr) ∧
     deref a' ptr = Some v ∧
     ∃ a'', erase a' ptr = Some a'' ∧
            at_ a'' idx = Some (OutOfRange "Index doesn't hold value.")) ∧
  (∀ ptr, holds_value a ptr = Some true →
     ∃ a' idx,
       erase a ptr = Some a' ∧ as_index ptr = Some idx ∧
       at_ a idx = Some (Found ptr) ∧
       at_ a' idx = Some (OutOfRange "Index doesn't hold value.")) ∧
  (∀ ptr a', erase a ptr = Some a' → holds_value a ptr = Some true).
Proof.
  intros Hp Hwf. pose proof (capacity_bounds Hp) as Hcap. split_and!.
  - intros Hfull. unfold full in Hfull. apply bool_decide_eq_false in Hfull.
    destruct (wf_free_chain _ Hwf) as [[|i ch] Hch];
      [by apply free_chain_nil in Hch|].
    destruct (emplace_placed Hp a v i ch Hwf Hch)
      as (next & a' & Hread & Ha' & He & Hwf' & Hch').
    destruct (free_chain_cons _ _ _ Hch) as (_ & _ & Hi & _).
    pose proof (chain_NoDup _ _ _ (proj1 (free_chain_iff _ _) Hch)) as Hnd.
    apply NoDup_cons in Hnd as [Hnotin _].
    assert (holds_value a' i = Some true) as Hheld.
    { rewrite (holds_value_chain _ _ _ Hch' Hi).
      by rewrite bool_decide_eq_true_2. }
    destruct (at_erased Hp a' i Hwf' Hheld) as (a'' & idx & Her & Hidx & Hat & Hat').
    exists a', i, idx. split_and!; try done.
    + subst a'. unfold deref. simpl. eapply read_value_write_eq.
      apply write_slot_Some. pose proof (wf_length _ Hwf ltac:(lia)). lia.
    + by exists a''.
  - intros ptr Hheld. by apply (at_erased Hp).
  - intros ptr a' He. apply (erase_is_Some_iff Hp a ptr Hwf). by eexists.
Qed.

Section at_example.
#[local] Existing Instance int32_4.

Lemma at_roundtrip_witness :
  let a : inplace_free_list Z :=
    {| storage_ := [Occupied 7; Free 65535; Occupied 9; Free 1];
       first_free_ := 3; size_ := 2 |} in
  (∃ a' ptr idx,
     emplace a (Constructs 8) = Some (a', Placed ptr) ∧
     as_index ptr = Some idx ∧
     at_ a' idx = Some (Found ptr) ∧
     deref a' ptr = Some 8 ∧
     ∃ a'', erase a' ptr = Some a'' ∧
            at_ a'' idx = Some (OutOfRange "Index doesn't hold value.")) ∧
  (∃ a' idx,
     erase a 2 = Some a' ∧ as_index 2 = Some idx ∧
     at_ a idx = Some (Found 2) ∧
     at_ a' idx = Some (OutOfRange "Index doesn't hold value.")) ∧
  (∀ ptr a', erase a ptr = Some a' → holds_value a ptr = Some true).
Proof.
  intros a.
  assert (instantiable) as Hp by repeat split.
  assert (wf_arena a) as Hwf by (apply (bool_decide_unpack _); vm_compute; exact I).
  split; [|split].
  - exact (proj1 (at_roundtrip a 8 Hp Hwf) eq_refl).
  - exact (proj1 (proj2 (at_roundtrip a 8 Hp Hwf)) 2 eq_refl).
  - exact (proj2 (proj2 (at_roundtrip a 8 Hp Hwf))).
Defined.
End at_example.


(** ** A constructor that throws *)

(** C8, as the code has it.  When the constructor of [T] throws in [emplace]
    on a well-formed arena that is not full, the exception leaves [emplace]
    after the head of the free chain was taken off and before [size_] is
    counted up: [size_] and every other slot are as before, the chain is the
    old chain without its head, and the head slot holds no value and is on
    no chain (its bytes are what the constructor left), so [size()] plus the
    chain length is [Capacity - 1]; [holds_value] answers for that slot as if
    it held a value, and the arena is no longer well formed.  On a full
    arena [emplace] returns the null pointer before it constructs anything. *)
Theorem emplace_ctor_throws_pops_head {T : Type} {p : arena_params}
    (a : inplace_free_list T) (leftover : Z) :
  instantiable →
  wf_arena a →
  ∃ a' r,
    emplace a (CtorThrows leftover) = Some (a', r) ∧
    (free_chain a = Some [] → r = Full ∧ a' = a) ∧
    (∀ i ch, free_chain a = Some (i :: ch) →
       r = Raised ∧ size_ a' = size_ a ∧
       (∀ j, j ≠ i → slot_at (storage_ a') j = slot_at (storage_ a) j) ∧
       free_chain a' = Some ch ∧ (i ∉ ch) ∧
       read_value (storage_ a') i = None ∧
       holds_value a' i = Some true ∧
       size a' + Z.of_nat (length ch) = Capacity - 1 ∧
       ¬ wf_arena a').
Proof.
  intros Hp Hwf. pose proof (capacity_bounds Hp) as Hcap.
  destruct (wf_free_chain _ Hwf) as [[|i ch] Hch].
  - apply free_chain_nil in Hch as Hff. exists a, Full.
    split; [by apply emplace_full|]. split; [done|]. intros i ch Hch'. congruence.
  - destruct (emplace_raised Hp a leftover i ch Hwf Hch)
      as (next & a' & Hread & Hw & Ha' & Hemp & Hch' & Hnotin & Hnwf).
    destruct (free_chain_cons _ _ _ Hch) as (_ & _ & Hi & _).
    destruct (wf_size_bounds _ _ Hwf Hch ltac:(lia)) as [Hsize _]. simpl in Hsize.
    exists a', Raised. split; [done|].
    split; [congruence|]. intros i' ch' Heq. rewrite Hch in Heq.
    injection Heq as <- <-.
    split; [done|]. split; [by subst a'|]. split.
    { intros j Hj. by eapply slot_at_write_ne. }
    split; [done|]. split; [done|]. split.
    { eapply read_value_write_link. exact Hw. }
    split.
    { rewrite (holds_value_chain a' ch i Hch' Hi). by rewrite bool_decide_eq_true_2. }
    split; [|done]. subst a'. unfold size. simpl. lia.
Qed.

Section ctor_throws_example.
#[local] Existing Instance int32_4.

Lemma emplace_ctor_throws_pops_head_witness :
  let a : inplace_free_list Z :=
    {| storage_ := [Free 1; Free 2; Free 3; Free 65535];
       first_free_ := 0; size_ := 0 |} in
  let leftover := 513 in
  ∃ a' r,
    emplace a (CtorThrows leftover) = Some (a', r) ∧
    (free_chain a = Some [] → r = Full ∧ a' = a) ∧
    (∀ i ch, free_chain a = Some (i :: ch) →
       r = Raised ∧ size_ a' = size_ a ∧
       (∀ j, j ≠ i → slot_at (storage_ a') j = slot_at (storage_ a) j) ∧
       free_chain a' = Some ch ∧ (i ∉ ch) ∧
       read_value (storage_ a') i = None ∧
       holds_value a' i = Some true ∧
       size a' + Z.of_nat (length ch) = Capacity - 1 ∧
       ¬ wf_arena a').
Proof.
  intros a leftover. refine (emplace_ctor_throws_pops_head a leftover _ _).
  - repeat split.
  - apply (bool_decide_unpack _). vm_compute. exact I.
Defined.

(** C8 as stated fails: in the empty arena of capacity 4 a throwing
    constructor, even one that throws before it writes (the bytes keep the
    link 1), leaves an arena that differs from the one before, with slot 0
    off the chain and not counted. *)
Lemma emplace_ctor_throws_counterexample :
  let a : inplace_free_list Z :=
    {| storage_ := [Free 1; Free 2; Free 3; Free 65535];
       first_free_ := 0; size_ := 0 |} in
  wf_arena a ∧
  ∃ a', emplace a (CtorThrows 1) = Some (a', Raised) ∧
        a' ≠ a ∧
        free_chain a' = Some [1; 2; 3] ∧
        size a' + 3 ≠ capacity ∧
        ¬ wf_arena a'.
Proof.
  intros a. split; [apply (bool_decide_unpack _); vm_compute; exact I|].
  eexists. split; [reflexivity|]. split_and!; try done.
  intros Hwf. apply (bool_decide_pack _) in Hwf. vm_compute in Hwf. exact Hwf.
Qed.
End ctor_throws_example.

(** ** Moving out of an arena *)

Section move.
Context {T : Type} {p : arena_params}.
Hypothesis Hp : instantiable.
Implicit Types (a : inplace_free_list T).

Lemma destroy_all_wf a : wf_arena a → destroy_all a = Some tt.
Proof.
  intros Hwf. destruct (wf_free_chain _ Hwf) as [ch Hch].
  destruct (free_mask_wf _ _ Hch) as (m & Hm & Hbits).
  unfold destroy_all. rewrite Hm. simpl.
  match goal with |- context [mapM ?f ?l] => destruct (mapM_is_Some_2 f l) as [k ->] end;
    [|done].
  apply Forall_forall. intros i Hi%elem_of_seqZ. simpl.
  unfold bitset_test. rewrite decide_True by lia. simpl.
  destruct (Z.testbit m i) eqn:Hbit; [done|].
  destruct (wf_chain_slots a ch i Hwf Hch ltac:(lia)) as [(Hin & _) | (_ & [v ->] & _)];
    [|done].
  apply Hbits in Hin. congruence.
Qed.

Lemma initialize_move_wf tcc a : wf_arena a → is_Some (initialize_move tcc a).
Proof.
  intros Hwf. unfold initialize_move. destruct tcc; [by eexists|].
  destruct (wf_free_chain _ Hwf) as [ch Hch]. rewrite Hch. simpl.
  match goal with |- context [mapM ?f ?l] => destruct (mapM_is_Some_2 f l) as [k ->] end;
    [|by eexists].
  apply Forall_forall. intros i Hi%elem_of_seqZ. simpl.
  destruct (wf_chain_slots a ch i Hwf Hch ltac:(lia))
    as [(Hin & [o ->] & _) | (Hnotin & [v ->] & _)].
  - by rewrite bool_decide_eq_true_2.
  - by rewrite bool_decide_eq_false_2.
Qed.
End move.

(** C10. Move construction and move assignment from a well-formed arena
    return, and leave the source as [initialize_empty] builds it: [size()] is
    0, [empty()] holds, [free_mask()] has all [Capacity] bits set and the free
    chain visits the slots [0 .. Capacity - 1] in ascending order. *)
Theorem moved_from_is_empty {T : Type} {p : arena_params}
    (trivially_copy_constructible : bool) (this other : inplace_free_list T) :
  instantiable →
  wf_arena this →
  wf_arena other →
  let fresh (o : inplace_free_list T) :=
    initialize_empty = Some o ∧ size o = 0 ∧ empty o = true ∧
    free_mask o = Some (Z.ones Capacity) ∧
    (∃ m, free_mask o = Some m ∧ bitset_all m = true) ∧
    free_chain o = Some (seqZ 0 Capacity) in
  (∃ this' other',
      move_construct trivially_copy_constructible other = Some (this', other') ∧
      fresh other') ∧
  (∃ this' other',
      move_assign trivially_copy_constructible this other = Some (this', other') ∧
      fresh other').
Proof.
  intros Hp Hthis Hother fresh.
  pose proof (initialize_empty_eq (T:=T) Hp) as He.
  assert (∀ o, initialize_empty = Some o → fresh o) as Hfresh.
  { intros o Ho. unfold fresh. split; [done|].
    pose proof (initialize_empty_mask Hp _ Ho) as Hm.
    pose proof (initialize_empty_chain Hp _ Ho) as Hc.
    rewrite He in Ho. injection Ho as <-.
    split; [done|]. split; [done|]. split; [done|]. split; [|done].
    eexists. split; [done|]. unfold bitset_all. by apply bool_decide_eq_true_2. }
  destruct (initialize_move_wf trivially_copy_constructible _ Hother) as [this' Hmove].
  split.
  - eexists this', _. split; [|by apply Hfresh].
    unfold move_construct. rewrite Hmove. simpl. by rewrite He.
  - eexists this', _. split; [|by apply Hfresh].
    unfold move_assign. rewrite (destroy_all_wf _ Hthis). simpl.
    rewrite Hmove. simpl. by rewrite He.
Qed.

Section move_example.
#[local] Existing Instance int32_4.

Lemma moved_from_is_empty_witness :
  let this : inplace_free_list Z :=
    {| storage_ := [Occupied 1; Occupied 2; Occupied 3; Free 65535];
       first_free_ := 3; size_ := 3 |} in
  let other : inplace_free_list Z :=
    {| storage_ := [Occupied 7; Free 65535; Occupied 9; Free 1];
       first_free_ := 3; size_ := 2 |} in
  let fresh (o : inplace_free_list Z) :=
    initialize_empty = Some o ∧ size o = 0 ∧ empty o = true ∧
    free_mask o = Some (Z.ones Capacity) ∧
    (∃ m, free_mask o = Some m ∧ bitset_all m = true) ∧
    free_chain o = Some (seqZ 0 Capacity) in
  (∃ this' other', move_construct false other = Some (this', other') ∧ fresh other') ∧
  (∃ this' other', move_assign false this other = Some (this', other') ∧ fresh other').
Proof.
  intros this other. refine (moved_from_is_empty false this other _ _ _).
  - repeat split.
  - apply (bool_decide_unpack _). vm_compute. exact I.
  - apply (bool_decide_unpack _). vm_compute. exact I.
Defined.
End move_example.

(** ** The width of the links *)

(** C9, as the code has it.  In every instantiation that compiles the link
    type is 8 bits wide when [sizeof(T)] is 1 and 16 bits wide otherwise,
    whatever [Capacity] is; the sentinel is the largest value of that width
    and [Capacity] lies strictly below it.  The width is never smaller than
    the smallest one that would do, and it is that smallest one when
    [sizeof(T)] is 1 or [Capacity] is 255 or more. *)
Theorem offset_type_by_sizeof (p : arena_params) :
  static_assert_capacity →
  0 ≤ Capacity →
  offset_bits = (if decide (sizeof_T = 1) then 8 else 16) ∧
  offset_type_npos = 2 ^ offset_bits - 1 ∧
  Capacity < offset_type_npos ∧
  smallest_width Capacity ≤ offset_bits ∧
  (sizeof_T = 1 ∨ 255 ≤ Capacity → offset_bits = smallest_width Capacity).
Proof.
  unfold static_assert_capacity, offset_type_npos, offset_bits, smallest_width.
  intros Hlt Hnn. destruct (Z.eqb_spec sizeof_T 1) as [Heq|Hne].
  - rewrite decide_True by done.
    change (2 ^ 8 - 1) with 255 in *.
    destruct (Z.ltb_spec Capacity 255); [|lia]. split_and!; auto; lia.
  - rewrite decide_False by done.
    change (2 ^ 16 - 1) with 65535 in *. change (2 ^ 8 - 1) with 255.
    destruct (Z.ltb_spec Capacity 255), (Z.ltb_spec Capacity 65535); try lia;
      (split_and!; auto; try lia; intros [?|?]; [done | lia]).
Qed.

Lemma offset_type_by_sizeof_witness :
  let p := {| Capacity := 64; sizeof_T := 32 |} in
  offset_bits = (if decide (sizeof_T = 1) then 8 else 16) ∧
  offset_type_npos = 2 ^ offset_bits - 1 ∧
  Capacity < offset_type_npos ∧
  smallest_width Capacity ≤ offset_bits ∧
  (sizeof_T = 1 ∨ 255 ≤ Capacity → offset_bits = smallest_width Capacity).
Proof.
  intros p. apply (offset_type_by_sizeof p); [reflexivity | simpl; lia].
Defined.

(** C9 as stated fails: [inplace_free_list<std::int32_t, 4>] compiles and
    links its chain with 16-bit offsets, where 8 bits hold the indices 0 to 4
    and a sentinel above them. *)
Lemma offset_type_not_smallest :
  static_assert_capacity (p:=int32_4) ∧
  offset_bits (p:=int32_4) = 16 ∧
  smallest_width (Capacity (arena_params:=int32_4)) = 8 ∧
  Capacity (arena_params:=int32_4) < 2 ^ 8 - 1.
Proof. repeat split. Qed.


(** ** Counting the slots of an arena *)

Section counting.
Context {T : Type} {p : arena_params}.
Implicit Types (a : inplace_free_list T) (st : list (slot T)) (i j : Z) (ch : list Z).

(** Overwriting one slot exchanges its value for the new one. *)
Lemma values_insert st (n : nat) (x y : slot T) :
  st !! n = Some y →
  option_list (slot_value y) ++ values (<[n := x]> st)
  ≡ₚ option_list (slot_value x) ++ values st.
Proof.
  intros Hn. pose proof (lookup_lt_Some _ _ _ Hn) as Hlt.
  rewrite insert_take_drop by done.
  rewrite <- (take_drop_middle st n y Hn) at 3.
  unfold values. rewrite !omap_app. simpl.
  destruct (slot_value x), (slot_value y); simpl; solve_Permutation.
Qed.

Lemma values_write st i s s' st' :
  slot_at st i = Some s → write_slot st i s' = Some st' →
  option_list (slot_value s) ++ values st'
  ≡ₚ option_list (slot_value s') ++ values st.
Proof.
  intros Hs [Hi ->]%write_slot_inv. apply values_insert.
  unfold slot_at in Hs. by rewrite decide_True in Hs by lia.
Qed.

Lemma values_write_link st i o o' st' :
  read_offset st i = Some o → write_slot st i (Free o') = Some st' →
  values st' ≡ₚ values st.
Proof.
  intros Ho%read_offset_Some Hw. by apply (values_write _ _ _ _ _ Ho Hw).
Qed.

(** Moving the value of slot [r] into the free slot [l]. *)
Lemma values_move st l r o v o' st1 st2 :
  l ≠ r →
  read_offset st l = Some o → read_value st r = Some v →
  write_slot st l (Occupied v) = Some st1 →
  write_slot st1 r (Free o') = Some st2 →
  values st2 ≡ₚ values st.
Proof.
  intros Hne Ho%read_offset_Some Hv%read_value_Some Hw1 Hw2.
  pose proof (values_write _ _ _ _ _ Ho Hw1) as H1. simpl in H1.
  assert (slot_at st1 r = Some (Occupied v)) as Hv1
    by (by rewrite (slot_at_write_ne _ _ _ _ r Hw1)).
  pose proof (values_write _ _ _ _ _ Hv1 Hw2) as H2. simpl in H2.
  rewrite H1 in H2. by apply (inj (cons v)) in H2.
Qed.

Lemma values_indexed st :
  values st = omap (read_value st) (seqZ 0 (Z.of_nat (length st))).
Proof.
  induction st as [|x st IH] using rev_ind; [done|].
  rewrite length_app. simpl.
  replace (Z.of_nat (length st + 1)) with (Z.of_nat (length st) + 1) by lia.
  rewrite seqZ_app by lia. unfold values in *. rewrite !omap_app. f_equal.
  - rewrite IH. apply list_omap_ext, Forall_Forall2_diag, Forall_forall.
    intros i Hi%elem_of_seqZ. unfold read_value, slot_at.
    destruct (decide (0 ≤ i)); [|lia]. by rewrite lookup_app_l by lia.
  - simpl. unfold read_value, slot_at. rewrite decide_True by lia.
    rewrite list_lookup_middle by lia. by destruct x.
Qed.

Lemma omap_filter_length {A B} (f : A → option B) (l : list A) :
  length (omap f l) = length (filter (λ x, is_Some (f x)) l).
Proof.
  induction l as [|x l IH]; [done|]. simpl. rewrite filter_cons.
  destruct (decide (is_Some (f x))) as [[y Hy]|Hn].
  - rewrite Hy. simpl. f_equal. exact IH.
  - destruct (f x); [|exact IH]. destruct Hn. by eexists.
Qed.

Lemma filter_split_length {A} (P Q : A → Prop) `{∀ x, Decision (P x)}
    `{∀ x, Decision (Q x)} (l : list A) :
  (∀ x, x ∈ l → (P x ∧ ¬ Q x) ∨ (Q x ∧ ¬ P x)) →
  (length (filter P l) + length (filter Q l) = length l)%nat.
Proof.
  induction l as [|x l IH]; intros Hx; [done|].
  rewrite !filter_cons.
  specialize (IH ltac:(intros; apply Hx; set_solver)).
  destruct (Hx x ltac:(set_solver)) as [[? ?]|[? ?]].
  - rewrite decide_True, decide_False by done. simpl. lia.
  - rewrite decide_False, decide_True by done. simpl. lia.
Qed.

(** The occupied slots are the slots off the chain: their number is
    [Capacity] minus the length of the chain. *)
Lemma values_length st i ch :
  Z.of_nat (length st) = Capacity →
  chain st i ch →
  (∀ j, is_Some (read_offset st j) → j ∈ ch) →
  Z.of_nat (length (values st)) = Capacity - Z.of_nat (length ch).
Proof.
  intros Hlen Hch Hall.
  rewrite values_indexed, omap_filter_length, Hlen.
  assert (filter (λ j, is_Some (read_offset st j)) (seqZ 0 Capacity) ≡ₚ ch) as Hfree.
  { apply NoDup_Permutation.
    - apply NoDup_filter, NoDup_seqZ.
    - by eapply chain_NoDup.
    - intros j. rewrite list_elem_of_filter, elem_of_seqZ. split; [naive_solver|].
      intros Hj. destruct (chain_elem _ _ _ _ Hch Hj) as (? & _ & ?).
      split; [done | lia]. }
  assert (0 ≤ Capacity) by lia.
  pose proof (filter_split_length
    (λ j, is_Some (read_value st j)) (λ j, is_Some (read_offset st j))
    (seqZ 0 Capacity)) as Hsplit.
  rewrite Hfree, length_seqZ in Hsplit.
  enough ((length (filter (λ j, is_Some (read_value st j)) (seqZ 0 Capacity))
           + length ch)%nat = Z.to_nat Capacity) by lia.
  apply Hsplit. intros j Hj%elem_of_seqZ.
  destruct (slot_cases st j ltac:(lia)) as [(v & -> & ->) | (o & -> & ->)].
  - left. split; [by eexists | by intros [? ?]].
  - right. split; [by eexists | by intros [? ?]].
Qed.
End counting.


(** ** Two facts about [filter] *)

Lemma filter_all {A} (P : A → Prop) `{∀ x, Decision (P x)} (l : list A) :
  (∀ x, x ∈ l → P x) → filter P l = l.
Proof.
  induction l as [|x l IH]; intros Hall; [done|].
  rewrite filter_cons, decide_True by (apply Hall; set_solver).
  f_equal. apply IH. intros. apply Hall. set_solver.
Qed.

Lemma filter_none {A} (P : A → Prop) `{∀ x, Decision (P x)} (l : list A) :
  (∀ x, x ∈ l → ¬ P x) → filter P l = [].
Proof.
  induction l as [|x l IH]; intros Hall; [done|].
  rewrite filter_cons, decide_False by (apply Hall; set_solver).
  apply IH. intros. apply Hall. set_solver.
Qed.



(** ** Compaction of an arena *)

Section compaction.
Context {T : Type} {p : arena_params}.
Hypothesis Hp : instantiable.
Implicit Types (a : inplace_free_list T) (st : list (slot T)) (i j : Z) (ch : list Z).
Implicit Types (c : cursors T).

(** [left++] over a slot that holds a value. *)
Lemma optimize_inv_advance a mask0 c :
  optimize_inv a mask0 c →
  c_left c < c_right c →
  Z.testbit (c_mask c) (c_left c) = false →
  optimize_inv a mask0
    {| c_storage := c_storage c; c_mask := c_mask c;
       c_left := c_left c + 1; c_right := c_right c;
       c_first_free := c_first_free c; c_calls := c_calls c |}.
Proof.
  intros [Hlen Hcur Hmask Hpre Hsuf Hval Hstart Hfrom Hto Hcalls Hkept Hfree] Hlt Hbit.
  constructor; simpl; try done.
  - lia.
  - intros j Hj. destruct (decide (j = c_left c)) as [->|]; [done|]. apply Hpre. lia.
  - destruct Hstart as [?|[?|?]]; [by left | by right; left | congruence].
  - intros f t Hft. specialize (Hcalls f t Hft). naive_solver lia.
Qed.

(** [right--] over a slot that holds a link. *)
Lemma optimize_inv_retreat a mask0 c st' :
  optimize_inv a mask0 c →
  c_left c < c_right c →
  Z.testbit (c_mask c) (c_left c) = true →
  Z.testbit (c_mask c) (c_right c) = true →
  write_slot (c_storage c) (c_right c) (Free (c_right c + 1)) = Some st' →
  optimize_inv a mask0
    {| c_storage := st'; c_mask := c_mask c;
       c_left := c_left c; c_right := c_right c - 1;
       c_first_free := c_first_free c; c_calls := c_calls c |}.
Proof.
  intros [Hlen Hcur Hmask Hpre Hsuf Hval Hstart Hfrom Hto Hcalls Hkept Hfree]
    Hlt Hleft Hright Hw.
  constructor; simpl; try done.
  - by rewrite (write_slot_length _ _ _ _ Hw).
  - lia.
  - intros j Hj. destruct (decide (j = c_right c)) as [->|Hne].
    + rewrite (read_offset_write_eq _ _ _ _ Hw). split; [by eexists | done].
    + rewrite (read_offset_write_ne _ _ _ _ j Hw) by done. by apply Hmask.
  - intros j Hj. destruct (decide (j = c_right c)) as [->|Hne].
    + by rewrite (read_offset_write_eq _ _ _ _ Hw).
    + rewrite (read_offset_write_ne _ _ _ _ j Hw) by done. apply Hsuf. lia.
  - rewrite <- Hval.
    destruct (proj1 (Hmask (c_right c) ltac:(lia)) Hright) as [o Ho].
    by eapply values_write_link.
  - by right; right.
  - intros f t Hft. destruct (Hcalls f t Hft) as (? & ? & ? & ? & ? & ? & ? & Heq).
    split_and!; try done; try lia.
    rewrite <- Heq. apply (read_value_write_ne _ _ _ _ t Hw). lia.
  - intros j Hj Hbit Hnotin. destruct (Hkept j Hj Hbit Hnotin) as [Hclear Heq].
    split; [done|]. rewrite <- Heq.
    apply (read_value_write_ne _ _ _ _ j Hw). congruence.
Qed.

(** The move of the value under [right] into the free slot under [left]. *)
Lemma optimize_inv_move a mask0 c v st1 st2 :
  optimize_inv a mask0 c →
  c_left c < c_right c →
  Z.testbit (c_mask c) (c_left c) = true →
  Z.testbit (c_mask c) (c_right c) = false →
  read_value (c_storage c) (c_right c) = Some v →
  write_slot (c_storage c) (c_left c) (Occupied v) = Some st1 →
  write_slot st1 (c_right c) (Free (c_right c + 1)) = Some st2 →
  optimize_inv a mask0
    {| c_storage := st2;
       c_mask := Z.setbit (Z.clearbit (c_mask c) (c_left c)) (c_right c);
       c_left := c_left c; c_right := c_right c;
       c_first_free := c_right c;
       c_calls := c_calls c ++ [(c_right c, c_left c)] |}.
Proof.
  intros [Hlen Hcur Hmask Hpre Hsuf Hval Hstart Hfrom Hto Hcalls Hkept Hfree]
    Hlt Hleft Hright Hv Hw1 Hw2.
  assert (∀ j, Z.testbit (Z.setbit (Z.clearbit (c_mask c) (c_left c)) (c_right c)) j
               = if decide (j = c_right c) then true
                 else if decide (j = c_left c) then false
                 else Z.testbit (c_mask c) j) as Hbits.
  { intros j. rewrite Z.setbit_eqb, Z.clearbit_eqb by lia.
    repeat case_decide; subst.
    - by rewrite Z.eqb_refl.
    - rewrite (proj2 (Z.eqb_neq _ _)) by done. rewrite Z.eqb_refl.
      by rewrite andb_false_r.
    - rewrite !(proj2 (Z.eqb_neq _ _)) by done. simpl. by rewrite andb_true_r. }
  assert (∀ j, j ≠ c_left c → j ≠ c_right c →
               slot_at st2 j = slot_at (c_storage c) j) as Hother.
  { intros j ? ?. rewrite (slot_at_write_ne _ _ _ _ j Hw2) by done.
    by rewrite (slot_at_write_ne _ _ _ _ j Hw1). }
  assert (c_right c ∉ (c_calls c).*1) as Hfresh_from.
  { intros [[f t] [Heq Hin]]%list_elem_of_fmap. simpl in Heq. subst f.
    destruct (Hcalls _ _ Hin) as (_ & _ & _ & _ & ? & _). congruence. }
  assert (c_left c ∉ (c_calls c).*2) as Hfresh_to.
  { intros [[f t] [Heq Hin]]%list_elem_of_fmap. simpl in Heq. subst t.
    destruct (Hcalls _ _ Hin) as (_ & _ & _ & ? & _). congruence. }
  assert (Z.testbit mask0 (c_right c) = false) as Hright0.
  { destruct (Z.testbit mask0 (c_right c)) eqn:Hb; [|done].
    assert (c_right c ∉ (c_calls c).*2) as Hnotin.
    { intros [[f t] [Heq Hin]]%list_elem_of_fmap. simpl in Heq. subst t.
      destruct (Hcalls _ _ Hin) as (? & _). lia. }
    pose proof (Hfree (c_right c) ltac:(lia) Hb Hnotin). congruence. }
  destruct (Hkept (c_right c) ltac:(lia) Hright0 Hfresh_from) as [_ Hsame].
  constructor; simpl.
  - by rewrite (write_slot_length _ _ _ _ Hw2), (write_slot_length _ _ _ _ Hw1).
  - done.
  - intros j Hj. rewrite Hbits. repeat case_decide; subst.
    + rewrite (read_offset_write_eq _ _ _ _ Hw2). split; [by eexists | done].
    + rewrite (read_offset_write_ne _ _ _ _ (c_left c) Hw2) by done.
      rewrite (read_offset_write_value _ _ _ _ Hw1). split; [done | by intros [? ?]].
    + unfold read_offset. rewrite Hother by done. by apply Hmask.
  - intros j Hj. rewrite Hbits. rewrite !decide_False by lia. by apply Hpre.
  - intros j Hj. unfold read_offset. rewrite Hother by lia. by apply Hsuf.
  - rewrite <- Hval.
    destruct (proj1 (Hmask (c_left c) ltac:(lia)) Hleft) as [o Ho].
    eapply (values_move _ (c_left c) (c_right c)); [lia|done..].
  - right; left. rewrite Hbits. by rewrite decide_True.
  - rewrite fmap_app. simpl. apply NoDup_app. split; [done|].
    split; [|apply NoDup_singleton]. intros f Hf ->%list_elem_of_singleton. done.
  - rewrite fmap_app. simpl. apply NoDup_app. split; [done|].
    split; [|apply NoDup_singleton]. intros f Hf ->%list_elem_of_singleton. done.
  - intros f t [Hft | [= -> ->]%list_elem_of_singleton]%elem_of_app.
    + destruct (Hcalls f t Hft) as (? & ? & ? & Hbt & Hbf & ? & ? & Heq).
      assert (read_value st2 t = read_value (storage_ a) f) as Heq2.
      { rewrite <- Heq. unfold read_value.
        rewrite Hother; [done | congruence | lia]. }
      rewrite !Hbits.
      split_and!; try done; try lia; repeat case_decide; try done; lia.
    + assert (read_value st2 (c_left c) = Some v) as Hnew.
      { rewrite (read_value_write_ne _ _ _ _ (c_left c) Hw2) by lia.
        by rewrite (read_value_write_eq _ _ _ _ Hw1). }
      rewrite !Hbits.
      split_and!;
        first [ lia | done
              | by (repeat case_decide; first [done | lia])
              | by (rewrite <- Hsame, Hv; eauto) ].
  - intros j Hj Hbit Hnotin. rewrite fmap_app in Hnotin. simpl in Hnotin.
    apply not_elem_of_app in Hnotin as [Hnotin Hne%not_elem_of_cons].
    destruct Hne as [Hne _].
    destruct (Hkept j Hj Hbit Hnotin) as [Hclear Heq].
    rewrite Hbits. rewrite decide_False by done.
    split; [by case_decide|]. rewrite <- Heq.
    unfold read_value. rewrite Hother; [done | congruence | done].
  - intros j Hj Hbit Hnotin. rewrite fmap_app in Hnotin. simpl in Hnotin.
    apply not_elem_of_app in Hnotin as [Hnotin Hne%not_elem_of_cons].
    destruct Hne as [Hne _].
    rewrite Hbits. case_decide; [done|]. rewrite decide_False by done.
    by apply Hfree.
Qed.

Lemma optimize_inv_init a ch :
  wf_arena a → free_chain a = Some ch →
  optimize_inv a (mask_of 0 ch)
    {| c_storage := storage_ a; c_mask := mask_of 0 ch; c_left := 0;
       c_right := Capacity - 1; c_first_free := first_free_ a; c_calls := [] |}.
Proof.
  intros Hwf Hch. pose proof (capacity_bounds Hp) as Hcap.
  apply free_chain_iff in Hch as Hchain.
  constructor; simpl; try done; try lia.
  - by apply wf_length; [|lia].
  - intros j Hj. rewrite (mask_of_chain_testbit _ _ _ j Hchain).
    destruct (wf_chain_slots a ch j Hwf Hch Hj) as [(? & ? & _) | (? & _ & Hn)];
      [done|]. rewrite Hn. split; [done | by intros [? ?]].
  - left. done.
  - apply NoDup_nil_2.
  - apply NoDup_nil_2.
  - intros f t Hft. by apply elem_of_nil in Hft.
Qed.

Lemma optimize_loop_inv a mask0 fuel c :
  optimize_inv a mask0 c →
  optimize_measure c ≤ Z.of_nat fuel →
  ∃ c', optimize_loop fuel c = Some c' ∧ optimize_inv a mask0 c' ∧
        c_left c' = c_right c'.
Proof.
  pose proof (capacity_bounds Hp) as Hcap.
  revert c. induction fuel as [|fuel IH]; intros c Hinv Hm;
    pose proof (inv_cursors _ _ _ Hinv) as Hcur;
    pose proof (inv_length _ _ _ Hinv) as Hlen;
    unfold optimize_measure in Hm.
  - exists c. simpl. rewrite decide_False; [|destruct (Z.testbit _ _); lia].
    split; [done|]. split; [done|]. destruct (Z.testbit _ _); lia.
  - simpl. destruct (decide (c_left c < c_right c)) as [Hlt|Hge];
      [|exists c; split; [done|]; split; [done | lia]].
    unfold bitset_test.
    destruct (decide (0 ≤ c_left c < Capacity)); [|lia].
    destruct (decide (0 ≤ c_right c < Capacity)); [|lia]. simpl.
    destruct (Z.testbit (c_mask c) (c_left c)) eqn:Hleft.
    + simpl.
      rewrite (to_offset_index Hp (c_right c + 1)) by lia.
      destruct (Z.testbit (c_mask c) (c_right c)) eqn:Hright.
      * rewrite write_slot_Some by lia. simpl.
        rewrite (to_offset_index Hp (c_right c - 1)) by lia.
        apply IH.
        -- apply optimize_inv_retreat; try done. apply write_slot_Some. lia.
        -- unfold optimize_measure. simpl. rewrite Hleft. lia.
      * assert (is_Some (read_value (c_storage c) (c_right c))) as [v Hv].
        { destruct (slot_cases (c_storage c) (c_right c) ltac:(lia))
            as [(v & Hv & _) | (o & Ho & _)]; [by eexists|].
          assert (Z.testbit (c_mask c) (c_right c) = true); [|congruence].
          apply (inv_mask _ _ _ Hinv); [lia | by eexists]. }
        rewrite Hv. simpl. rewrite write_slot_Some by lia. simpl.
        rewrite write_slot_Some by (rewrite length_insert; lia). simpl.
        unfold bitset_reset, bitset_set.
        destruct (decide (0 ≤ c_left c < Capacity)); [|lia].
        destruct (decide (0 ≤ c_right c < Capacity)); [|lia]. simpl.
        apply IH.
        -- eapply optimize_inv_move; try done.
           ++ apply write_slot_Some. lia.
           ++ apply write_slot_Some. rewrite length_insert. lia.
        -- unfold optimize_measure. simpl.
           rewrite Z.setbit_neq by lia. rewrite Z.clearbit_eq. lia.
    + rewrite (to_offset_index Hp (c_left c + 1)) by lia.
      apply IH.
      * by apply optimize_inv_advance.
      * unfold optimize_measure. simpl.
        destruct (Z.testbit (c_mask c) (c_left c + 1)); lia.
Qed.

(** The array [optimize_at] leaves: [k] values, then the ascending chain. *)
Lemma optimize_at_layout a :
  wf_arena a →
  ∃ a' calls k,
    optimize_at a = Some (a', calls) ∧
    size_ a' = size_ a ∧
    Z.of_nat (length (storage_ a')) = Capacity ∧
    0 ≤ k ≤ Capacity ∧
    first_free_ a' = (if decide (k = Capacity) then offset_type_npos else k) ∧
    (∀ j, 0 ≤ j < k → is_Some (read_value (storage_ a') j)) ∧
    (∀ j, k ≤ j < Capacity →
          read_offset (storage_ a') j =
          Some (if decide (j = Capacity - 1) then offset_type_npos else j + 1)) ∧
    values (storage_ a') ≡ₚ values (storage_ a) ∧
    NoDup calls.*1 ∧ NoDup calls.*2 ∧
    (∀ f t, (f, t) ∈ calls →
            0 ≤ t < k ∧ k ≤ f < Capacity ∧
            is_Some (read_value (storage_ a) f) ∧
            read_value (storage_ a') t = read_value (storage_ a) f) ∧
    (∀ j, is_Some (read_value (storage_ a) j) → j ∉ calls.*1 →
          read_value (storage_ a') j = read_value (storage_ a) j).
Proof.
  intros Hwf. pose proof (capacity_bounds Hp) as Hcap.
  destruct (wf_free_chain _ Hwf) as [ch Hch].
  apply free_chain_iff in Hch as Hchain.
  assert (∀ j, Z.testbit (mask_of 0 ch) j = true ↔ j ∈ ch) as Hbits0
    by (intros j; by eapply mask_of_chain_testbit).
  assert (∀ j, is_Some (read_value (storage_ a) j) →
               0 ≤ j < Capacity ∧ Z.testbit (mask_of 0 ch) j = false) as Hocc0.
  { intros j [v Hv]. pose proof Hv as Hr%read_value_Some%slot_at_Some.
    rewrite (wf_length _ Hwf) in Hr by lia. split; [done|].
    destruct (Z.testbit (mask_of 0 ch) j) eqn:Hb; [|done].
    apply Hbits0 in Hb.
    destruct (wf_chain_slots a ch j Hwf Hch Hr) as [(_ & _ & ?) | (? & _)];
      [congruence | done]. }
  pose proof (optimize_inv_init a ch Hwf Hch) as Hinit.
  destruct (optimize_loop_inv a (mask_of 0 ch) (Z.to_nat (2 * Capacity)) _ Hinit)
    as (c & Hloop & Hinv & Hmeet).
  { unfold optimize_measure. cbn [c_right c_left c_mask].
    destruct (Z.testbit (mask_of 0 ch) 0); lia. }
  clear Hinit.
  destruct Hinv as [Hlen Hcur Hmask Hpre Hsuf Hval Hstart Hfrom Hto Hcalls Hkept Hfree].
  unfold optimize_at. rewrite (free_mask_chain _ _ Hch). simpl.
  rewrite (to_offset_index Hp (Capacity - 1)) by lia. rewrite Hloop. simpl.
  unfold bitset_test.
  destruct (decide (0 ≤ c_right c < Capacity)); [|lia]. simpl.
  destruct (decide (0 ≤ Capacity - 1 < Capacity)); [|lia].
  rewrite (bool_decide_eq_true_2 (c_right c >= 0)) by lia. simpl.
  assert (∀ j, 0 ≤ j < c_right c → is_Some (read_value (c_storage c) j)) as Hlow.
  { intros j Hj.
    destruct (slot_cases (c_storage c) j ltac:(lia)) as [(v & -> & _) | (o & Ho & _)];
      [by eexists|].
    assert (Z.testbit (c_mask c) j = true) as Hb
      by (apply Hmask; [lia | by eexists]).
    rewrite Hpre in Hb by lia. done. }
  destruct (Z.testbit (c_mask c) (c_right c)) eqn:Hright.
  - (* slot [right] is free: it becomes the head of the chain *)
    rewrite (to_offset_index Hp (c_right c + 1)) by lia.
    destruct (write_slot (c_storage c) (c_right c) (Free (c_right c + 1)))
      as [st1|] eqn:Hw1; [|by rewrite write_slot_Some in Hw1 by lia].
    simpl.
    assert (Z.testbit (c_mask c) (Capacity - 1) = true) as Hlast.
    { destruct (decide (c_right c = Capacity - 1)) as [<-|]; [done|].
      apply Hmask; [lia|]. rewrite Hsuf by lia. by eexists. }
    rewrite Hlast.
    pose proof (write_slot_length _ _ _ _ Hw1) as Hlen1.
    destruct (write_slot st1 (Capacity - 1) (Free offset_type_npos))
      as [st2|] eqn:Hw2; [|by rewrite write_slot_Some in Hw2 by lia].
    simpl. pose proof (write_slot_length _ _ _ _ Hw2) as Hlen2.
    assert (∀ j, Z.testbit (c_mask c) j = false →
                 read_value st2 j = read_value (c_storage c) j) as Hsame.
    { intros j Hj.
      rewrite (read_value_write_ne _ _ _ _ j Hw2) by congruence.
      apply (read_value_write_ne _ _ _ _ j Hw1). congruence. }
    eexists _, (c_calls c), (c_right c).
    split; [done|]. simpl. split; [done|]. split; [lia|]. split; [lia|].
    split; [by rewrite decide_False by lia|].
    split_and!; try done.
    + intros j Hj. rewrite Hsame by (apply Hpre; lia). apply Hlow. lia.
    + intros j Hj. case_decide as Hj'.
      * subst j. by rewrite (read_offset_write_eq _ _ _ _ Hw2).
      * rewrite (read_offset_write_ne _ _ _ _ j Hw2) by done.
        destruct (decide (j = c_right c)) as [->|].
        -- by rewrite (read_offset_write_eq _ _ _ _ Hw1).
        -- rewrite (read_offset_write_ne _ _ _ _ j Hw1) by done. apply Hsuf. lia.
    + rewrite <- Hval.
      destruct (proj1 (Hmask (c_right c) ltac:(lia)) Hright) as [o Ho].
      pose proof (values_write_link _ _ _ _ _ Ho Hw1) as H1.
      assert (is_Some (read_offset st1 (Capacity - 1))) as [o' Ho'].
      { destruct (decide (c_right c = Capacity - 1)) as [Heq|].
        - rewrite <- Heq. rewrite (read_offset_write_eq _ _ _ _ Hw1). by eexists.
        - rewrite (read_offset_write_ne _ _ _ _ _ Hw1) by done.
          rewrite Hsuf by lia. by eexists. }
      by rewrite (values_write_link _ _ _ _ _ Ho' Hw2).
    + intros f t Hft. destruct (Hcalls f t Hft) as (? & ? & ? & Hbt & ? & ? & ? & Heq).
      rewrite (Hsame _ Hbt). split_and!; try done; try lia.
      destruct (decide (t = c_right c)); [congruence | lia].
    + intros j Hj Hnotin. destruct (Hocc0 j Hj) as [Hr Hb].
      destruct (Hkept j Hr Hb Hnotin) as [Hclear Heq]. by rewrite Hsame.
  - (* slot [right] holds a value: the arena was full and nothing moved *)
    destruct Hstart as [(Hr & Hst & Hm & Hff & Hcs) | [? | ?]]; [|congruence..].
    rewrite <- Hr, Hright, Hst, Hcs, Hff. simpl. rewrite Hr.
    assert (ch = []) as ->.
    { destruct ch as [|i ch']; [done|].
      destruct (chain_elem _ _ _ i Hchain ltac:(left)) as (Hi & _ & _).
      assert (Z.testbit (c_mask c) i = true) as Hb
        by (rewrite Hm; apply Hbits0; left).
      destruct (decide (i = c_right c)) as [->|]; [congruence|].
      rewrite Hpre in Hb by lia. done. }
    apply free_chain_nil in Hch.
    eexists _, [], Capacity. split; [done|]. simpl.
    split; [done|]. split; [by apply wf_length; [|lia]|]. split; [lia|].
    split; [by rewrite decide_True|].
    split_and!; try done; try lia.
    + intros j Hj. rewrite <- Hst.
      destruct (decide (j = c_right c)) as [->|]; [|apply Hlow; lia].
      destruct (slot_cases (c_storage c) (c_right c) ltac:(lia))
        as [(v & -> & _) | (o & Ho & _)]; [by eexists|].
      assert (Z.testbit (c_mask c) (c_right c) = true) as Hb
        by (apply Hmask; [lia | by eexists]). congruence.
    + apply NoDup_nil_2.
    + apply NoDup_nil_2.
    + intros f t Hft. by apply elem_of_nil in Hft.
Qed.

(** What [optimize_at] does to a well-formed arena. *)
Lemma optimize_at_spec a :
  wf_arena a →
  ∃ a' calls,
    optimize_at a = Some (a', calls) ∧
    wf_arena a' ∧
    size a' = size a ∧ 0 ≤ size a ≤ Capacity ∧
    free_chain a' = Some (seqZ (size a) (Capacity - size a)) ∧
    (∀ j, 0 ≤ j < size a → is_Some (read_value (storage_ a') j)) ∧
    (∀ j, size a ≤ j < Capacity → is_Some (read_offset (storage_ a') j)) ∧
    live_values a' ≡ₚ live_values a ∧
    NoDup calls.*1 ∧ NoDup calls.*2 ∧
    (∀ f t, (f, t) ∈ calls →
            0 ≤ t < size a ∧ size a ≤ f < Capacity ∧
            is_Some (read_value (storage_ a) f) ∧
            read_value (storage_ a') t = read_value (storage_ a) f) ∧
    (∀ j, is_Some (read_value (storage_ a) j) → j ∉ calls.*1 →
          read_value (storage_ a') j = read_value (storage_ a) j).
Proof.
  intros Hwf. pose proof (capacity_bounds Hp) as Hcap.
  destruct (optimize_at_layout a Hwf)
    as (a' & calls & k & Hopt & Hsize & Hlen & Hk & Hff & Hlow & Hhigh & Hval
        & Hfrom & Hto & Hcalls & Hkept).
  assert (chain (storage_ a') (first_free_ a') (seqZ k (Capacity - k))) as Hchain'.
  { rewrite Hff. case_decide as Hkc.
    - subst k. rewrite Z.sub_diag. constructor.
    - apply ascending_chain_from; [done | lia | done]. }
  assert (∀ j, is_Some (read_offset (storage_ a') j) → j ∈ seqZ k (Capacity - k))
    as Hall'.
  { intros j [o Ho]. pose proof Ho as Hr%read_offset_Some%slot_at_Some.
    apply elem_of_seqZ. destruct (decide (j < k)); [|lia].
    destruct (Hlow j ltac:(lia)) as [v Hv].
    destruct (slot_cases (storage_ a') j Hr) as [(? & _ & ?) | (? & _ & ?)]; congruence. }
  assert (k = size_ a) as ->.
  { pose proof (values_length _ _ _ Hlen Hchain' Hall') as Hn'.
    rewrite length_seqZ in Hn'.
    destruct (wf_free_chain _ Hwf) as [ch Hch].
    destruct (wf_size_bounds _ _ Hwf Hch ltac:(lia)) as [Hsz _].
    apply wf_arena_iff in Hwf as (Hlen0 & ch0 & Hch0 & Hall0 & Hsz0).
    assert (Z.of_nat (length (storage_ a)) = Capacity) as Hlen0' by lia.
    pose proof (values_length _ _ _ Hlen0' Hch0 Hall0) as Hn.
    apply Permutation_length in Hval. lia. }
  exists a', calls. unfold size, live_values.
  split; [done|]. split.
  { apply wf_arena_iff. split; [lia|]. exists (seqZ (size_ a) (Capacity - size_ a)).
    split; [done|]. split; [done|]. rewrite length_seqZ. lia. }
  split; [done|]. split; [done|]. split; [by apply free_chain_iff|].
  split; [done|]. split; [|done].
  intros j Hj. rewrite Hhigh by done. by eexists.
Qed.

Lemma optimize_at_compacted a :
  wf_arena a →
  ∃ a' calls,
    optimize_at a = Some (a', calls) ∧ wf_arena a' ∧ size_ a' = size_ a ∧
    compacted a' ∧ live_values a' ≡ₚ live_values a.
Proof.
  intros Hwf.
  destruct (optimize_at_spec a Hwf)
    as (a' & calls & Hopt & Hwf' & Hsize & Hk & Hch & Hlow & Hhigh & Hval & _).
  exists a', calls. split_and!; try done.
  unfold compacted, occupied_indices. rewrite Hsize.
  replace Capacity with (size a + (Capacity - size a)) at 1 by lia.
  rewrite seqZ_app by lia. rewrite filter_app.
  rewrite (filter_all _ (seqZ 0 (size a))).
  2: { intros j Hj%elem_of_seqZ. apply Hlow. lia. }
  rewrite filter_none; [by rewrite app_nil_r|].
  intros j Hj%elem_of_seqZ. intros [v Hv]. destruct (Hhigh j ltac:(lia)) as [o Ho].
  apply read_value_Some in Hv. apply read_offset_Some in Ho. congruence.
Qed.
End compaction.

(** C1. [optimize_at] on a well-formed arena returns; afterwards the slots
    that hold a value are exactly [0 .. size() - 1], every slot from [size()]
    on is free, the free chain visits [size() .. Capacity - 1] in ascending
    order, [size()] is what it was, the live values are a permutation of the
    live values before, and the arena is well formed again. *)
Theorem optimize_at_compacts {T : Type} {p : arena_params} (a : inplace_free_list T) :
  instantiable →
  wf_arena a →
  ∃ a' calls,
    optimize_at a = Some (a', calls) ∧
    size a' = size a ∧
    occupied_indices a' = seqZ 0 (size a') ∧
    (∀ j, size a' ≤ j < Capacity → is_Some (read_offset (storage_ a') j)) ∧
    free_chain a' = Some (seqZ (size a') (Capacity - size a')) ∧
    live_values a' ≡ₚ live_values a ∧
    wf_arena a'.
Proof.
  intros Hp Hwf.
  destruct (optimize_at_spec Hp a Hwf)
    as (a' & calls & Hopt & Hwf' & Hsize & Hk & Hch & Hlow & Hhigh & Hval & _).
  destruct (optimize_at_compacted Hp a Hwf) as (a2 & calls2 & Hopt2 & _ & _ & Hc & _).
  rewrite Hopt in Hopt2. injection Hopt2 as <- <-.
  exists a', calls. rewrite Hsize. split_and!; try done. by rewrite <- Hsize.
Qed.

(** C2. During [optimize_at] on a well-formed arena the callback is called at
    most once with any slot as [from] and at most once with any slot as [to];
    a call [(from, to)] stands for a value that was at [from], is at [to]
    afterwards and is no longer at [from], with [to] different from [from];
    and a value whose slot is not the [from] of a call is in the same slot
    afterwards. *)
Theorem optimize_at_reports_moves {T : Type} {p : arena_params}
    (a : inplace_free_list T) :
  instantiable →
  wf_arena a →
  ∃ a' calls,
    optimize_at a = Some (a', calls) ∧
    NoDup calls.*1 ∧ NoDup calls.*2 ∧
    (∀ from to, (from, to) ∈ calls →
       to ≠ from ∧
       ∃ v, read_value (storage_ a) from = Some v ∧
            read_value (storage_ a') to = Some v ∧
            read_value (storage_ a') from = None) ∧
    (∀ j v, read_value (storage_ a) j = Some v → j ∉ calls.*1 →
            read_value (storage_ a') j = Some v).
Proof.
  intros Hp Hwf.
  destruct (optimize_at_spec Hp a Hwf)
    as (a' & calls & Hopt & Hwf' & Hsize & Hk & Hch & Hlow & Hhigh & Hval
        & Hfrom & Hto & Hcalls & Hkept).
  exists a', calls. split_and!; try done.
  - intros f t Hft. destruct (Hcalls f t Hft) as (Ht & Hf & [v Hv] & Heq).
    split; [lia|]. exists v. split; [done|]. split; [congruence|].
    destruct (Hhigh f Hf) as [o Ho]. apply read_offset_Some in Ho.
    unfold read_value. by rewrite Ho.
  - intros j v Hv Hnotin. rewrite <- Hv. apply Hkept; [by eexists | done].
Qed.

Section compaction_example.
#[local] Existing Instance int32_4.

Lemma optimize_at_compacts_witness :
  let a : inplace_free_list Z :=
    {| storage_ := [Free 65535; Occupied 11; Free 0; Occupied 13];
       first_free_ := 2; size_ := 2 |} in
  ∃ a' calls,
    optimize_at a = Some (a', calls) ∧
    size a' = size a ∧
    occupied_indices a' = seqZ 0 (size a') ∧
    (∀ j, size a' ≤ j < Capacity → is_Some (read_offset (storage_ a') j)) ∧
    free_chain a' = Some (seqZ (size a') (Capacity - size a')) ∧
    live_values a' ≡ₚ live_values a ∧
    wf_arena a'.
Proof.
  intros a. refine (optimize_at_compacts a _ _).
  - repeat split.
  - apply (bool_decide_unpack _). vm_compute. exact I.
Defined.

Lemma optimize_at_reports_moves_witness :
  let a : inplace_free_list Z :=
    {| storage_ := [Free 65535; Occupied 11; Free 0; Occupied 13];
       first_free_ := 2; size_ := 2 |} in
  ∃ a' calls,
    optimize_at a = Some (a', calls) ∧
    NoDup calls.*1 ∧ NoDup calls.*2 ∧
    (∀ from to, (from, to) ∈ calls →
       to ≠ from ∧
       ∃ v, read_value (storage_ a) from = Some v ∧
            read_value (storage_ a') to = Some v ∧
            read_value (storage_ a') from = None) ∧
    (∀ j v, read_value (storage_ a) j = Some v → j ∉ calls.*1 →
            read_value (storage_ a') j = Some v).
Proof.
  intros a. refine (optimize_at_reports_moves a _ _).
  - repeat split.
  - apply (bool_decide_unpack _). vm_compute. exact I.
Defined.
End compaction_example.


(** ** Sorting the chain, and the values under allocation and release *)

Section sorting.
Context {T : Type} {p : arena_params}.
Hypothesis Hp : instantiable.
Implicit Types (a : inplace_free_list T) (st : list (slot T)) (i j : Z) (ch : list Z).

Lemma wf_size_values a :
  wf_arena a → size_ a = Z.of_nat (length (live_values a)).
Proof.
  intros Hwf. pose proof (capacity_bounds Hp) as Hcap.
  pose proof (wf_length _ Hwf ltac:(lia)) as Hlen.
  apply wf_arena_iff in Hwf as (_ & ch & Hch & Hall & Hsz).
  unfold live_values. rewrite (values_length _ _ _ Hlen Hch Hall). done.
Qed.

Lemma wf_full_iff a : wf_arena a → full a = true ↔ size_ a = Capacity.
Proof.
  intros Hwf. pose proof (capacity_bounds Hp) as Hcap.
  destruct (wf_free_chain _ Hwf) as [ch Hch].
  destruct (wf_size_bounds _ _ Hwf Hch ltac:(lia)) as [Hsz _].
  unfold full. rewrite bool_decide_eq_true. rewrite <- free_chain_nil, Hch.
  split.
  - intros [= ->]. simpl in Hsz. lia.
  - intros Heq. destruct ch; [done | simpl in Hsz; lia].
Qed.

Lemma wf_empty_iff a : wf_arena a → empty a = true ↔ live_values a = [].
Proof.
  intros Hwf. unfold empty, size. rewrite bool_decide_eq_true.
  rewrite (wf_size_values a Hwf). destruct (live_values a); simpl; split; (done || lia).
Qed.

(** The loop of [sort] with [k] slots left to visit, [k - 1] down to 0. *)
Lemma sort_loop_chain (k : nat) st mask next ch :
  Z.of_nat k ≤ Capacity →
  Z.of_nat (length st) = Capacity →
  (∀ j, 0 ≤ j < Capacity →
        Z.testbit mask j = true ↔ is_Some (read_offset st j)) →
  chain st next ch →
  (∀ j, j ∈ ch → Z.of_nat k ≤ j) →
  (∀ j, Z.of_nat k ≤ j → is_Some (read_offset st j) → j ∈ ch) →
  ∃ st' next' ch',
    sort_loop (seqZ (Capacity - Z.of_nat k) (Z.of_nat k)) st mask next
      = Some (st', next') ∧
    Z.of_nat (length st') = Capacity ∧
    chain st' next' ch' ∧
    (∀ j, is_Some (read_offset st' j) → j ∈ ch') ∧
    values st' ≡ₚ values st.
Proof.
  pose proof (capacity_bounds Hp) as Hcap.
  revert st next ch. induction k as [|k IH]; intros st next ch Hk Hlen Hmask Hch Hge Hall.
  - exists st, next, ch. simpl. split; [done|]. split; [done|]. split; [done|].
    split; [|done]. intros j Hj. apply Hall; [|done].
    destruct Hj as [o Ho%read_offset_Some%slot_at_Some]. lia.
  - replace (Z.of_nat (S k)) with (Z.succ (Z.of_nat k)) in * by lia.
    rewrite seqZ_cons by lia. simpl.
    replace (Capacity - (Capacity - Z.succ (Z.of_nat k)) - 1) with (Z.of_nat k) by lia.
    rewrite (to_offset_index Hp) by lia.
    replace (Z.succ (Capacity - Z.succ (Z.of_nat k))) with (Capacity - Z.of_nat k) by lia.
    replace (Z.pred (Z.succ (Z.of_nat k))) with (Z.of_nat k) by lia.
    unfold bitset_test. rewrite decide_True by lia. simpl.
    destruct (Z.testbit mask (Z.of_nat k)) eqn:Hbit.
    + destruct (proj1 (Hmask (Z.of_nat k) ltac:(lia)) Hbit) as [o Ho].
      destruct (write_slot st (Z.of_nat k) (Free next)) as [st1|] eqn:Hw;
        [|by rewrite write_slot_Some in Hw by lia].
      simpl.
      assert (Z.of_nat k ∉ ch) as Hnotin by (intros ?%Hge; lia).
      destruct (IH st1 (Z.of_nat k) (Z.of_nat k :: ch))
        as (st' & next' & ch' & Hloop & Hlen' & Hch' & Hall' & Hval'); try lia.
      * by rewrite (write_slot_length _ _ _ _ Hw).
      * intros j Hj. destruct (decide (j = Z.of_nat k)) as [->|Hne].
        -- rewrite (read_offset_write_eq _ _ _ _ Hw). split; [by eexists | done].
        -- rewrite (read_offset_write_ne _ _ _ _ j Hw) by done. by apply Hmask.
      * econstructor; [lia | lia | by eapply read_offset_write_eq |].
        eapply chain_frame; [done|]. intros j Hj.
        apply (read_offset_write_ne _ _ _ _ j Hw). congruence.
      * intros j [->|Hj%Hge]%elem_of_cons; lia.
      * intros j Hj Hfree. destruct (decide (j = Z.of_nat k)) as [->|Hne]; [set_solver|].
        rewrite (read_offset_write_ne _ _ _ _ j Hw) in Hfree by done.
        apply elem_of_cons. right. apply Hall; [lia | done].
      * exists st', next', ch'. split; [done|]. split; [done|]. split; [done|].
        split; [done|]. rewrite Hval'. by eapply values_write_link.
    + apply (IH st next ch); try done; try lia.
      * intros j Hj%Hge. lia.
      * intros j Hj Hfree. apply Hall; [|done].
        destruct (decide (j = Z.of_nat k)) as [->|]; [|lia].
        apply Hmask in Hfree; [congruence | lia].
Qed.

Lemma sort_spec a :
  wf_arena a →
  ∃ a', sort a = Some a' ∧ wf_arena a' ∧ size_ a' = size_ a ∧
        live_values a' ≡ₚ live_values a.
Proof.
  intros Hwf. pose proof (capacity_bounds Hp) as Hcap.
  destruct (wf_free_chain _ Hwf) as [ch Hch].
  apply free_chain_iff in Hch as Hchain.
  pose proof (wf_length _ Hwf ltac:(lia)) as Hlen.
  destruct (sort_loop_chain (Z.to_nat Capacity) (storage_ a) (mask_of 0 ch)
              offset_type_npos [])
    as (st' & next' & ch' & Hloop & Hlen' & Hch' & Hall' & Hval');
    try lia; try done.
  - intros j Hj. rewrite (mask_of_chain_testbit _ _ _ j Hchain).
    destruct (wf_chain_slots a ch j Hwf Hch Hj) as [(? & ? & _) | (? & _ & Hn)];
      [done|]. rewrite Hn. split; [done | by intros [? ?]].
  - constructor.
  - intros j Hj. by apply elem_of_nil in Hj.
  - intros j Hj [o Ho%read_offset_Some%slot_at_Some]. lia.
  - rewrite Z2Nat.id, Z.sub_diag in Hloop by lia.
    eexists. unfold sort. rewrite (free_mask_chain _ _ Hch). simpl.
    rewrite Hloop. simpl. split; [done|]. unfold live_values. simpl.
    split; [|done].
    apply wf_arena_iff. simpl. split; [lia|]. exists ch'.
    split; [done|]. split; [done|].
    pose proof (values_length _ _ _ Hlen' Hch' Hall') as Hn'.
    rewrite (wf_size_values a Hwf). unfold live_values.
    apply Permutation_length in Hval'. lia.
Qed.

(** The values of an arena after a value was placed, and after a release. *)
Lemma emplace_values a v a' r :
  wf_arena a → full a = false → emplace a (Constructs v) = Some (a', r) →
  wf_arena a' ∧ live_values a' ≡ₚ v :: live_values a ∧
  size_ a' = size_ a + 1 ∧ ∃ dest, r = Placed dest ∧ 0 ≤ dest < Capacity.
Proof.
  intros Hwf Hfull He. unfold full in Hfull. apply bool_decide_eq_false in Hfull.
  destruct (wf_free_chain _ Hwf) as [[|i ch] Hch];
    [by apply free_chain_nil in Hch|].
  destruct (emplace_placed Hp a v i ch Hwf Hch)
    as (next & a1 & Hread & Ha1 & He' & Hwf' & Hch').
  rewrite He' in He. injection He as <- <-.
  destruct (free_chain_cons _ _ _ Hch) as (_ & _ & Hi & _).
  split; [done|]. split; [|split; [by subst a1 | by exists i]].
  subst a1. unfold live_values. simpl.
  pose proof (capacity_bounds Hp) as Hcap.
  pose proof (wf_length _ Hwf ltac:(lia)) as Hlen.
  apply read_offset_Some in Hread.
  apply (values_write _ _ _ (Occupied v) _ Hread). apply write_slot_Some. lia.
Qed.

Lemma erase_values a ptr v a' :
  wf_arena a → read_value (storage_ a) ptr = Some v → erase a ptr = Some a' →
  wf_arena a' ∧ v :: live_values a' ≡ₚ live_values a ∧ size_ a' = size_ a - 1.
Proof.
  intros Hwf Hv He.
  destruct (erase_inv _ _ _ Hwf He) as (ch & Hch & Hptr & Hnotin).
  destruct (erase_held Hp a ptr ch Hwf Hch Hptr Hnotin) as (a1 & Ha1 & He' & Hwf' & _).
  rewrite He' in He. injection He as <-. split; [done|].
  split; [|by subst a1]. subst a1. unfold live_values. simpl.
  pose proof (capacity_bounds Hp) as Hcap.
  pose proof (wf_length _ Hwf ltac:(lia)) as Hlen.
  apply read_value_Some in Hv.
  apply (values_write _ _ _ (Free (first_free_ a)) _ Hv). apply write_slot_Some. lia.
Qed.

Lemma holds_value_at_wf a idx :
  wf_arena a → 0 ≤ idx < Capacity →
  ∃ held, holds_value_at a idx = Some held ∧
          (held = true ↔ is_Some (read_value (storage_ a) idx)).
Proof.
  intros Hwf Hidx. destruct (wf_free_chain _ Hwf) as [ch Hch].
  rewrite holds_value_at_eq, (holds_value_chain _ _ _ Hch Hidx).
  eexists. split; [done|]. rewrite bool_decide_eq_true.
  destruct (wf_chain_slots a ch idx Hwf Hch Hidx) as [(? & _ & Hn) | (? & ? & _)].
  - rewrite Hn. split; [done | by intros [? ?]].
  - done.
Qed.
End sorting.


(** ** Dropping the last chunk *)

(** What a returning [erase] of the pool did: the slot is released in its
    chunk, and the chunk list loses its last chunk exactly when that chunk is
    the one just emptied. *)
Lemma pool_erase_inv {T : Type} {p : arena_params}
    (chunks_ chunks' : list (inplace_free_list T)) (ptr : Z * Z) :
  Pool.erase chunks_ ptr = Some chunks' →
  ∃ chunk chunk',
    Pool.chunk_at chunks_ ptr.1 = Some chunk ∧
    erase chunk ptr.2 = Some chunk' ∧
    (empty chunk' = true ∧ ptr.1 = Z.of_nat (length chunks_) - 1 →
     chunks' = take (length chunks_ - 1) chunks_ ∧
     S (length chunks') = length chunks_) ∧
    (¬ (empty chunk' = true ∧ ptr.1 = Z.of_nat (length chunks_) - 1) →
     chunks' = <[Z.to_nat ptr.1 := chunk']> chunks_ ∧
     length chunks' = length chunks_).
Proof.
  intros He. unfold Pool.erase in He.
  destruct (Pool.owning_chunk chunks_ ptr) as [k|] eqn:Hk; simpl in He; [|done].
  assert (k = ptr.1) as ->.
  { unfold Pool.owning_chunk in Hk.
    destruct (Pool.chunk_at chunks_ ptr.1); simpl in Hk; [|done].
    by destruct (owns ptr.2); simplify_eq. }
  destruct (Pool.chunk_at chunks_ ptr.1) as [chunk|] eqn:Hc; simpl in He; [|done].
  destruct (erase chunk ptr.2) as [chunk'|] eqn:Hce; simpl in He; [|done].
  exists chunk, chunk'. split; [done|]. split; [done|].
  assert (0 ≤ ptr.1 < Z.of_nat (length chunks_)) as Hrange.
  { unfold Pool.chunk_at in Hc. case_decide; [|done].
    apply lookup_lt_Some in Hc. lia. }
  unfold Pool.set_chunk, Pool.pop_back in He. rewrite length_insert in He.
  split.
  - intros [Hempty Hlast]. rewrite Hempty in He.
    rewrite bool_decide_eq_true_2 in He by done. simpl in He. injection He as <-.
    split.
    + rewrite take_insert_ge by lia. done.
    + rewrite length_take, length_insert. lia.
  - intros Hnot. destruct (empty chunk') eqn:Hempty; simpl in He.
    + rewrite bool_decide_eq_false_2 in He by (intros ?; by apply Hnot).
      injection He as <-. by rewrite length_insert.
    + injection He as <-. by rewrite length_insert.
Qed.

(** [erase] of the pool returns on every pointer that holds a value in a
    well-formed chunk of the pool. *)
Lemma pool_erase_is_Some {T : Type} {p : arena_params}
    (chunks_ : list (inplace_free_list T)) (k off : Z) chunk :
  instantiable → Pool.chunk_at chunks_ k = Some chunk → wf_arena chunk →
  holds_value chunk off = Some true →
  is_Some (Pool.erase chunks_ (k, off)).
Proof.
  intros Hp Hc Hwf Hheld.
  destruct (proj2 (erase_is_Some_iff Hp chunk off Hwf) Hheld) as [chunk' He].
  assert (owns off = true) as Hown.
  { unfold holds_value, as_index in Hheld. by destruct (owns off). }
  unfold Pool.erase, Pool.owning_chunk. simpl. rewrite Hc. simpl.
  rewrite Hown. simpl. rewrite Hc. simpl. rewrite He. simpl.
  destruct (_ && _); by eexists.
Qed.

(** C5, as the code has it.  An [erase] on a pool, given a pointer that holds
    a value in a chunk of the pool, returns and releases the slot in that
    chunk.  When the chunk holds nothing afterwards and is the last one, this
    one chunk is dropped and the chunks before it stay as they are, empty ones
    too; otherwise no chunk is dropped.  A pool of chunk capacity 2 that was
    given five values has three chunks holding 2, 2 and 1 values, and erasing
    the one value of the last chunk drops that chunk, leaving [capacity()] at
    4. *)
Theorem erase_drops_emptied_last_chunk {T : Type} {p : arena_params}
    (chunks_ : list (inplace_free_list T)) (k off : Z) chunk :
  instantiable → Pool.chunk_at chunks_ k = Some chunk → wf_arena chunk →
  holds_value chunk off = Some true →
  (∃ chunk' chunks',
      erase chunk off = Some chunk' ∧
      Pool.erase chunks_ (k, off) = Some chunks' ∧
      (empty chunk' = true ∧ k = Z.of_nat (length chunks_) - 1 →
       chunks' = take (length chunks_ - 1) chunks_ ∧
       S (length chunks') = length chunks_) ∧
      (¬ (empty chunk' = true ∧ k = Z.of_nat (length chunks_) - 1) →
       chunks' = <[Z.to_nat k := chunk']> chunks_ ∧
       length chunks' = length chunks_)) ∧
  (∀ A B C D E : T,
      ∃ five four,
        Pool.pool_run (p:=int32_2) []
          [Pool.OpEmplace (Constructs A); Pool.OpEmplace (Constructs B);
           Pool.OpEmplace (Constructs C); Pool.OpEmplace (Constructs D);
           Pool.OpEmplace (Constructs E)] = Some five ∧
        size <$> five = [2; 2; 1] ∧
        Pool.capacity (p:=int32_2) five = 6 ∧
        Pool.erase (p:=int32_2) five (2, 0) = Some four ∧
        length four = 2%nat ∧
        Pool.capacity (p:=int32_2) four = 4).
Proof.
  intros Hp Hc Hwf Hheld. split; [|intros A B C D E; by eexists _, _].
  destruct (pool_erase_is_Some chunks_ k off chunk Hp Hc Hwf Hheld)
    as [chunks' He].
  destruct (pool_erase_inv _ _ _ He) as (chunk0 & chunk' & Hc0 & Hce & H1 & H2).
  simpl in *. assert (chunk0 = chunk) as -> by congruence.
  by exists chunk', chunks'.
Qed.

Section pool_erase_example.
#[local] Existing Instance int32_2.

Lemma erase_drops_emptied_last_chunk_witness :
  let chunk : inplace_free_list Z :=
    {| storage_ := [Occupied 3; Free 65535]; first_free_ := 1; size_ := 1 |} in
  let chunks_ : list (inplace_free_list Z) :=
    [ {| storage_ := [Occupied 1; Occupied 2]; first_free_ := 65535; size_ := 2 |};
      chunk ] in
  ∃ chunk' chunks',
    erase chunk 0 = Some chunk' ∧
    Pool.erase chunks_ (1, 0) = Some chunks' ∧
    (empty chunk' = true ∧ 1 = Z.of_nat (length chunks_) - 1 →
     chunks' = take (length chunks_ - 1) chunks_ ∧
     S (length chunks') = length chunks_) ∧
    (¬ (empty chunk' = true ∧ 1 = Z.of_nat (length chunks_) - 1) →
     chunks' = <[Z.to_nat 1 := chunk']> chunks_ ∧
     length chunks' = length chunks_).
Proof.
  intros chunk chunks_.
  refine (proj1 (erase_drops_emptied_last_chunk chunks_ 1 0 chunk _ _ _ _)).
  - repeat split.
  - reflexivity.
  - apply (bool_decide_unpack _). vm_compute. exact I.
  - reflexivity.
Defined.

(** C5 as stated fails on the tail invariant: after five insertions, the
    erasure of both values of the middle chunk and the erasure of the value
    of the last chunk, the pool holds two values and ends in an empty chunk.
    The last chunk of the five-value pool holds one value, not two. *)
Lemma tail_chunk_empty_counterexample :
  ∃ five chunks_ : list (inplace_free_list Z),
    Pool.pool_run []
      [Pool.OpEmplace (Constructs 1); Pool.OpEmplace (Constructs 2);
       Pool.OpEmplace (Constructs 3); Pool.OpEmplace (Constructs 4);
       Pool.OpEmplace (Constructs 5)] = Some five ∧
    size <$> last five = Some 1 ∧
    Pool.pool_run five
      [Pool.OpErase (1, 0); Pool.OpErase (1, 1); Pool.OpErase (2, 0)]
      = Some chunks_ ∧
    Pool.size chunks_ = 2 ∧ Pool.empty chunks_ = false ∧
    empty <$> last chunks_ = Some true.
Proof. by eexists _, _. Qed.
End pool_erase_example.


(** ** Chunks of a pool *)

Section chunks.
Context {T : Type} {p : arena_params}.
Implicit Types (chunks : list (inplace_free_list T)) (c : inplace_free_list T).
Implicit Types (i j : Z).

Lemma chunk_at_Some chunks i c :
  Pool.chunk_at chunks i = Some c ↔ 0 ≤ i ∧ chunks !! Z.to_nat i = Some c.
Proof. unfold Pool.chunk_at. case_decide; naive_solver. Qed.

Lemma chunk_at_range chunks i c :
  Pool.chunk_at chunks i = Some c → 0 ≤ i < Z.of_nat (length chunks).
Proof. intros [? ?%lookup_lt_Some]%chunk_at_Some. lia. Qed.

Lemma chunk_at_is_Some chunks i :
  0 ≤ i < Z.of_nat (length chunks) → is_Some (Pool.chunk_at chunks i).
Proof.
  intros. unfold Pool.chunk_at. rewrite decide_True by lia.
  apply lookup_lt_is_Some. lia.
Qed.

Lemma chunk_at_set_eq chunks i c :
  0 ≤ i < Z.of_nat (length chunks) →
  Pool.chunk_at (Pool.set_chunk chunks i c) i = Some c.
Proof.
  intros. apply chunk_at_Some. split; [lia|].
  apply list_lookup_insert_eq. lia.
Qed.

Lemma chunk_at_set_ne chunks i j c :
  0 ≤ i → 0 ≤ j → i ≠ j →
  Pool.chunk_at (Pool.set_chunk chunks i c) j = Pool.chunk_at chunks j.
Proof.
  intros. unfold Pool.chunk_at, Pool.set_chunk. case_decide; [|done].
  apply list_lookup_insert_ne. lia.
Qed.

Lemma set_chunk_length chunks i c :
  length (Pool.set_chunk chunks i c) = length chunks.
Proof. apply length_insert. Qed.

Lemma set_chunk_wf chunks i c :
  Forall wf_arena chunks → wf_arena c → Forall wf_arena (Pool.set_chunk chunks i c).
Proof. intros. by apply Forall_insert. Qed.

Lemma chunk_at_wf chunks i c :
  Forall wf_arena chunks → Pool.chunk_at chunks i = Some c → wf_arena c.
Proof.
  intros Hall [_ Hc]%chunk_at_Some. rewrite Forall_lookup in Hall. eauto.
Qed.

(** Replacing one chunk exchanges its values for those of the new chunk. *)
Lemma pool_values_set chunks i c c' :
  Pool.chunk_at chunks i = Some c →
  live_values c ++ Pool.live_values (Pool.set_chunk chunks i c')
  ≡ₚ live_values c' ++ Pool.live_values chunks.
Proof.
  intros [Hi Hc]%chunk_at_Some. pose proof (lookup_lt_Some _ _ _ Hc) as Hlt.
  unfold Pool.set_chunk, Pool.live_values.
  rewrite insert_take_drop by done.
  rewrite <- (take_drop_middle chunks (Z.to_nat i) c Hc) at 3.
  rewrite !fmap_app, !fmap_cons, !concat_app, !concat_cons.
  solve_Permutation.
Qed.

Lemma pool_values_set_perm chunks i c c' :
  Pool.chunk_at chunks i = Some c →
  live_values c' ≡ₚ live_values c →
  Pool.live_values (Pool.set_chunk chunks i c') ≡ₚ Pool.live_values chunks.
Proof.
  intros Hc Hperm. pose proof (pool_values_set chunks i c c' Hc) as H.
  apply (Permutation_app_inv_l (live_values c)). by rewrite H, Hperm.
Qed.

(** Moving the value [v] from chunk [j] to chunk [i]. *)
Lemma pool_values_move chunks i j ci cj ci' cj' v :
  0 ≤ i → 0 ≤ j → i ≠ j →
  Pool.chunk_at chunks i = Some ci →
  Pool.chunk_at chunks j = Some cj →
  live_values ci' ≡ₚ v :: live_values ci →
  v :: live_values cj' ≡ₚ live_values cj →
  Pool.live_values (Pool.set_chunk (Pool.set_chunk chunks i ci') j cj')
  ≡ₚ Pool.live_values chunks.
Proof.
  intros Hi Hj Hne Hci Hcj Hin Hout.
  pose proof (pool_values_set chunks i ci ci' Hci) as H1.
  assert (Pool.chunk_at (Pool.set_chunk chunks i ci') j = Some cj) as Hcj1
    by (by rewrite chunk_at_set_ne).
  pose proof (pool_values_set _ j cj cj' Hcj1) as H2.
  assert (Pool.live_values (Pool.set_chunk chunks i ci')
          ≡ₚ v :: Pool.live_values chunks) as Hmid.
  { apply (Permutation_app_inv_l (live_values ci)). rewrite H1, Hin. simpl.
    by rewrite Permutation_middle. }
  apply (Permutation_app_inv_l (live_values cj)). rewrite H2, Hmid.
  rewrite <- Hout. simpl. by rewrite Permutation_middle.
Qed.
End chunks.


(** ** Compaction of a pool *)

Section pool_compaction.
Context {T : Type} {p : arena_params}.
Hypothesis Hp : instantiable.
Hypothesis Hcap16 : Capacity < 65535.
Implicit Types (chunks : list (inplace_free_list T)) (c : inplace_free_list T).
Implicit Types (i j : Z).

Lemma erase_slots c ptr c' :
  wf_arena c → erase c ptr = Some c' →
  read_value (storage_ c') ptr = None ∧
  ∀ s, s ≠ ptr → read_value (storage_ c') s = read_value (storage_ c) s.
Proof.
  intros Hwf He. pose proof (capacity_bounds Hp) as Hcap.
  destruct (erase_inv _ _ _ Hwf He) as (ch & Hch & Hptr & Hnotin).
  destruct (erase_held Hp c ptr ch Hwf Hch Hptr Hnotin) as (a1 & Ha1 & He' & _).
  rewrite He' in He. injection He as <-. subst a1. simpl.
  assert (write_slot (storage_ c) ptr (Free (first_free_ c))
          = Some (<[Z.to_nat ptr := Free (first_free_ c)]> (storage_ c))) as Hw.
  { apply write_slot_Some. pose proof (wf_length _ Hwf ltac:(lia)). lia. }
  split.
  - by eapply read_value_write_link.
  - intros s Hs. eapply read_value_write_ne; [done | congruence].
Qed.

(** The scan of [chunk_j] with [k] slots left to visit, [k - 1] down to 0. *)
Lemma drain_loop_spec (k : nat) chunks i j calls ci cj :
  Z.of_nat k ≤ Capacity → 0 ≤ i → 0 ≤ j → i ≠ j →
  Forall wf_arena chunks →
  Pool.chunk_at chunks i = Some ci →
  Pool.chunk_at chunks j = Some cj →
  (full ci = true ∨
   ∀ s, Z.of_nat k ≤ s < Capacity → read_value (storage_ cj) s = None) →
  ∃ chunks' calls' ci' cj',
    Pool.drain_loop (seqZ (Capacity - Z.of_nat k) (Z.of_nat k)) chunks i j calls
      = Some (chunks', calls') ∧
    length chunks' = length chunks ∧
    Forall wf_arena chunks' ∧
    Pool.chunk_at chunks' i = Some ci' ∧
    Pool.chunk_at chunks' j = Some cj' ∧
    (∀ m, 0 ≤ m → m ≠ i → m ≠ j →
          Pool.chunk_at chunks' m = Pool.chunk_at chunks m) ∧
    Pool.live_values chunks' ≡ₚ Pool.live_values chunks ∧
    (full ci' = true ∨
     ∀ s, 0 ≤ s < Capacity → read_value (storage_ cj') s = None).
Proof.
  pose proof (capacity_bounds Hp) as Hcap.
  revert chunks calls ci cj.
  induction k as [|k IH]; intros chunks calls ci cj Hk Hi Hj Hne Hwf Hci Hcj Hdone.
  - exists chunks, calls, ci, cj. simpl. by split_and!.
  - replace (Z.of_nat (S k)) with (Z.succ (Z.of_nat k)) in * by lia.
    rewrite seqZ_cons by lia. simpl.
    replace (Capacity - (Capacity - Z.succ (Z.of_nat k)) - 1) with (Z.of_nat k) by lia.
    rewrite to_u16_small by lia.
    replace (Z.succ (Capacity - Z.succ (Z.of_nat k))) with (Capacity - Z.of_nat k) by lia.
    replace (Z.pred (Z.succ (Z.of_nat k))) with (Z.of_nat k) by lia.
    rewrite Hcj. simpl.
    pose proof (chunk_at_wf _ _ _ Hwf Hci) as Hwfi.
    pose proof (chunk_at_wf _ _ _ Hwf Hcj) as Hwfj.
    destruct (holds_value_at_wf cj (Z.of_nat k) Hwfj ltac:(lia))
      as (held & Hheld & Hiff).
    rewrite Hheld. simpl.
    assert (∀ chunks1 calls1 ci1 cj1,
      Forall wf_arena chunks1 → length chunks1 = length chunks →
      Pool.chunk_at chunks1 i = Some ci1 → Pool.chunk_at chunks1 j = Some cj1 →
      (∀ m, 0 ≤ m → m ≠ i → m ≠ j →
            Pool.chunk_at chunks1 m = Pool.chunk_at chunks m) →
      Pool.live_values chunks1 ≡ₚ Pool.live_values chunks →
      (full ci1 = true ∨
       ∀ s, Z.of_nat k ≤ s < Capacity → read_value (storage_ cj1) s = None) →
      ∃ chunks' calls' ci' cj',
        Pool.drain_loop (seqZ (Capacity - Z.of_nat k) (Z.of_nat k)) chunks1 i j calls1
          = Some (chunks', calls') ∧
        length chunks' = length chunks ∧
        Forall wf_arena chunks' ∧
        Pool.chunk_at chunks' i = Some ci' ∧
        Pool.chunk_at chunks' j = Some cj' ∧
        (∀ m, 0 ≤ m → m ≠ i → m ≠ j →
              Pool.chunk_at chunks' m = Pool.chunk_at chunks m) ∧
        Pool.live_values chunks' ≡ₚ Pool.live_values chunks ∧
        (full ci' = true ∨
         ∀ s, 0 ≤ s < Capacity → read_value (storage_ cj') s = None)) as Hnext.
    { intros chunks1 calls1 ci1 cj1 Hwf1 Hlen1 Hci1 Hcj1 Hsame1 Hperm1 Hdone1.
      destruct (IH chunks1 calls1 ci1 cj1 ltac:(lia) Hi Hj Hne Hwf1 Hci1 Hcj1 Hdone1)
        as (chunks' & calls' & ci' & cj' & Hloop & Hlen' & Hwf' & Hci' & Hcj'
            & Hsame' & Hperm' & Hdone').
      exists chunks', calls', ci', cj'. split_and!; try done.
      - congruence.
      - intros m ? ? ?. rewrite Hsame' by done. by apply Hsame1.
      - by rewrite Hperm'. }
    destruct held.
    + rewrite Hci. simpl. destruct (full ci) eqn:Hfull; simpl.
      * apply (Hnext chunks calls ci cj); try done. by left.
      * destruct Hdone as [?|Hdone]; [congruence|].
        destruct (proj1 Hiff eq_refl) as [v Hv].
        assert (Arena.at_ cj (Z.of_nat k) = Some (Found (Z.of_nat k))) as ->.
        { unfold Arena.at_, owns. rewrite bool_decide_eq_true_2 by lia. simpl.
          rewrite <- holds_value_at_eq, Hheld. done. }
        simpl. unfold deref. rewrite Hv. simpl.
        destruct (emplace ci (Constructs v)) as [[ci' r]|] eqn:He.
        2: { destruct (wf_free_chain _ Hwfi) as [[|h ch] Hch].
             - apply free_chain_nil in Hch. unfold full in Hfull.
               by rewrite bool_decide_eq_true_2 in Hfull.
             - destruct (emplace_placed Hp ci v h ch Hwfi Hch) as (? & ? & _ & _ & He' & _).
               congruence. }
        simpl.
        destruct (emplace_values Hp ci v ci' r Hwfi Hfull He)
          as (Hwfi' & Hvi & _ & dest & -> & Hdest).
        unfold Arena.as_index, owns. rewrite bool_decide_eq_true_2 by done. simpl.
        pose proof (chunk_at_range _ _ _ Hci) as Hri.
        pose proof (chunk_at_range _ _ _ Hcj) as Hrj.
        rewrite chunk_at_set_ne by done. rewrite Hcj. simpl.
        destruct (erase cj (Z.of_nat k)) as [cj'|] eqn:Hej.
        2: { destruct (wf_free_chain _ Hwfj) as [ch Hch].
             destruct (wf_chain_slots cj ch (Z.of_nat k) Hwfj Hch ltac:(lia))
               as [(_ & _ & Hn) | (Hnotin & _)]; [congruence|].
             destruct (erase_held Hp cj (Z.of_nat k) ch Hwfj Hch ltac:(lia) Hnotin)
               as (? & _ & He' & _). congruence. }
        simpl.
        destruct (erase_values Hp cj (Z.of_nat k) v cj' Hwfj Hv Hej) as (Hwfj' & Hvj & _).
        destruct (erase_slots cj (Z.of_nat k) cj' Hwfj Hej) as [Hgone Hrest].
        apply (Hnext _ _ ci' cj').
        -- by apply set_chunk_wf; [apply set_chunk_wf|].
        -- by rewrite !set_chunk_length.
        -- rewrite chunk_at_set_ne by done. apply chunk_at_set_eq. lia.
        -- apply chunk_at_set_eq. rewrite set_chunk_length. lia.
        -- intros m ? ? ?. by rewrite !chunk_at_set_ne.
        -- by eapply pool_values_move.
        -- right. intros s Hs. destruct (decide (s = Z.of_nat k)) as [->|]; [done|].
           rewrite Hrest by done. apply Hdone. lia.
    + apply (Hnext chunks calls ci cj); try done.
      destruct Hdone as [?|Hdone]; [by left | right].
      intros s Hs. destruct (decide (s = Z.of_nat k)) as [->|]; [|apply Hdone; lia].
      destruct (read_value (storage_ cj) (Z.of_nat k)) eqn:Hr; [|done].
      assert (false = true); [|done]. apply Hiff. by eexists.
Qed.

Lemma no_values_empty c :
  wf_arena c →
  (∀ s, 0 ≤ s < Capacity → read_value (storage_ c) s = None) →
  empty c = true.
Proof.
  intros Hwf Hnone. pose proof (capacity_bounds Hp) as Hcap.
  apply (wf_empty_iff Hp _ Hwf). unfold live_values.
  rewrite values_indexed, (wf_length _ Hwf) by lia.
  assert (∀ l, (∀ s, s ∈ l → 0 ≤ s < Capacity) →
               omap (read_value (storage_ c)) l = []) as Hall.
  { induction l as [|s l IH]; intros Hl; [done|]. simpl.
    rewrite Hnone by (apply Hl; set_solver). apply IH.
    intros. apply Hl. set_solver. }
  apply Hall. intros s Hs%elem_of_seqZ. lia.
Qed.

Lemma full_compacted c : wf_arena c → size_ c = Capacity → compacted c.
Proof.
  intros Hwf Hfull. pose proof (capacity_bounds Hp) as Hcap.
  destruct (wf_free_chain _ Hwf) as [ch Hch].
  destruct (wf_size_bounds _ _ Hwf Hch ltac:(lia)) as [Hsz _].
  assert (ch = []) as -> by (destruct ch; [done | simpl in Hsz; lia]).
  unfold compacted, occupied_indices, size. rewrite Hfull.
  apply filter_all. intros j Hj%elem_of_seqZ.
  destruct (wf_chain_slots c [] j Hwf Hch ltac:(lia)) as [(Hin & _) | (_ & ? & _)];
    [by apply elem_of_nil in Hin | done].
Qed.

(** The loop of the pool's [optimize_at]. *)
Lemma pool_optimize_loop_spec chunks0 (fuel : nat) chunks i j calls :
  Z.of_nat (length chunks0) < 65535 →
  Pool.optimize_inv chunks0 chunks i j →
  j + 1 - i ≤ Z.of_nat fuel →
  ∃ chunks' calls' i' j',
    Pool.optimize_loop fuel chunks i j calls = Some (chunks', calls') ∧
    Pool.optimize_inv chunks0 chunks' i' j' ∧
    Pool.optimize_exit chunks' i' j'.
Proof.
  intros Hn. pose proof (capacity_bounds Hp) as Hcap.
  revert chunks i j calls.
  induction fuel as [|fuel IH]; intros chunks i j calls Hinv Hfuel;
    pose proof (Pool.inv_cursors _ _ _ _ Hinv) as Hcur;
    pose proof (Pool.inv_chunks _ _ _ _ Hinv) as Hlen.
  - exists chunks, calls, i, j. simpl. rewrite decide_False by lia.
    split; [done|]. split; [done|]. left. lia.
  - simpl. destruct (decide (i ≤ j ∧ j > 0)) as [Hcond|Hcond].
    2: { exists chunks, calls, i, j. split; [done|]. split; [done|].
         destruct (decide (i = j + 1)); [by left | right; left; lia]. }
    destruct Hinv as [_ Hwf _ Hfull Hempty Hval].
    destruct (chunk_at_is_Some chunks i ltac:(lia)) as [ci Hci].
    rewrite Hci. simpl.
    pose proof (chunk_at_wf _ _ _ Hwf Hci) as Hwfi.
    destruct (decide (size ci = Capacity)) as [Hsize|Hsize].
    { unfold size in Hsize. rewrite to_u16_small by lia. apply IH; [|lia].
      constructor; try done; [lia|].
      intros m c Hm Hc. destruct (decide (m = i)) as [->|]; [congruence|].
      apply (Hfull m); [lia | done]. }
    destruct (sort_spec Hp ci Hwfi) as (sorted & Hsort & Hwfs & Hszs & Hvals).
    rewrite Hsort. simpl.
    assert (Pool.live_values (Pool.set_chunk chunks i sorted)
            ≡ₚ Pool.live_values chunks) as Hval1
      by (by eapply pool_values_set_perm).
    destruct (decide (i = j)) as [Heq|Hneq].
    + subst j.
      destruct (optimize_at_compacted Hp sorted Hwfs)
        as (packed & moved & Hopt & Hwfp & Hszp & Hcomp & Hvalp).
      rewrite Hopt. simpl. eexists _, _, i, i. split; [done|].
      assert (Pool.chunk_at (Pool.set_chunk chunks i sorted) i = Some sorted) as Hcs
        by (apply chunk_at_set_eq; lia).
      split.
      * constructor.
        -- by rewrite !set_chunk_length.
        -- by apply set_chunk_wf; [apply set_chunk_wf|].
        -- rewrite !set_chunk_length. lia.
        -- intros m c Hm Hc. rewrite !chunk_at_set_ne in Hc by lia.
           by apply (Hfull m).
        -- intros m c Hm Hc. rewrite !chunk_at_set_ne in Hc by lia.
           by apply (Hempty m).
        -- rewrite <- Hval, <- Hval1. by eapply pool_values_set_perm.
      * right; right. split; [done|]. split; [lia|]. exists packed.
        split; [|done]. apply chunk_at_set_eq. rewrite set_chunk_length. lia.
    + destruct (chunk_at_is_Some chunks j ltac:(lia)) as [cj Hcj].
      pose proof (chunk_at_wf _ _ _ Hwf Hcj) as Hwfj.
      destruct (drain_loop_spec (Z.to_nat Capacity) (Pool.set_chunk chunks i sorted)
                  i j calls sorted cj)
        as (chunks2 & calls2 & ci2 & cj2 & Hdrain & Hlen2 & Hwf2 & Hci2 & Hcj2
            & Hsame & Hval2 & Hdone); try lia.
      * by apply set_chunk_wf.
      * apply chunk_at_set_eq. lia.
      * by rewrite chunk_at_set_ne by lia.
      * right. intros s Hs. lia.
      * rewrite Z2Nat.id, Z.sub_diag in Hdrain by lia.
        rewrite Hdrain. simpl. rewrite Hci2. simpl. rewrite Hcj2. simpl.
        rewrite set_chunk_length in Hlen2.
        pose proof (chunk_at_wf _ _ _ Hwf2 Hci2) as Hwfi2.
        pose proof (chunk_at_wf _ _ _ Hwf2 Hcj2) as Hwfj2.
        assert (full ci2 = true ∨ empty cj2 = true) as Hprogress.
        { destruct Hdone as [?|Hnone]; [by left | right].
          by apply no_values_empty. }
        assert (∀ m c, 0 ≤ m → m ≠ i → m ≠ j →
                  Pool.chunk_at chunks2 m = Some c → Pool.chunk_at chunks m = Some c)
          as Hsame'.
        { intros m c ? ? ? Hc. rewrite Hsame in Hc by done.
          by rewrite chunk_at_set_ne in Hc by lia. }
        apply IH.
        -- constructor.
           ++ congruence.
           ++ done.
           ++ rewrite Hlen2. destruct (full ci2), (empty cj2);
                rewrite ?to_u16_small by lia; lia.
           ++ intros m c Hm Hc. destruct (decide (m = i)) as [->|Hmi].
              ** rewrite Hci2 in Hc. injection Hc as <-.
                 destruct (full ci2) eqn:Hf; [|lia].
                 by apply (wf_full_iff Hp).
              ** apply (Hfull m); [|apply Hsame'; try done; try lia].
                 --- destruct (full ci2); rewrite ?to_u16_small in Hm by lia; lia.
                 --- destruct (full ci2); rewrite ?to_u16_small in Hm by lia; lia.
           ++ intros m c Hm Hc. destruct (decide (m = j)) as [->|Hmj].
              ** rewrite Hcj2 in Hc. injection Hc as <-.
                 destruct (empty cj2) eqn:He; [|lia].
                 unfold empty, size in He. by apply bool_decide_eq_true in He.
              ** apply (Hempty m); [|apply Hsame'; try done; try lia].
                 --- destruct (empty cj2); rewrite ?to_u16_small in Hm by lia; lia.
                 --- destruct (empty cj2); rewrite ?to_u16_small in Hm by lia; lia.
                 --- destruct (empty cj2); rewrite ?to_u16_small in Hm by lia; lia.
           ++ by rewrite Hval2, Hval1.
        -- destruct Hprogress as [-> | ->]; [destruct (empty cj2)|destruct (full ci2)];
             rewrite ?to_u16_small by lia; lia.
Qed.

Lemma shrink_rev_spec (r : list (inplace_free_list T)) :
  Exists (λ c, empty c = false) r →
  ∃ es c rest,
    r = es ++ c :: rest ∧ Forall (λ c, empty c = true) es ∧ empty c = false ∧
    Pool.shrink_rev r = Some (c :: rest).
Proof.
  induction r as [|x r IH]; intros Hex; [by apply Exists_nil in Hex|].
  simpl. destruct (empty x) eqn:Hx.
  - apply Exists_cons in Hex as [?|Hex]; [congruence|].
    destruct (IH Hex) as (es & c & rest & -> & Hes & Hc & Hs).
    exists (x :: es), c, rest. split_and!; try done. by constructor.
  - exists [], x, r. split_and!; try done.
Qed.

Lemma shrink_spec chunks :
  Exists (λ c, empty c = false) chunks →
  ∃ pre c post,
    chunks = pre ++ c :: post ∧ Forall (λ c, empty c = true) post ∧
    empty c = false ∧ Pool.shrink chunks = Some (pre ++ [c]).
Proof.
  intros Hex.
  destruct (shrink_rev_spec (reverse chunks)) as (es & c & rest & Hr & Hes & Hc & Hs).
  { apply Exists_exists in Hex as (x & Hx & Hne). apply Exists_exists.
    exists x. split; [by apply elem_of_reverse | done]. }
  exists (reverse rest), c, (reverse es).
  apply (f_equal reverse) in Hr. rewrite reverse_involutive in Hr.
  rewrite reverse_app, reverse_cons, <- app_assoc in Hr. simpl in Hr.
  split; [done|]. split; [by apply Forall_reverse|]. split; [done|].
  unfold Pool.shrink. rewrite Hs. simpl. by rewrite reverse_cons.
Qed.
End pool_compaction.

(** What the pool's [optimize_at] establishes.  On a well-formed pool that
    holds at least one value it returns; the live values are a permutation of
    those before; the chunks that remain are the lowest-indexed ones, all but
    the last full and the last not empty, so they are as few as can hold the
    values; each remaining chunk is compacted when two or more remain.  A
    pool of a single chunk is left as it is, with no call of the callback:
    the loop runs only while [chunk_j > 0], so the branch that hands a chunk
    to the arena's own compaction is reached only where the cursors meet on a
    chunk after the first. *)
Theorem pool_optimize_at_packs {T : Type} {p : arena_params}
    (chunks_ : list (inplace_free_list T)) :
  instantiable →
  Pool.wf_pool chunks_ →
  Pool.live_values chunks_ ≠ [] →
  ∃ chunks' calls pre tail,
    Pool.optimize_at chunks_ = Some (chunks', calls) ∧
    chunks' = pre ++ [tail] ∧
    (length chunks' ≤ length chunks_)%nat ∧
    Pool.wf_pool chunks' ∧
    Pool.live_values chunks' ≡ₚ Pool.live_values chunks_ ∧
    Forall (λ c, full c = true ∧ compacted c) pre ∧
    empty tail = false ∧
    (pre ≠ [] → compacted tail) ∧
    (length chunks_ = 1%nat → chunks' = chunks_ ∧ calls = []).
Proof.
  intros Hp (Hcap16 & Hn & Hwf) Hlive. pose proof (capacity_bounds Hp) as Hcap.
  assert (0 < Z.of_nat (length chunks_)) as Hpos
    by (destruct chunks_; [done | simpl; lia]).
  destruct (pool_optimize_loop_spec Hp Hcap16 chunks_ (2 * length chunks_ + 1)
              chunks_ 0 (Z.of_nat (length chunks_) - 1) [])
    as (chunks1 & calls & i & j & Hloop & Hinv & Hexit); [done | | lia |].
  { constructor; try done; try lia.
    intros m c Hm Hc%chunk_at_range. lia. }
  destruct Hinv as [Hlen1 Hwf1 Hcur Hfull Hempty Hval].
  assert (Exists (λ c, empty c = false) chunks1) as Hex.
  { assert (Pool.live_values chunks1 ≠ []) as Hlive1.
    { intros Hnil. rewrite Hnil in Hval. by apply Permutation_nil_l in Hval. }
    clear -Hlive1 Hwf1 Hp.
    induction chunks1 as [|c l IH]; [exfalso; apply Hlive1; reflexivity|].
    apply Forall_cons in Hwf1 as [Hc Hl].
    destruct (empty c) eqn:He; [|by left]. right. apply IH; [done|].
    apply (wf_empty_iff Hp c Hc) in He. unfold Pool.live_values in *.
    rewrite fmap_cons, concat_cons, He in Hlive1. done. }
  destruct (shrink_spec chunks1 Hex) as (pre & tail & post & -> & Hpost & Htail & Hshrink).
  exists (pre ++ [tail]), calls, pre, tail.
  apply Forall_app in Hwf1 as [Hwfpre Hwfrest].
  apply Forall_cons in Hwfrest as [Hwftail Hwfpost].
  assert (Pool.chunk_at (pre ++ tail :: post) (Z.of_nat (length pre)) = Some tail)
    as Htail_at.
  { apply chunk_at_Some. split; [lia|]. rewrite Nat2Z.id. by apply list_lookup_middle. }
  assert (∀ (m : nat) c, pre !! m = Some c →
            Pool.chunk_at (pre ++ tail :: post) (Z.of_nat m) = Some c) as Hpre_at.
  { intros m c Hm. apply chunk_at_Some. split; [lia|]. rewrite Nat2Z.id.
    rewrite lookup_app_l; [done|]. by eapply lookup_lt_Some. }
  assert (Z.of_nat (length pre) ≤ j) as HLj.
  { destruct (decide (Z.of_nat (length pre) ≤ j)); [done|].
    assert (j < Z.of_nat (length pre)) as Hlt by lia.
    pose proof (Hempty _ _ Hlt Htail_at) as Hz.
    unfold empty, size in Htail. rewrite bool_decide_eq_false in Htail. done. }
  assert (Forall (λ c, full c = true ∧ compacted c) pre ∧ (pre ≠ [] → compacted tail))
    as [Hpre Hcomp].
  { assert (∀ (m : nat) c, Z.of_nat m < i →
              Pool.chunk_at (pre ++ tail :: post) (Z.of_nat m) = Some c →
              wf_arena c → full c = true ∧ compacted c) as Hfc.
    { intros m c Hm Hc Hwfc.
      assert (0 ≤ Z.of_nat m < i) as Hm' by lia.
      pose proof (Hfull _ _ Hm' Hc) as Hsz.
      split; [by apply (wf_full_iff Hp) | by apply (full_compacted Hp)]. }
    assert (Z.of_nat (length pre) ≤ i → Forall (λ c, full c = true ∧ compacted c) pre)
      as Hpre_full.
    { intros Hle. apply Forall_lookup. intros m c Hm.
      pose proof (lookup_lt_Some _ _ _ Hm).
      apply (Hfc m); [lia | by apply Hpre_at |].
      rewrite Forall_lookup in Hwfpre. eauto. }
    destruct Hexit as [Hx | [[Hi0 Hj0] | (Hij & Hj1 & c & Hc & Hcc)]].
    - split; [apply Hpre_full; lia|]. intros _.
      apply (Hfc (length pre)); [lia | done | done].
    - assert (pre = []) as -> by (destruct pre; [done | simpl in HLj; lia]).
      split; [constructor | done].
    - split; [apply Hpre_full; lia|]. intros _.
      destruct (decide (Z.of_nat (length pre) = i)) as [Heq|Hne].
      + rewrite <- Heq in Hc. congruence.
      + apply (Hfc (length pre)); [lia | done | done]. }
  split.
  { unfold Pool.optimize_at. rewrite to_size_small by lia.
    rewrite to_u16_small by lia. rewrite Hloop. simpl. by rewrite Hshrink. }
  split; [done|]. split.
  { rewrite <- Hlen1. rewrite !length_app. simpl. lia. }
  split.
  { split; [done|]. split; [|by apply Forall_app; split; [|constructor]].
    rewrite length_app in *. simpl in *. lia. }
  split.
  { rewrite <- Hval. unfold Pool.live_values.
    rewrite !fmap_app, !concat_app, !fmap_cons, !concat_cons. simpl.
    assert (concat (live_values <$> post) = []) as ->; [|by rewrite !app_nil_r].
    clear -Hpost Hwfpost Hp. induction post as [|c l IH]; [done|].
    apply Forall_cons in Hpost as [Hc Hl]. apply Forall_cons in Hwfpost as [Hwc Hwl].
    rewrite fmap_cons, concat_cons, IH by done.
    by rewrite (proj1 (wf_empty_iff Hp c Hwc) Hc). }
  split; [done|]. split; [done|]. split; [done|].
  intros Hone. destruct chunks_ as [|c0 [|? ?]]; try done.
  simpl in Hloop. injection Hloop as Heq Hcalls.
  destruct pre as [|? [|? ?]], post; simplify_eq; done.
Qed.

Section pool_compaction_example.
#[local] Existing Instance int32_4.

Lemma pool_optimize_at_packs_witness :
  let chunks_ : list (inplace_free_list Z) :=
    [ {| storage_ := [Free 65535; Occupied 2; Free 0; Occupied 4];
         first_free_ := 2; size_ := 2 |};
      {| storage_ := [Occupied 5; Free 65535; Occupied 2; Occupied 3];
         first_free_ := 1; size_ := 3 |};
      {| storage_ := [Occupied 4; Occupied 5; Free 3; Free 65535];
         first_free_ := 2; size_ := 2 |} ] in
  ∃ chunks' calls pre tail,
    Pool.optimize_at chunks_ = Some (chunks', calls) ∧
    chunks' = pre ++ [tail] ∧
    (length chunks' ≤ length chunks_)%nat ∧
    Pool.wf_pool chunks' ∧
    Pool.live_values chunks' ≡ₚ Pool.live_values chunks_ ∧
    Forall (λ c, full c = true ∧ compacted c) pre ∧
    empty tail = false ∧
    (pre ≠ [] → compacted tail) ∧
    (length chunks_ = 1%nat → chunks' = chunks_ ∧ calls = []).
Proof.
  intros chunks_. refine (pool_optimize_at_packs chunks_ _ _ _).
  - repeat split.
  - apply (bool_decide_unpack _). vm_compute. exact I.
  - discriminate.
Defined.

(** C3.  The pool's [optimize_at] at a pool of one chunk with a hole below
    its values, an input in the scope of the claim: the pool comes back as it
    went in, the callback is not called and the chunk is not compacted,
    though the chunk's own [optimize_at], to which the branch
    [chunk_i == chunk_j] of the loop hands a chunk, moves the value of slot 3
    to slot 0 and compacts it; the guard [chunk_j > 0] keeps the loop from
    that branch for chunk 0.  Likewise, when the second of two chunks is
    drained into a first chunk with two holes, the loop ends at chunk 0 and
    the first chunk is left with a hole below a value. *)
Theorem pool_optimize_at_skips_first_chunk :
  let one : inplace_free_list Z :=
    {| storage_ := [Free 65535; Occupied 2; Free 0; Occupied 4];
       first_free_ := 2; size_ := 2 |} in
  let two : inplace_free_list Z :=
    {| storage_ := [Occupied 5; Free 2; Free 3; Free 65535];
       first_free_ := 1; size_ := 1 |} in
  instantiable ∧
  Pool.wf_pool [one] ∧ Pool.wf_pool [one; two] ∧
  Pool.optimize_at [one] = Some ([one], []) ∧
  ¬ compacted one ∧
  (∃ packed, optimize_at one = Some (packed, [(3, 0)]) ∧ compacted packed) ∧
  ∃ left_over,
    Pool.optimize_at [one; two] = Some ([left_over], [(65536, 0)]) ∧
    storage_ left_over = [Occupied 5; Occupied 2; Free 65535; Occupied 4] ∧
    ¬ compacted left_over.
Proof.
  intros one two. split; [repeat split|].
  split; [apply (bool_decide_unpack _); vm_compute; exact I|].
  split; [apply (bool_decide_unpack _); vm_compute; exact I|].
  split; [reflexivity|]. split; [by vm_compute|].
  split; [eexists; split; [reflexivity | by vm_compute]|].
  eexists. split; [reflexivity|]. split; [reflexivity | by vm_compute].
Qed.
End pool_compaction_example.

(** * Further properties of the arena *)

(** ** The order of allocation *)

Section allocation_order.
Context {T : Type} {p : arena_params}.
Hypothesis Hp : instantiable.
Implicit Types (a : inplace_free_list T) (i j : Z) (ch : list Z) (vs : list T).

(** Successive insertions take the slots of the free chain from its head
    on, and report full once the chain is used up. *)
Lemma emplace_all_chain vs a ch :
  wf_arena a → free_chain a = Some ch →
  ∃ a',
    emplace_all a vs
      = Some (a', (Placed <$> take (length vs) ch)
                  ++ replicate (length vs - length ch) Full) ∧
    wf_arena a' ∧
    free_chain a' = Some (drop (length vs) ch) ∧
    (∀ (k : nat) i v, ch !! k = Some i → vs !! k = Some v →
                      read_value (storage_ a') i = Some v) ∧
    (∀ j, j ∉ take (length vs) ch → slot_at (storage_ a') j = slot_at (storage_ a) j).
Proof.
  revert a ch. induction vs as [|v vs IH]; intros a ch Hwf Hch.
  - exists a. simpl. rewrite take_0, drop_0. by split_and!.
  - destruct ch as [|i ch].
    + apply free_chain_nil in Hch as Hff.
      destruct (IH a [] Hwf ltac:(by apply free_chain_nil))
        as (a' & Hall & Hwf' & Hch' & _ & Hsame).
      exists a'. simpl. rewrite emplace_full by done. simpl. rewrite Hall. simpl.
      rewrite ?take_nil, ?drop_nil, ?Nat.sub_0_r in *. simpl.
      split_and!; [done | done | done | by intros [|?] | ].
      intros j _. apply Hsame. set_solver.
    + destruct (emplace_placed Hp a v i ch Hwf Hch)
        as (next & a1 & Hread & Ha1 & He & Hwf1 & Hch1).
      destruct (IH a1 ch Hwf1 Hch1) as (a' & Hall & Hwf' & Hch' & Hval & Hsame).
      pose proof (chain_NoDup _ _ _ (proj1 (free_chain_iff _ _) Hch)) as Hnd.
      apply NoDup_cons in Hnd as [Hnotin _].
      pose proof (capacity_bounds Hp) as Hcap.
      pose proof (wf_length _ Hwf ltac:(lia)) as Hlen.
      destruct (free_chain_cons _ _ _ Hch) as (_ & _ & Hi & _).
      assert (write_slot (storage_ a) i (Occupied v) = Some (storage_ a1)) as Hw.
      { subst a1. simpl. apply write_slot_Some. lia. }
      exists a'. simpl. rewrite He. simpl. rewrite Hall. simpl.
      split_and!; [done | done | done | |].
      * intros [|k] i' v' Hk Hv; simpl in *.
        -- injection Hk as <-. injection Hv as <-.
           apply read_value_Some. rewrite Hsame.
           ++ by eapply slot_at_write_eq.
           ++ intros Hin. by apply (subseteq_take (length vs) ch) in Hin.
        -- by eapply Hval.
      * intros j Hj. apply not_elem_of_cons in Hj as [Hne Hj].
        rewrite Hsame by done. eapply slot_at_write_ne; [done | congruence].
Qed.

End allocation_order.


Lemma take_seqZ (n : nat) m len :
  Z.of_nat n ≤ len → take n (seqZ m len) = seqZ m (Z.of_nat n).
Proof.
  intros Hn. apply list_eq. intros k.
  destruct (decide (k < n)%nat).
  - rewrite lookup_take_lt by done. by rewrite !lookup_seqZ_lt by lia.
  - rewrite lookup_take_ge by lia. by rewrite lookup_seqZ_ge by lia.
Qed.

Lemma drop_seqZ (n : nat) m len :
  Z.of_nat n ≤ len → drop n (seqZ m len) = seqZ (m + Z.of_nat n) (len - Z.of_nat n).
Proof.
  intros Hn. apply list_eq. intros k. rewrite lookup_drop.
  destruct (decide (Z.of_nat k < len - Z.of_nat n)).
  - rewrite !lookup_seqZ_lt by lia. f_equal. lia.
  - by rewrite !lookup_seqZ_ge by lia.
Qed.

(** X1. Successive insertions into a well-formed arena return the slots of
    the free chain in chain order, the head first, and report full for every
    insertion after the chain is used up; the value of the [k]-th insertion
    is in the [k]-th slot of the chain, every slot that was not handed out is
    as it was, and the chain that remains is the rest of the old one. *)
Theorem emplace_follows_free_chain {T : Type} {p : arena_params}
    (a : inplace_free_list T) (ch : list Z) (vs : list T) :
  instantiable →
  wf_arena a → free_chain a = Some ch →
  ∃ a',
    emplace_all a vs
      = Some (a', (Placed <$> take (length vs) ch)
                  ++ replicate (length vs - length ch) Full) ∧
    wf_arena a' ∧
    free_chain a' = Some (drop (length vs) ch) ∧
    (∀ (k : nat) i v, ch !! k = Some i → vs !! k = Some v →
                      deref a' i = Some v) ∧
    (∀ j, j ∉ take (length vs) ch → slot_at (storage_ a') j = slot_at (storage_ a) j).
Proof. intros Hp Hwf Hch. by apply emplace_all_chain. Qed.

(** X2. Filling a newly constructed arena: the [k]-th insertion (from 0)
    returns slot [k] and its value is read back there, [size()] is the number
    of insertions, the arena is full exactly when [Capacity] values went in,
    and a full arena answers a further insertion with the null pointer and
    stays as it is. *)
Theorem fresh_arena_fills_in_order {T : Type} {p : arena_params} (vs : list T) :
  instantiable →
  Z.of_nat (length vs) ≤ Capacity →
  ∃ e a',
    initialize_empty = Some e ∧
    emplace_all e vs = Some (a', Placed <$> seqZ 0 (Z.of_nat (length vs))) ∧
    size a' = Z.of_nat (length vs) ∧
    (∀ (k : nat) v, vs !! k = Some v → deref a' (Z.of_nat k) = Some v) ∧
    (full a' = true ↔ Z.of_nat (length vs) = Capacity) ∧
    (∀ v, Z.of_nat (length vs) = Capacity →
          emplace a' (Constructs v) = Some (a', Full)).
Proof.
  intros Hp Hn. pose proof (capacity_bounds Hp) as Hcap.
  destruct (initialize_empty (T:=T)) as [e|] eqn:He;
    [|by rewrite (initialize_empty_eq Hp) in He].
  pose proof (initialize_empty_wf Hp e He) as Hwf.
  pose proof (initialize_empty_chain Hp e He) as Hch.
  destruct (emplace_all_chain Hp vs e _ Hwf Hch)
    as (a' & Hall & Hwf' & Hch' & Hval & _).
  rewrite take_seqZ in Hall by done. rewrite drop_seqZ in Hch' by done.
  rewrite length_seqZ in Hall.
  replace (length vs - Z.to_nat Capacity)%nat with 0%nat in Hall by lia.
  simpl in Hall. rewrite app_nil_r in Hall.
  destruct (wf_size_bounds _ _ Hwf' Hch' ltac:(lia)) as [Hsz _].
  rewrite length_seqZ in Hsz.
  assert (full a' = true ↔ Z.of_nat (length vs) = Capacity) as Hfull.
  { unfold full. rewrite bool_decide_eq_true, <- free_chain_nil, Hch'.
    split.
    - intros [= Heq]. apply (f_equal length) in Heq.
      rewrite length_seqZ in Heq. simpl in Heq. lia.
    - intros ->. by rewrite Z.sub_diag. }
  exists e, a'. split_and!; try done.
  - unfold size. lia.
  - intros k v Hv. apply (Hval k _ v); [|done].
    apply lookup_lt_Some in Hv as Hk. by rewrite lookup_seqZ_lt by lia.
  - intros v Heq. apply emplace_full. apply Hfull in Heq. unfold full in Heq.
    by apply bool_decide_eq_true in Heq.
Qed.

(** X3. An insertion into a well-formed arena that is not full takes the
    slot [first_free_offset()], and releasing the returned pointer gives back
    the arena exactly as it was before the insertion. *)
Theorem emplace_then_erase_restores {T : Type} {p : arena_params}
    (a : inplace_free_list T) (v : T) :
  instantiable →
  wf_arena a → full a = false →
  ∃ a1 i, emplace a (Constructs v) = Some (a1, Placed i) ∧
          i = first_free_offset a ∧ erase a1 i = Some a.
Proof.
  intros Hp.
  intros Hwf Hfull. unfold full in Hfull. apply bool_decide_eq_false in Hfull.
  destruct (wf_free_chain _ Hwf) as [[|i ch] Hch];
    [by apply free_chain_nil in Hch|].
  destruct (emplace_placed Hp a v i ch Hwf Hch)
    as (next & a1 & Hread & Ha1 & He & Hwf1 & Hch1).
  destruct (free_chain_cons _ _ _ Hch) as (Hff & _ & Hi & _).
  pose proof (chain_NoDup _ _ _ (proj1 (free_chain_iff _ _) Hch)) as Hnd.
  apply NoDup_cons in Hnd as [Hnotin _].
  destruct (erase_held Hp a1 i ch Hwf1 Hch1 Hi Hnotin) as (a2 & Ha2 & He2 & _).
  exists a1, i. split; [done|]. split; [done|]. rewrite He2. f_equal.
  subst a2 a1. simpl. destruct a as [st ff sz]. simpl in *. f_equal; [|done|lia].
  rewrite list_insert_insert_eq. apply list_insert_id.
  apply read_offset_Some in Hread. unfold slot_at in Hread.
  by rewrite decide_True in Hread by lia.
Qed.

(** X4. Releasing a held pointer of a well-formed arena and inserting again
    hands out the very slot that was released: afterwards the arena is the
    old one with the new value in that slot, the free chain and [size()]
    being what they were. *)
Theorem erase_then_emplace_reuses_slot {T : Type} {p : arena_params}
    (a : inplace_free_list T) (ptr : Z) (v : T) :
  instantiable →
  wf_arena a → holds_value a ptr = Some true →
  ∃ a1 a2,
    erase a ptr = Some a1 ∧
    emplace a1 (Constructs v) = Some (a2, Placed ptr) ∧
    a2 = {| storage_ := <[Z.to_nat ptr := Occupied v]> (storage_ a);
            first_free_ := first_free_ a; size_ := size_ a |}.
Proof.
  intros Hp.
  intros Hwf Hheld. destruct (wf_free_chain _ Hwf) as [ch Hch].
  destruct (decide (0 ≤ ptr < Capacity)) as [Hptr|Hptr];
    [|by rewrite holds_value_outside in Hheld].
  rewrite (holds_value_chain _ _ _ Hch Hptr) in Hheld.
  injection Hheld as Hnotin%bool_decide_eq_true.
  destruct (erase_held Hp a ptr ch Hwf Hch Hptr Hnotin) as (a1 & Ha1 & He & Hwf1 & Hch1).
  destruct (emplace_placed Hp a1 v ptr ch Hwf1 Hch1)
    as (next & a2 & Hread & Ha2 & He2 & _).
  exists a1, a2. split; [done|]. split; [done|].
  pose proof (capacity_bounds Hp) as Hcap.
  pose proof (wf_length _ Hwf ltac:(lia)) as Hlen.
  subst a2 a1. simpl in *. f_equal.
  - by rewrite list_insert_insert_eq.
  - apply read_offset_Some in Hread. unfold slot_at in Hread.
    rewrite decide_True in Hread by lia.
    rewrite list_lookup_insert_eq in Hread by lia. by injection Hread as <-.
  - lia.
Qed.

(** X5. After a release the slot is the head of the free chain and no longer
    holds a value, and releasing the same pointer again fails the assertion
    of [erase]. *)
Theorem erase_twice_asserts {T : Type} {p : arena_params}
    (a a1 : inplace_free_list T) (ptr : Z) :
  instantiable →
  wf_arena a → erase a ptr = Some a1 →
  erase a1 ptr = None ∧ holds_value a1 ptr = Some false ∧
  first_free_offset a1 = ptr.
Proof.
  intros Hp.
  intros Hwf He. destruct (erase_inv _ _ _ Hwf He) as (ch & Hch & Hptr & Hnotin).
  destruct (erase_held Hp a ptr ch Hwf Hch Hptr Hnotin) as (a2 & Ha2 & He2 & Hwf1 & Hch1).
  rewrite He2 in He. injection He as <-.
  split; [|split].
  - eapply erase_not_held; [done|]. left. set_solver.
  - rewrite (holds_value_chain _ _ _ Hch1 Hptr).
    rewrite bool_decide_eq_false_2; [done|]. set_solver.
  - by subst a2.
Qed.

Section allocation_order_example.
#[local] Existing Instance int32_4.

Lemma emplace_follows_free_chain_witness :
  let a : inplace_free_list Z :=
    {| storage_ := [Free 65535; Occupied 11; Free 0; Occupied 13];
       first_free_ := 2; size_ := 2 |} in
  ∃ a',
    emplace_all a [7; 8; 9] = Some (a', [Placed 2; Placed 0; Full]) ∧
    wf_arena a' ∧
    free_chain a' = Some [] ∧
    (∀ (k : nat) i v, [2; 0] !! k = Some i → [7; 8; 9] !! k = Some v →
                      deref a' i = Some v) ∧
    (∀ j, j ∉ [2; 0] → slot_at (storage_ a') j = slot_at (storage_ a) j).
Proof.
  intros a. refine (emplace_follows_free_chain a [2; 0] [7; 8; 9] _ _ _).
  - repeat split.
  - apply (bool_decide_unpack _). vm_compute. exact I.
  - reflexivity.
Defined.

Lemma fresh_arena_fills_in_order_witness :
  ∃ e a' : inplace_free_list Z,
    initialize_empty = Some e ∧
    emplace_all e [7; 8; 9] = Some (a', [Placed 0; Placed 1; Placed 2]) ∧
    size a' = 3 ∧
    (∀ (k : nat) v, [7; 8; 9] !! k = Some v → deref a' (Z.of_nat k) = Some v) ∧
    (full a' = true ↔ 3 = 4) ∧
    (∀ v, 3 = 4 → emplace a' (Constructs v) = Some (a', Full)).
Proof.
  refine (fresh_arena_fills_in_order [7; 8; 9] _ _).
  - repeat split.
  - simpl. unfold Capacity. simpl. lia.
Defined.

Lemma emplace_then_erase_restores_witness :
  let a : inplace_free_list Z :=
    {| storage_ := [Free 65535; Occupied 11; Free 0; Occupied 13];
       first_free_ := 2; size_ := 2 |} in
  ∃ a1 i, emplace a (Constructs 7) = Some (a1, Placed i) ∧
          i = first_free_offset a ∧ erase a1 i = Some a.
Proof.
  intros a. refine (emplace_then_erase_restores a 7 _ _ _).
  - repeat split.
  - apply (bool_decide_unpack _). vm_compute. exact I.
  - reflexivity.
Defined.

Lemma erase_then_emplace_reuses_slot_witness :
  let a : inplace_free_list Z :=
    {| storage_ := [Free 65535; Occupied 11; Free 0; Occupied 13];
       first_free_ := 2; size_ := 2 |} in
  ∃ a1 a2,
    erase a 3 = Some a1 ∧
    emplace a1 (Constructs 7) = Some (a2, Placed 3) ∧
    a2 = {| storage_ := <[Z.to_nat 3 := Occupied 7]> (storage_ a);
            first_free_ := first_free_ a; size_ := size_ a |}.
Proof.
  intros a. refine (erase_then_emplace_reuses_slot a 3 7 _ _ _).
  - repeat split.
  - apply (bool_decide_unpack _). vm_compute. exact I.
  - reflexivity.
Defined.

Lemma erase_twice_asserts_witness :
  let a : inplace_free_list Z :=
    {| storage_ := [Free 65535; Occupied 11; Free 0; Occupied 13];
       first_free_ := 2; size_ := 2 |} in
  let a1 : inplace_free_list Z :=
    {| storage_ := [Free 65535; Occupied 11; Free 0; Free 2];
       first_free_ := 3; size_ := 1 |} in
  erase a1 3 = None ∧ holds_value a1 3 = Some false ∧ first_free_offset a1 = 3.
Proof.
  intros a a1. refine (erase_twice_asserts a a1 3 _ _ _).
  - repeat split.
  - apply (bool_decide_unpack _). vm_compute. exact I.
  - reflexivity.
Defined.
End allocation_order_example.


(** ** Copies, [clear] and the observers *)

Section copies.
Context {T : Type} {p : arena_params}.
Hypothesis Hp : instantiable.
Implicit Types (a : inplace_free_list T) (i j : Z) (ch : list Z).

(** The slot by slot construction of [initialize_copy] and
    [initialize_move] rebuilds the array it reads. *)
Lemma rebuild_storage a ch :
  wf_arena a → free_chain a = Some ch →
  mapM (λ i, if bool_decide (i ∈ ch)
             then Free <$> read_offset (storage_ a) i
             else Occupied <$> read_value (storage_ a) i)
       (seqZ 0 Capacity) = Some (storage_ a).
Proof.
  intros Hwf Hch. pose proof (capacity_bounds Hp) as Hcap.
  pose proof (wf_length _ Hwf ltac:(lia)) as Hlen.
  apply mapM_Some, Forall2_same_length_lookup_2.
  { rewrite length_seqZ. lia. }
  intros n i s Hi Hs. apply lookup_seqZ in Hi as [-> Hn]. rewrite Z.add_0_l.
  assert (slot_at (storage_ a) (Z.of_nat n) = Some s) as Hslot.
  { unfold slot_at. rewrite decide_True by lia. by rewrite Nat2Z.id. }
  destruct (wf_chain_slots a ch (Z.of_nat n) Hwf Hch ltac:(lia))
    as [(Hin & [o Ho] & _) | (Hnotin & [v Hv] & _)].
  - rewrite bool_decide_eq_true_2 by done. rewrite Ho. simpl.
    apply read_offset_Some in Ho. congruence.
  - rewrite bool_decide_eq_false_2 by done. rewrite Hv. simpl.
    apply read_value_Some in Hv. congruence.
Qed.

Lemma initialize_copy_id tcc a : wf_arena a → initialize_copy tcc a = Some a.
Proof.
  intros Hwf. unfold initialize_copy. destruct tcc; [by destruct a|].
  destruct (wf_free_chain _ Hwf) as [ch Hch]. rewrite Hch. simpl.
  rewrite (rebuild_storage a ch Hwf Hch). simpl. by destruct a.
Qed.

Lemma initialize_move_id tcc a : wf_arena a → initialize_move tcc a = Some a.
Proof.
  intros Hwf. unfold initialize_move. destruct tcc; [by destruct a|].
  destruct (wf_free_chain _ Hwf) as [ch Hch]. rewrite Hch. simpl.
  rewrite (rebuild_storage a ch Hwf Hch). simpl. by destruct a.
Qed.

Lemma mapM_ext_in {A B : Type} (f g : A → option B) (l : list A) :
  (∀ x, x ∈ l → f x = g x) → mapM f l = mapM g l.
Proof.
  induction l as [|x l IH]; intros H; [done|]. simpl.
  rewrite (H x) by left. rewrite IH; [done|]. intros y Hy. apply H. by right.
Qed.

(** The construction of [initialize_from_self] returns exactly when no slot
    held a value, and rebuilds the array then. *)
Lemma rebuild_from_self a ch :
  wf_arena a → free_chain a = Some ch →
  mapM (λ i, if bool_decide (i ∈ ch)
             then Free <$> read_offset (storage_ a) i
             else None)
       (seqZ 0 Capacity) = if empty a then Some (storage_ a) else None.
Proof.
  intros Hwf Hch. pose proof (capacity_bounds Hp) as Hcap.
  destruct (wf_size_bounds _ _ Hwf Hch ltac:(lia)) as [Hsz _].
  apply free_chain_iff in Hch as Hchain.
  pose proof (chain_NoDup _ _ _ Hchain) as Hnd.
  assert (ch ⊆+ seqZ 0 Capacity) as Hsub.
  { apply NoDup_submseteq; [done|]. intros j Hj. apply elem_of_seqZ.
    pose proof (chain_elem _ _ _ _ Hchain Hj). lia. }
  pose proof (submseteq_length _ _ Hsub) as Hle. rewrite length_seqZ in Hle.
  unfold empty, size. case_bool_decide as Hz.
  - assert (ch ≡ₚ seqZ 0 Capacity) as Hperm.
    { apply submseteq_length_Permutation; [done|]. rewrite length_seqZ. lia. }
    rewrite <- (rebuild_storage a ch Hwf Hch). apply mapM_ext_in.
    intros i Hi. rewrite bool_decide_eq_true_2; [done|]. by rewrite Hperm.
  - apply eq_None_not_Some. intros Hsome%mapM_is_Some_1.
    assert (seqZ 0 Capacity ⊆+ ch) as Hsup.
    { apply NoDup_submseteq; [apply NoDup_seqZ|]. intros j Hj.
      rewrite Forall_forall in Hsome. specialize (Hsome j Hj). simpl in Hsome.
      case_bool_decide; [done|]. by destruct Hsome. }
    apply submseteq_length in Hsup. rewrite length_seqZ in Hsup. lia.
Qed.

Lemma initialize_from_self_eq tcc a :
  wf_arena a →
  initialize_from_self tcc a = if tcc || empty a then Some a else None.
Proof.
  intros Hwf. unfold initialize_from_self. destruct tcc; simpl; [by destruct a|].
  destruct (wf_free_chain _ Hwf) as [ch Hch]. rewrite Hch. simpl.
  rewrite (rebuild_from_self a ch Hwf Hch).
  destruct (empty a); simpl; [by destruct a | done].
Qed.

(** A mask with a bit for every slot of the chain is full exactly when the
    chain holds every slot. *)
Lemma mask_all_iff a ch :
  wf_arena a → free_chain a = Some ch →
  mask_of 0 ch = Z.ones Capacity ↔ size_ a = 0.
Proof.
  intros Hwf Hch. pose proof (capacity_bounds Hp) as Hcap.
  destruct (wf_size_bounds _ _ Hwf Hch ltac:(lia)) as [Hsz _].
  apply free_chain_iff in Hch as Hchain.
  pose proof (chain_NoDup _ _ _ Hchain) as Hnd.
  assert (ch ⊆+ seqZ 0 Capacity) as Hsub.
  { apply NoDup_submseteq; [done|]. intros j Hj. apply elem_of_seqZ.
    pose proof (chain_elem _ _ _ _ Hchain Hj). lia. }
  split.
  - intros Hm.
    assert (seqZ 0 Capacity ⊆+ ch) as Hsup.
    { apply NoDup_submseteq; [apply NoDup_seqZ|]. intros j Hj%elem_of_seqZ.
      apply (mask_of_chain_testbit _ _ _ j Hchain). rewrite Hm.
      rewrite Z.testbit_ones_nonneg by lia. apply Z.ltb_lt. lia. }
    apply submseteq_length in Hsup. apply submseteq_length in Hsub.
    rewrite length_seqZ in Hsup, Hsub. lia.
  - intros Hz.
    assert (ch ≡ₚ seqZ 0 Capacity) as Hperm.
    { apply submseteq_length_Permutation; [done|]. rewrite length_seqZ. lia. }
    apply Z.bits_inj'. intros j Hj. rewrite Z.testbit_ones_nonneg by lia.
    destruct (Z.testbit (mask_of 0 ch) j) eqn:Hbit.
    + apply (mask_of_chain_testbit _ _ _ j Hchain) in Hbit.
      rewrite Hperm in Hbit. apply elem_of_seqZ in Hbit.
      symmetry. apply Z.ltb_lt. lia.
    + symmetry. apply Z.ltb_ge. destruct (decide (j < Capacity)); [|lia].
      assert (Z.testbit (mask_of 0 ch) j = true); [|congruence].
      apply (mask_of_chain_testbit _ _ _ j Hchain). rewrite Hperm.
      apply elem_of_seqZ. lia.
Qed.
End copies.

(** X6. Copy construction and copy assignment from a well-formed arena, into
    another object, give an arena in the state of the source, slot for slot:
    the same values in the same slots, the same free chain and the same
    [size()]; move construction and move assignment give the same state to
    the target and leave the source in the state of a newly constructed
    arena.  This holds in both branches, for a trivially copy constructible
    [T] and for any other.  Assigned to itself, an arena of a trivially copy
    constructible [T], or one that holds no value, keeps its state under
    [a = a] and ends as a newly constructed arena under [a = std::move(a)],
    its values gone; for any other [T] an arena that holds a value has no
    result under either, a value being constructed from its destroyed
    self. *)
Theorem copy_and_move_keep_the_slots {T : Type} {p : arena_params}
    (tcc : bool) (other : inplace_free_list T) :
  instantiable →
  wf_arena other →
  copy_construct tcc other = Some other ∧
  (∀ this, wf_arena this → copy_assign tcc this other = Some other) ∧
  (∃ other', initialize_empty = Some other' ∧
             move_construct tcc other = Some (other, other')) ∧
  (∀ this, wf_arena this →
     ∃ other', initialize_empty = Some other' ∧
               move_assign tcc this other = Some (other, other')) ∧
  copy_assign_self tcc other = (if tcc || empty other then Some other else None) ∧
  move_assign_self tcc other
  = (if tcc || empty other then initialize_empty else None).
Proof.
  intros Hp Hwf. pose proof (initialize_empty_eq Hp (T:=T)) as He.
  split_and!.
  - by apply initialize_copy_id.
  - intros this Hthis. unfold copy_assign. rewrite (destroy_all_wf _ Hthis).
    simpl. by apply initialize_copy_id.
  - unfold move_construct. rewrite (initialize_move_id Hp) by done. simpl.
    rewrite He. simpl. by eexists.
  - intros this Hthis. unfold move_assign. rewrite (destroy_all_wf _ Hthis).
    simpl. rewrite (initialize_move_id Hp) by done. simpl.
    rewrite He. simpl. by eexists.
  - unfold copy_assign_self. rewrite (destroy_all_wf _ Hwf). simpl.
    by apply initialize_from_self_eq.
  - unfold move_assign_self. rewrite (destroy_all_wf _ Hwf). simpl.
    rewrite (initialize_from_self_eq Hp) by done.
    by destruct (tcc || empty other).
Qed.

(** X7. [clear()] on a well-formed arena returns and leaves the state of a
    newly constructed arena, whatever the arena held: [size()] is 0,
    [empty()] holds, [full()] does not, every bit of [free_mask()] is set, no
    index holds a value, and the arena is well formed. *)
Theorem clear_gives_fresh_arena {T : Type} {p : arena_params}
    (a : inplace_free_list T) :
  instantiable →
  wf_arena a →
  ∃ e, clear a = Some e ∧ initialize_empty = Some e ∧
       size e = 0 ∧ empty e = true ∧ full e = false ∧
       free_mask e = Some (Z.ones Capacity) ∧
       (∀ idx, 0 ≤ idx < Capacity → holds_value_at e idx = Some false) ∧
       wf_arena e.
Proof.
  intros Hp Hwf. pose proof (capacity_bounds Hp) as Hcap.
  pose proof (initialize_empty_eq Hp (T:=T)) as He.
  eexists. unfold clear. rewrite (destroy_all_wf _ Hwf). simpl.
  split; [exact He|]. split; [exact He|].
  pose proof (initialize_empty_chain Hp _ He) as Hch.
  split_and!; try done.
  - unfold full. simpl. apply bool_decide_eq_false_2. lia.
  - by apply (initialize_empty_mask Hp).
  - intros idx Hidx. rewrite holds_value_at_eq, (holds_value_chain _ _ _ Hch Hidx).
    rewrite bool_decide_eq_false_2; [done|]. intros Hn. apply Hn, elem_of_seqZ. lia.
  - by apply (initialize_empty_wf Hp).
Qed.

(** X8. In a well-formed arena the observers agree with the contents:
    [size()] is the number of live values and lies between 0 and
    [capacity()]; [full()], which compares the head of the chain with the
    sentinel, holds exactly when [size() == capacity()]; [empty()] holds
    exactly when no value is live; and [free_mask()] returns the mask whose
    bit [j] is clear exactly when slot [j] holds a value, with
    [free_mask().all()] exactly when the arena is empty. *)
Theorem observers_agree_with_contents {T : Type} {p : arena_params}
    (a : inplace_free_list T) :
  instantiable →
  wf_arena a →
  size a = Z.of_nat (length (live_values a)) ∧
  0 ≤ size a ≤ capacity (p:=p) ∧
  (full a = true ↔ size a = capacity (p:=p)) ∧
  (empty a = true ↔ live_values a = []) ∧
  ∃ m, free_mask a = Some m ∧
       (∀ j, 0 ≤ j < Capacity →
             Z.testbit m j = false ↔ is_Some (read_value (storage_ a) j)) ∧
       (bitset_all m = true ↔ empty a = true).
Proof.
  intros Hp Hwf. pose proof (capacity_bounds Hp) as Hcap.
  destruct (wf_free_chain _ Hwf) as [ch Hch].
  destruct (wf_size_bounds _ _ Hwf Hch ltac:(lia)) as [Hsz Hbound].
  split; [by apply wf_size_values|]. split; [done|].
  split; [by apply wf_full_iff|]. split; [by apply wf_empty_iff|].
  exists (mask_of 0 ch). split; [by apply free_mask_chain|]. split.
  - intros j Hj. apply free_chain_iff in Hch as Hchain.
    pose proof (mask_of_chain_testbit _ _ _ j Hchain) as Hbit.
    destruct (wf_chain_slots a ch j Hwf Hch Hj) as [(Hin & _ & Hn) | (Hnotin & Hv & _)].
    + rewrite Hn. split; [|by intros [? ?]].
      intros Hf. apply Hbit in Hin. congruence.
    + split; [done|]. intros _. destruct (Z.testbit (mask_of 0 ch) j); [|done].
      destruct Hnotin. by apply Hbit.
  - unfold bitset_all, empty, size. rewrite !bool_decide_eq_true.
    by apply mask_all_iff.
Qed.

(** X9. Bounds-checked access on a well-formed arena never fails an
    assertion: for an index below [Capacity] it returns the pointer to the
    slot when the slot holds a value and throws "Index doesn't hold value."
    when it does not, and for the index [Capacity] it throws "Index is out
    of range.".  The checked [operator[] const] returns the same pointer for
    a slot that holds a value and fails its assertion for one that does
    not. *)
Theorem at_checks_range_and_occupancy {T : Type} {p : arena_params}
    (a : inplace_free_list T) (idx : Z) :
  instantiable →
  wf_arena a → 0 ≤ idx ≤ Capacity →
  at_ a idx =
    Some (if decide (idx = Capacity) then OutOfRange "Index is out of range."
          else match deref a idx with
               | Some _ => Found idx
               | None => OutOfRange "Index doesn't hold value."
               end) ∧
  (idx < Capacity →
   subscript_const a idx = match deref a idx with
                           | Some _ => Some idx
                           | None => None
                           end).
Proof.
  intros Hp Hwf Hidx. unfold at_, subscript_const, data, deref, owns.
  rewrite Z.add_0_l. simpl.
  destruct (decide (idx = Capacity)) as [->|Hne].
  - rewrite bool_decide_eq_false_2 by lia. simpl. split; [done | lia].
  - rewrite bool_decide_eq_true_2 by lia. simpl.
    destruct (wf_free_chain _ Hwf) as [ch Hch].
    rewrite (holds_value_chain _ _ _ Hch) by lia. simpl.
    destruct (wf_chain_slots a ch idx Hwf Hch ltac:(lia))
      as [(Hin & _ & ->) | (Hnotin & [v ->] & _)].
    + rewrite bool_decide_eq_false_2 by (intros Hn; by apply Hn). done.
    + rewrite bool_decide_eq_true_2 by done. done.
Qed.

Section copies_example.
#[local] Existing Instance int32_4.

Lemma copy_and_move_keep_the_slots_witness :
  let other : inplace_free_list Z :=
    {| storage_ := [Free 65535; Occupied 11; Free 0; Occupied 13];
       first_free_ := 2; size_ := 2 |} in
  copy_construct false other = Some other ∧
  (∀ this, wf_arena this → copy_assign false this other = Some other) ∧
  (∃ other', initialize_empty = Some other' ∧
             move_construct false other = Some (other, other')) ∧
  (∀ this, wf_arena this →
     ∃ other', initialize_empty = Some other' ∧
               move_assign false this other = Some (other, other')) ∧
  copy_assign_self false other = None ∧
  move_assign_self false other = None.
Proof.
  intros other. refine (copy_and_move_keep_the_slots false other _ _).
  - repeat split.
  - apply (bool_decide_unpack _). vm_compute. exact I.
Defined.

Lemma clear_gives_fresh_arena_witness :
  let a : inplace_free_list Z :=
    {| storage_ := [Free 65535; Occupied 11; Free 0; Occupied 13];
       first_free_ := 2; size_ := 2 |} in
  ∃ e, clear a = Some e ∧ initialize_empty = Some e ∧
       size e = 0 ∧ empty e = true ∧ full e = false ∧
       free_mask e = Some (Z.ones Capacity) ∧
       (∀ idx, 0 ≤ idx < Capacity → holds_value_at e idx = Some false) ∧
       wf_arena e.
Proof.
  intros a. refine (clear_gives_fresh_arena a _ _).
  - repeat split.
  - apply (bool_decide_unpack _). vm_compute. exact I.
Defined.

Lemma observers_agree_with_contents_witness :
  let a : inplace_free_list Z :=
    {| storage_ := [Free 65535; Occupied 11; Free 0; Occupied 13];
       first_free_ := 2; size_ := 2 |} in
  size a = Z.of_nat (length (live_values a)) ∧
  0 ≤ size a ≤ capacity ∧
  (full a = true ↔ size a = capacity) ∧
  (empty a = true ↔ live_values a = []) ∧
  ∃ m, free_mask a = Some m ∧
       (∀ j, 0 ≤ j < Capacity →
             Z.testbit m j = false ↔ is_Some (read_value (storage_ a) j)) ∧
       (bitset_all m = true ↔ empty a = true).
Proof.
  intros a. refine (observers_agree_with_contents a _ _).
  - repeat split.
  - apply (bool_decide_unpack _). vm_compute. exact I.
Defined.

Lemma at_checks_range_and_occupancy_witness :
  let a : inplace_free_list Z :=
    {| storage_ := [Free 65535; Occupied 11; Free 0; Occupied 13];
       first_free_ := 2; size_ := 2 |} in
  at_ a 2 =
    Some (if decide (2 = Capacity) then OutOfRange "Index is out of range."
          else match deref a 2 with
               | Some _ => Found 2
               | None => OutOfRange "Index doesn't hold value."
               end) ∧
  (2 < Capacity →
   subscript_const a 2 = match deref a 2 with
                         | Some _ => Some 2
                         | None => None
                         end).
Proof.
  intros a. refine (at_checks_range_and_occupancy a 2 _ _ _).
  - repeat split.
  - apply (bool_decide_unpack _). vm_compute. exact I.
  - unfold Capacity. simpl. lia.
Defined.
End copies_example.


(** ** The sorted chain *)

Section sorted_chain.
Context {T : Type} {p : arena_params}.
Hypothesis Hp : instantiable.
Implicit Types (a : inplace_free_list T) (st : list (slot T)) (i j : Z) (ch : list Z).

(** The loop of [is_sorted] along a chain. *)
Lemma is_sorted_loop_chain fuel st i ch b :
  chain st i ch → (length ch ≤ fuel)%nat →
  is_sorted_loop fuel st i b = Some (b && bool_decide (Sorted Z.lt ch)).
Proof.
  intros H. revert fuel b.
  induction H as [|i next ch Hne Hr Hread Hch IH]; intros fuel b Hlen.
  - rewrite (bool_decide_eq_true_2 (Sorted Z.lt [])) by constructor.
    rewrite andb_true_r.
    destruct fuel; simpl; by rewrite decide_False by naive_solver.
  - destruct b.
    2: { destruct fuel; simpl; by rewrite decide_False by naive_solver. }
    destruct fuel as [|fuel]; simpl in *; [lia|].
    rewrite decide_True by done. rewrite Hread. simpl.
    rewrite IH by lia. f_equal.
    pose proof (capacity_bounds Hp) as Hcap.
    inversion Hch as [|? next' ch' ? ? ? ?]; subst.
    + rewrite (bool_decide_eq_true_2 (offset_type_npos > i)) by lia.
      rewrite (bool_decide_eq_true_2 (Sorted Z.lt [])) by constructor.
      by rewrite (bool_decide_eq_true_2 (Sorted Z.lt [i])) by repeat constructor.
    + destruct (decide (i < next)) as [Hlt|Hge].
      * rewrite (bool_decide_eq_true_2 (next > i)) by lia. simpl.
        apply bool_decide_ext. split.
        -- intros Hs. constructor; [done | by constructor].
        -- by intros [? _]%Sorted_inv.
      * rewrite (bool_decide_eq_false_2 (next > i)) by lia. simpl. symmetry.
        apply bool_decide_eq_false_2. intros [_ Hhd]%Sorted_inv.
        inversion Hhd. lia.
Qed.

Lemma is_sorted_chain a ch :
  free_chain a = Some ch → is_sorted a = Some (bool_decide (Sorted Z.lt ch)).
Proof.
  intros Hch%free_chain_iff. unfold is_sorted.
  rewrite (is_sorted_loop_chain _ _ _ ch true Hch); [done|].
  by eapply chain_length.
Qed.

(** The loop of [sort] with [k] slots left to visit, [k - 1] down to 0,
    builds the ascending chain of the slots the mask marks. *)
Lemma sort_loop_sorted (k : nat) st mask next L :
  Z.of_nat k ≤ Capacity →
  Z.of_nat (length st) = Capacity →
  (∀ j, 0 ≤ j < Capacity → Z.testbit mask j = true → is_Some (read_offset st j)) →
  chain st next L → Sorted Z.lt L →
  (∀ j, j ∈ L ↔ Z.of_nat k ≤ j < Capacity ∧ Z.testbit mask j = true) →
  ∃ st' next' L',
    sort_loop (seqZ (Capacity - Z.of_nat k) (Z.of_nat k)) st mask next
      = Some (st', next') ∧
    Z.of_nat (length st') = Capacity ∧
    chain st' next' L' ∧ Sorted Z.lt L' ∧
    (∀ j, j ∈ L' ↔ 0 ≤ j < Capacity ∧ Z.testbit mask j = true) ∧
    (∀ j, read_value st' j = read_value st j) ∧
    (∀ j, is_Some (read_offset st' j) ↔ is_Some (read_offset st j)).
Proof.
  pose proof (capacity_bounds Hp) as Hcap.
  revert st next L. induction k as [|k IH]; intros st next L Hk Hlen Hmask Hch Hs HL.
  - exists st, next, L. simpl. by split_and!.
  - replace (Z.of_nat (S k)) with (Z.succ (Z.of_nat k)) in * by lia.
    rewrite seqZ_cons by lia. simpl.
    replace (Capacity - (Capacity - Z.succ (Z.of_nat k)) - 1) with (Z.of_nat k) by lia.
    rewrite (to_offset_index Hp) by lia.
    replace (Z.succ (Capacity - Z.succ (Z.of_nat k))) with (Capacity - Z.of_nat k) by lia.
    replace (Z.pred (Z.succ (Z.of_nat k))) with (Z.of_nat k) by lia.
    unfold bitset_test. rewrite decide_True by lia. simpl.
    destruct (Z.testbit mask (Z.of_nat k)) eqn:Hbit.
    + destruct (Hmask (Z.of_nat k) ltac:(lia) Hbit) as [o Ho].
      destruct (write_slot st (Z.of_nat k) (Free next)) as [st1|] eqn:Hw;
        [|by rewrite write_slot_Some in Hw by lia].
      simpl.
      assert (Z.of_nat k ∉ L) as Hnotin by (intros [? _]%HL; lia).
      destruct (IH st1 (Z.of_nat k) (Z.of_nat k :: L))
        as (st' & next' & L' & Hloop & Hlen' & Hch' & Hs' & HL' & Hval' & Hoff');
        try lia.
      * by rewrite (write_slot_length _ _ _ _ Hw).
      * intros j Hj Hb. destruct (decide (j = Z.of_nat k)) as [->|Hne].
        -- rewrite (read_offset_write_eq _ _ _ _ Hw). by eexists.
        -- rewrite (read_offset_write_ne _ _ _ _ j Hw) by done. by apply Hmask.
      * econstructor; [lia | lia | by eapply read_offset_write_eq |].
        eapply chain_frame; [done|]. intros j Hj.
        apply (read_offset_write_ne _ _ _ _ j Hw). congruence.
      * constructor; [done|]. destruct L as [|l L]; constructor.
        assert (l ∈ l :: L) as [? _]%HL by set_solver. lia.
      * intros j. rewrite elem_of_cons, HL. split.
        -- intros [-> | [? ?]]; (split; [lia | done]).
        -- intros [? ?]. destruct (decide (j = Z.of_nat k)); [by left | right].
           split; [lia | done].
      * exists st', next', L'. split_and!; try done.
        -- intros j. rewrite Hval'. destruct (decide (j = Z.of_nat k)) as [->|Hne].
           ++ rewrite (read_value_write_link _ _ _ _ Hw).
              apply read_offset_Some in Ho. unfold read_value. by rewrite Ho.
           ++ by rewrite (read_value_write_ne _ _ _ _ j Hw).
        -- intros j. rewrite Hoff'. destruct (decide (j = Z.of_nat k)) as [->|Hne].
           ++ rewrite (read_offset_write_eq _ _ _ _ Hw). split; by eexists.
           ++ by rewrite (read_offset_write_ne _ _ _ _ j Hw).
    + apply (IH st next L); try done; try lia.
      intros j. rewrite HL. split.
      * intros [? ?]. split; [lia | done].
      * intros [? ?]. split; [|done].
        destruct (decide (j = Z.of_nat k)) as [->|]; [congruence | lia].
Qed.

(** [sort] relinks the slots of the chain in ascending order and leaves
    every value where it is. *)
Lemma sort_sorted a ch :
  wf_arena a → free_chain a = Some ch →
  ∃ a' ch',
    sort a = Some a' ∧ wf_arena a' ∧ free_chain a' = Some ch' ∧
    ch' ≡ₚ ch ∧ Sorted Z.lt ch' ∧ is_sorted a' = Some true ∧
    size_ a' = size_ a ∧
    (∀ j, read_value (storage_ a') j = read_value (storage_ a) j).
Proof.
  intros Hwf Hch. pose proof (capacity_bounds Hp) as Hcap.
  apply free_chain_iff in Hch as Hchain.
  pose proof (wf_length _ Hwf ltac:(lia)) as Hlen.
  destruct (wf_size_bounds _ _ Hwf Hch ltac:(lia)) as [Hsz _].
  assert (∀ j, 0 ≤ j < Capacity →
            Z.testbit (mask_of 0 ch) j = true ↔ is_Some (read_offset (storage_ a) j))
    as Hmask.
  { intros j Hj. rewrite (mask_of_chain_testbit _ _ _ j Hchain).
    destruct (wf_chain_slots a ch j Hwf Hch Hj) as [(? & ? & _) | (? & _ & Hn)];
      [done|]. rewrite Hn. split; [done | by intros [? ?]]. }
  assert (∀ j, j ∈ ([] : list Z) ↔
               Z.of_nat (Z.to_nat Capacity) ≤ j < Capacity ∧
               Z.testbit (mask_of 0 ch) j = true) as Hnil.
  { intros j. split; [by intros ?%elem_of_nil | lia]. }
  destruct (sort_loop_sorted (Z.to_nat Capacity) (storage_ a) (mask_of 0 ch)
              offset_type_npos [] ltac:(lia) Hlen
              (λ j Hj Hb, proj1 (Hmask j Hj) Hb)
              (chain_end _) (Sorted_nil _) Hnil)
    as (st' & next' & L' & Hloop & Hlen' & Hch' & Hs' & HL' & Hval' & Hoff').
  - rewrite Z2Nat.id, Z.sub_diag in Hloop by lia.
    assert (L' ≡ₚ ch) as Hperm.
    { apply NoDup_Permutation; [by eapply chain_NoDup | by eapply chain_NoDup |].
      intros j. rewrite HL', (mask_of_chain_testbit _ _ _ j Hchain). split; [tauto|].
      intros Hj. split; [|done]. pose proof (chain_elem _ _ _ _ Hchain Hj). lia. }
    set (a' := {| storage_ := st'; first_free_ := next'; size_ := size_ a |}).
    assert (free_chain a' = Some L') as Hfc by (by apply free_chain_iff).
    exists a', L'. split_and!; try done.
    + unfold sort. rewrite (free_mask_chain _ _ Hch). simpl. by rewrite Hloop.
    + apply wf_arena_iff. simpl. split; [lia|]. exists L'.
      split; [done|]. split.
      * intros j Hj. apply Hoff' in Hj as Hj'.
        destruct Hj' as [o Ho]. pose proof Ho as Hr%read_offset_Some%slot_at_Some.
        apply HL'. split; [lia|]. apply Hmask; [lia | by eexists].
      * apply Permutation_length in Hperm. lia.
    + rewrite (is_sorted_chain a' L' Hfc). by rewrite bool_decide_eq_true_2.
Qed.
End sorted_chain.

(** X10. [is_sorted()] walks the free chain and returns whether each slot of
    the chain has a higher index than the one before it: its result is the
    truth of "the free chain is strictly ascending". *)
Theorem is_sorted_iff_chain_ascending {T : Type} {p : arena_params}
    (a : inplace_free_list T) (ch : list Z) :
  instantiable →
  free_chain a = Some ch →
  is_sorted a = Some (bool_decide (Sorted Z.lt ch)).
Proof. intros Hp. by apply is_sorted_chain. Qed.

(** X11. [sort()] on a well-formed arena returns; it relinks the free chain
    so that it visits the same free slots in strictly ascending order, after
    which [is_sorted()] holds; every value stays in its slot, [size()] is
    unchanged and the arena stays well formed. *)
Theorem sort_orders_the_free_chain {T : Type} {p : arena_params}
    (a : inplace_free_list T) (ch : list Z) :
  instantiable →
  wf_arena a → free_chain a = Some ch →
  ∃ a' ch',
    sort a = Some a' ∧ wf_arena a' ∧ free_chain a' = Some ch' ∧
    ch' ≡ₚ ch ∧ Sorted Z.lt ch' ∧ is_sorted a' = Some true ∧
    size a' = size a ∧
    (∀ j, deref a' j = deref a j).
Proof. intros Hp. by apply sort_sorted. Qed.

(** X12. After [sort()] the next insertion into a well-formed arena that is
    not full takes the free slot of the lowest index: the slot it returns
    held no value before, and every slot below it holds one. *)
Theorem sort_then_emplace_takes_lowest {T : Type} {p : arena_params}
    (a : inplace_free_list T) (v : T) :
  instantiable →
  wf_arena a → full a = false →
  ∃ a1 a2 i,
    sort a = Some a1 ∧ emplace a1 (Constructs v) = Some (a2, Placed i) ∧
    0 ≤ i < Capacity ∧
    holds_value a i = Some false ∧
    (∀ j, 0 ≤ j < i → holds_value a j = Some true).
Proof.
  intros Hp Hwf Hfull. pose proof (capacity_bounds Hp) as Hcap.
  destruct (wf_free_chain _ Hwf) as [ch Hch].
  destruct (sort_sorted Hp a ch Hwf Hch)
    as (a1 & ch1 & Hsort & Hwf1 & Hch1 & Hperm & Hsorted & _ & Hsz & _).
  unfold full in Hfull. apply bool_decide_eq_false in Hfull.
  destruct ch1 as [|i ch1].
  { apply Permutation_nil_l in Hperm. subst ch. by apply free_chain_nil in Hch. }
  destruct (emplace_placed Hp a1 v i ch1 Hwf1 Hch1) as (next & a2 & _ & _ & He & _).
  destruct (free_chain_cons _ _ _ Hch1) as (_ & _ & Hi & _).
  exists a1, a2, i. split_and!; try done; try lia.
  - rewrite (holds_value_chain _ _ _ Hch Hi). f_equal.
    apply bool_decide_eq_false_2. intros Hn. apply Hn. rewrite <- Hperm. set_solver.
  - intros j Hj. rewrite (holds_value_chain _ _ _ Hch) by lia. f_equal.
    apply bool_decide_eq_true_2. rewrite <- Hperm.
    apply Sorted_StronglySorted in Hsorted; [|apply _].
    apply StronglySorted_inv in Hsorted as [_ Hall].
    rewrite Forall_forall in Hall.
    intros [->|Hin%Hall]%elem_of_cons; lia.
Qed.

Section sorted_chain_example.
#[local] Existing Instance int32_4.

Lemma is_sorted_iff_chain_ascending_witness :
  let a : inplace_free_list Z :=
    {| storage_ := [Free 65535; Occupied 11; Free 0; Occupied 13];
       first_free_ := 2; size_ := 2 |} in
  is_sorted a = Some (bool_decide (Sorted Z.lt [2; 0])).
Proof.
  intros a. refine (is_sorted_iff_chain_ascending a [2; 0] _ _).
  - repeat split.
  - reflexivity.
Defined.

Lemma sort_orders_the_free_chain_witness :
  let a : inplace_free_list Z :=
    {| storage_ := [Free 65535; Occupied 11; Free 0; Occupied 13];
       first_free_ := 2; size_ := 2 |} in
  ∃ a' ch',
    sort a = Some a' ∧ wf_arena a' ∧ free_chain a' = Some ch' ∧
    ch' ≡ₚ [2; 0] ∧ Sorted Z.lt ch' ∧ is_sorted a' = Some true ∧
    size a' = size a ∧
    (∀ j, deref a' j = deref a j).
Proof.
  intros a. refine (sort_orders_the_free_chain a [2; 0] _ _ _).
  - repeat split.
  - apply (bool_decide_unpack _). vm_compute. exact I.
  - reflexivity.
Defined.

Lemma sort_then_emplace_takes_lowest_witness :
  let a : inplace_free_list Z :=
    {| storage_ := [Free 65535; Occupied 11; Free 0; Occupied 13];
       first_free_ := 2; size_ := 2 |} in
  ∃ a1 a2 i,
    sort a = Some a1 ∧ emplace a1 (Constructs 7) = Some (a2, Placed i) ∧
    0 ≤ i < Capacity ∧
    holds_value a i = Some false ∧
    (∀ j, 0 ≤ j < i → holds_value a j = Some true).
Proof.
  intros a. refine (sort_then_emplace_takes_lowest a 7 _ _ _).
  - repeat split.
  - apply (bool_decide_unpack _). vm_compute. exact I.
  - reflexivity.
Defined.
End sorted_chain_example.


(** ** Compacting twice *)

Section compaction_again.
Context {T : Type} {p : arena_params}.
Hypothesis Hp : instantiable.
Implicit Types (a : inplace_free_list T) (st : list (slot T)) (i j : Z) (ch : list Z).

Lemma storage_ext st st' :
  Z.of_nat (length st) = Capacity → Z.of_nat (length st') = Capacity →
  (∀ j, 0 ≤ j < Capacity → slot_at st j = slot_at st' j) → st = st'.
Proof.
  intros Hlen Hlen' Hsame. apply list_eq. intros n.
  destruct (decide (Z.of_nat n < Capacity)) as [Hn|Hn].
  - specialize (Hsame (Z.of_nat n) ltac:(lia)). unfold slot_at in Hsame.
    rewrite !decide_True in Hsame by lia. by rewrite Nat2Z.id in Hsame.
  - rewrite !lookup_ge_None_2 by lia. done.
Qed.

(** The array [optimize_at] leaves behind, link by link. *)
Lemma optimize_at_shape a :
  wf_arena a →
  ∃ a' calls,
    optimize_at a = Some (a', calls) ∧
    wf_arena a' ∧ size_ a' = size_ a ∧ 0 ≤ size_ a ≤ Capacity ∧
    first_free_ a' = (if decide (size_ a = Capacity) then offset_type_npos
                      else size_ a) ∧
    (∀ j, 0 ≤ j < size_ a → is_Some (read_value (storage_ a') j)) ∧
    (∀ j, size_ a ≤ j < Capacity →
          read_offset (storage_ a') j =
          Some (if decide (j = Capacity - 1) then offset_type_npos else j + 1)) ∧
    (∀ f t, (f, t) ∈ calls →
            0 ≤ t < size_ a ∧ size_ a ≤ f < Capacity ∧
            is_Some (read_value (storage_ a) f)) ∧
    (∀ j, is_Some (read_value (storage_ a) j) → j ∉ calls.*1 →
          read_value (storage_ a') j = read_value (storage_ a) j).
Proof.
  intros Hwf. pose proof (capacity_bounds Hp) as Hcap.
  destruct (optimize_at_layout Hp a Hwf)
    as (a' & calls & k & Hopt & Hsize & Hlen & Hk & Hff & Hlow & Hhigh & _
        & _ & _ & Hcalls & Hkept).
  destruct (optimize_at_spec Hp a Hwf)
    as (a2 & calls2 & Hopt2 & Hwf' & _ & Hbound & Hch & _).
  rewrite Hopt in Hopt2. injection Hopt2 as <- <-. unfold size in *.
  apply free_chain_iff in Hch.
  assert (k = size_ a) as ->.
  { destruct (decide (size_ a = Capacity)) as [Heq|Hne].
    - rewrite Heq, Z.sub_diag in Hch. simpl in Hch.
      apply chain_head in Hch as Hhd. simpl in Hhd.
      pose proof (proj1 Hhd eq_refl) as Hnpos. rewrite Hff in Hnpos.
      case_decide; lia.
    - rewrite seqZ_cons in Hch by lia.
      apply chain_cons_inv in Hch as (Heq & Hnn & _). rewrite Hff in Heq, Hnn.
      case_decide; [done | lia]. }
  exists a', calls. split_and!; try done; try lia.
  intros f t Hft. destruct (Hcalls f t Hft) as (? & ? & ? & _). done.
Qed.

Lemma optimize_at_again a :
  wf_arena a →
  ∃ a' calls, optimize_at a = Some (a', calls) ∧ optimize_at a' = Some (a', []).
Proof.
  intros Hwf. pose proof (capacity_bounds Hp) as Hcap.
  destruct (optimize_at_shape a Hwf)
    as (a' & calls & Hopt & Hwf' & Hsize & Hbound & Hff & Hlow & Hhigh & _ & _).
  destruct (optimize_at_shape a' Hwf')
    as (a2 & calls2 & Hopt2 & Hwf2 & Hsize2 & _ & Hff2 & Hlow2 & Hhigh2
        & Hcalls2 & Hkept2).
  rewrite Hsize in *.
  assert (calls2 = []) as ->.
  { destruct calls2 as [|[f t] calls2]; [done|].
    destruct (Hcalls2 f t ltac:(set_solver)) as (_ & Hf & [v Hv]).
    rewrite read_value_Some in Hv. specialize (Hhigh f Hf).
    rewrite read_offset_Some in Hhigh. congruence. }
  exists a', calls. split; [done|]. rewrite Hopt2. do 2 f_equal.
  pose proof (wf_length _ Hwf' ltac:(lia)) as Hlen'.
  pose proof (wf_length _ Hwf2 ltac:(lia)) as Hlen2.
  destruct a' as [st' ff' sz'], a2 as [st2 ff2 sz2]. simpl in *.
  f_equal; [|congruence|congruence].
  apply storage_ext; [done | done |]. intros j Hj.
  destruct (decide (j < sz')) as [Hlt|Hge].
  - destruct (Hlow j ltac:(lia)) as [v Hv].
    pose proof (Hkept2 j ltac:(by eexists) ltac:(set_solver)) as Hsame.
    rewrite Hv in Hsame. apply read_value_Some in Hv, Hsame. congruence.
  - pose proof (Hhigh j ltac:(lia)) as H1. pose proof (Hhigh2 j ltac:(lia)) as H2.
    apply read_offset_Some in H1, H2. congruence.
Qed.

Lemma optimize_at_silent_iff a a' calls :
  wf_arena a → optimize_at a = Some (a', calls) → calls = [] ↔ compacted a.
Proof.
  intros Hwf Hopt. pose proof (capacity_bounds Hp) as Hcap.
  destruct (optimize_at_shape a Hwf)
    as (a1 & calls1 & Hopt1 & Hwf' & Hsize & Hbound & Hff & Hlow & Hhigh
        & Hcalls & Hkept).
  rewrite Hopt in Hopt1. injection Hopt1 as <- <-.
  pose proof (wf_length _ Hwf ltac:(lia)) as Hlen.
  unfold compacted, occupied_indices, size. split.
  - intros ->.
    assert (∀ j, is_Some (read_value (storage_ a) j) → 0 ≤ j < size_ a) as Hocc.
    { intros j Hj. pose proof (Hkept j Hj ltac:(set_solver)) as Hsame.
      destruct Hj as [v Hv]. rewrite Hv in Hsame.
      pose proof Hv as Hr%read_value_Some%slot_at_Some.
      destruct (decide (j < size_ a)); [lia|].
      specialize (Hhigh j ltac:(lia)).
      apply read_value_Some in Hsame. apply read_offset_Some in Hhigh. congruence. }
    assert (filter (λ i, is_Some (read_value (storage_ a) i)) (seqZ 0 Capacity)
            ≡ₚ seqZ 0 (size_ a)) as Hperm.
    { apply submseteq_length_Permutation.
      - apply NoDup_submseteq; [apply NoDup_filter, NoDup_seqZ|].
        intros j [Hj _]%list_elem_of_filter. apply elem_of_seqZ.
        specialize (Hocc j Hj). lia.
      - rewrite <- omap_filter_length, length_seqZ.
        pose proof (values_indexed (storage_ a)) as Hv. rewrite Hlen in Hv.
        rewrite <- Hv. pose proof (wf_size_values Hp a Hwf) as Hn.
        unfold live_values in Hn. lia. }
    replace Capacity with (size_ a + (Capacity - size_ a)) at 1 by lia.
    rewrite seqZ_app by lia. rewrite filter_app.
    rewrite (filter_all _ (seqZ 0 (size_ a))).
    2: { intros j Hj. rewrite <- Hperm in Hj. by apply list_elem_of_filter in Hj as [? _]. }
    rewrite filter_none; [by rewrite app_nil_r|].
    intros j Hj%elem_of_seqZ Hocc'%Hocc. lia.
  - intros Hc. destruct calls as [|[f t] calls]; [done|].
    destruct (Hcalls f t ltac:(set_solver)) as (_ & Hf & Hv).
    assert (f ∈ seqZ 0 (size_ a)) as Hin%elem_of_seqZ; [|lia].
    rewrite <- Hc. apply list_elem_of_filter. split; [done|].
    apply elem_of_seqZ. lia.
Qed.
End compaction_again.

(** X13. Compaction of a well-formed arena is idempotent and silent when
    there is nothing to move: [optimize_at] on the arena it has just
    compacted leaves that arena exactly as it is and never calls the
    callback; and on any well-formed arena the callback is not called at all
    exactly when the values already fill the slots [0 .. size() - 1]. *)
Theorem optimize_at_idempotent {T : Type} {p : arena_params}
    (a : inplace_free_list T) :
  instantiable →
  wf_arena a →
  ∃ a' calls,
    optimize_at a = Some (a', calls) ∧
    optimize_at a' = Some (a', []) ∧
    (calls = [] ↔ compacted a).
Proof.
  intros Hp Hwf.
  destruct (optimize_at_again Hp a Hwf) as (a' & calls & Hopt & Hopt').
  exists a', calls. split; [done|]. split; [done|].
  by eapply optimize_at_silent_iff.
Qed.

Section compaction_again_example.
#[local] Existing Instance int32_4.

Lemma optimize_at_idempotent_witness :
  let a : inplace_free_list Z :=
    {| storage_ := [Free 65535; Occupied 11; Free 0; Occupied 13];
       first_free_ := 2; size_ := 2 |} in
  ∃ a' calls,
    optimize_at a = Some (a', calls) ∧
    optimize_at a' = Some (a', []) ∧
    (calls = [] ↔ compacted a).
Proof.
  intros a. refine (optimize_at_idempotent a _ _).
  - repeat split.
  - apply (bool_decide_unpack _). vm_compute. exact I.
Defined.
End compaction_again_example.


(** * Further properties of the pool *)

(** ** Packed indices *)

Lemma pack_index_add c pos :
  0 ≤ c < 65536 → 0 ≤ pos < 65536 → Pool.pack_index c pos = c * 65536 + pos.
Proof.
  intros Hc Hpos. unfold Pool.pack_index, to_size.
  rewrite Z.shiftl_mul_pow2 by lia. change (2 ^ 16) with 65536.
  rewrite Z.mod_small by lia. symmetry. apply Z.add_nocarry_lor.
  apply Z.bits_inj'. intros n Hn. rewrite Z.land_spec, Z.bits_0.
  destruct (decide (n < 16)).
  - change 65536 with (2 ^ 16). by rewrite Z.mul_pow2_bits_low.
  - assert (Z.testbit pos n = false) as ->; [|by rewrite andb_false_r].
    apply (Z.bounded_iff_bits_nonneg 16); lia.
Qed.

Lemma unpack_index_div_mod idx :
  Pool.unpack_index idx = ((idx `div` 65536) `mod` 65536, idx `mod` 65536).
Proof.
  unfold Pool.unpack_index, to_u16. change 65535 with (Z.ones 16).
  rewrite !Z.land_ones by lia. rewrite Z.shiftr_div_pow2 by lia.
  change (2 ^ 16) with 65536. by rewrite !Z.mod_mod by lia.
Qed.

Lemma unpack_pack_index c pos :
  0 ≤ c < 65536 → 0 ≤ pos < 65536 →
  Pool.unpack_index (Pool.pack_index c pos) = (c, pos).
Proof.
  intros Hc Hpos. rewrite pack_index_add, unpack_index_div_mod by done.
  assert ((c * 65536 + pos) `div` 65536 = c) as ->
    by (symmetry; apply (Z.div_unique_pos _ _ _ pos); lia).
  assert ((c * 65536 + pos) `mod` 65536 = pos) as ->
    by (symmetry; apply (Z.mod_unique_pos _ _ c); lia).
  by rewrite Z.mod_small by lia.
Qed.

Lemma pack_unpack_index idx :
  0 ≤ idx < 2 ^ 32 →
  Pool.pack_index (Pool.unpack_index idx).1 (Pool.unpack_index idx).2 = idx.
Proof.
  intros Hidx. rewrite unpack_index_div_mod. simpl.
  pose proof (Z.mod_pos_bound idx 65536 ltac:(lia)).
  pose proof (Z.div_lt_upper_bound idx 65536 65536 ltac:(lia) ltac:(lia)).
  pose proof (Z.div_pos idx 65536 ltac:(lia) ltac:(lia)).
  rewrite (Z.mod_small (idx `div` 65536)) by lia.
  rewrite pack_index_add by lia.
  pose proof (Z.div_mod idx 65536 ltac:(lia)). lia.
Qed.

Lemma pack_index_range c pos :
  0 ≤ c < 65536 → 0 ≤ pos < 65536 → 0 ≤ Pool.pack_index c pos < 2 ^ 32.
Proof. intros. rewrite pack_index_add by done. lia. Qed.

Lemma unpack_index_range idx :
  0 ≤ (Pool.unpack_index idx).1 < 65536 ∧ 0 ≤ (Pool.unpack_index idx).2 < 65536.
Proof.
  rewrite unpack_index_div_mod. simpl.
  split; apply Z.mod_pos_bound; lia.
Qed.

(** X14. Packed indices: for a chunk position and a slot index that fit 16
    bits, [pack_index] gives [chunk * 65536 + position] and [unpack_index]
    gives the two parts back; and every index below [2 ^ 32] is the packing
    of the parts [unpack_index] takes from it. *)
Theorem pack_unpack_roundtrip (c pos idx : Z) :
  0 ≤ c < 65536 → 0 ≤ pos < 65536 → 0 ≤ idx < 2 ^ 32 →
  Pool.pack_index c pos = c * 65536 + pos ∧
  Pool.unpack_index (Pool.pack_index c pos) = (c, pos) ∧
  Pool.pack_index (Pool.unpack_index idx).1 (Pool.unpack_index idx).2 = idx.
Proof.
  intros Hc Hpos Hidx. split; [by apply pack_index_add|].
  split; [by apply unpack_pack_index | by apply pack_unpack_index].
Qed.

Lemma pack_unpack_roundtrip_witness :
  Pool.pack_index 2 5 = 2 * 65536 + 5 ∧
  Pool.unpack_index (Pool.pack_index 2 5) = (2, 5) ∧
  Pool.pack_index (Pool.unpack_index 131077).1 (Pool.unpack_index 131077).2 = 131077.
Proof. refine (pack_unpack_roundtrip 2 5 131077 _ _ _); lia. Defined.


(** ** Insertion into and erasure from a pool *)

Section pool_alloc.
Context {T : Type} {p : arena_params}.
Hypothesis Hp : instantiable.
Implicit Types (chunks : list (inplace_free_list T)) (c : inplace_free_list T).
Implicit Types (a : inplace_free_list T) (i j : Z).

Lemma capacity_u16 : Capacity < 65535.
Proof. pose proof (capacity_bounds Hp). pose proof npos_le_u16. lia. Qed.

(** An insertion into an arena that is not full, slot by slot. *)
Lemma emplace_at_head a v :
  wf_arena a → full a = false →
  ∃ a' i,
    emplace a (Constructs v) = Some (a', Placed i) ∧
    i = first_free_ a ∧ 0 ≤ i < Capacity ∧ wf_arena a' ∧
    read_value (storage_ a') i = Some v ∧
    live_values a' ≡ₚ v :: live_values a ∧
    size_ a' = size_ a + 1 ∧
    (∀ j, j ≠ i → slot_at (storage_ a') j = slot_at (storage_ a) j).
Proof.
  intros Hwf Hfull. pose proof (capacity_bounds Hp) as Hcap.
  pose proof Hfull as Hnf. unfold full in Hnf. apply bool_decide_eq_false in Hnf.
  destruct (wf_free_chain _ Hwf) as [[|i ch] Hch];
    [by apply free_chain_nil in Hch|].
  destruct (emplace_placed Hp a v i ch Hwf Hch)
    as (next & a' & Hread & Ha' & He & Hwf' & Hch').
  destruct (free_chain_cons _ _ _ Hch) as (Hff & _ & Hi & _).
  destruct (emplace_values Hp a v a' (Placed i) Hwf Hfull He) as (_ & Hval & Hsz & _).
  pose proof (wf_length _ Hwf ltac:(lia)) as Hlen.
  assert (write_slot (storage_ a) i (Occupied v) = Some (storage_ a')) as Hw.
  { subst a'. simpl. apply write_slot_Some. lia. }
  exists a', i. split_and!; try done; try lia.
  - by eapply read_value_write_eq.
  - intros j Hj. eapply slot_at_write_ne; [done | congruence].
Qed.

Lemma pool_values_snoc chunks c :
  Pool.live_values (chunks ++ [c]) = Pool.live_values chunks ++ live_values c.
Proof.
  unfold Pool.live_values. rewrite fmap_app, concat_app. simpl.
  by rewrite app_nil_r.
Qed.

Lemma pool_size_snoc chunks c :
  Pool.size (chunks ++ [c]) = to_size (Pool.size chunks + size c).
Proof. unfold Pool.size. by rewrite foldl_app. Qed.

(** [size()] of a pool adds up the values of its chunks; the sum stays far
    below the range of [size_type]. *)
Lemma pool_size_values chunks :
  Forall wf_arena chunks → Z.of_nat (length chunks) < 65535 →
  Pool.size chunks = Z.of_nat (length (Pool.live_values chunks)) ∧
  0 ≤ Pool.size chunks ≤ Z.of_nat (length chunks) * Capacity.
Proof.
  pose proof (capacity_bounds Hp) as Hcap. pose proof capacity_u16 as Hc16.
  induction chunks as [|c chunks IH] using rev_ind; intros Hwf Hlen.
  - unfold Pool.size, Pool.live_values. simpl. lia.
  - apply Forall_app in Hwf as [Hwf Hc]. rewrite Forall_singleton in Hc.
    rewrite length_app in *. simpl in *.
    destruct (IH Hwf ltac:(lia)) as [IH1 IH2].
    destruct (wf_free_chain _ Hc) as [ch Hch].
    destruct (wf_size_bounds _ _ Hc Hch ltac:(lia)) as [_ Hb].
    pose proof (wf_size_values Hp c Hc) as Hv.
    rewrite pool_size_snoc, pool_values_snoc, length_app. unfold size.
    rewrite to_size_small by nia. split; [lia | nia].
Qed.

(** [emplace] of a pool: the first chunk that is not full takes the value at
    the head of its chain; when every chunk is full a new chunk is appended
    and takes the value in slot 0. *)
Lemma pool_emplace_spec chunks v :
  Forall wf_arena chunks →
  ∃ chunks' (k : nat) i c',
    Pool.emplace chunks (Constructs v) = Some (chunks', (Z.of_nat k, Placed i)) ∧
    (k ≤ length chunks)%nat ∧ 0 ≤ i < Capacity ∧
    (∀ (m : nat) c, (m < k)%nat → chunks !! m = Some c → full c = true) ∧
    match chunks !! k with
    | Some c => full c = false ∧ i = first_free_offset c ∧
                chunks' = <[k := c']> chunks
    | None => k = length chunks ∧ i = 0 ∧ chunks' = chunks ++ [c']
    end ∧
    chunks' !! k = Some c' ∧ deref c' i = Some v ∧
    Forall wf_arena chunks' ∧
    Pool.live_values chunks' ≡ₚ v :: Pool.live_values chunks ∧
    ∃ c0, wf_arena c0 ∧ full c0 = false ∧
          emplace c0 (Constructs v) = Some (c', Placed i) ∧
          (chunks !! k = Some c0 ∨
           (chunks !! k = None ∧ initialize_empty = Some c0)).
Proof.
  intros Hwf. pose proof (capacity_bounds Hp) as Hcap. unfold Pool.emplace.
  destruct (list_find (λ c, full c = false) chunks) as [[k c]|] eqn:Hfind.
  - apply list_find_Some in Hfind as (Hk & Hfull & Hbefore). simpl.
    rewrite Hk. simpl.
    assert (wf_arena c) as Hc by (rewrite Forall_lookup in Hwf; eauto).
    destruct (emplace_at_head c v Hc Hfull)
      as (c' & i & He & Hi & Hr & Hc' & Hv & Hval & _).
    rewrite He. simpl. pose proof (lookup_lt_Some _ _ _ Hk) as Hlt.
    exists (<[k := c']> chunks), k, i, c'. rewrite Hk.
    split_and!; try done; try lia.
    + intros m c0 Hm Hc0. specialize (Hbefore m c0 Hc0 Hm).
      by destruct (full c0).
    + by apply list_lookup_insert_eq.
    + by apply Forall_insert.
    + assert (Pool.chunk_at chunks (Z.of_nat k) = Some c) as Hat.
      { apply chunk_at_Some. split; [lia|]. by rewrite Nat2Z.id. }
      pose proof (pool_values_set chunks (Z.of_nat k) c c' Hat) as Hset.
      unfold Pool.set_chunk in Hset. rewrite Nat2Z.id in Hset.
      apply (Permutation_app_inv_l (live_values c)). rewrite Hset, Hval.
      simpl. by rewrite Permutation_middle.
    + exists c. split_and!; try done. by left.
  - apply list_find_None in Hfind. simpl.
    rewrite (initialize_empty_eq Hp). simpl.
    set (e := {| storage_ := empty_storage; first_free_ := 0; size_ := 0 |}).
    assert (initialize_empty = Some e) as He by apply (initialize_empty_eq Hp).
    pose proof (initialize_empty_wf Hp e He) as Hwfe.
    rewrite lookup_app_r by lia. rewrite Nat.sub_diag. simpl.
    assert (full e = false) as Hfe.
    { unfold full. simpl. apply bool_decide_eq_false_2. lia. }
    destruct (emplace_at_head e v Hwfe Hfe)
      as (c' & i & Hemp & Hi & Hr & Hc' & Hv & Hval & _).
    rewrite Hemp. simpl. simpl in Hi. subst i.
    assert (<[length chunks := c']> (chunks ++ [e]) = chunks ++ [c']) as Hins.
    { rewrite insert_app_r_alt by lia. by rewrite Nat.sub_diag. }
    rewrite Hins.
    exists (chunks ++ [c']), (length chunks), 0, c'.
    rewrite (lookup_ge_None_2 chunks) by lia.
    split_and!; try done; try lia.
    + intros m c0 Hm Hc0. rewrite Forall_lookup in Hfind.
      specialize (Hfind m c0 Hc0). by destruct (full c0).
    + rewrite lookup_app_r by lia. by rewrite Nat.sub_diag.
    + apply Forall_app. split; [done | by apply Forall_singleton].
    + rewrite pool_values_snoc, Hval.
      assert (live_values e = []) as -> by (by apply (wf_empty_iff Hp)).
      by rewrite <- Permutation_cons_append.
    + exists e. split_and!; try done. by right.
Qed.

Lemma insert_last {A} (l : list A) (x : A) :
  (0 < length l)%nat → <[(length l - 1)%nat := x]> l = take (length l - 1) l ++ [x].
Proof.
  destruct l as [|y l _] using rev_ind; simpl; [lia|]. intros _.
  rewrite length_app. simpl.
  replace (length l + 1 - 1)%nat with (length l) by lia.
  rewrite take_app_length. rewrite insert_app_r_alt by lia.
  by rewrite Nat.sub_diag.
Qed.

(** [erase] of a pool on a pointer that holds a value. *)
Lemma pool_erase_spec chunks k off c :
  Forall wf_arena chunks →
  Pool.chunk_at chunks k = Some c → holds_value c off = Some true →
  ∃ chunks' c' v,
    Pool.erase chunks (k, off) = Some chunks' ∧
    erase c off = Some c' ∧ deref c off = Some v ∧ wf_arena c' ∧
    deref c' off = None ∧
    (chunks' = Pool.set_chunk chunks k c' ∨
     (empty c' = true ∧ k = Z.of_nat (length chunks) - 1 ∧
      chunks' = take (length chunks - 1) chunks)) ∧
    Forall wf_arena chunks' ∧
    v :: Pool.live_values chunks' ≡ₚ Pool.live_values chunks.
Proof.
  intros Hwf Hc Hheld. pose proof (capacity_bounds Hp) as Hcap.
  assert (wf_arena c) as Hwfc by (by eapply chunk_at_wf).
  destruct (pool_erase_is_Some chunks k off c Hp Hc Hwfc Hheld) as [chunks' He].
  destruct (pool_erase_inv _ _ _ He) as (c0 & c' & Hc0 & Hce & Hpop & Hkeep).
  simpl in *. assert (c0 = c) as -> by congruence.
  destruct (erase_inv _ _ _ Hwfc Hce) as (ch & Hch & Hoff & Hnotin).
  destruct (wf_chain_slots c ch off Hwfc Hch Hoff) as [(? & _) | (_ & [v Hv] & _)];
    [done|].
  destruct (erase_values Hp c off v c' Hwfc Hv Hce) as (Hwfc' & Hval & _).
  destruct (erase_slots Hp c off c' Hwfc Hce) as [Hgone _].
  pose proof (pool_values_set chunks k c c' Hc) as Hset.
  assert (v :: Pool.live_values (Pool.set_chunk chunks k c')
          ≡ₚ Pool.live_values chunks) as Hvals.
  { apply (Permutation_app_inv_l (live_values c')).
    rewrite <- Hset, <- Hval. simpl. by rewrite Permutation_middle. }
  pose proof (chunk_at_range _ _ _ Hc) as Hk.
  exists chunks', c', v. split_and!; try done.
  - destruct (decide (empty c' = true ∧ k = Z.of_nat (length chunks) - 1)) as [Hd|Hd].
    + right. destruct (Hpop Hd) as [-> _]. by destruct Hd.
    + left. by destruct (Hkeep Hd) as [-> _].
  - destruct (decide (empty c' = true ∧ k = Z.of_nat (length chunks) - 1)) as [Hd|Hd].
    + destruct (Hpop Hd) as [-> _]. by apply Forall_take.
    + destruct (Hkeep Hd) as [-> _]. by apply Forall_insert.
  - destruct (decide (empty c' = true ∧ k = Z.of_nat (length chunks) - 1)) as [Hd|Hd].
    + destruct (Hpop Hd) as [-> _]. destruct Hd as [Hempty ->].
      rewrite <- Hvals. f_equal.
      assert (Pool.set_chunk chunks (Z.of_nat (length chunks) - 1) c'
              = take (length chunks - 1) chunks ++ [c']) as ->.
      { unfold Pool.set_chunk.
        replace (Z.to_nat (Z.of_nat (length chunks) - 1))
          with (length chunks - 1)%nat by lia.
        apply insert_last. lia. }
      rewrite pool_values_snoc.
      assert (live_values c' = []) as -> by (by apply (wf_empty_iff Hp)).
      by rewrite app_nil_r.
    + by destruct (Hkeep Hd) as [-> _].
Qed.
End pool_alloc.


Section pool_access.
Context {T : Type} {p : arena_params}.
Hypothesis Hp : instantiable.
Implicit Types (chunks : list (inplace_free_list T)) (c : inplace_free_list T).
Implicit Types (i j k : Z).

Lemma holds_value_slot c i :
  wf_arena c → 0 ≤ i < Capacity →
  holds_value c i = Some (bool_decide (is_Some (deref c i))).
Proof.
  intros Hwf Hi. rewrite <- holds_value_at_eq.
  destruct (holds_value_at_wf c i Hwf Hi) as (held & -> & Hiff). f_equal.
  unfold deref. destruct held; symmetry.
  - apply bool_decide_eq_true_2. by apply Hiff.
  - apply bool_decide_eq_false_2. intros H%Hiff. done.
Qed.

Lemma arena_at_slot c i :
  wf_arena c → 0 ≤ i < Capacity →
  at_ c i = Some (if bool_decide (is_Some (deref c i)) then Found i
                  else OutOfRange "Index doesn't hold value.").
Proof.
  intros Hwf Hi. unfold at_, owns. rewrite bool_decide_eq_true_2 by done. simpl.
  rewrite holds_value_slot by done. simpl. by destruct (bool_decide _).
Qed.

(** The pool's accessors on a pointer into chunk [k], slot [i]. *)
Lemma pool_access chunks k i c :
  Z.of_nat (length chunks) < 65535 →
  Pool.chunk_at chunks k = Some c → wf_arena c → 0 ≤ i < Capacity →
  let idx := Pool.pack_index k i in
  idx = k * 65536 + i ∧
  Pool.as_index chunks (k, i) = Some idx ∧
  Pool.subscript chunks idx = Some (k, i) ∧
  Pool.owns chunks (k, i) = true ∧
  Pool.holds_value chunks (k, i) = Some (bool_decide (is_Some (deref c i))) ∧
  Pool.holds_value_at chunks idx = Some (bool_decide (is_Some (deref c i))) ∧
  Pool.at_ chunks idx =
    Some (k, if bool_decide (is_Some (deref c i)) then Found i
             else OutOfRange "Index doesn't hold value.").
Proof.
  intros Hlen Hc Hwf Hi idx. pose proof (capacity_u16 Hp) as Hc16.
  pose proof (chunk_at_range _ _ _ Hc) as Hk.
  assert (Pool.unpack_index idx = (k, i)) as Hun
    by (apply unpack_pack_index; lia).
  assert (owns i = true) as Hown by (by apply bool_decide_eq_true_2).
  split; [apply pack_index_add; lia|].
  unfold Pool.as_index, Pool.subscript, Pool.owns, Pool.holds_value,
    Pool.holds_value_at, Pool.at_, Pool.owning_chunk, Pool.owning_chunk_no_assert,
    as_index, subscript, data.
  rewrite Hun. simpl. rewrite Hc, Hown. simpl. rewrite Hc. simpl.
  rewrite !to_u16_small by lia. rewrite decide_True by lia.
  rewrite holds_value_at_eq, holds_value_slot, arena_at_slot by done. simpl.
  by split_and!.
Qed.

(** The pool's accessors on an index whose chunk is not there. *)
Lemma pool_access_dropped chunks k i :
  0 ≤ k < 65536 → 0 ≤ i < 65536 → Z.of_nat (length chunks) ≤ k →
  let idx := Pool.pack_index k i in
  Pool.at_ chunks idx = None ∧ Pool.holds_value_at chunks idx = None ∧
  Pool.subscript chunks idx = None ∧
  Pool.owns chunks (k, i) = false ∧ Pool.holds_value chunks (k, i) = None ∧
  Pool.as_index chunks (k, i) = None.
Proof.
  intros Hk Hi Hlen idx.
  assert (Pool.unpack_index idx = (k, i)) as Hun by (by apply unpack_pack_index).
  assert (Pool.chunk_at chunks k = None) as Hc.
  { unfold Pool.chunk_at. rewrite decide_True by lia.
    apply lookup_ge_None_2. lia. }
  unfold Pool.as_index, Pool.subscript, Pool.owns, Pool.holds_value,
    Pool.holds_value_at, Pool.at_, Pool.owning_chunk, Pool.owning_chunk_no_assert.
  rewrite Hun. simpl. rewrite Hc. simpl. rewrite decide_False by lia.
  by split_and!.
Qed.

Lemma pool_holds_value_inv chunks k i :
  Pool.holds_value chunks (k, i) = Some true →
  ∃ c, Pool.chunk_at chunks k = Some c ∧ holds_value c i = Some true.
Proof.
  unfold Pool.holds_value, Pool.owning_chunk. simpl.
  destruct (Pool.chunk_at chunks k) as [c|] eqn:Hc; simpl; [|done].
  destruct (owns i); simpl; [|done]. rewrite Hc. simpl. eauto.
Qed.
End pool_access.

(** X15. An insertion into a well-formed pool never reports full: the value
    goes to the head of the free chain of the first chunk that is not full,
    every chunk before it being full, or, when every chunk is full (or there
    is none), to slot 0 of a new chunk appended at the back.  The pool gains
    exactly this value, [size()] grows by one, the chunk count grows by one
    only in the second case, and every chunk stays well formed. *)
Theorem pool_insert_first_chunk_with_room {T : Type} {p : arena_params}
    (chunks_ : list (inplace_free_list T)) (v : T) :
  instantiable →
  Pool.wf_pool chunks_ → Z.of_nat (length chunks_) < 65534 →
  ∃ chunks' (k : nat) i,
    Pool.insert chunks_ v = Some (chunks', (Z.of_nat k, Placed i)) ∧
    0 ≤ i < Capacity ∧
    (∀ (m : nat) c, (m < k)%nat → chunks_ !! m = Some c → full c = true) ∧
    match chunks_ !! k with
    | Some c => full c = false ∧ i = first_free_offset c ∧
                length chunks' = length chunks_
    | None => k = length chunks_ ∧ i = 0 ∧ length chunks' = S (length chunks_)
    end ∧
    Pool.wf_pool chunks' ∧
    Pool.live_values chunks' ≡ₚ v :: Pool.live_values chunks_ ∧
    Pool.size chunks' = Pool.size chunks_ + 1.
Proof.
  intros Hp (Hc16 & Hlen & Hwf) Hlen'.
  destruct (pool_emplace_spec Hp chunks_ v Hwf)
    as (chunks' & k & i & c' & He & Hk & Hi & Hbefore & Hcase & Hk' & Hv & Hwf' & Hval & _).
  assert (length chunks' = length chunks_ ∨ length chunks' = S (length chunks_))
    as Hlens.
  { destruct (chunks_ !! k); [left | right].
    - destruct Hcase as (_ & _ & ->). apply length_insert.
    - destruct Hcase as (_ & _ & ->). rewrite length_app. simpl. lia. }
  exists chunks', k, i. unfold Pool.insert. split_and!; try done; try lia.
  - destruct (chunks_ !! k).
    + destruct Hcase as (? & ? & ->). split_and!; try done. apply length_insert.
    + destruct Hcase as (? & ? & ->). split_and!; try done.
      rewrite length_app. simpl. lia.
  - split_and!; try done. lia.
  - destruct (pool_size_values Hp chunks' Hwf' ltac:(lia)) as [-> _].
    destruct (pool_size_values Hp chunks_ Hwf ltac:(lia)) as [-> _].
    apply Permutation_length in Hval. simpl in Hval. lia.
Qed.

(** X16. Round trip on a pool: for the pointer an insertion returns,
    [as_index] gives the packed index [chunk * 65536 + slot]; [at] and
    [operator[]] on that index give the pointer back, [owns], [holds_value]
    and [holds_value_at] hold for it, and the value read through it is the
    value inserted. *)
Theorem pool_index_roundtrip {T : Type} {p : arena_params}
    (chunks_ : list (inplace_free_list T)) (v : T) :
  instantiable →
  Pool.wf_pool chunks_ → Z.of_nat (length chunks_) < 65534 →
  ∃ chunks' k i idx c',
    Pool.insert chunks_ v = Some (chunks', (k, Placed i)) ∧
    Pool.as_index chunks' (k, i) = Some idx ∧
    idx = k * 65536 + i ∧
    Pool.at_ chunks' idx = Some (k, Found i) ∧
    Pool.subscript chunks' idx = Some (k, i) ∧
    Pool.owns chunks' (k, i) = true ∧
    Pool.holds_value chunks' (k, i) = Some true ∧
    Pool.holds_value_at chunks' idx = Some true ∧
    Pool.chunk_at chunks' k = Some c' ∧ deref c' i = Some v.
Proof.
  intros Hp (Hc16 & Hlen & Hwf) Hlen'.
  destruct (pool_emplace_spec Hp chunks_ v Hwf)
    as (chunks' & k & i & c' & He & Hk & Hi & _ & Hcase & Hk' & Hv & Hwf' & _).
  assert (Pool.chunk_at chunks' (Z.of_nat k) = Some c') as Hc'.
  { apply chunk_at_Some. split; [lia|]. by rewrite Nat2Z.id. }
  assert (wf_arena c') as Hwfc by (by eapply chunk_at_wf).
  assert (Z.of_nat (length chunks') < 65535) as Hl.
  { destruct (chunks_ !! k).
    - destruct Hcase as (_ & _ & ->). rewrite length_insert. lia.
    - destruct Hcase as (_ & _ & ->). rewrite length_app. simpl. lia. }
  destruct (pool_access Hp chunks' (Z.of_nat k) i c' Hl Hc' Hwfc Hi)
    as (Hidx & Has & Hsub & Hown & Hh & Hha & Hat).
  rewrite Hv in Hh, Hha, Hat.
  rewrite (bool_decide_eq_true_2 (is_Some (Some v))) in Hh, Hha, Hat by (by eexists).
  exists chunks', (Z.of_nat k), i, (Pool.pack_index (Z.of_nat k) i), c'.
  by split_and!.
Qed.

(** X17. Erasing a held pointer from a well-formed pool and going back to
    its packed index: when the chunk is still there, [at] throws "Index
    doesn't hold value." and [holds_value_at] is false; when the erasure
    emptied the last chunk and dropped it, the index names a chunk past the
    end of the chunk list, [owns] is false, the assertion of
    [holds_value_at] fails, and [at], which does not check the chunk part of
    the index, reads past the end of the chunk array. *)
Theorem pool_erase_then_at {T : Type} {p : arena_params}
    (chunks_ : list (inplace_free_list T)) (k i : Z) :
  instantiable →
  Pool.wf_pool chunks_ → Pool.holds_value chunks_ (k, i) = Some true →
  ∃ chunks' idx,
    Pool.erase chunks_ (k, i) = Some chunks' ∧
    Pool.as_index chunks_ (k, i) = Some idx ∧
    (length chunks' = length chunks_ →
       Pool.at_ chunks' idx = Some (k, OutOfRange "Index doesn't hold value.") ∧
       Pool.holds_value_at chunks' idx = Some false ∧
       Pool.holds_value chunks' (k, i) = Some false) ∧
    (length chunks' ≠ length chunks_ →
       S (length chunks') = length chunks_ ∧ k = Z.of_nat (length chunks') ∧
       Pool.at_ chunks' idx = None ∧
       Pool.holds_value_at chunks' idx = None ∧
       Pool.owns chunks' (k, i) = false).
Proof.
  intros Hp (Hc16 & Hlen & Hwf) Hheld.
  destruct (pool_holds_value_inv _ _ _ Hheld) as (c & Hc & Hh).
  assert (wf_arena c) as Hwfc by (by eapply chunk_at_wf).
  assert (0 ≤ i < Capacity) as Hi.
  { destruct (decide (0 ≤ i < Capacity)); [done|].
    by rewrite holds_value_outside in Hh. }
  pose proof (chunk_at_range _ _ _ Hc) as Hk.
  destruct (pool_erase_spec Hp chunks_ k i c Hwf Hc Hh)
    as (chunks' & c' & v & He & Hce & Hv & Hwfc' & Hgone & Hcase & Hwf' & _).
  destruct (pool_access Hp chunks_ k i c Hlen Hc Hwfc Hi) as (_ & Has & _).
  exists chunks', (Pool.pack_index k i). split; [done|]. split; [done|].
  destruct Hcase as [-> | (_ & -> & ->)].
  - rewrite set_chunk_length. split; [intros _ | done].
    assert (Pool.chunk_at (Pool.set_chunk chunks_ k c') k = Some c') as Hc'
      by (by apply chunk_at_set_eq).
    destruct (pool_access Hp _ k i c' ltac:(by rewrite set_chunk_length) Hc' Hwfc' Hi)
      as (_ & _ & _ & _ & Hh' & Hha' & Hat').
    rewrite Hgone in Hh', Hha', Hat'.
    rewrite (bool_decide_eq_false_2 (is_Some None)) in Hh', Hha', Hat'
      by (by intros [? ?]).
    done.
  - rewrite length_take. split; [lia | intros _].
    destruct (pool_access_dropped (take (length chunks_ - 1) chunks_)
                (Z.of_nat (length chunks_) - 1) i)
      as (Hat & Hha & _ & Hown & _); [lia | lia | rewrite length_take; lia |].
    split_and!; try done; lia.
Qed.

(** X18. Erasing a held pointer from a well-formed pool returns; the pool
    loses exactly the value the pointer held, [size()] drops by one, the
    chunk count stays or drops by one, and every chunk stays well formed. *)
Theorem pool_erase_removes_one_value {T : Type} {p : arena_params}
    (chunks_ : list (inplace_free_list T)) (k i : Z) :
  instantiable →
  Pool.wf_pool chunks_ → Pool.holds_value chunks_ (k, i) = Some true →
  ∃ chunks' c v,
    Pool.erase chunks_ (k, i) = Some chunks' ∧
    Pool.chunk_at chunks_ k = Some c ∧ deref c i = Some v ∧
    v :: Pool.live_values chunks' ≡ₚ Pool.live_values chunks_ ∧
    Pool.size chunks' = Pool.size chunks_ - 1 ∧
    (length chunks' = length chunks_ ∨ S (length chunks') = length chunks_) ∧
    Pool.wf_pool chunks'.
Proof.
  intros Hp (Hc16 & Hlen & Hwf) Hheld.
  destruct (pool_holds_value_inv _ _ _ Hheld) as (c & Hc & Hh).
  destruct (pool_erase_spec Hp chunks_ k i c Hwf Hc Hh)
    as (chunks' & c' & v & He & Hce & Hv & Hwfc' & Hgone & Hcase & Hwf' & Hval).
  pose proof (pool_erase_length _ _ _ He) as Hlens.
  exists chunks', c, v. split_and!; try done.
  - destruct (pool_size_values Hp chunks' Hwf' ltac:(lia)) as [-> _].
    destruct (pool_size_values Hp chunks_ Hwf ltac:(lia)) as [-> _].
    apply Permutation_length in Hval. simpl in Hval. lia.
  - split_and!; [done | lia | done].
Qed.


Section pool_observers.
Context {T : Type} {p : arena_params}.
Hypothesis Hp : instantiable.
Implicit Types (chunks : list (inplace_free_list T)) (c : inplace_free_list T).
Implicit Types (i j k : Z).

Lemma arena_at_ext c c' :
  wf_arena c → wf_arena c' → (∀ j, deref c' j = deref c j) →
  ∀ i, at_ c' i = at_ c i.
Proof.
  intros Hwf Hwf' Hsame i. destruct (decide (0 ≤ i < Capacity)) as [Hi|Hi].
  - rewrite !arena_at_slot by done. by rewrite Hsame.
  - unfold at_, owns. by rewrite !bool_decide_eq_false_2.
Qed.

(** [sort] of a pool, chunk by chunk. *)
Lemma pool_sort_spec chunks :
  Forall wf_arena chunks →
  ∃ chunks',
    Pool.sort chunks = Some chunks' ∧
    Forall2 (λ c c', wf_arena c' ∧ size_ c' = size_ c ∧
                     is_sorted c' = Some true ∧
                     ∀ j, deref c' j = deref c j) chunks chunks'.
Proof.
  induction 1 as [|c chunks Hc Hwf IH].
  - exists []. split; [done | constructor].
  - destruct IH as (chunks' & Hs & Hall).
    destruct (wf_free_chain _ Hc) as [ch Hch].
    destruct (sort_sorted Hp c ch Hc Hch)
      as (c' & ch' & Hsort & Hwf' & _ & _ & _ & Hsorted & Hsz & Hval).
    exists (c' :: chunks'). unfold Pool.sort in *. simpl.
    rewrite Hsort. simpl. rewrite Hs. simpl. split; [done|].
    constructor; [|done]. by split_and!.
Qed.

Lemma pool_is_sorted_all chunks :
  Forall (λ c, is_sorted c = Some true) chunks → Pool.is_sorted chunks = Some true.
Proof.
  induction 1 as [|c chunks Hc _ IH]; [done|]. simpl. rewrite Hc. simpl. exact IH.
Qed.

Lemma pool_size_ext chunks chunks' :
  Forall2 (λ c c', size_ c' = size_ c) chunks chunks' →
  Pool.size chunks' = Pool.size chunks.
Proof.
  intros H. unfold Pool.size. generalize 0.
  induction H as [|c c' chunks chunks' Hsz _ IH]; intros acc; [done|].
  simpl. unfold size. rewrite Hsz. apply IH.
Qed.

Lemma first_free_index_found chunks (k : nat) c :
  list_find (λ v, full v = false) chunks = Some (k, c) →
  0 ≤ first_free_ c < 65536 →
  Pool.first_free_index chunks = Pool.pack_index (Z.of_nat k) (first_free_ c).
Proof.
  intros Hfind Hff. unfold Pool.first_free_index, Pool.pack_index, first_free_offset.
  rewrite Hfind. by rewrite to_u16_small.
Qed.
End pool_observers.

(** X19. [first_free_index()] of a well-formed pool is the packed index the
    next insertion hands out, whenever some chunk has room; when every chunk
    is full, or there is no chunk, it is the largest [size_type] value and
    the next insertion goes to a new chunk. *)
Theorem first_free_index_predicts_insert {T : Type} {p : arena_params}
    (chunks_ : list (inplace_free_list T)) (v : T) :
  instantiable →
  Pool.wf_pool chunks_ → Z.of_nat (length chunks_) < 65534 →
  ∃ chunks' k i idx,
    Pool.insert chunks_ v = Some (chunks', (k, Placed i)) ∧
    Pool.as_index chunks' (k, i) = Some idx ∧
    (k < Z.of_nat (length chunks_) → Pool.first_free_index chunks_ = idx) ∧
    (Z.of_nat (length chunks_) ≤ k →
       Pool.first_free_index chunks_ = 2 ^ 64 - 1 ∧
       Forall (λ c, full c = true) chunks_ ∧
       length chunks' = S (length chunks_)).
Proof.
  intros Hp (Hc16 & Hlen & Hwf) Hlen'.
  destruct (pool_emplace_spec Hp chunks_ v Hwf)
    as (chunks' & k & i & c' & He & Hk & Hi & Hbefore & Hcase & Hk' & Hv & Hwf' & _).
  assert (Pool.chunk_at chunks' (Z.of_nat k) = Some c') as Hc'.
  { apply chunk_at_Some. split; [lia|]. by rewrite Nat2Z.id. }
  assert (wf_arena c') as Hwfc by (by eapply chunk_at_wf).
  assert (Z.of_nat (length chunks') < 65535) as Hl.
  { destruct (chunks_ !! k).
    - destruct Hcase as (_ & _ & ->). rewrite length_insert. lia.
    - destruct Hcase as (_ & _ & ->). rewrite length_app. simpl. lia. }
  destruct (pool_access Hp chunks' (Z.of_nat k) i c' Hl Hc' Hwfc Hi) as (_ & Has & _).
  exists chunks', (Z.of_nat k), i, (Pool.pack_index (Z.of_nat k) i).
  split; [done|]. split; [done|].
  destruct (chunks_ !! k) as [c|] eqn:Hck.
  - destruct Hcase as (Hfull & -> & _).
    pose proof (lookup_lt_Some _ _ _ Hck). split; [intros _ | lia].
    apply first_free_index_found; [|unfold first_free_offset in Hi; lia].
    apply list_find_Some. split; [done|]. split; [done|].
    intros m c0 Hc0 Hm. rewrite (Hbefore m c0 Hm Hc0). done.
  - destruct Hcase as (-> & -> & ->). split; [lia | intros _].
    assert (Forall (λ c, full c = true) chunks_) as Hall.
    { apply Forall_lookup. intros m c0 Hc0. apply (Hbefore m c0); [|done].
      by apply lookup_lt_Some in Hc0. }
    split_and!; [|done|rewrite length_app; simpl; lia].
    unfold Pool.first_free_index.
    assert (list_find (λ c, full c = false) chunks_ = None) as ->; [|done].
    apply list_find_None. eapply Forall_impl; [exact Hall|].
    simpl. intros c0 ->. done.
Qed.

Section pool_sizes.
Context {T : Type} {p : arena_params}.
Hypothesis Hc : compiles.
Implicit Types (chunks : list (inplace_free_list T)) (a : inplace_free_list T).

(** What the counters say needs no more of the instantiation than that it
    compiles. *)
Lemma compiles_capacity_bounds : 0 < Capacity < offset_type_npos.
Proof. destruct Hc as (? & ? & _). unfold static_assert_capacity in *. lia. Qed.

Lemma wf_size_counts a :
  wf_arena a → size_ a = Z.of_nat (length (live_values a)).
Proof.
  intros Hwf. pose proof compiles_capacity_bounds as Hcap.
  pose proof (wf_length _ Hwf ltac:(lia)) as Hlen.
  apply wf_arena_iff in Hwf as (_ & ch & Hch & Hall & Hsz).
  unfold live_values. rewrite (values_length _ _ _ Hlen Hch Hall). done.
Qed.

Lemma pool_size_counts chunks :
  Forall wf_arena chunks → Z.of_nat (length chunks) < 65535 →
  Pool.size chunks = Z.of_nat (length (Pool.live_values chunks)) ∧
  0 ≤ Pool.size chunks ≤ Z.of_nat (length chunks) * Capacity.
Proof.
  pose proof compiles_capacity_bounds as Hcap. pose proof npos_le_u16 as Hc16.
  induction chunks as [|c chunks IH] using rev_ind; intros Hwf Hlen.
  - unfold Pool.size, Pool.live_values. simpl. lia.
  - apply Forall_app in Hwf as [Hwf Hc']. rewrite Forall_singleton in Hc'.
    rewrite length_app in *. simpl in *.
    destruct (IH Hwf ltac:(lia)) as [IH1 IH2].
    destruct (wf_free_chain _ Hc') as [ch Hch].
    destruct (wf_size_bounds _ _ Hc' Hch ltac:(lia)) as [_ Hb].
    pose proof (wf_size_counts c Hc') as Hv.
    rewrite pool_size_snoc, pool_values_snoc, length_app. unfold size.
    rewrite to_size_small by nia. split; [lia | nia].
Qed.
End pool_sizes.

(** X20. In a well-formed pool [size()] is the number of live values,
    [capacity()] is the number of chunks times the chunk capacity, [size()]
    never exceeds [capacity()], [empty()] holds exactly when no value is
    live, and after [clear()] both are 0. *)
Theorem pool_size_counts_values {T : Type} {p : arena_params}
    (chunks_ : list (inplace_free_list T)) :
  compiles →
  Pool.wf_pool chunks_ →
  Pool.size chunks_ = Z.of_nat (length (Pool.live_values chunks_)) ∧
  Pool.capacity chunks_ = Z.of_nat (length chunks_) * Capacity ∧
  0 ≤ Pool.size chunks_ ≤ Pool.capacity chunks_ ∧
  (Pool.empty chunks_ = true ↔ Pool.live_values chunks_ = []) ∧
  Pool.size (Pool.clear chunks_) = 0 ∧ Pool.capacity (Pool.clear chunks_) = 0.
Proof.
  intros Hp (Hc16 & Hlen & Hwf). pose proof (compiles_capacity_bounds Hp) as Hcap.
  destruct (pool_size_counts Hp chunks_ Hwf Hlen) as [Hsz Hb].
  assert (Pool.capacity chunks_ = Z.of_nat (length chunks_) * Capacity) as Hc.
  { unfold Pool.capacity, Pool.chunk_capacity. apply to_size_small. nia. }
  split_and!; try done; try lia.
  unfold Pool.empty. rewrite bool_decide_eq_true, Hsz.
  destruct (Pool.live_values chunks_); simpl; split; (done || lia).
Qed.

(** X21. [sort()] of a well-formed pool returns and sorts the free chain of
    every chunk, so that [is_sorted()] holds afterwards; the chunk count and
    [size()] are unchanged, every chunk stays well formed, and bounds-checked
    access gives for every index what it gave before: no value moves. *)
Theorem pool_sort_keeps_indices {T : Type} {p : arena_params}
    (chunks_ : list (inplace_free_list T)) :
  instantiable →
  Pool.wf_pool chunks_ →
  ∃ chunks',
    Pool.sort chunks_ = Some chunks' ∧
    Pool.is_sorted chunks' = Some true ∧
    length chunks' = length chunks_ ∧
    Pool.wf_pool chunks' ∧
    Pool.size chunks' = Pool.size chunks_ ∧
    (∀ idx, Pool.at_ chunks' idx = Pool.at_ chunks_ idx).
Proof.
  intros Hp (Hc16 & Hlen & Hwf).
  destruct (pool_sort_spec Hp chunks_ Hwf) as (chunks' & Hsort & Hall).
  pose proof (Forall2_length _ _ _ Hall) as Hl.
  exists chunks'. split_and!; try done.
  - apply pool_is_sorted_all. eapply Forall2_Forall_r; [exact Hall|].
    apply Forall_true. by intros c c' (_ & _ & ? & _).
  - split_and!; [done | lia |].
    eapply Forall2_Forall_r; [exact Hall|].
    apply Forall_true. by intros c c' (? & _).
  - apply pool_size_ext. eapply Forall2_impl; [exact Hall|].
    by intros c c' (_ & ? & _).
  - intros idx. unfold Pool.at_.
    destruct (Pool.unpack_index idx) as [k i].
    unfold Pool.chunk_at. case_decide; [|done].
    destruct (chunks_ !! Z.to_nat k) as [c|] eqn:Hc.
    + destruct (Forall2_lookup_l _ _ _ _ _ Hall Hc) as (c' & -> & Hwf' & _ & _ & Hsame).
      simpl. rewrite (arena_at_ext c c'); [done | | done | done].
      rewrite Forall_lookup in Hwf. eauto.
    + rewrite (lookup_ge_None_2 chunks'); [done|].
      apply lookup_ge_None_1 in Hc. lia.
Qed.

(** X22. When the constructor of the value throws during an insertion into
    a pool whose chunks are all full (or that has no chunk), the exception
    leaves [emplace] after the new chunk was appended: the pool keeps a last
    chunk that holds no value, [capacity()] has grown by one chunk while the
    live values are what they were, and that chunk's free chain has lost its
    first slot, so the chunk is not well formed. *)
Theorem pool_ctor_throw_keeps_new_chunk {T : Type} {p : arena_params}
    (chunks_ : list (inplace_free_list T)) (leftover : Z) :
  instantiable →
  Z.of_nat (length chunks_) < 65534 →
  Forall (λ c, full c = true) chunks_ →
  ∃ c,
    Pool.emplace chunks_ (CtorThrows leftover)
      = Some (chunks_ ++ [c], (Z.of_nat (length chunks_), Raised)) ∧
    size c = 0 ∧ empty c = true ∧
    free_chain c = Some (seqZ 1 (Capacity - 1)) ∧
    ¬ wf_arena c ∧
    Pool.capacity (chunks_ ++ [c]) = Pool.capacity chunks_ + Capacity ∧
    Pool.live_values (chunks_ ++ [c]) = Pool.live_values chunks_.
Proof.
  intros Hp Hlen Hfull. pose proof (capacity_bounds Hp) as Hcap.
  pose proof (capacity_u16 Hp) as Hc16.
  set (e := {| storage_ := empty_storage (T:=T); first_free_ := 0; size_ := 0 |}).
  assert (initialize_empty = Some e) as He by apply (initialize_empty_eq Hp).
  pose proof (initialize_empty_wf Hp e He) as Hwfe.
  pose proof (initialize_empty_chain Hp e He) as Hch.
  rewrite seqZ_cons in Hch by lia.
  replace (Z.pred Capacity) with (Capacity - 1) in Hch by lia.
  destruct (emplace_raised Hp e leftover 0 _ Hwfe Hch)
    as (next & c & Hread & Hw & Hc & Hemp & Hch' & _ & Hnwf).
  exists c. split_and!; try done.
  - unfold Pool.emplace.
    assert (list_find (λ c, full c = false) chunks_ = None) as ->.
    { apply list_find_None. eapply Forall_impl; [exact Hfull|].
      simpl. intros c0 ->. done. }
    simpl. rewrite He. simpl. rewrite lookup_app_r by lia.
    rewrite Nat.sub_diag. simpl. rewrite Hemp. simpl.
    rewrite insert_app_r_alt by lia. by rewrite Nat.sub_diag.
  - by subst c.
  - by subst c.
  - unfold Pool.capacity, Pool.chunk_capacity. rewrite length_app. simpl.
    rewrite !to_size_small by nia. lia.
  - rewrite pool_values_snoc.
    assert (live_values c = []) as ->; [|by rewrite app_nil_r].
    assert (live_values e = []) as Hnil
      by (by apply (wf_empty_iff Hp)).
    pose proof (values_write_link _ _ _ _ _ Hread Hw) as Hperm.
    unfold live_values in *. rewrite Hnil in Hperm. by apply Permutation_nil_r.
Qed.

Section pool_access_example.
#[local] Existing Instance int32_2.

Lemma pool_insert_first_chunk_with_room_witness :
  let chunks_ : list (inplace_free_list Z) :=
    [ {| storage_ := [Occupied 1; Occupied 2]; first_free_ := 65535; size_ := 2 |};
      {| storage_ := [Occupied 3; Free 65535]; first_free_ := 1; size_ := 1 |} ] in
  ∃ chunks' (k : nat) i,
    Pool.insert chunks_ 7 = Some (chunks', (Z.of_nat k, Placed i)) ∧
    0 ≤ i < Capacity ∧
    (∀ (m : nat) c, (m < k)%nat → chunks_ !! m = Some c → full c = true) ∧
    match chunks_ !! k with
    | Some c => full c = false ∧ i = first_free_offset c ∧
                length chunks' = length chunks_
    | None => k = length chunks_ ∧ i = 0 ∧ length chunks' = S (length chunks_)
    end ∧
    Pool.wf_pool chunks' ∧
    Pool.live_values chunks' ≡ₚ 7 :: Pool.live_values chunks_ ∧
    Pool.size chunks' = Pool.size chunks_ + 1.
Proof.
  intros chunks_. refine (pool_insert_first_chunk_with_room chunks_ 7 _ _ _).
  - repeat split.
  - apply (bool_decide_unpack _). vm_compute. exact I.
  - simpl. lia.
Defined.

Lemma pool_index_roundtrip_witness :
  let chunks_ : list (inplace_free_list Z) :=
    [ {| storage_ := [Occupied 1; Occupied 2]; first_free_ := 65535; size_ := 2 |};
      {| storage_ := [Occupied 3; Free 65535]; first_free_ := 1; size_ := 1 |} ] in
  ∃ chunks' k i idx c',
    Pool.insert chunks_ 7 = Some (chunks', (k, Placed i)) ∧
    Pool.as_index chunks' (k, i) = Some idx ∧
    idx = k * 65536 + i ∧
    Pool.at_ chunks' idx = Some (k, Found i) ∧
    Pool.subscript chunks' idx = Some (k, i) ∧
    Pool.owns chunks' (k, i) = true ∧
    Pool.holds_value chunks' (k, i) = Some true ∧
    Pool.holds_value_at chunks' idx = Some true ∧
    Pool.chunk_at chunks' k = Some c' ∧ deref c' i = Some 7.
Proof.
  intros chunks_. refine (pool_index_roundtrip chunks_ 7 _ _ _).
  - repeat split.
  - apply (bool_decide_unpack _). vm_compute. exact I.
  - simpl. lia.
Defined.

Lemma pool_erase_then_at_witness :
  let chunks_ : list (inplace_free_list Z) :=
    [ {| storage_ := [Occupied 1; Occupied 2]; first_free_ := 65535; size_ := 2 |};
      {| storage_ := [Occupied 3; Free 65535]; first_free_ := 1; size_ := 1 |} ] in
  ∃ chunks' idx,
    Pool.erase chunks_ (1, 0) = Some chunks' ∧
    Pool.as_index chunks_ (1, 0) = Some idx ∧
    (length chunks' = length chunks_ →
       Pool.at_ chunks' idx = Some (1, OutOfRange "Index doesn't hold value.") ∧
       Pool.holds_value_at chunks' idx = Some false ∧
       Pool.holds_value chunks' (1, 0) = Some false) ∧
    (length chunks' ≠ length chunks_ →
       S (length chunks') = length chunks_ ∧ 1 = Z.of_nat (length chunks') ∧
       Pool.at_ chunks' idx = None ∧
       Pool.holds_value_at chunks' idx = None ∧
       Pool.owns chunks' (1, 0) = false).
Proof.
  intros chunks_. refine (pool_erase_then_at chunks_ 1 0 _ _ _).
  - repeat split.
  - apply (bool_decide_unpack _). vm_compute. exact I.
  - reflexivity.
Defined.

Lemma pool_erase_removes_one_value_witness :
  let chunks_ : list (inplace_free_list Z) :=
    [ {| storage_ := [Occupied 1; Occupied 2]; first_free_ := 65535; size_ := 2 |};
      {| storage_ := [Occupied 3; Free 65535]; first_free_ := 1; size_ := 1 |} ] in
  ∃ chunks' c v,
    Pool.erase chunks_ (0, 1) = Some chunks' ∧
    Pool.chunk_at chunks_ 0 = Some c ∧ deref c 1 = Some v ∧
    v :: Pool.live_values chunks' ≡ₚ Pool.live_values chunks_ ∧
    Pool.size chunks' = Pool.size chunks_ - 1 ∧
    (length chunks' = length chunks_ ∨ S (length chunks') = length chunks_) ∧
    Pool.wf_pool chunks'.
Proof.
  intros chunks_. refine (pool_erase_removes_one_value chunks_ 0 1 _ _ _).
  - repeat split.
  - apply (bool_decide_unpack _). vm_compute. exact I.
  - reflexivity.
Defined.

Lemma first_free_index_predicts_insert_witness :
  let chunks_ : list (inplace_free_list Z) :=
    [ {| storage_ := [Occupied 1; Occupied 2]; first_free_ := 65535; size_ := 2 |};
      {| storage_ := [Occupied 3; Free 65535]; first_free_ := 1; size_ := 1 |} ] in
  ∃ chunks' k i idx,
    Pool.insert chunks_ 7 = Some (chunks', (k, Placed i)) ∧
    Pool.as_index chunks' (k, i) = Some idx ∧
    (k < Z.of_nat (length chunks_) → Pool.first_free_index chunks_ = idx) ∧
    (Z.of_nat (length chunks_) ≤ k →
       Pool.first_free_index chunks_ = 2 ^ 64 - 1 ∧
       Forall (λ c, full c = true) chunks_ ∧
       length chunks' = S (length chunks_)).
Proof.
  intros chunks_. refine (first_free_index_predicts_insert chunks_ 7 _ _ _).
  - repeat split.
  - apply (bool_decide_unpack _). vm_compute. exact I.
  - simpl. lia.
Defined.

Lemma pool_size_counts_values_witness :
  let chunks_ : list (inplace_free_list Z) :=
    [ {| storage_ := [Occupied 1; Occupied 2]; first_free_ := 65535; size_ := 2 |};
      {| storage_ := [Occupied 3; Free 65535]; first_free_ := 1; size_ := 1 |} ] in
  Pool.size chunks_ = Z.of_nat (length (Pool.live_values chunks_)) ∧
  Pool.capacity chunks_ = Z.of_nat (length chunks_) * Capacity ∧
  0 ≤ Pool.size chunks_ ≤ Pool.capacity chunks_ ∧
  (Pool.empty chunks_ = true ↔ Pool.live_values chunks_ = []) ∧
  Pool.size (Pool.clear chunks_) = 0 ∧ Pool.capacity (Pool.clear chunks_) = 0.
Proof.
  intros chunks_. refine (pool_size_counts_values chunks_ _ _).
  - repeat split.
  - apply (bool_decide_unpack _). vm_compute. exact I.
Defined.

Lemma pool_sort_keeps_indices_witness :
  let chunks_ : list (inplace_free_list Z) :=
    [ {| storage_ := [Free 65535; Free 0]; first_free_ := 1; size_ := 0 |};
      {| storage_ := [Occupied 3; Free 65535]; first_free_ := 1; size_ := 1 |} ] in
  ∃ chunks',
    Pool.sort chunks_ = Some chunks' ∧
    Pool.is_sorted chunks' = Some true ∧
    length chunks' = length chunks_ ∧
    Pool.wf_pool chunks' ∧
    Pool.size chunks' = Pool.size chunks_ ∧
    (∀ idx, Pool.at_ chunks' idx = Pool.at_ chunks_ idx).
Proof.
  intros chunks_. refine (pool_sort_keeps_indices chunks_ _ _).
  - repeat split.
  - apply (bool_decide_unpack _). vm_compute. exact I.
Defined.

Lemma pool_ctor_throw_keeps_new_chunk_witness :
  let chunks_ : list (inplace_free_list Z) :=
    [ {| storage_ := [Occupied 1; Occupied 2]; first_free_ := 65535; size_ := 2 |} ] in
  let leftover := 0 in
  ∃ c,
    Pool.emplace chunks_ (CtorThrows leftover)
      = Some (chunks_ ++ [c], (Z.of_nat (length chunks_), Raised)) ∧
    size c = 0 ∧ empty c = true ∧
    free_chain c = Some (seqZ 1 (Capacity - 1)) ∧
    ¬ wf_arena c ∧
    Pool.capacity (chunks_ ++ [c]) = Pool.capacity chunks_ + Capacity ∧
    Pool.live_values (chunks_ ++ [c]) = Pool.live_values chunks_.
Proof.
  intros chunks_ leftover.
  refine (pool_ctor_throw_keeps_new_chunk chunks_ leftover _ _ _).
  - repeat split.
  - simpl. lia.
  - repeat constructor.
Defined.
End pool_access_example.


(** ** Filling a pool *)

Section pool_fill.
Context {T : Type} {p : arena_params}.
Hypothesis Hp : instantiable.
Implicit Types (chunks : list (inplace_free_list T)) (c : inplace_free_list T).
Implicit Types (i j q r : Z).

Lemma wf_full_chain c : wf_arena c → full c = true ↔ free_chain c = Some [].
Proof.
  intros Hwf. unfold full. rewrite bool_decide_eq_true. by rewrite free_chain_nil.
Qed.

(** One insertion into a pool that was filled in order. *)
Lemma pool_emplace_filled chunks q r v :
  Pool.filled_to chunks q r →
  ∃ chunks' c',
    Pool.emplace chunks (Constructs v) = Some (chunks', (q, Placed r)) ∧
    Pool.filled_to chunks' (if decide (r + 1 = Capacity) then q + 1 else q)
                           (if decide (r + 1 = Capacity) then 0 else r + 1) ∧
    Pool.chunk_at chunks' q = Some c' ∧ deref c' r = Some v ∧
    (∀ m c j w, Pool.chunk_at chunks m = Some c → deref c j = Some w →
                ∃ c2, Pool.chunk_at chunks' m = Some c2 ∧ deref c2 j = Some w).
Proof.
  intros (Hwf & Hq & Hr & Hlen & Hfullb & Hlast).
  pose proof (capacity_bounds Hp) as Hcap.
  destruct (pool_emplace_spec Hp chunks v Hwf)
    as (chunks' & k & i & c' & He & Hk & Hi & Hbefore & Hcase & Hk' & Hv & Hwf'
        & _ & c0 & Hwf0 & Hnf0 & Hemp0 & Hsrc).
  assert (Z.of_nat k = q ∧ free_chain c0 = Some (seqZ r (Capacity - r))) as [Hkq Hch0].
  { destruct (decide (r = 0)) as [->|Hr0].
    - destruct Hsrc as [Hc0 | [Hnone He0]].
      + pose proof (lookup_lt_Some _ _ _ Hc0).
        rewrite (Hfullb k c0) in Hnf0; [done | lia | done].
      + rewrite Hnone in Hcase. destruct Hcase as (-> & _ & _).
        split; [lia|]. rewrite Z.sub_0_r. by apply (initialize_empty_chain Hp).
    - destruct (Hlast Hr0) as (cq & Hcq & Hchq).
      assert (wf_arena cq) as Hwfq by (rewrite Forall_lookup in Hwf; eauto).
      assert (full cq = false) as Hnfq.
      { destruct (full cq) eqn:Hf; [|done].
        apply (wf_full_chain cq Hwfq) in Hf. rewrite Hchq in Hf.
        rewrite seqZ_cons in Hf by lia. done. }
      destruct Hsrc as [Hc0 | [Hnone He0]].
      + destruct (decide (Z.of_nat k < q)).
        { rewrite (Hfullb k c0) in Hnf0; [done | lia | done]. }
        destruct (decide (q < Z.of_nat k)).
        { rewrite (Hbefore (Z.to_nat q) cq) in Hnfq; [done | lia | done]. }
        assert (k = Z.to_nat q) as -> by lia.
        split; [lia | congruence].
      + rewrite Hnone in Hcase. destruct Hcase as (-> & _ & _).
        rewrite (Hbefore (Z.to_nat q) cq) in Hnfq; [done | lia | done]. }
  rewrite seqZ_cons in Hch0 by lia.
  replace (Z.succ r) with (r + 1) in Hch0 by lia.
  replace (Z.pred (Capacity - r)) with (Capacity - (r + 1)) in Hch0 by lia.
  destruct (emplace_placed Hp c0 v r _ Hwf0 Hch0)
    as (next & a' & Hread & _ & Hemp & Hwfa & Hcha).
  rewrite Hemp in Hemp0. injection Hemp0 as <- <-.
  destruct (emplace_at_head Hp c0 v Hwf0 Hnf0)
    as (a2 & i2 & Hemp2 & _ & _ & _ & _ & _ & _ & Hslots).
  rewrite Hemp in Hemp2. injection Hemp2 as <- <-.
  assert (Pool.chunk_at chunks' q = Some a') as Hat.
  { apply chunk_at_Some. split; [lia|]. by rewrite <- Hkq, Nat2Z.id. }
  assert (∀ (m : nat) c, m ≠ k → chunks !! m = Some c → chunks' !! m = Some c) as Hother.
  { intros m c Hm Hc. destruct (chunks !! k).
    - destruct Hcase as (_ & _ & ->). by rewrite list_lookup_insert_ne.
    - destruct Hcase as (_ & _ & ->). by apply lookup_app_l_Some. }
  assert (∀ (m : nat) c, m ≠ k → chunks' !! m = Some c →
            (m < length chunks)%nat → chunks !! m = Some c) as Hother'.
  { intros m c Hm Hc Hlt. destruct (chunks !! k).
    - destruct Hcase as (_ & _ & ->). by rewrite list_lookup_insert_ne in Hc.
    - destruct Hcase as (_ & _ & ->). by rewrite lookup_app_l in Hc. }
  assert (Z.of_nat (length chunks') = q + 1) as Hlen'.
  { destruct (chunks !! k) eqn:Hck.
    - destruct Hcase as (_ & _ & ->). rewrite length_insert.
      apply lookup_lt_Some in Hck. destruct (decide (r = 0)); lia.
    - destruct Hcase as (-> & _ & ->). rewrite length_app. simpl. lia. }
  exists chunks', a'. split; [by rewrite <- Hkq|]. split; [|split; [done|split; [done|]]].
  - split; [done|]. destruct (decide (r + 1 = Capacity)) as [Heq|Hne].
    + split; [lia|]. split; [lia|]. rewrite decide_True by done.
      split; [lia|]. split; [|done].
      intros m c Hm Hc. destruct (decide (m = k)) as [->|Hmk].
      * rewrite Hk' in Hc. injection Hc as <-. apply (wf_full_chain a' Hwfa).
        rewrite Hcha, Heq, Z.sub_diag. done.
      * apply (Hfullb m c); [lia|]. apply Hother'; [done | done |].
        destruct (decide (r = 0)); lia.
    + split; [lia|]. split; [lia|]. rewrite decide_False by lia.
      split; [lia|]. split.
      * intros m c Hm Hc. apply (Hfullb m c); [lia|].
        apply Hother'; [lia | done |]. destruct (decide (r = 0)); lia.
      * intros _. exists a'. split; [|done]. by rewrite <- Hkq, Nat2Z.id.
  - intros m c j w Hc Hw. apply chunk_at_Some in Hc as [Hm Hc].
    destruct (decide (Z.to_nat m = k)) as [Hmk|Hmk].
    + exists a'. split; [apply chunk_at_Some; split; [done | by rewrite Hmk]|].
      destruct Hsrc as [Hc0 | [Hnone _]]; [|rewrite <- Hmk in Hnone; congruence].
      rewrite <- Hmk in Hc0. assert (c0 = c) as -> by congruence.
      unfold deref in *. destruct (decide (j = r)) as [->|Hjr].
      * apply read_value_Some in Hw. apply read_offset_Some in Hread. congruence.
      * unfold read_value in *. by rewrite Hslots.
    + exists c. split; [|done]. apply chunk_at_Some. split; [done|].
      by apply Hother.
Qed.

(** A run of insertions into a pool that was filled in order. *)
Lemma pool_emplace_all_filled vs chunks q r :
  Pool.filled_to chunks q r →
  ∃ chunks' q' r',
    Pool.emplace_all chunks vs
      = Some (chunks',
              (λ n, (n `div` Capacity, Placed (n `mod` Capacity)))
                <$> seqZ (q * Capacity + r) (Z.of_nat (length vs))) ∧
    Pool.filled_to chunks' q' r' ∧
    q' * Capacity + r' = q * Capacity + r + Z.of_nat (length vs) ∧
    (∀ (k : nat) v, vs !! k = Some v →
       ∃ c, Pool.chunk_at chunks'
              ((q * Capacity + r + Z.of_nat k) `div` Capacity) = Some c ∧
            deref c ((q * Capacity + r + Z.of_nat k) `mod` Capacity) = Some v) ∧
    (∀ m c j w, Pool.chunk_at chunks m = Some c → deref c j = Some w →
                ∃ c2, Pool.chunk_at chunks' m = Some c2 ∧ deref c2 j = Some w).
Proof.
  pose proof (capacity_bounds Hp) as Hcap.
  revert chunks q r. induction vs as [|v vs IH]; intros chunks q r Hfilled.
  - exists chunks, q, r. simpl. split_and!; try done; try lia. eauto.
  - pose proof Hfilled as (_ & Hq & Hr & _).
    destruct (pool_emplace_filled chunks q r v Hfilled)
      as (chunks1 & c1 & He & Hfilled1 & Hc1 & Hv1 & Hkeep1).
    destruct (IH chunks1 _ _ Hfilled1)
      as (chunks' & q' & r' & Hall & Hfilled' & Hsum & Hvals & Hkeep).
    assert ((q * Capacity + r) `div` Capacity = q) as Hdiv
      by (symmetry; apply (Z.div_unique_pos _ _ _ r); lia).
    assert ((q * Capacity + r) `mod` Capacity = r) as Hmod
      by (symmetry; apply (Z.mod_unique_pos _ _ q); lia).
    assert ((if decide (r + 1 = Capacity) then q + 1 else q) * Capacity
            + (if decide (r + 1 = Capacity) then 0 else r + 1)
            = q * Capacity + r + 1) as Hnext
      by (destruct (decide (r + 1 = Capacity)); lia).
    rewrite Hnext in Hall, Hsum, Hvals.
    assert ((λ n, (n `div` Capacity, Placed (n `mod` Capacity)))
              <$> seqZ (q * Capacity + r) (Z.of_nat (length (v :: vs)))
            = (q, Placed r) ::
              ((λ n, (n `div` Capacity, Placed (n `mod` Capacity)))
                 <$> seqZ (q * Capacity + r + 1) (Z.of_nat (length vs)))) as Hlist.
    { rewrite length_cons, Nat2Z.inj_succ, seqZ_cons by lia.
      rewrite fmap_cons, Hdiv, Hmod. f_equal. f_equal; f_equal; lia. }
    exists chunks', q', r'. rewrite Hlist. split_and!; try done.
    + simpl. rewrite He. simpl. by rewrite Hall.
    + rewrite length_cons, Nat2Z.inj_succ. lia.
    + intros [|k] w Hw; simpl in Hw.
      * injection Hw as <-. rewrite Z.add_0_r, Hdiv, Hmod. by eapply Hkeep.
      * destruct (Hvals k w Hw) as (c & Hc & Hd). exists c.
        by replace (q * Capacity + r + Z.of_nat (S k))
             with (q * Capacity + r + 1 + Z.of_nat k) by lia.
    + intros m c j w Hc Hw. destruct (Hkeep1 m c j w Hc Hw) as (c2 & Hc2 & Hw2).
      by eapply Hkeep.
Qed.
End pool_fill.

(** X23. Filling an empty pool: the [n]-th insertion (from 0) returns the
    pointer to slot [n mod ChunkCapacity] of chunk [n div ChunkCapacity];
    afterwards the pool has as many chunks as the values need and is well
    formed, and bounds-checked access on the packed index of the [n]-th
    pointer finds the [n]-th value. *)
Theorem pool_fills_chunk_by_chunk {T : Type} {p : arena_params} (vs : list T) :
  instantiable →
  Z.of_nat (length vs) ≤ 65533 * Capacity →
  ∃ chunks,
    Pool.emplace_all [] vs
      = Some (chunks,
              (λ n, (n `div` Capacity, Placed (n `mod` Capacity)))
                <$> seqZ 0 (Z.of_nat (length vs))) ∧
    Z.of_nat (length chunks)
      = (Z.of_nat (length vs) + Capacity - 1) `div` Capacity ∧
    Pool.wf_pool chunks ∧
    (∀ (n : nat) v, vs !! n = Some v →
       Pool.at_ chunks (Pool.pack_index (Z.of_nat n `div` Capacity)
                                        (Z.of_nat n `mod` Capacity))
         = Some (Z.of_nat n `div` Capacity, Found (Z.of_nat n `mod` Capacity)) ∧
       ∃ c, Pool.chunk_at chunks (Z.of_nat n `div` Capacity) = Some c ∧
            deref c (Z.of_nat n `mod` Capacity) = Some v).
Proof.
  intros Hp Hn. pose proof (capacity_bounds Hp) as Hcap.
  pose proof (capacity_u16 Hp) as Hc16.
  assert (Pool.filled_to ([] : list (inplace_free_list T)) 0 0) as Hempty.
  { split; [constructor|]. split; [lia|]. split; [lia|]. rewrite decide_True by done.
    split; [done|]. split; [|done]. intros m c _ Hc. done. }
  destruct (pool_emplace_all_filled Hp vs [] 0 0 Hempty)
    as (chunks & q & r & Hall & Hfilled & Hsum & Hvals & _).
  replace (0 * Capacity + 0) with 0 in Hall, Hsum, Hvals by lia.
  rewrite Z.add_0_l in Hsum.
  destruct Hfilled as (Hwf & Hq & Hr & Hlen & _).
  assert (Z.of_nat (length chunks)
          = (Z.of_nat (length vs) + Capacity - 1) `div` Capacity) as Hcount.
  { rewrite Hlen, <- Hsum. destruct (decide (r = 0)) as [->|Hr0].
    - apply (Z.div_unique_pos _ _ _ (Capacity - 1)); lia.
    - apply (Z.div_unique_pos _ _ _ (r - 1)); lia. }
  assert (Z.of_nat (length chunks) < 65535) as Hl.
  { rewrite Hlen. destruct (decide (r = 0)); nia. }
  exists chunks. split; [done|]. split; [done|]. split; [by split_and!|].
  intros n v Hv. destruct (Hvals n v Hv) as (c & Hc & Hd).
  rewrite Z.add_0_l in Hc, Hd.
  pose proof (Z.mod_pos_bound (Z.of_nat n) Capacity (proj1 Hcap)) as Hi.
  assert (wf_arena c) as Hwfc by (by eapply chunk_at_wf).
  destruct (pool_access Hp chunks _ _ c Hl Hc Hwfc Hi) as (_ & _ & _ & _ & _ & _ & Hat).
  rewrite Hd in Hat.
  rewrite (bool_decide_eq_true_2 (is_Some (Some v))) in Hat by (by eexists).
  split; [done|]. by exists c.
Qed.

Section pool_fill_example.
#[local] Existing Instance int32_2.

Lemma pool_fills_chunk_by_chunk_witness :
  ∃ chunks : list (inplace_free_list Z),
    Pool.emplace_all [] [7; 8; 9]
      = Some (chunks,
              (λ n, (n `div` Capacity, Placed (n `mod` Capacity)))
                <$> seqZ 0 (Z.of_nat (length [7; 8; 9]))) ∧
    Z.of_nat (length chunks)
      = (Z.of_nat (length [7; 8; 9]) + Capacity - 1) `div` Capacity ∧
    Pool.wf_pool chunks ∧
    (∀ (n : nat) v, [7; 8; 9] !! n = Some v →
       Pool.at_ chunks (Pool.pack_index (Z.of_nat n `div` Capacity)
                                        (Z.of_nat n `mod` Capacity))
         = Some (Z.of_nat n `div` Capacity, Found (Z.of_nat n `mod` Capacity)) ∧
       ∃ c, Pool.chunk_at chunks (Z.of_nat n `div` Capacity) = Some c ∧
            deref c (Z.of_nat n `mod` Capacity) = Some v).
Proof.
  refine (pool_fills_chunk_by_chunk [7; 8; 9] _ _).
  - repeat split.
  - simpl. unfold Capacity. simpl. lia.
Defined.
End pool_fill_example.


(** ** The invariant under every mutating member *)

Section every_call.
Context {T : Type} {p : arena_params}.
Hypothesis Hp : instantiable.
Implicit Types (a : inplace_free_list T) (call : arena_call T).

Lemma arena_apply_wf a call a' :
  wf_arena a → call_constructs call → arena_apply a call = Some a' →
  wf_arena a'.
Proof.
  intros Hwf Hcall. destruct call as [c|ptr| | |]; simpl.
  - intros H. apply (arena_step_wf Hp a (OpEmplace c)); done.
  - intros H. apply (arena_step_wf Hp a (OpErase ptr)); done.
  - destruct (sort_spec Hp a Hwf) as (a1 & -> & Hwf1 & _). by intros [= <-].
  - destruct (optimize_at_spec Hp a Hwf) as (a1 & calls & -> & Hwf1 & _).
    by intros [= <-].
  - unfold clear. rewrite (destroy_all_wf _ Hwf). simpl.
    by apply (initialize_empty_wf Hp).
Qed.

Lemma arena_apply_stuck a call :
  wf_arena a →
  arena_apply a call = None ↔
  ∃ ptr, call = CallErase ptr ∧ holds_value a ptr ≠ Some true.
Proof.
  intros Hwf. split.
  - destruct call as [c|ptr| | |]; simpl.
    + destruct (emplace_is_Some Hp a c Hwf) as [? ->]. done.
    + intros He. exists ptr. split; [done|]. intros Hh.
      apply (erase_is_Some_iff Hp a ptr Hwf) in Hh as [? ?]. congruence.
    + destruct (sort_spec Hp a Hwf) as (a1 & -> & _). done.
    + destruct (optimize_at_spec Hp a Hwf) as (a1 & calls & -> & _). done.
    + unfold clear. rewrite (destroy_all_wf _ Hwf). simpl.
      by rewrite (initialize_empty_eq Hp).
  - intros (ptr & -> & Hh). simpl.
    destruct (erase a ptr) as [a1|] eqn:He; [|done].
    destruct Hh. apply (erase_is_Some_iff Hp a ptr Hwf). by eexists.
Qed.

Lemma arena_calls_wf calls a a' :
  wf_arena a → Forall call_constructs calls → arena_calls a calls = Some a' →
  wf_arena a'.
Proof.
  revert a. induction calls as [|call calls IH]; intros a Hwf Hcalls; simpl.
  - by intros [= <-].
  - apply Forall_cons in Hcalls as [Hcall Hcalls].
    destruct (arena_apply a call) as [a1|] eqn:Ha; [|done]. simpl.
    apply IH; [by eapply arena_apply_wf | done].
Qed.
End every_call.

(** X24. Every arena reached from a newly constructed one by calls of
    [emplace], [erase], [sort], [optimize_at] and [clear], in any order, in
    which no constructor throws, is well formed: its free chain ends and
    visits no slot twice, [size()] plus the length of the chain is
    [capacity()], and [size()] counts the live values.  In such an arena
    every one of these calls returns, whatever a constructor does in it,
    except an [erase] whose pointer does not hold a value, which fails its
    assertion; and when the arena is not full, an [emplace] whose constructor
    throws leaves it not well formed. *)
Theorem every_call_keeps_the_invariant {T : Type} {p : arena_params}
    (calls : list (arena_call T)) (e a : inplace_free_list T) :
  instantiable →
  initialize_empty = Some e →
  Forall call_constructs calls →
  arena_calls e calls = Some a →
  wf_arena a ∧
  (∃ ch, free_chain a = Some ch ∧ NoDup ch ∧
         size a + Z.of_nat (length ch) = capacity (p:=p)) ∧
  size a = Z.of_nat (length (live_values a)) ∧
  (∀ call, arena_apply a call = None ↔
           ∃ ptr, call = CallErase ptr ∧ holds_value a ptr ≠ Some true) ∧
  (∀ leftover, full a = false →
     ∃ a', arena_apply a (CallEmplace (CtorThrows leftover)) = Some a' ∧
           size a' = size a ∧ ¬ wf_arena a').
Proof.
  intros Hp He Hcalls Hrun. pose proof (capacity_bounds Hp) as Hcap.
  assert (wf_arena a) as Hwf.
  { eapply (arena_calls_wf Hp); [|exact Hcalls|exact Hrun].
    by apply (initialize_empty_wf Hp). }
  split; [done|]. split; [|split; [|split]].
  - destruct (wf_free_chain _ Hwf) as [ch Hch]. exists ch.
    destruct (wf_size_bounds _ _ Hwf Hch ltac:(lia)) as [Hsz _].
    split; [done|]. split.
    + apply free_chain_iff in Hch. by eapply chain_NoDup.
    + unfold size, capacity. lia.
  - by apply wf_size_values.
  - intros call. by apply arena_apply_stuck.
  - intros leftover Hfull.
    destruct (emplace_raised_not_full Hp a leftover Hwf Hfull)
      as (a' & i & ch & Hem & _ & _ & Hsz & Hnwf).
    exists a'. simpl. by rewrite Hem.
Qed.

Section every_call_example.
#[local] Existing Instance int32_4.

Lemma every_call_keeps_the_invariant_witness :
  let calls : list (arena_call Z) :=
    [CallEmplace (Constructs 1); CallEmplace (Constructs 2);
     CallEmplace (Constructs 3); CallErase 1; CallSort; CallOptimizeAt;
     CallEmplace (Constructs 4); CallErase 0] in
  let e : inplace_free_list Z :=
    {| storage_ := [Free 1; Free 2; Free 3; Free 65535];
       first_free_ := 0; size_ := 0 |} in
  let a : inplace_free_list Z :=
    {| storage_ := [Free 3; Occupied 3; Occupied 4; Free 65535];
       first_free_ := 0; size_ := 2 |} in
  wf_arena a ∧
  (∃ ch, free_chain a = Some ch ∧ NoDup ch ∧
         size a + Z.of_nat (length ch) = capacity) ∧
  size a = Z.of_nat (length (live_values a)) ∧
  (∀ call, arena_apply a call = None ↔
           ∃ ptr, call = CallErase ptr ∧ holds_value a ptr ≠ Some true) ∧
  (∀ leftover, full a = false →
     ∃ a', arena_apply a (CallEmplace (CtorThrows leftover)) = Some a' ∧
           size a' = size a ∧ ¬ wf_arena a').
Proof.
  intros calls e a. refine (every_call_keeps_the_invariant calls e a _ _ _ _).
  - repeat split.
  - reflexivity.
  - apply (bool_decide_unpack _). vm_compute. exact I.
  - reflexivity.
Defined.
End every_call_example.


(** ** The relocation callback of the pool *)

Section replay_facts.
Context {T : Type}.
Implicit Types (known : Z → option T) (moves : list (Z * Z)).

Lemma replay_app moves1 moves2 known :
  Pool.replay (moves1 ++ moves2) known
  = Pool.replay moves2 (Pool.replay moves1 known).
Proof. unfold Pool.replay. by rewrite foldl_app. Qed.

(** Following the calls depends only on what is known at the indices of a
    set that holds the [from] of every call. *)
Lemma replay_ext (D : Z → Prop) moves known known' :
  Forall (λ ft, D ft.1) moves →
  (∀ idx, D idx → known idx = known' idx) →
  ∀ idx, D idx → Pool.replay moves known idx = Pool.replay moves known' idx.
Proof.
  revert known known'. induction moves as [|m moves IH]; intros known known' HD Hsame.
  - done.
  - apply Forall_cons in HD as [Hm HD]. intros idx Hidx.
    change (Pool.replay moves (Pool.relocate known m) idx
            = Pool.replay moves (Pool.relocate known' m) idx).
    apply IH; [done | | done]. intros idx' Hidx'. unfold Pool.relocate.
    repeat case_decide; auto.
Qed.

(** Calls that never use an index both as [from] and as [to], and use no
    index twice, can be followed in any order. *)
Lemma replay_parallel moves known :
  NoDup moves.*1 → NoDup moves.*2 → (∀ x, x ∈ moves.*1 → x ∉ moves.*2) →
  (∀ from to, (from, to) ∈ moves → Pool.replay moves known to = known from) ∧
  (∀ idx, idx ∈ moves.*1 → Pool.replay moves known idx = None) ∧
  (∀ idx, idx ∉ moves.*1 → idx ∉ moves.*2 → Pool.replay moves known idx = known idx).
Proof.
  revert known. induction moves as [|[f t] moves IH]; intros known Hfrom Hto Hdisj.
  - split_and!; [by intros ? ? ?%elem_of_nil | by intros ? ?%elem_of_nil | done].
  - rewrite !fmap_cons in *. simpl in *.
    apply NoDup_cons in Hfrom as [Hf Hfrom]. apply NoDup_cons in Hto as [Ht Hto].
    destruct (IH (Pool.relocate known (f, t)) Hfrom Hto) as (IHa & IHb & IHc).
    { intros x Hx. specialize (Hdisj x ltac:(set_solver)). set_solver. }
    assert (f ≠ t) as Hft by (specialize (Hdisj f ltac:(set_solver)); set_solver).
    assert (t ∉ moves.*1) as Ht1
      by (intros Hin; specialize (Hdisj t ltac:(set_solver)); set_solver).
    assert (f ∉ moves.*2) as Hf2 by (specialize (Hdisj f ltac:(set_solver)); set_solver).
    change (Pool.replay ((f, t) :: moves) known)
      with (Pool.replay moves (Pool.relocate known (f, t))).
    split_and!.
    + intros from to [Heq | Hin]%elem_of_cons.
      * injection Heq as -> ->. rewrite IHc by done. unfold Pool.relocate. simpl.
        by rewrite decide_True.
      * rewrite (IHa from to Hin). unfold Pool.relocate. simpl.
        assert (from ∈ moves.*1) as Hin1.
        { apply list_elem_of_fmap. by exists (from, to). }
        rewrite decide_False.
        2: { intros ->. specialize (Hdisj t ltac:(set_solver)). set_solver. }
        rewrite decide_False; [done|]. by intros ->.
    + intros idx [-> | Hin]%elem_of_cons.
      * rewrite IHc by done. unfold Pool.relocate. simpl.
        rewrite decide_False by done. by rewrite decide_True.
      * by apply IHb.
    + intros idx Hn1 Hn2. apply not_elem_of_cons in Hn1 as [? ?].
      apply not_elem_of_cons in Hn2 as [? ?]. rewrite IHc by done.
      unfold Pool.relocate. simpl. by rewrite !decide_False.
Qed.
End replay_facts.

Section pool_moves.
Context {T : Type} {p : arena_params}.
Hypothesis Hp : instantiable.
Implicit Types (chunks : list (inplace_free_list T)) (c : inplace_free_list T).
Implicit Types (known : Z → option T) (i j k s d : Z).

Lemma value_at_unpack chunks idx k s :
  Pool.unpack_index idx = (k, s) →
  Pool.value_at chunks idx = (c ← Pool.chunk_at chunks k; deref c s).
Proof. unfold Pool.value_at. by intros ->. Qed.

Lemma value_at_pack chunks k s :
  0 ≤ k < 65536 → 0 ≤ s < 65536 →
  Pool.value_at chunks (Pool.pack_index k s)
  = (c ← Pool.chunk_at chunks k; deref c s).
Proof. intros. apply value_at_unpack. by apply unpack_pack_index. Qed.

Lemma canonical_eq idx k s :
  0 ≤ idx < 2 ^ 32 → Pool.unpack_index idx = (k, s) → idx = Pool.pack_index k s.
Proof.
  intros Hidx Hun. rewrite <- (pack_unpack_index idx) by done. by rewrite Hun.
Qed.

(** Replacing a chunk by one that holds the same values in the same slots
    changes nothing for the indices. *)
Lemma value_at_set_same chunks i c c' :
  Pool.chunk_at chunks i = Some c → (∀ t, deref c' t = deref c t) →
  ∀ idx, Pool.value_at (Pool.set_chunk chunks i c') idx = Pool.value_at chunks idx.
Proof.
  intros Hc Hsame idx. destruct (Pool.unpack_index idx) as [k s] eqn:Hun.
  rewrite !(value_at_unpack _ _ k s Hun).
  pose proof (chunk_at_range _ _ _ Hc) as Hi.
  destruct (unpack_index_range idx) as [Hk _]. rewrite Hun in Hk. simpl in Hk.
  destruct (decide (k = i)) as [->|Hne].
  - rewrite chunk_at_set_eq by done. rewrite Hc. simpl. apply Hsame.
  - by rewrite chunk_at_set_ne by lia.
Qed.

(** One value goes from slot [s] of chunk [j] to slot [d] of chunk [i]. *)
Lemma value_at_move chunks i j ci cj ci' cj' d s v known :
  0 ≤ i < 65536 → 0 ≤ j < 65536 → i ≠ j →
  0 ≤ d < 65536 → 0 ≤ s < 65536 →
  Pool.chunk_at chunks i = Some ci → Pool.chunk_at chunks j = Some cj →
  deref cj s = Some v →
  deref ci' d = Some v → (∀ t, t ≠ d → deref ci' t = deref ci t) →
  deref cj' s = None → (∀ t, t ≠ s → deref cj' t = deref cj t) →
  (∀ idx, 0 ≤ idx < 2 ^ 32 → known idx = Pool.value_at chunks idx) →
  ∀ idx, 0 ≤ idx < 2 ^ 32 →
    Pool.relocate known (Pool.pack_index j s, Pool.pack_index i d) idx
    = Pool.value_at (Pool.set_chunk (Pool.set_chunk chunks i ci') j cj') idx.
Proof.
  intros Hi Hj Hne Hd Hs Hci Hcj Hv Hvi Hresti Hvj Hrestj Hknown idx Hidx.
  pose proof (chunk_at_range _ _ _ Hci) as Hri.
  pose proof (chunk_at_range _ _ _ Hcj) as Hrj.
  destruct (Pool.unpack_index idx) as [k t] eqn:Hun.
  rewrite (value_at_unpack _ _ k t Hun).
  pose proof (canonical_eq idx k t Hidx Hun) as Hcanon.
  destruct (unpack_index_range idx) as [Hk Ht]. rewrite Hun in Hk, Ht. simpl in Hk, Ht.
  assert (Pool.chunk_at (Pool.set_chunk (Pool.set_chunk chunks i ci') j cj') j
          = Some cj') as Hj'
    by (apply chunk_at_set_eq; rewrite set_chunk_length; lia).
  assert (Pool.chunk_at (Pool.set_chunk (Pool.set_chunk chunks i ci') j cj') i
          = Some ci') as Hi'.
  { rewrite chunk_at_set_ne by lia. apply chunk_at_set_eq. lia. }
  unfold Pool.relocate. simpl.
  destruct (decide (idx = Pool.pack_index i d)) as [Heq|Hn1].
  - rewrite Heq, unpack_pack_index in Hun by done. injection Hun as <- <-.
    rewrite Hi'. simpl. rewrite Hvi.
    rewrite Hknown by (apply pack_index_range; lia).
    rewrite value_at_pack by lia. rewrite Hcj. simpl. done.
  - destruct (decide (idx = Pool.pack_index j s)) as [Heq|Hn2].
    + rewrite Heq, unpack_pack_index in Hun by done. injection Hun as <- <-.
      rewrite Hj'. simpl. by rewrite Hvj.
    + rewrite Hknown by done. rewrite (value_at_unpack _ _ k t Hun).
      destruct (decide (k = j)) as [->|Hkj].
      * rewrite Hj', Hcj. simpl. symmetry. apply Hrestj. congruence.
      * rewrite (chunk_at_set_ne _ j k) by lia.
        destruct (decide (k = i)) as [->|Hki].
        -- rewrite chunk_at_set_eq by lia. rewrite Hci. simpl. symmetry.
           apply Hresti. congruence.
        -- by rewrite chunk_at_set_ne by lia.
Qed.
End pool_moves.


Section compaction_moves.
Context {T : Type} {p : arena_params}.
Hypothesis Hp : instantiable.
Implicit Types (a : inplace_free_list T) (chunks : list (inplace_free_list T)).
Implicit Types (c : inplace_free_list T) (known : Z → option T) (i j k s d : Z).

(** A slot that is free and is not the target of a move is free after
    [optimize_at]. *)
Lemma optimize_at_free_stays a a' calls j :
  wf_arena a → optimize_at a = Some (a', calls) →
  read_value (storage_ a) j = None → j ∉ calls.*2 →
  read_value (storage_ a') j = None.
Proof.
  intros Hwf Hopt Hfree Hnot. pose proof (capacity_bounds Hp) as Hcap.
  destruct (wf_free_chain _ Hwf) as [ch Hch].
  apply free_chain_iff in Hch as Hchain.
  pose proof (wf_length _ Hwf ltac:(lia)) as Hlen0.
  destruct (decide (0 ≤ j < Capacity)) as [Hj|Hj].
  2: { destruct (optimize_at_layout Hp a Hwf)
         as (a1 & calls1 & k & Hopt1 & _ & Hlen1 & _).
       rewrite Hopt in Hopt1. injection Hopt1 as <- <-.
       destruct (read_value (storage_ a') j) eqn:Hr; [|done].
       apply read_value_Some, slot_at_Some in Hr. lia. }
  assert (Z.testbit (mask_of 0 ch) j = true) as Hbit0.
  { apply (mask_of_chain_testbit _ _ _ j Hchain).
    destruct (wf_chain_slots a ch j Hwf Hch Hj) as [(? & _) | (_ & [v Hv] & _)];
      [done | congruence]. }
  pose proof (optimize_inv_init Hp a ch Hwf Hch) as Hinit.
  destruct (optimize_loop_inv Hp a (mask_of 0 ch) (Z.to_nat (2 * Capacity)) _ Hinit)
    as (c & Hloop & Hinv & Hmeet).
  { unfold optimize_measure. cbn [c_right c_left c_mask].
    destruct (Z.testbit (mask_of 0 ch) 0); lia. }
  clear Hinit.
  destruct Hinv as [Hlen Hcur Hmask Hpre Hsuf Hval Hstart Hfrom Hto Hcalls Hkept Hfr].
  unfold optimize_at in Hopt. rewrite (free_mask_chain _ _ Hch) in Hopt. simpl in Hopt.
  rewrite (to_offset_index Hp (Capacity - 1)) in Hopt by lia.
  rewrite Hloop in Hopt. simpl in Hopt. unfold bitset_test in Hopt.
  destruct (decide (0 ≤ c_right c < Capacity)); [|lia]. simpl in Hopt.
  destruct (decide (0 ≤ Capacity - 1 < Capacity)); [|lia].
  rewrite (bool_decide_eq_true_2 (c_right c >= 0)) in Hopt by lia. simpl in Hopt.
  assert (calls = c_calls c) as Hc.
  { destruct (Z.testbit (c_mask c) (c_right c)); simpl in Hopt.
    - destruct (write_slot _ _ _) as [st1|]; simpl in Hopt; [|done].
      destruct (Z.testbit (c_mask c) (Capacity - 1)); simpl in Hopt.
      + destruct (write_slot st1 _ _); simpl in Hopt; [|done].
        by injection Hopt as <- <-.
      + by injection Hopt as <- <-.
    - destruct (Z.testbit (c_mask c) (Capacity - 1)); simpl in Hopt.
      + destruct (write_slot _ _ _); simpl in Hopt; [|done].
        by injection Hopt as <- <-.
      + by injection Hopt as <- <-. }
  subst calls.
  assert (read_value (c_storage c) j = None) as Hfreec.
  { pose proof (Hfr j Hj Hbit0 Hnot) as Hb. apply Hmask in Hb as [o Ho]; [|done].
    apply read_offset_Some in Ho. unfold read_value. by rewrite Ho. }
  assert (∀ (st : list (slot T)) i o,
            write_slot (c_storage c) i (Free o) = Some st →
            read_value st j = None) as Hw1.
  { intros st i o Hw. destruct (decide (i = j)) as [->|Hne].
    - by eapply read_value_write_link.
    - by rewrite (read_value_write_ne _ _ _ _ j Hw). }
  assert (∀ (st st' : list (slot T)) i o,
            read_value st j = None →
            write_slot st i (Free o) = Some st' →
            read_value st' j = None) as Hw2.
  { intros st st' i o Hn Hw. destruct (decide (i = j)) as [->|Hne].
    - by eapply read_value_write_link.
    - by rewrite (read_value_write_ne _ _ _ _ j Hw). }
  destruct (Z.testbit (c_mask c) (c_right c)); simpl in Hopt.
  - destruct (write_slot (c_storage c) _ _) as [st1|] eqn:Hws; simpl in Hopt; [|done].
    destruct (Z.testbit (c_mask c) (Capacity - 1)); simpl in Hopt.
    + destruct (write_slot st1 _ _) as [st2|] eqn:Hws2; simpl in Hopt; [|done].
      injection Hopt as <-. simpl. eapply Hw2; [|exact Hws2]. by eapply Hw1.
    + injection Hopt as <-. simpl. by eapply Hw1.
  - destruct (Z.testbit (c_mask c) (Capacity - 1)); simpl in Hopt.
    + destruct (write_slot (c_storage c) _ _) as [st2|] eqn:Hws2; simpl in Hopt; [|done].
      injection Hopt as <-. simpl. by eapply Hw1.
    + by injection Hopt as <-.
Qed.

Lemma empty_no_values c s :
  wf_arena c → empty c = true → deref c s = None.
Proof.
  intros Hwf He. apply (wf_empty_iff Hp c Hwf) in He.
  unfold deref. destruct (read_value (storage_ c) s) as [v|] eqn:Hv; [|done].
  apply read_value_Some in Hv. unfold slot_at in Hv. case_decide; [|done].
  assert (v ∈ live_values c) as Hin.
  { unfold live_values, values. apply list_elem_of_omap.
    exists (Occupied v). split; [by eapply list_elem_of_lookup_2 | done]. }
  rewrite He in Hin. by apply elem_of_nil in Hin.
Qed.
End compaction_moves.


Section pool_compaction_moves.
Context {T : Type} {p : arena_params}.
Hypothesis Hp : instantiable.
Implicit Types (a : inplace_free_list T) (chunks : list (inplace_free_list T)).
Implicit Types (c : inplace_free_list T) (known : Z → option T) (i j k s d : Z).

Lemma pack_index_inj i x y :
  0 ≤ i < 65536 → 0 ≤ x < 65536 → 0 ≤ y < 65536 →
  Pool.pack_index i x = Pool.pack_index i y → x = y.
Proof.
  intros Hi Hx Hy Heq. apply (f_equal Pool.unpack_index) in Heq.
  rewrite !unpack_pack_index in Heq by done. by injection Heq.
Qed.

(** The moves inside one chunk, as the pool reports them. *)
Lemma value_at_compact chunks i sorted compacted moved known :
  0 ≤ i < 65536 →
  Pool.chunk_at chunks i = Some sorted → wf_arena sorted →
  optimize_at sorted = Some (compacted, moved) →
  (∀ idx, 0 ≤ idx < 2 ^ 32 → known idx = Pool.value_at chunks idx) →
  ∀ idx, 0 ≤ idx < 2 ^ 32 →
    Pool.replay ((λ ft, (Pool.pack_index i (to_u16 ft.1),
                         Pool.pack_index i (to_u16 ft.2))) <$> moved) known idx
    = Pool.value_at (Pool.set_chunk chunks i compacted) idx.
Proof.
  intros Hi Hc Hwf Hopt Hknown idx Hidx. pose proof (capacity_u16 Hp) as Hc16.
  pose proof (capacity_bounds Hp) as Hcap.
  destruct (optimize_at_spec Hp sorted Hwf)
    as (a' & calls & Hopt' & Hwf' & Hsize & Hbound & Hch & Hlow & Hhigh & Hval
        & Hfrom & Hto & Hcalls & Hkept).
  rewrite Hopt in Hopt'. injection Hopt' as <- <-. unfold size in *.
  assert ((λ ft : Z * Z, (Pool.pack_index i (to_u16 ft.1),
                          Pool.pack_index i (to_u16 ft.2))) <$> moved
          = (λ ft, (Pool.pack_index i ft.1, Pool.pack_index i ft.2)) <$> moved) as ->.
  { apply Forall_fmap_ext_1, Forall_forall. intros [f t] Hft. simpl.
    destruct (Hcalls f t Hft) as (? & ? & _). by rewrite !to_u16_small by lia. }
  set (packed := (λ ft : Z * Z, (Pool.pack_index i ft.1, Pool.pack_index i ft.2))
                   <$> moved).
  assert (∀ x, x ∈ packed.*1 ↔ ∃ f, x = Pool.pack_index i f ∧ f ∈ moved.*1) as Hp1.
  { intros x. unfold packed. rewrite <- list_fmap_compose, !list_elem_of_fmap.
    split.
    - intros ([f t] & -> & Hin). exists f. split; [done|].
      apply list_elem_of_fmap. by exists (f, t).
    - intros (f & -> & ([f' t] & -> & Hin)%list_elem_of_fmap). by exists (f', t). }
  assert (∀ x, x ∈ packed.*2 ↔ ∃ t, x = Pool.pack_index i t ∧ t ∈ moved.*2) as Hp2.
  { intros x. unfold packed. rewrite <- list_fmap_compose, !list_elem_of_fmap.
    split.
    - intros ([f t] & -> & Hin). exists t. split; [done|].
      apply list_elem_of_fmap. by exists (f, t).
    - intros (t & -> & ([f t'] & -> & Hin)%list_elem_of_fmap). by exists (f, t'). }
  assert (∀ f, f ∈ moved.*1 → size_ sorted ≤ f < Capacity) as Hf1.
  { intros f ([f' t] & -> & Hin)%list_elem_of_fmap. by destruct (Hcalls f' t Hin) as (_ & ? & _). }
  assert (∀ t, t ∈ moved.*2 → 0 ≤ t < size_ sorted) as Ht2.
  { intros t ([f t'] & -> & Hin)%list_elem_of_fmap. by destruct (Hcalls f t' Hin) as (? & _). }
  destruct (replay_parallel packed known) as (Ha & Hb & Hcc).
  { unfold packed. rewrite <- list_fmap_compose.
    change (NoDup ((Pool.pack_index i ∘ fst) <$> moved)).
    rewrite list_fmap_compose. apply NoDup_fmap_2_strong; [|done].
    intros x y Hx%Hf1 Hy%Hf1. apply pack_index_inj; lia. }
  { unfold packed. rewrite <- list_fmap_compose.
    change (NoDup ((Pool.pack_index i ∘ snd) <$> moved)).
    rewrite list_fmap_compose. apply NoDup_fmap_2_strong; [|done].
    intros x y Hx%Ht2 Hy%Ht2. apply pack_index_inj; lia. }
  { intros x (f & -> & Hf%Hf1)%Hp1 (t & Heq & Ht%Ht2)%Hp2.
    apply pack_index_inj in Heq; lia. }
  destruct (Pool.unpack_index idx) as [k t'] eqn:Hun.
  rewrite (value_at_unpack _ _ k t' Hun).
  pose proof (canonical_eq idx k t' Hidx Hun) as Hcanon.
  destruct (unpack_index_range idx) as [Hk Ht']. rewrite Hun in Hk, Ht'.
  simpl in Hk, Ht'. pose proof (chunk_at_range _ _ _ Hc) as Hri.
  destruct (decide (k = i)) as [->|Hki].
  - rewrite chunk_at_set_eq by done. simpl.
    destruct (decide (t' ∈ moved.*2)) as [Hin2|Hn2].
    + apply list_elem_of_fmap in Hin2 as ([f t] & Heq & Hin). simpl in Heq. subst t.
      destruct (Hcalls f t' Hin) as (? & ? & _ & Hsame).
      rewrite Hcanon. rewrite (Ha (Pool.pack_index i f) (Pool.pack_index i t')).
      2: { unfold packed. apply list_elem_of_fmap. by exists (f, t'). }
      rewrite Hknown by (apply pack_index_range; lia).
      rewrite value_at_pack by lia. rewrite Hc. simpl. unfold deref. by rewrite Hsame.
    + destruct (decide (t' ∈ moved.*1)) as [Hin1|Hn1].
      * rewrite Hb by (apply Hp1; by exists t').
        apply Hf1 in Hin1. destruct (Hhigh t' Hin1) as [o Ho].
        apply read_offset_Some in Ho. unfold deref, read_value. by rewrite Ho.
      * rewrite Hcc.
        2: { intros (f & Heq & Hf)%Hp1. rewrite Hcanon in Heq.
             pose proof (Hf1 f Hf). apply pack_index_inj in Heq; [congruence|lia..]. }
        2: { intros (t & Heq & Ht)%Hp2. rewrite Hcanon in Heq.
             pose proof (Ht2 t Ht). apply pack_index_inj in Heq; [congruence|lia..]. }
        rewrite Hknown by done. rewrite (value_at_unpack _ _ i t' Hun).
        rewrite Hc. simpl. unfold deref.
        destruct (read_value (storage_ sorted) t') as [v|] eqn:Hv.
        -- rewrite <- Hv. symmetry. apply Hkept; [by eexists | done].
        -- symmetry.
           exact (optimize_at_free_stays Hp sorted compacted moved t' Hwf Hopt Hv Hn2).
  - rewrite chunk_at_set_ne by lia. rewrite Hcc.
    + rewrite Hknown by done. by rewrite (value_at_unpack _ _ k t' Hun).
    + intros (f & Heq & Hf)%Hp1. rewrite Heq in Hun.
      pose proof (Hf1 f Hf). rewrite unpack_pack_index in Hun by lia. congruence.
    + intros (t & Heq & Ht)%Hp2. rewrite Heq in Hun.
      pose proof (Ht2 t Ht). rewrite unpack_pack_index in Hun by lia. congruence.
Qed.

Lemma at_found c idx src : at_ c idx = Some (Found src) → src = idx.
Proof.
  unfold at_. destruct (owns idx); simpl; [|done].
  destruct (holds_value c idx) as [[|]|]; simpl; [|done..]. by intros [= <-].
Qed.

(** The calls of the scan that drains [chunk_j] into [chunk_i]. *)
Lemma drain_loop_content idxs chunks i j calls chunks' calls' :
  0 ≤ i < 65536 → 0 ≤ j < 65536 → i ≠ j →
  Forall wf_arena chunks →
  Pool.drain_loop idxs chunks i j calls = Some (chunks', calls') →
  Forall wf_arena chunks' ∧ length chunks' = length chunks ∧
  ∃ new, calls' = calls ++ new ∧
    Forall (λ ft : Z * Z, ∃ s d,
              ft = (Pool.pack_index j s, Pool.pack_index i d) ∧
              0 ≤ s < Capacity ∧ 0 ≤ d < Capacity ∧
              i < Z.of_nat (length chunks) ∧ j < Z.of_nat (length chunks)) new ∧
    ∀ known, (∀ idx, 0 ≤ idx < 2 ^ 32 → known idx = Pool.value_at chunks idx) →
      ∀ idx, 0 ≤ idx < 2 ^ 32 →
        Pool.replay new known idx = Pool.value_at chunks' idx.
Proof.
  intros Hi Hj Hne. pose proof (capacity_u16 Hp) as Hc16.
  pose proof (capacity_bounds Hp) as Hcap.
  revert chunks calls. induction idxs as [|x idxs IH]; intros chunks calls Hwf H.
  - simpl in H. injection H as <- <-. split; [done|]. split; [done|].
    exists []. split; [by rewrite app_nil_r|]. split; [constructor|].
    intros known Hk idx Hidx. by apply Hk.
  - simpl in H.
    destruct (Pool.chunk_at chunks j) as [cj|] eqn:Hcj; simpl in H; [|done].
    destruct (holds_value_at cj (to_u16 (Capacity - x - 1))) as [held|] eqn:Hheld;
      simpl in H; [|done].
    assert (∀ chunks1 calls1,
              Pool.drain_loop idxs chunks1 i j calls1 = Some (chunks', calls') →
              chunks1 = chunks → calls1 = calls →
              Forall wf_arena chunks' ∧ length chunks' = length chunks ∧
              ∃ new, calls' = calls ++ new ∧
                Forall (λ ft : Z * Z, ∃ s d,
                          ft = (Pool.pack_index j s, Pool.pack_index i d) ∧
                          0 ≤ s < Capacity ∧ 0 ≤ d < Capacity ∧
                          i < Z.of_nat (length chunks) ∧
                          j < Z.of_nat (length chunks)) new ∧
                ∀ known,
                  (∀ idx, 0 ≤ idx < 2 ^ 32 → known idx = Pool.value_at chunks idx) →
                  ∀ idx, 0 ≤ idx < 2 ^ 32 →
                    Pool.replay new known idx = Pool.value_at chunks' idx) as Hskip.
    { intros chunks1 calls1 H1 -> ->. by apply IH. }
    destruct held; simpl in H; [|by eapply Hskip].
    destruct (Pool.chunk_at chunks i) as [ci|] eqn:Hci; simpl in H; [|done].
    destruct (full ci) eqn:Hfull; simpl in H; [by eapply Hskip|].
    destruct (at_ cj (to_u16 (Capacity - x - 1))) as [[src|msg]|] eqn:Hat;
      simpl in H; [|done..].
    apply at_found in Hat as Hsrc. subst src.
    set (s := to_u16 (Capacity - x - 1)) in *.
    destruct (deref cj s) as [v|] eqn:Hv; simpl in H; [|done].
    destruct (emplace ci (Constructs v)) as [[ci' r]|] eqn:Hemp; simpl in H; [|done].
    pose proof (chunk_at_wf _ _ _ Hwf Hci) as Hwfi.
    pose proof (chunk_at_wf _ _ _ Hwf Hcj) as Hwfj.
    destruct (emplace_at_head Hp ci v Hwfi Hfull)
      as (a1 & d & Hemp1 & _ & Hd & Hwfi' & Hvd & _ & _ & Hslots).
    rewrite Hemp in Hemp1. injection Hemp1 as <- ->.
    unfold as_index, owns in H. rewrite bool_decide_eq_true_2 in H by done.
    simpl in H. pose proof (chunk_at_range _ _ _ Hci) as Hri.
    pose proof (chunk_at_range _ _ _ Hcj) as Hrj.
    rewrite chunk_at_set_ne in H by lia. rewrite Hcj in H. simpl in H.
    destruct (erase cj s) as [cj'|] eqn:Hers; simpl in H; [|done].
    destruct (erase_values Hp cj s v cj' Hwfj Hv Hers) as (Hwfj' & _ & _).
    destruct (erase_slots Hp cj s cj' Hwfj Hers) as [Hgone Hrest].
    destruct (erase_inv _ _ _ Hwfj Hers) as (_ & _ & Hs & _).
    rewrite (to_u16_small d) in H by lia.
    apply IH in H as (Hwf' & Hlen' & new & Hcalls & Hmoves & Hreplay).
    2: { by apply set_chunk_wf; [apply set_chunk_wf|]. }
    split; [done|]. split; [by rewrite Hlen', !set_chunk_length|].
    exists ((Pool.pack_index j s, Pool.pack_index i d) :: new).
    split; [by rewrite Hcalls, <- app_assoc|].
    split.
    { constructor.
      - exists s, d. split_and!; (done || lia).
      - eapply Forall_impl; [exact Hmoves|].
        intros ft (s' & d' & ? & ? & ? & Hl1 & Hl2).
        rewrite !set_chunk_length in Hl1, Hl2.
        exists s', d'. split_and!; (done || lia). }
    intros known Hknown idx Hidx.
    change (Pool.replay new
              (Pool.relocate known (Pool.pack_index j s, Pool.pack_index i d)) idx
            = Pool.value_at chunks' idx).
    apply Hreplay; [|done]. intros idx' Hidx'.
    apply (value_at_move chunks i j ci cj ci' cj' d s v known); try done; try lia.
    intros t Ht. unfold deref, read_value. rewrite Hslots; [done | congruence].
Qed.

Lemma to_u16_range x : 0 ≤ to_u16 x < 65536.
Proof. unfold to_u16. apply Z.mod_pos_bound. lia. Qed.

(** The calls of the loop of the pool's [optimize_at]: where each one goes,
    and what following them gives. *)
Lemma optimize_loop_content fuel chunks i j calls chunks' calls' :
  Forall wf_arena chunks → 0 ≤ i < 65536 → 0 ≤ j < 65536 →
  Pool.optimize_loop fuel chunks i j calls = Some (chunks', calls') →
  Forall wf_arena chunks' ∧ length chunks' = length chunks ∧
  ∃ new, calls' = calls ++ new ∧
    Forall (λ ft : Z * Z, ∃ cf sf ct st,
              ft = (Pool.pack_index cf sf, Pool.pack_index ct st) ∧
              0 ≤ ct ≤ cf ∧ cf < Z.of_nat (length chunks) ∧
              0 ≤ sf < Capacity ∧ 0 ≤ st < Capacity ∧
              (ct = cf → st < sf)) new ∧
    ∀ known, (∀ idx, 0 ≤ idx < 2 ^ 32 → known idx = Pool.value_at chunks idx) →
      ∀ idx, 0 ≤ idx < 2 ^ 32 →
        Pool.replay new known idx = Pool.value_at chunks' idx.
Proof.
  pose proof (capacity_bounds Hp) as Hcap. pose proof (capacity_u16 Hp) as Hc16.
  assert (∀ chunks calls chunks' calls',
            Some (chunks, calls) = Some (chunks', calls') →
            Forall wf_arena chunks →
            Forall wf_arena chunks' ∧ length chunks' = length chunks ∧
            ∃ new, calls' = calls ++ new ∧
              Forall (λ ft : Z * Z, ∃ cf sf ct st,
                        ft = (Pool.pack_index cf sf, Pool.pack_index ct st) ∧
                        0 ≤ ct ≤ cf ∧ cf < Z.of_nat (length chunks) ∧
                        0 ≤ sf < Capacity ∧ 0 ≤ st < Capacity ∧
                        (ct = cf → st < sf)) new ∧
              ∀ known,
                (∀ idx, 0 ≤ idx < 2 ^ 32 → known idx = Pool.value_at chunks idx) →
                ∀ idx, 0 ≤ idx < 2 ^ 32 →
                  Pool.replay new known idx = Pool.value_at chunks' idx) as Hstop.
  { intros chunks0 calls0 chunks1 calls1 [= <- <-] Hwf0. split; [done|].
    split; [done|]. exists []. split; [by rewrite app_nil_r|].
    split; [constructor|]. intros known Hk idx Hidx. by apply Hk. }
  revert chunks i j calls.
  induction fuel as [|fuel IH]; intros chunks i j calls Hwf Hi Hj H; simpl in H.
  - destruct (decide (i ≤ j ∧ j > 0)); [done | by apply Hstop].
  - destruct (decide (i ≤ j ∧ j > 0)) as [Hcond|Hcond]; [|by apply Hstop].
    destruct (Pool.chunk_at chunks i) as [ci|] eqn:Hci; simpl in H; [|done].
    pose proof (chunk_at_wf _ _ _ Hwf Hci) as Hwfi.
    pose proof (chunk_at_range _ _ _ Hci) as Hri.
    destruct (decide (size ci = Capacity)) as [Hsz|Hsz].
    { apply IH in H; [done | done | apply to_u16_range | done]. }
    destruct (sort ci) as [sorted|] eqn:Hsort; simpl in H; [|done].
    destruct (wf_free_chain _ Hwfi) as [ch Hch].
    destruct (sort_sorted Hp ci ch Hwfi Hch)
      as (a' & ch' & Hsort' & Hwfs & _ & _ & _ & _ & _ & Hsame).
    rewrite Hsort in Hsort'. injection Hsort' as <-.
    set (chunks1 := Pool.set_chunk chunks i sorted) in *.
    assert (Forall wf_arena chunks1) as Hwf1 by (by apply set_chunk_wf).
    assert (length chunks1 = length chunks) as Hlen1 by apply set_chunk_length.
    assert (∀ idx, Pool.value_at chunks1 idx = Pool.value_at chunks idx) as Hval1.
    { apply (value_at_set_same chunks i ci sorted Hci). intros t. apply Hsame. }
    assert (Pool.chunk_at chunks1 i = Some sorted) as Hci1
      by (apply chunk_at_set_eq; lia).
    destruct (decide (i = j)) as [Heq|Hneq].
    + destruct (optimize_at sorted) as [[compacted moved]|] eqn:Hopt; simpl in H;
        [|done].
      injection H as <- <-.
      destruct (optimize_at_spec Hp sorted Hwfs)
        as (a2 & calls2 & Hopt2 & Hwfc & _ & _ & _ & _ & _ & _ & _ & _ & Hmoved).
      rewrite Hopt in Hopt2. injection Hopt2 as <- <-.
      split; [by apply set_chunk_wf|].
      split; [by rewrite set_chunk_length|].
      eexists. split; [done|]. split.
      { apply Forall_fmap, Forall_forall. intros [f t] Hft. simpl.
        apply Hmoved in Hft as (Ht & Hf & _).
        exists i, f, i, t. rewrite !to_u16_small by lia.
        split_and!; (done || lia). }
      intros known Hknown idx Hidx.
      apply (value_at_compact chunks1 i sorted compacted moved known); try done.
      intros idx' Hidx'. rewrite Hval1. by apply Hknown.
    + destruct (Pool.drain_loop (seqZ 0 Capacity) chunks1 i j calls)
        as [[chunks2 calls2]|] eqn:Hdrain; simpl in H; [|done].
      destruct (drain_loop_content _ _ _ _ _ _ _ Hi Hj Hneq Hwf1 Hdrain)
        as (Hwf2 & Hlen2 & new1 & -> & Hmoves1 & Hreplay1).
      destruct (Pool.chunk_at chunks2 i) as [ci2|]; simpl in H; [|done].
      destruct (Pool.chunk_at chunks2 j) as [cj2|]; simpl in H; [|done].
      apply IH in H as (Hwf' & Hlen' & new2 & -> & Hmoves2 & Hreplay2); [|done|..].
      2: { destruct (full ci2); [apply to_u16_range | done]. }
      2: { destruct (empty cj2); [apply to_u16_range | done]. }
      split; [done|].
      split; [by rewrite Hlen', Hlen2|].
      exists (new1 ++ new2). split; [by rewrite app_assoc|].
      split.
      { apply Forall_app. split.
        - eapply Forall_impl; [exact Hmoves1|].
          intros ft (s & d & ? & ? & ? & Hl1 & Hl2). rewrite Hlen1 in Hl1, Hl2.
          exists j, s, i, d. split_and!; (done || lia).
        - eapply Forall_impl; [exact Hmoves2|].
          intros ft (cf & sf & ct & st & ? & ? & Hl & ? & ? & ?).
          rewrite Hlen2, Hlen1 in Hl. exists cf, sf, ct, st.
          split_and!; (done || lia). }
      intros known Hknown idx Hidx. rewrite replay_app.
      apply Hreplay2; [|done]. intros idx' Hidx'. apply Hreplay1; [|done].
      intros idx2 Hidx2. rewrite Hval1. by apply Hknown.
Qed.

Lemma shrink_rev_inv (r r' : list (inplace_free_list T)) :
  Pool.shrink_rev r = Some r' →
  ∃ es, r = es ++ r' ∧ Forall (λ c, empty c = true) es.
Proof.
  induction r as [|x r IH]; simpl; [done|].
  destruct (empty x) eqn:Hx.
  - intros (es & -> & Hes)%IH. exists (x :: es). split; [done | by constructor].
  - intros [= <-]. by exists [].
Qed.

(** [shrink] drops chunks that hold nothing: every index names what it
    named. *)
Lemma shrink_content chunks chunks' :
  Forall wf_arena chunks → Pool.shrink chunks = Some chunks' →
  Forall wf_arena chunks' ∧
  ∀ idx, Pool.value_at chunks' idx = Pool.value_at chunks idx.
Proof.
  intros Hwf Hs. unfold Pool.shrink in Hs.
  destruct (Pool.shrink_rev (reverse chunks)) as [r'|] eqn:Hr; simpl in Hs; [|done].
  injection Hs as <-. apply shrink_rev_inv in Hr as (es & Hrev & Hes).
  apply (f_equal reverse) in Hrev. rewrite reverse_involutive, reverse_app in Hrev.
  subst chunks. apply Forall_app in Hwf as [Hwf' Hwfes]. split; [done|].
  intros idx. destruct (Pool.unpack_index idx) as [k s] eqn:Hun.
  rewrite !(value_at_unpack _ _ k s Hun). unfold Pool.chunk_at.
  case_decide; [|done].
  destruct (decide (Z.to_nat k < length (reverse r'))%nat) as [Hlt|Hge].
  - by rewrite lookup_app_l.
  - rewrite (lookup_ge_None_2 (reverse r')) by lia. simpl.
    rewrite lookup_app_r by lia.
    destruct (reverse es !! (Z.to_nat k - length (reverse r'))%nat) as [c|] eqn:Hc;
      [|done].
    simpl. symmetry. apply (empty_no_values Hp).
    + rewrite Forall_lookup in Hwfes. eauto.
    + apply Forall_reverse in Hes. rewrite Forall_lookup in Hes. eauto.
Qed.

(** The pool's [optimize_at] on a pool that holds a value: it returns, and
    its calls are those of the loop. *)
Lemma pool_optimize_at_calls (chunks_ : list (inplace_free_list T)) :
  Pool.wf_pool chunks_ →
  Pool.live_values chunks_ ≠ [] →
  ∃ chunks' calls,
    Pool.optimize_at chunks_ = Some (chunks', calls) ∧
    Forall (λ ft : Z * Z, ∃ cf sf ct st,
              ft = (Pool.pack_index cf sf, Pool.pack_index ct st) ∧
              0 ≤ ct ≤ cf ∧ cf < Z.of_nat (length chunks_) ∧
              0 ≤ sf < Capacity ∧ 0 ≤ st < Capacity ∧
              (ct = cf → st < sf)) calls ∧
    ∀ idx, 0 ≤ idx < 2 ^ 32 →
      Pool.value_at chunks' idx = Pool.replay calls (Pool.value_at chunks_) idx.
Proof.
  intros (Hcap16 & Hn & Hwf) Hlive. pose proof (capacity_bounds Hp) as Hcap.
  assert (0 < Z.of_nat (length chunks_)) as Hpos
    by (destruct chunks_; [done | simpl; lia]).
  destruct (pool_optimize_loop_spec Hp Hcap16 chunks_ (2 * length chunks_ + 1)
              chunks_ 0 (Z.of_nat (length chunks_) - 1) [])
    as (chunks1 & calls & i & j & Hloop & Hinv & Hexit); [done | | lia |].
  { constructor; try done; try lia.
    intros m c Hm Hc%chunk_at_range. lia. }
  destruct Hinv as [Hlen1 Hwf1 Hcur Hfull Hempty Hval].
  assert (Exists (λ c, empty c = false) chunks1) as Hex.
  { assert (Pool.live_values chunks1 ≠ []) as Hlive1.
    { intros Hnil. rewrite Hnil in Hval. by apply Permutation_nil_l in Hval. }
    clear -Hlive1 Hwf1 Hp.
    induction chunks1 as [|c l IH]; [exfalso; apply Hlive1; reflexivity|].
    apply Forall_cons in Hwf1 as [Hc Hl].
    destruct (empty c) eqn:He; [|by left]. right. apply IH; [done|].
    apply (wf_empty_iff Hp c Hc) in He. unfold Pool.live_values in *.
    rewrite fmap_cons, concat_cons, He in Hlive1. done. }
  destruct (shrink_spec chunks1 Hex) as (pre & tail & post & Hsplit & _ & _ & Hshrink).
  assert (0 ≤ 0 < 65536) as Hi0 by lia.
  assert (0 ≤ Z.of_nat (length chunks_) - 1 < 65536) as Hj0 by lia.
  destruct (optimize_loop_content _ _ _ _ _ _ _ Hwf Hi0 Hj0 Hloop)
    as (_ & _ & new & Hnew & Hmoves & Hreplay).
  destruct (shrink_content chunks1 _ Hwf1 Hshrink) as [_ Hsame].
  simpl in Hnew. subst new.
  exists (pre ++ [tail]), calls. split.
  { unfold Pool.optimize_at. rewrite to_size_small by lia.
    rewrite to_u16_small by lia. rewrite Hloop. simpl. by rewrite Hshrink. }
  split; [done|].
  intros idx Hidx. rewrite Hsame. symmetry. by apply Hreplay.
Qed.
End pool_compaction_moves.

(** X25. The relocation callback of the pool's [optimize_at] tells the whole
    story: on a well-formed pool that holds at least one value, following the
    calls [cb(from, to)] in call order, each time taking the value known at
    the packed index [from] over to [to], leads from what the indices named
    before compaction to what they name afterwards; this holds for every
    packed index, those of dropped chunks and of free slots included. *)
Theorem pool_optimize_at_replays_moves {T : Type} {p : arena_params}
    (chunks_ : list (inplace_free_list T)) :
  instantiable →
  Pool.wf_pool chunks_ →
  Pool.live_values chunks_ ≠ [] →
  ∃ chunks' calls,
    Pool.optimize_at chunks_ = Some (chunks', calls) ∧
    ∀ idx, 0 ≤ idx < 2 ^ 32 →
      Pool.value_at chunks' idx = Pool.replay calls (Pool.value_at chunks_) idx.
Proof.
  intros Hp Hwf Hlive.
  destruct (pool_optimize_at_calls Hp chunks_ Hwf Hlive)
    as (chunks' & calls & Hopt & _ & Hreplay).
  by exists chunks', calls.
Qed.

(** X26. Compaction of the pool only moves values down: on a well-formed
    pool that holds at least one value, every call [cb(from, to)] of
    [optimize_at] has [to < from]; both are packed indices of slots of chunks
    the pool had, and [to] is in the same chunk as [from] or in an earlier
    one. *)
Theorem pool_optimize_at_moves_down {T : Type} {p : arena_params}
    (chunks_ : list (inplace_free_list T)) :
  instantiable →
  Pool.wf_pool chunks_ →
  Pool.live_values chunks_ ≠ [] →
  ∃ chunks' calls,
    Pool.optimize_at chunks_ = Some (chunks', calls) ∧
    ∀ from to, (from, to) ∈ calls →
      0 ≤ to < from ∧
      ∃ chunk_from slot_from chunk_to slot_to,
        Pool.unpack_index from = (chunk_from, slot_from) ∧
        Pool.unpack_index to = (chunk_to, slot_to) ∧
        Pool.pack_index chunk_from slot_from = from ∧
        Pool.pack_index chunk_to slot_to = to ∧
        0 ≤ chunk_to ≤ chunk_from ∧ chunk_from < Z.of_nat (length chunks_) ∧
        0 ≤ slot_from < Capacity ∧ 0 ≤ slot_to < Capacity.
Proof.
  intros Hp Hwf Hlive. pose proof (capacity_u16 Hp) as Hc16.
  destruct (pool_optimize_at_calls Hp chunks_ Hwf Hlive)
    as (chunks' & calls & Hopt & Hmoves & _).
  destruct Hwf as (_ & Hn & _).
  exists chunks', calls. split; [done|]. intros from to Hin.
  rewrite Forall_forall in Hmoves.
  destruct (Hmoves _ Hin) as (cf & sf & ct & st & [= -> ->] & Hc & Hcf & Hsf & Hst & Hlt).
  split.
  2: { exists cf, sf, ct, st. rewrite !unpack_pack_index by lia.
       split_and!; (done || lia). }
  rewrite !pack_index_add by lia.
  destruct (decide (ct = cf)) as [->|Hne]; [specialize (Hlt eq_refl)|]; lia.
Qed.

Section pool_moves_example.
#[local] Existing Instance int32_4.

Lemma pool_optimize_at_replays_moves_witness :
  let chunks_ : list (inplace_free_list Z) :=
    [ {| storage_ := [Free 65535; Occupied 2; Free 0; Occupied 4];
         first_free_ := 2; size_ := 2 |};
      {| storage_ := [Occupied 5; Free 65535; Occupied 2; Occupied 3];
         first_free_ := 1; size_ := 3 |};
      {| storage_ := [Occupied 4; Occupied 5; Free 3; Free 65535];
         first_free_ := 2; size_ := 2 |} ] in
  ∃ chunks' calls,
    Pool.optimize_at chunks_ = Some (chunks', calls) ∧
    ∀ idx, 0 ≤ idx < 2 ^ 32 →
      Pool.value_at chunks' idx = Pool.replay calls (Pool.value_at chunks_) idx.
Proof.
  intros chunks_. refine (pool_optimize_at_replays_moves chunks_ _ _ _).
  - repeat split.
  - apply (bool_decide_unpack _). vm_compute. exact I.
  - discriminate.
Defined.

Lemma pool_optimize_at_moves_down_witness :
  let chunks_ : list (inplace_free_list Z) :=
    [ {| storage_ := [Occupied 1; Free 65535; Occupied 3; Free 1];
         first_free_ := 3; size_ := 2 |};
      {| storage_ := [Free 2; Occupied 6; Free 65535; Occupied 8];
         first_free_ := 0; size_ := 2 |} ] in
  ∃ chunks' calls,
    Pool.optimize_at chunks_ = Some (chunks', calls) ∧
    ∀ from to, (from, to) ∈ calls →
      0 ≤ to < from ∧
      ∃ chunk_from slot_from chunk_to slot_to,
        Pool.unpack_index from = (chunk_from, slot_from) ∧
        Pool.unpack_index to = (chunk_to, slot_to) ∧
        Pool.pack_index chunk_from slot_from = from ∧
        Pool.pack_index chunk_to slot_to = to ∧
        0 ≤ chunk_to ≤ chunk_from ∧ chunk_from < Z.of_nat (length chunks_) ∧
        0 ≤ slot_from < Capacity ∧ 0 ≤ slot_to < Capacity.
Proof.
  intros chunks_. refine (pool_optimize_at_moves_down chunks_ _ _ _).
  - repeat split.
  - apply (bool_decide_unpack _). vm_compute. exact I.
  - discriminate.
Defined.
End pool_moves_example.

(** ** The vector of owned objects *)

Section ptr_vector_facts.
Import PtrVector.
Context {T : Type}.
Implicit Types (pv : ptr_vector T) (m : gmap positive (block T)).
Implicit Types (st a b c : list (option positive)) (vs : list T).

Lemma Forall2_impl_elem {A B} (P Q : A → B → Prop) (l : list A) (k : list B) :
  Forall2 P l k → (∀ x y, x ∈ l → P x y → Q x y) → Forall2 Q l k.
Proof.
  induction 1 as [|x y l k Hxy Hlk IH]; intros Himp; constructor.
  - apply Himp; [left | done].
  - apply IH. intros x' y' Hin. apply Himp. by right.
Qed.

Lemma deref_Some m ptr v :
  deref m ptr = Some v ↔ ∃ p, ptr = Some p ∧ m !! p = Some (Object v).
Proof.
  unfold deref. destruct ptr as [p|]; simpl.
  - split.
    + destruct (m !! p) as [[|w]|] eqn:Hp; [done| |done]. intros [= ->]. by exists p.
    + intros (q & [= <-] & ->). done.
  - split; [done|]. by intros (? & ? & ?).
Qed.

Lemma elem_of_pointers st (q : positive) :
  q ∈ (list_to_set (omap id st) : gset positive) ↔ Some q ∈ st.
Proof.
  rewrite elem_of_list_to_set, list_elem_of_omap. split.
  - intros ([p|] & Hin & Hq); simpl in Hq; [|done]. by injection Hq as ->.
  - intros Hin. by exists (Some q).
Qed.

Lemma owned_iff pv vs :
  wf_ptr_vector pv ∧ contents pv = Some vs ↔ owned (storage_ pv) (memory_ pv) vs.
Proof.
  unfold wf_ptr_vector, contents. rewrite mapM_Some. split.
  - intros ((Hnd & Hall & Hdom) & Hvs). split; [done|]. split; [done|].
    intros q. rewrite <- elem_of_dom, Hdom. apply elem_of_pointers.
  - intros (Hnd & Hvs & Hdom). split; [|done]. split; [done|]. split.
    + apply Forall_forall. intros ptr Hin.
      apply list_elem_of_lookup in Hin as [i Hi].
      destruct (Forall2_lookup_l _ _ _ _ _ Hvs Hi) as (v & _ & Hv). by exists v.
    + apply set_eq. intros q. rewrite elem_of_dom, elem_of_pointers. apply Hdom.
Qed.

Lemma wf_has_contents pv :
  wf_ptr_vector pv → ∃ vs, contents pv = Some vs ∧ length vs = size pv.
Proof.
  intros (_ & Hall & _). unfold contents.
  destruct (mapM (deref (memory_ pv)) (storage_ pv)) as [vs|] eqn:Hvs.
  - exists vs. split; [done|]. apply mapM_Some, Forall2_length in Hvs.
    unfold size. done.
  - exfalso. apply eq_None_not_Some in Hvs. apply Hvs, mapM_is_Some. done.
Qed.

(** Taking the entries [b] out of the middle, their blocks gone. *)
Lemma owned_remove a b c m m' (va vb vc : list T) :
  owned (a ++ b ++ c) m (va ++ vb ++ vc) →
  length a = length va → length b = length vb →
  (∀ q, m' !! q = if decide (Some q ∈ b) then None else m !! q) →
  owned (a ++ c) m' (va ++ vc).
Proof.
  intros (Hnd & Hvs & Hdom) Hla Hlb Hm'.
  apply NoDup_app in Hnd as (Hna & Hab & Hnbc).
  apply NoDup_app in Hnbc as (Hnb & Hbc & Hnc).
  apply Forall2_app_inv in Hvs as [Hva Hvbc]; [|done].
  apply Forall2_app_inv in Hvbc as [Hvb Hvc]; [|done].
  assert (∀ ptr, ptr ∈ a ++ c → ptr ∉ b) as Hout.
  { intros ptr [Hin|Hin]%elem_of_app Hb.
    - apply (Hab ptr Hin). set_solver.
    - by apply (Hbc ptr Hb). }
  assert (∀ ptr v, ptr ∈ a ++ c → deref m ptr = Some v → deref m' ptr = Some v)
    as Hkeep.
  { intros ptr v Hin (p & -> & Hp)%deref_Some. apply deref_Some. exists p.
    split; [done|]. rewrite Hm', decide_False; [done|]. by apply Hout. }
  split; [|split].
  - apply NoDup_app. split; [done|]. split; [|done].
    intros ptr Hin Hc. apply (Hab ptr Hin). set_solver.
  - apply Forall2_app.
    + eapply Forall2_impl_elem; [exact Hva|]. intros ptr v Hin Hd.
      apply Hkeep; [set_solver | done].
    + eapply Forall2_impl_elem; [exact Hvc|]. intros ptr v Hin Hd.
      apply Hkeep; [set_solver | done].
  - intros q. rewrite Hm'. case_decide as Hq.
    + split; [by intros [? ?]|]. intros Hin. by apply Hout in Hin.
    + rewrite Hdom. rewrite !elem_of_app. naive_solver.
Qed.

(** A new object in a block the allocator did not have out, its address
    entered between [a] and [c]. *)
Lemma owned_insert a c m (va vc : list T) p v :
  owned (a ++ c) m (va ++ vc) → length a = length va → m !! p = None →
  owned (a ++ Some p :: c) (<[p := Object v]> m) (va ++ v :: vc).
Proof.
  intros (Hnd & Hvs & Hdom) Hla Hp.
  apply Forall2_app_inv in Hvs as [Hva Hvc]; [|done].
  assert (Some p ∉ a ++ c) as Hnew.
  { intros Hin%Hdom. rewrite Hp in Hin. by destruct Hin. }
  assert (∀ ptr w, ptr ∈ a ++ c → deref m ptr = Some w →
                   deref (<[p := Object v]> m) ptr = Some w) as Hkeep.
  { intros ptr w Hin (q & -> & Hq)%deref_Some. apply deref_Some. exists q.
    split; [done|]. rewrite lookup_insert_ne; [done|]. by intros ->. }
  apply NoDup_app in Hnd as (Hna & Hac & Hnc).
  split; [|split].
  - apply NoDup_app. split; [done|]. split.
    + intros ptr Hin [->|Hc]%elem_of_cons; [set_solver|]. by apply (Hac ptr).
    + apply NoDup_cons. split; [set_solver | done].
  - apply Forall2_app; [|constructor].
    + eapply Forall2_impl_elem; [exact Hva|]. intros ptr w Hin Hd.
      apply Hkeep; [set_solver | done].
    + apply deref_Some. exists p. by rewrite lookup_insert_eq.
    + eapply Forall2_impl_elem; [exact Hvc|]. intros ptr w Hin Hd.
      apply Hkeep; [set_solver | done].
  - intros q. destruct (decide (q = p)) as [->|Hne].
    + rewrite lookup_insert_eq. split; [set_solver | by eexists].
    + rewrite lookup_insert_ne by done. rewrite Hdom, !elem_of_app, elem_of_cons.
      naive_solver.
Qed.

(** The fresh block of [allocate]. *)
Lemma allocate_fresh m : m !! (allocate m).1 = None.
Proof. simpl. apply not_elem_of_dom, is_fresh. Qed.

Lemma construct_object_returns m v :
  ∃ p, m !! p = None ∧
       _construct_object m (Constructs v) = Some (<[p := Object v]> m, Returns p).
Proof.
  exists (fresh (dom m)). split; [apply (allocate_fresh m)|].
  unfold _construct_object, allocate, construct_at.
  rewrite lookup_insert_eq. simpl. by rewrite insert_insert_eq.
Qed.

Lemma construct_object_throws m :
  _construct_object m CtorThrows = Some (m, Throws).
Proof.
  unfold _construct_object, allocate, deallocate. simpl.
  rewrite lookup_insert_eq. simpl. do 2 f_equal.
  apply map_eq. intros q. destruct (decide (q = fresh (dom m))) as [->|Hne].
  - rewrite lookup_delete_eq. symmetry. apply (allocate_fresh m).
  - by rewrite lookup_delete_ne, lookup_insert_ne.
Qed.

(** [_destroy_all] on entries that point at objects of their own. *)
Lemma destroy_each_spec b m :
  NoDup b → Forall (λ ptr, is_Some (deref m ptr)) b →
  ∃ m', destroy_each b m = Some m' ∧
        ∀ q, m' !! q = if decide (Some q ∈ b) then None else m !! q.
Proof.
  revert m. induction b as [|e b IH]; intros m Hnd Hall.
  - exists m. split; [done|]. intros q. rewrite decide_False; [done | set_solver].
  - apply NoDup_cons in Hnd as [He Hnd]. apply Forall_cons in Hall as [[v Hv] Hall].
    apply deref_Some in Hv as (p & -> & Hp).
    set (m2 := delete p (<[p := Raw]> m)).
    assert (∀ q, m2 !! q = if decide (q = p) then None else m !! q) as Hm2.
    { intros q. unfold m2. case_decide as Hq.
      - subst q. by rewrite lookup_delete_eq.
      - by rewrite lookup_delete_ne, lookup_insert_ne. }
    destruct (IH m2 Hnd) as (m' & Hm' & Hlook).
    { apply Forall_forall. intros ptr Hin. rewrite Forall_forall in Hall.
      destruct (Hall ptr Hin) as [w (q & -> & Hq)%deref_Some]. exists w.
      apply deref_Some. exists q. split; [done|]. rewrite Hm2, decide_False; [done|].
      by intros ->. }
    exists m'. split.
    + simpl. unfold destroy_at, deallocate. simpl. rewrite Hp. simpl.
      rewrite lookup_insert_eq. simpl. exact Hm'.
    + intros q. rewrite Hlook, Hm2.
      repeat case_decide; try done; exfalso;
        repeat match goal with
               | H : _ ∈ _ :: _ |- _ => apply elem_of_cons in H
               | H : _ ∉ _ :: _ |- _ => rewrite not_elem_of_cons in H
               end; naive_solver.
Qed.

Lemma split_range {A} (l : list A) (first last : nat) :
  (first ≤ last)%nat →
  l = take first l ++ take (last - first) (drop first l) ++ drop last l.
Proof.
  intros Hle. rewrite <- (take_drop first l) at 1. f_equal.
  rewrite <- (take_drop (last - first) (drop first l)) at 1. f_equal.
  rewrite drop_drop. f_equal. lia.
Qed.

Lemma owned_length st m vs : owned st m vs → length st = length vs.
Proof. intros (_ & Hvs & _). by eapply Forall2_length. Qed.

Lemma owned_lookup st m vs (i : nat) :
  owned st m vs → (ptr ← st !! i; deref m ptr) = vs !! i.
Proof.
  intros (_ & Hvs & _). destruct (st !! i) as [ptr|] eqn:Hi; simpl.
  - destruct (Forall2_lookup_l _ _ _ _ _ Hvs Hi) as (v & Hv & Hd). by rewrite Hv.
  - symmetry. apply lookup_ge_None. apply lookup_ge_None in Hi.
    by rewrite <- (Forall2_length _ _ _ Hvs).
Qed.

(** [emplace_back], the constructor returning. *)
Lemma emplace_back_owned pv vs v :
  owned (storage_ pv) (memory_ pv) vs →
  ∃ p, memory_ pv !! p = None ∧
       emplace_back pv (Constructs v)
       = Some ({| storage_ := storage_ pv ++ [Some p];
                  memory_ := <[p := Object v]> (memory_ pv) |}, Returns p) ∧
       owned (storage_ pv ++ [Some p]) (<[p := Object v]> (memory_ pv)) (vs ++ [v]).
Proof.
  intros Hown. destruct (construct_object_returns (memory_ pv) v) as (p & Hp & Hc).
  exists p. split; [done|]. split.
  - unfold emplace_back. by rewrite Hc.
  - apply (owned_insert (storage_ pv) [] (memory_ pv) vs [] p v).
    + by rewrite !app_nil_r.
    + by eapply owned_length.
    + done.
Qed.

(** [emplace_back] and [emplace], the constructor throwing: nothing has
    changed when the exception leaves. *)
Lemma emplace_back_throws pv : emplace_back pv CtorThrows = Some (pv, Throws).
Proof.
  unfold emplace_back. rewrite construct_object_throws. simpl. by destruct pv.
Qed.

Lemma emplace_throws pv pos : emplace pv pos CtorThrows = Some (pv, Throws).
Proof.
  unfold emplace. rewrite construct_object_throws. simpl. by destruct pv.
Qed.

(** [emplace(pos, args...)], the constructor returning. *)
Lemma emplace_owned pv vs (pos : nat) v :
  owned (storage_ pv) (memory_ pv) vs → (pos ≤ length vs)%nat →
  ∃ p, memory_ pv !! p = None ∧
       emplace pv pos (Constructs v)
       = Some ({| storage_ := take pos (storage_ pv) ++ Some p :: drop pos (storage_ pv);
                  memory_ := <[p := Object v]> (memory_ pv) |}, Returns pos) ∧
       owned (take pos (storage_ pv) ++ Some p :: drop pos (storage_ pv))
             (<[p := Object v]> (memory_ pv))
             (take pos vs ++ v :: drop pos vs).
Proof.
  intros Hown Hpos. pose proof (owned_length _ _ _ Hown) as Hlen.
  destruct (construct_object_returns (memory_ pv) v) as (p & Hp & Hc).
  exists p. split; [done|]. split.
  - unfold emplace. rewrite Hc. simpl. rewrite decide_True by lia. done.
  - apply owned_insert; [|rewrite !length_take; lia | done].
    by rewrite !take_drop.
Qed.

Lemma emplace_past_end pv (pos : nat) v :
  (length (storage_ pv) < pos)%nat → emplace pv pos (Constructs v) = None.
Proof.
  intros Hpos. destruct (construct_object_returns (memory_ pv) v) as (p & Hp & Hc).
  unfold emplace. rewrite Hc. simpl. rewrite decide_False by lia. done.
Qed.

(** [erase(first, last)] *)
Lemma erase_range_owned pv vs (first last : nat) :
  owned (storage_ pv) (memory_ pv) vs → (first ≤ last ≤ length vs)%nat →
  ∃ m', erase_range pv first last
        = Some ({| storage_ := take first (storage_ pv) ++ drop last (storage_ pv);
                   memory_ := m' |}, first) ∧
        owned (take first (storage_ pv) ++ drop last (storage_ pv)) m'
              (take first vs ++ drop last vs).
Proof.
  intros Hown Hr. pose proof (owned_length _ _ _ Hown) as Hlen.
  pose proof Hown as (Hnd & Hvs & Hdom).
  set (b := take (last - first) (drop first (storage_ pv))).
  assert (b ⊆ storage_ pv) as Hsub.
  { unfold b. etrans; [apply subseteq_take | apply subseteq_drop]. }
  destruct (destroy_each_spec b (memory_ pv)) as (m' & Hm' & Hlook).
  { unfold b. apply (sublist_NoDup _ (storage_ pv)); [done|].
    etrans; [apply sublist_take | apply sublist_drop]. }
  { apply Forall_forall. intros ptr Hin%Hsub.
    apply list_elem_of_lookup in Hin as [i Hi].
    destruct (Forall2_lookup_l _ _ _ _ _ Hvs Hi) as (v & _ & Hv). by exists v. }
  exists m'. split.
  - unfold erase_range. rewrite decide_True by lia. fold b. by rewrite Hm'.
  - apply (owned_remove (take first (storage_ pv)) b (drop last (storage_ pv))
             (memory_ pv) m' (take first vs)
             (take (last - first) (drop first vs)) (drop last vs)).
    + unfold b. rewrite <- !split_range by lia. done.
    + rewrite !length_take. lia.
    + unfold b. rewrite !length_take, !length_drop. lia.
    + done.
Qed.

Lemma erase_range_outside pv (first last : nat) :
  ¬ (first ≤ last ≤ length (storage_ pv))%nat → erase_range pv first last = None.
Proof. intros Hr. unfold erase_range. by rewrite decide_False. Qed.

(** [pop_back] *)
Lemma pop_back_owned pv vs :
  owned (storage_ pv) (memory_ pv) vs → vs ≠ [] →
  ∃ m', pop_back pv
        = Some {| storage_ := take (length (storage_ pv) - 1) (storage_ pv);
                  memory_ := m' |} ∧
        owned (take (length (storage_ pv) - 1) (storage_ pv)) m'
              (take (length vs - 1) vs).
Proof.
  intros Hown Hne. pose proof (owned_length _ _ _ Hown) as Hlen.
  assert (0 < length vs)%nat as Hpos by (destruct vs; [done | simpl; lia]).
  destruct (erase_range_owned pv vs (length vs - 1) (length vs) Hown ltac:(lia))
    as (m' & He & Hown').
  rewrite (drop_ge vs), app_nil_r in Hown' by lia.
  rewrite (drop_ge (storage_ pv)), app_nil_r in Hown' by lia.
  rewrite <- Hlen in Hown' at 1.
  exists m'. split; [|done].
  unfold erase_range in He. rewrite decide_True in He by lia.
  replace (length vs - (length vs - 1))%nat with 1%nat in He by lia.
  unfold pop_back. rewrite last_lookup.
  replace (Init.Nat.pred (length (storage_ pv))) with (length vs - 1)%nat by lia.
  destruct (storage_ pv !! (length vs - 1)%nat) as [ptr|] eqn:Hptr.
  2: { apply lookup_ge_None in Hptr. lia. }
  rewrite (drop_S _ ptr (length vs - 1)) in He by done. simpl in He.
  rewrite ?take_0 in He. simpl in He. simpl.
  destruct (destroy_at (memory_ pv) ptr) as [m1|]; simpl in *; [|done].
  destruct (deallocate m1 ptr) as [m2|]; simpl in *; [|done].
  injection He as <-. by rewrite Hlen.
Qed.

Lemma pop_back_empty pv : storage_ pv = [] → pop_back pv = None.
Proof. intros Hst. unfold pop_back. by rewrite Hst. Qed.

(** [clear] *)
Lemma clear_owned pv vs :
  owned (storage_ pv) (memory_ pv) vs →
  clear pv = Some new ∧ owned [] (∅ : gmap positive (block T)) [].
Proof.
  intros Hown. pose proof Hown as (Hnd & Hvs & Hdom). split.
  - destruct (destroy_each_spec (storage_ pv) (memory_ pv)) as (m' & Hm' & Hlook).
    { done. }
    { apply Forall_forall. intros ptr Hin.
      apply list_elem_of_lookup in Hin as [i Hi].
      destruct (Forall2_lookup_l _ _ _ _ _ Hvs Hi) as (v & _ & Hv). by exists v. }
    unfold clear, _destroy_all. rewrite Hm'. simpl. unfold new. do 2 f_equal.
    apply map_eq. intros q. rewrite Hlook, lookup_empty. case_decide as Hq; [done|].
    apply eq_None_not_Some. by rewrite Hdom.
  - split; [constructor|]. split; [constructor|]. intros q.
    rewrite lookup_empty. split; [by intros [? ?] | by intros ?%elem_of_nil].
Qed.

(** [erase(pos)]: the entry leaves [storage_] and the object is destroyed;
    the block stays with the allocator. *)
Lemma erase_owned pv vs (pos : nat) :
  owned (storage_ pv) (memory_ pv) vs → (pos < length vs)%nat →
  ∃ p, storage_ pv !! pos = Some (Some p) ∧
       erase pv pos
       = Some ({| storage_ := delete pos (storage_ pv);
                  memory_ := <[p := Raw]> (memory_ pv) |}, pos) ∧
       NoDup (delete pos (storage_ pv)) ∧
       (Some p ∉ delete pos (storage_ pv)) ∧
       Forall2 (λ ptr v, deref (<[p := Raw]> (memory_ pv)) ptr = Some v)
               (delete pos (storage_ pv)) (delete pos vs) ∧
       (∀ q, is_Some (memory_ pv !! q) ↔ (q = p ∨ Some q ∈ delete pos (storage_ pv))).
Proof.
  intros Hown Hpos. pose proof (owned_length _ _ _ Hown) as Hlen.
  destruct Hown as (Hnd & Hvs & Hdom).
  destruct (lookup_lt_is_Some_2 (storage_ pv) pos ltac:(lia)) as [ptr Hptr].
  destruct (Forall2_lookup_l _ _ _ _ _ Hvs Hptr) as (v & Hv & Hd).
  apply deref_Some in Hd as (p & -> & Hp).
  assert (storage_ pv = take pos (storage_ pv) ++ Some p :: drop (S pos) (storage_ pv))
    as Hsplit by (by rewrite take_drop_middle).
  assert (Some p ∉ delete pos (storage_ pv)) as Hgone.
  { rewrite delete_take_drop. rewrite Hsplit in Hnd.
    apply NoDup_app in Hnd as (_ & Hl & Hr). apply NoDup_cons in Hr as [Hr _].
    intros [Hin|Hin]%elem_of_app; [|done]. apply (Hl _ Hin). by left. }
  exists p. split; [done|]. split; [|split; [|split; [|split]]].
  - unfold erase. rewrite Hptr. simpl. by rewrite Hp.
  - apply (sublist_NoDup _ (storage_ pv)); [done | apply sublist_delete].
  - done.
  - eapply Forall2_impl_elem; [by apply Forall2_delete|].
    intros ptr w Hin (q & -> & Hq)%deref_Some. apply deref_Some. exists q.
    split; [done|]. rewrite lookup_insert_ne; [done|]. by intros ->.
  - intros q. rewrite Hdom. rewrite delete_take_drop.
    rewrite Hsplit at 1. rewrite !elem_of_app, elem_of_cons. naive_solver.
Qed.

Lemma erase_at_end pv (pos : nat) :
  (length (storage_ pv) ≤ pos)%nat → erase pv pos = None.
Proof.
  intros Hpos. unfold erase. by rewrite (lookup_ge_None_2 _ _ Hpos).
Qed.

(** One turn of the loop of [_construct_splat], the copy constructor
    returning. *)
Lemma allocate_construct m v :
  ∃ p, m !! p = None ∧ allocate m = (p, <[p := Raw]> m) ∧
       construct_at (<[p := Raw]> m) p v = Some (<[p := Object v]> m).
Proof.
  exists (fresh (dom m)). split; [apply (allocate_fresh m)|]. split; [done|].
  unfold construct_at. rewrite lookup_insert_eq. by rewrite insert_insert_eq.
Qed.

Lemma insert_null a filled rest (x : option positive) :
  <[(length a + length filled)%nat := x]> (a ++ filled ++ None :: rest)
  = a ++ (filled ++ [x]) ++ rest.
Proof.
  rewrite insert_app_r.
  replace (length filled) with (length filled + 0)%nat at 1 by lia.
  rewrite insert_app_r. simpl. by rewrite <- app_assoc.
Qed.

Lemma construct_splat_loop_S (n : nat) st m (original_begin k : nat) copy :
  construct_splat_loop (S n) st m original_begin k copy
  = let '(last_allocation, m1) := allocate m in
    match copy (k - original_begin)%nat with
    | Constructs v =>
        m2 ← construct_at m1 last_allocation v;
        if decide (k < length st)%nat then
          construct_splat_loop n (<[k := Some last_allocation]> st) m2
            original_begin (S k) copy
        else None
    | CtorThrows =>
        m2 ← deallocate m1 (Some last_allocation);
        m3 ← _undo_partial_construction 2 st m2
               (Z.of_nat original_begin) (Z.of_nat k - 1);
        Some ((st, m3), Throws)
    end.
Proof. reflexivity. Qed.

(** The loop of [_construct_splat] with [n] null entries left to fill, the
    copy constructor returning every time. *)
Lemma construct_splat_loop_fill (n : nat) copy (w : nat → T) :
  ∀ a filled c m (va vf vc : list T),
    owned (a ++ filled ++ c) m (va ++ vf ++ vc) →
    length a = length va → length filled = length vf →
    (∀ j, (j < n)%nat → copy (length filled + j)%nat = Constructs (w (length filled + j)%nat)) →
    ∃ fresh m',
      construct_splat_loop n (a ++ filled ++ replicate n None ++ c) m (length a)
        (length a + length filled) copy
      = Some ((a ++ filled ++ fresh ++ c, m'), Returns tt) ∧
      length fresh = n ∧
      owned (a ++ filled ++ fresh ++ c) m'
            (va ++ vf ++ (w <$> seq (length filled) n) ++ vc).
Proof.
  induction n as [|n IH]; intros a filled c m va vf vc Hown Hla Hlf Hcopy.
  - exists [], m. simpl. done.
  - destruct (allocate_construct m (w (length filled))) as (p & Hp & Hal & Hc).
    destruct (IH a (filled ++ [Some p]) c (<[p := Object (w (length filled))]> m)
                va (vf ++ [w (length filled)]) vc)
      as (fresh & m' & Hloop & Hlen & Hown').
    { rewrite <- !app_assoc. simpl. rewrite (app_assoc a filled), (app_assoc va vf).
      apply owned_insert; [by rewrite <- !app_assoc | | done].
      rewrite !length_app. lia. }
    { done. }
    { rewrite !length_app. simpl. lia. }
    { intros j Hj. rewrite length_app. simpl.
      replace (length filled + 1 + j)%nat with (length filled + S j)%nat by lia.
      apply Hcopy. lia. }
    exists (Some p :: fresh), m'. split; [|split].
    + rewrite construct_splat_loop_S, Hal.
      replace (length a + length filled - length a)%nat with (length filled + 0)%nat
        by lia.
      rewrite (Hcopy 0%nat) by lia. rewrite Nat.add_0_r. rewrite Hc. simpl.
      rewrite decide_True by (rewrite !length_app; simpl; lia).
      rewrite insert_null.
      rewrite length_app in Hloop. simpl in Hloop.
      replace (S (length a + length filled)) with (length a + (length filled + 1))%nat
        by lia.
      rewrite Hloop. by rewrite <- !app_assoc.
    + simpl. by rewrite Hlen.
    + rewrite <- !app_assoc in Hown'. simpl in Hown'.
      rewrite length_app in Hown'. simpl in Hown'.
      replace (length filled + 1)%nat with (S (length filled)) in Hown' by lia.
      done.
Qed.

(** [insert(pos, count, value)], the copy constructor returning. *)
Lemma insert_count_owned pv vs (pos count : nat) copy (w : nat → T) :
  owned (storage_ pv) (memory_ pv) vs → (pos ≤ length vs)%nat →
  (∀ j, (j < count)%nat → copy j = Constructs (w j)) →
  ∃ fresh m',
    insert_count pv pos count copy
    = Some ({| storage_ := take pos (storage_ pv) ++ fresh ++ drop pos (storage_ pv);
               memory_ := m' |}, Returns pos) ∧
    length fresh = count ∧
    owned (take pos (storage_ pv) ++ fresh ++ drop pos (storage_ pv)) m'
          (take pos vs ++ (w <$> seq 0 count) ++ drop pos vs).
Proof.
  intros Hown Hpos Hcopy. pose proof (owned_length _ _ _ Hown) as Hlen.
  destruct (construct_splat_loop_fill count copy w (take pos (storage_ pv)) []
              (drop pos (storage_ pv)) (memory_ pv) (take pos vs) [] (drop pos vs))
    as (fresh & m' & Hloop & Hfresh & Hown'); try done.
  { simpl. by rewrite !take_drop. }
  { rewrite !length_take. lia. }
  exists fresh, m'. split; [|done].
  unfold insert_count, _construct_splat. rewrite !decide_True by lia.
  replace (pos + count - pos)%nat with count by lia.
  simpl in Hloop. rewrite length_take, Nat.add_0_r in Hloop.
  replace (pos `min` length (storage_ pv))%nat with pos in Hloop by lia.
  by rewrite Hloop.
Qed.

(** [resize(count, value)], the copy constructor returning. *)
Lemma resize_owned pv vs (count : nat) copy v :
  owned (storage_ pv) (memory_ pv) vs → (∀ j : nat, copy j = Constructs v) →
  ∃ pv', resize pv count copy = Some (pv', Returns tt) ∧
         owned (storage_ pv') (memory_ pv')
               (if decide (count = 0)%nat then []
                else if decide (count < length vs)%nat
                     then take (length vs - count - 1) vs
                     else vs ++ replicate (count - length vs) v).
Proof.
  intros Hown Hcopy. pose proof (owned_length _ _ _ Hown) as Hlen. unfold resize.
  destruct (decide (count = 0)%nat) as [->|Hne].
  - destruct (clear_owned pv vs Hown) as [-> Hnew]. simpl. by exists new.
  - simpl. destruct (decide (count < length vs)%nat) as [Hlt|Hge].
    + rewrite decide_True by lia.
      destruct (erase_range_owned pv vs (length vs - count - 1) (length vs) Hown
                  ltac:(lia)) as (m' & He & Hown').
      rewrite Hlen, He. simpl. eexists. split; [done|]. simpl.
      rewrite (drop_ge vs), app_nil_r in Hown' by lia. done.
    + rewrite decide_False by lia.
      destruct (decide (length (storage_ pv) < count)%nat) as [Hgt|Heq].
      * destruct (insert_count_owned pv vs (length vs) (count - length vs)
                    copy (λ _, v) Hown ltac:(lia))
          as (fresh & m' & Hi & _ & Hown'); [done|].
        rewrite Hlen, Hi. simpl. eexists. split; [done|]. simpl.
        rewrite (take_ge vs), (drop_ge vs), app_nil_r in Hown' by lia.
        rewrite (const_fmap _ _ v), length_seq in Hown' by done. done.
      * exists pv. split; [done|].
        replace (count - length vs)%nat with 0%nat by lia. simpl.
        by rewrite app_nil_r.
Qed.

(** The loop of [_construct_splat] when the copy constructor returns [i]
    times and then throws: what is left is the call of
    [_undo_partial_construction]. *)
Lemma construct_splat_loop_throw (i rest : nat) copy (w : nat → T) :
  ∀ a filled c m (va vf vc : list T),
    owned (a ++ filled ++ c) m (va ++ vf ++ vc) →
    length a = length va → length filled = length vf →
    (∀ j, (j < i)%nat → copy (length filled + j)%nat = Constructs (w (length filled + j)%nat)) →
    copy (length filled + i)%nat = CtorThrows →
    ∃ fresh m',
      length fresh = i ∧
      owned (a ++ filled ++ fresh ++ c) m'
            (va ++ vf ++ (w <$> seq (length filled) i) ++ vc) ∧
      construct_splat_loop (i + S rest)
        (a ++ filled ++ replicate (i + S rest) None ++ c) m (length a)
        (length a + length filled) copy
      = (m3 ← _undo_partial_construction 2
                (a ++ filled ++ fresh ++ replicate (S rest) None ++ c) m'
                (Z.of_nat (length a))
                (Z.of_nat (length a + length filled + i) - 1);
         Some ((a ++ filled ++ fresh ++ replicate (S rest) None ++ c, m3), Throws)).
Proof.
  induction i as [|i IH]; intros a filled c m va vf vc Hown Hla Hlf Hcopy Hthrow.
  - exists [], m. split; [done|]. split; [done|].
    change (0 + S rest)%nat with (S rest). rewrite construct_splat_loop_S.
    replace (length a + length filled - length a)%nat with (length filled + 0)%nat
      by lia.
    rewrite Hthrow. unfold allocate, deallocate. simpl.
    rewrite lookup_insert_eq. simpl.
    assert (delete (fresh (dom m)) (<[fresh (dom m) := Raw]> m) = m) as ->.
    { apply map_eq. intros q. destruct (decide (q = fresh (dom m))) as [->|Hne].
      - rewrite lookup_delete_eq. symmetry. apply (allocate_fresh m).
      - by rewrite lookup_delete_ne, lookup_insert_ne. }
    by rewrite Nat.add_0_r.
  - destruct (allocate_construct m (w (length filled))) as (p & Hp & Hal & Hc).
    destruct (IH a (filled ++ [Some p]) c (<[p := Object (w (length filled))]> m)
                va (vf ++ [w (length filled)]) vc)
      as (fresh & m' & Hlen & Hown' & Hloop).
    { rewrite <- !app_assoc. simpl. rewrite (app_assoc a filled), (app_assoc va vf).
      apply owned_insert; [by rewrite <- !app_assoc | | done].
      rewrite !length_app. lia. }
    { done. }
    { rewrite !length_app. simpl. lia. }
    { intros j Hj. rewrite length_app. simpl.
      replace (length filled + 1 + j)%nat with (length filled + S j)%nat by lia.
      apply Hcopy. lia. }
    { rewrite length_app. simpl.
      by replace (length filled + 1 + i)%nat with (length filled + S i)%nat by lia. }
    exists (Some p :: fresh), m'. split; [simpl; by rewrite Hlen|]. split.
    + rewrite <- !app_assoc in Hown'. simpl in Hown'.
      rewrite length_app in Hown'. simpl in Hown'.
      replace (length filled + 1)%nat with (S (length filled)) in Hown' by lia.
      done.
    + change (S i + S rest)%nat with (S (i + S rest)).
      rewrite construct_splat_loop_S, Hal.
      replace (length a + length filled - length a)%nat with (length filled + 0)%nat
        by lia.
      rewrite (Hcopy 0%nat) by lia. rewrite Nat.add_0_r. rewrite Hc. simpl.
      rewrite decide_True by (rewrite !length_app; simpl; lia).
      rewrite insert_null.
      rewrite length_app in Hloop. simpl in Hloop.
      replace (S (length a + length filled)) with (length a + (length filled + 1))%nat
        by lia.
      rewrite Hloop. rewrite <- !app_assoc. simpl.
      by replace (length a + (length filled + 1) + i)%nat
        with (length a + length filled + S i)%nat by lia.
Qed.

(** [_undo_partial_construction] returns only on an empty range. *)
Lemma undo_partial_construction_stuck st m (p : positive) (v : T)
    (storage_begin : nat) (storage_end : Z) :
  Z.of_nat storage_begin ≠ storage_end →
  st !! storage_begin = Some None ∨
  (st !! storage_begin = Some (Some p) ∧ m !! p = Some (Object v)) →
  _undo_partial_construction 2 st m (Z.of_nat storage_begin) storage_end = None.
Proof.
  intros Hne Hst. simpl.
  destruct (decide (Z.of_nat storage_begin = storage_end)) as [?|_]; [done|].
  destruct (decide (0 ≤ Z.of_nat storage_begin)) as [_|?]; [|lia].
  rewrite Nat2Z.id.
  destruct Hst as [->|[-> Hp]]; simpl; [done|].
  unfold destroy_at, deallocate. simpl. rewrite Hp. simpl.
  rewrite lookup_insert_eq. simpl. by rewrite lookup_delete_eq.
Qed.

(** [insert(pos, count, value)] when the copy constructor returns [i] times
    and then throws. *)
Lemma insert_count_throws pv vs (pos count i : nat) copy (w : nat → T) :
  owned (storage_ pv) (memory_ pv) vs → (pos ≤ length vs)%nat → (i < count)%nat →
  (∀ j, (j < i)%nat → copy j = Constructs (w j)) → copy i = CtorThrows →
  if decide (i = 1)%nat then
    ∃ p m', insert_count pv pos count copy
            = Some ({| storage_ := storage_ pv; memory_ := m' |}, Throws) ∧
            owned (take pos (storage_ pv) ++ Some p :: drop pos (storage_ pv)) m'
                  (take pos vs ++ w 0%nat :: drop pos vs)
  else insert_count pv pos count copy = None.
Proof.
  intros Hown Hpos Hi Hcopy Hthrow. pose proof (owned_length _ _ _ Hown) as Hlen.
  destruct (construct_splat_loop_throw i (count - i - 1) copy w
              (take pos (storage_ pv)) [] (drop pos (storage_ pv)) (memory_ pv)
              (take pos vs) [] (drop pos vs))
    as (fresh & m' & Hfresh & Hown' & Hloop); try done.
  { simpl. by rewrite !take_drop. }
  { rewrite !length_take. lia. }
  simpl in Hown'. cbn [length app] in Hloop.
  rewrite length_take, !Nat.add_0_r in Hloop.
  replace (pos `min` length (storage_ pv))%nat with pos in Hloop by lia.
  replace (i + S (count - i - 1))%nat with count in Hloop by lia.
  assert (insert_count pv pos count copy
          = '((st1, m1), r) ← construct_splat_loop count
                (take pos (storage_ pv) ++ replicate count None
                 ++ drop pos (storage_ pv)) (memory_ pv) pos pos copy;
            match r with
            | Returns _ => Some ({| storage_ := st1; memory_ := m1 |}, Returns pos)
            | Throws => Some ({| storage_ := take pos st1 ++ drop (pos + count) st1;
                                 memory_ := m1 |}, Throws)
            end) as ->.
  { unfold insert_count, _construct_splat. rewrite !decide_True by lia.
    by replace (pos + count - pos)%nat with count by lia. }
  rewrite Hloop. clear Hloop.
  assert (length (take pos (storage_ pv)) = pos) as Hla
    by (rewrite length_take; lia).
  destruct (decide (i = 1)%nat) as [->|Hne].
  - destruct fresh as [|ptr [|??]]; try done.
    pose proof Hown' as (Hnd & Hvs & Hdom).
    assert (∃ p, ptr = Some p) as [p ->].
    { apply Forall2_app_inv_l in Hvs as (? & ? & _ & Hv & _).
      inversion Hv as [|? ? ? ? (p & -> & _)%deref_Some]; subst. by exists p. }
    exists p, m'. split; [|exact Hown'].
    cbn [_undo_partial_construction]. rewrite decide_True by lia. simpl.
    rewrite take_app_length' by done.
    rewrite drop_app_add' by done.
    change (Some p :: None :: replicate (count - 1 - 1) None
              ++ drop pos (storage_ pv))
      with ((Some p :: None :: replicate (count - 1 - 1) None)
              ++ drop pos (storage_ pv)).
    rewrite drop_app_length' by (simpl; rewrite length_replicate; lia).
    by rewrite take_drop.
  - destruct (decide (i = 0)%nat) as [->|Hne0].
    + destruct fresh; [|done].
      rewrite (undo_partial_construction_stuck _ _ 1%positive (w 0%nat) pos);
        [done | lia |]. left.
      rewrite lookup_app_r by lia. by rewrite Hla, Nat.sub_diag.
    + destruct fresh as [|ptr fresh]; [simpl in Hfresh; lia|].
      destruct Hown' as (Hnd & Hvs & Hdom).
      apply Forall2_app_inv_l in Hvs as (? & ? & _ & Hv & _).
      destruct i as [|i]; [done|].
      inversion Hv as [|? v0 ? ? (p & -> & Hp)%deref_Some]; subst.
      rewrite (undo_partial_construction_stuck _ _ p v0 pos); [done | lia |].
      right. rewrite lookup_app_r by lia. by rewrite Hla, Nat.sub_diag.
Qed.

(** Every call leads from a vector that owns its blocks to another one. *)
Lemma vector_apply_owned pv vs call pv' :
  owned (storage_ pv) (memory_ pv) vs → vector_apply pv call = Some pv' →
  ∃ vs', owned (storage_ pv') (memory_ pv') vs'.
Proof.
  intros Hown Hcall. pose proof (owned_length _ _ _ Hown) as Hlen.
  destruct call as [c| | |pos c|first last|count v]; simpl in Hcall.
  - destruct c as [v|].
    + destruct (emplace_back_owned pv vs v Hown) as (p & _ & He & Hown').
      rewrite He in Hcall. injection Hcall as <-. by eexists.
    + rewrite emplace_back_throws in Hcall. injection Hcall as <-. by exists vs.
  - destruct (decide (vs = [])) as [->|Hne].
    + rewrite pop_back_empty in Hcall; [done|]. by apply nil_length_inv.
    + destruct (pop_back_owned pv vs Hown Hne) as (m' & Hp & Hown').
      rewrite Hp in Hcall. injection Hcall as <-. by eexists.
  - destruct (clear_owned pv vs Hown) as [Hc Hown'].
    rewrite Hc in Hcall. injection Hcall as <-. by exists [].
  - destruct c as [v|].
    + destruct (decide (pos ≤ length vs)%nat) as [Hpos|Hpos].
      * destruct (emplace_owned pv vs pos v Hown Hpos) as (p & _ & He & Hown').
        rewrite He in Hcall. injection Hcall as <-. by eexists.
      * rewrite emplace_past_end in Hcall; [done | lia].
    + rewrite emplace_throws in Hcall. injection Hcall as <-. by exists vs.
  - destruct (decide (first ≤ last ≤ length vs)%nat) as [Hr|Hr].
    + destruct (erase_range_owned pv vs first last Hown Hr) as (m' & He & Hown').
      rewrite He in Hcall. injection Hcall as <-. by eexists.
    + rewrite erase_range_outside in Hcall; [done | by rewrite Hlen].
  - destruct (resize_owned pv vs count (λ _, Constructs v) v Hown) as (pv1 & Hr & Hown');
      [done|].
    rewrite Hr in Hcall. injection Hcall as <-. by eexists.
Qed.

Lemma vector_calls_owned calls pv vs pv' :
  owned (storage_ pv) (memory_ pv) vs → vector_calls pv calls = Some pv' →
  ∃ vs', owned (storage_ pv') (memory_ pv') vs'.
Proof.
  revert pv vs. induction calls as [|call calls IH]; intros pv vs Hown; simpl.
  - intros [= <-]. by exists vs.
  - destruct (vector_apply pv call) as [pv1|] eqn:Hcall; [|done]. simpl.
    destruct (vector_apply_owned pv vs call pv1 Hown Hcall) as [vs1 Hown1].
    by apply (IH pv1 vs1).
Qed.

(** The calls that have no result. *)
Lemma vector_apply_stuck pv vs call :
  owned (storage_ pv) (memory_ pv) vs →
  vector_apply pv call = None ↔
    (call = CallPopBack ∧ vs = []) ∨
    (∃ pos v, call = CallEmplace pos (Constructs v) ∧ (length vs < pos)%nat) ∨
    (∃ first last, call = CallEraseRange first last ∧
                   ¬ (first ≤ last ≤ length vs)%nat).
Proof.
  intros Hown. pose proof (owned_length _ _ _ Hown) as Hlen.
  destruct call as [c| | |pos c|first last|count v]; simpl.
  - split; [|naive_solver]. destruct c as [v|].
    + destruct (emplace_back_owned pv vs v Hown) as (p & _ & -> & _). done.
    + by rewrite emplace_back_throws.
  - destruct (decide (vs = [])) as [->|Hne].
    + rewrite pop_back_empty by (by apply nil_length_inv). naive_solver.
    + destruct (pop_back_owned pv vs Hown Hne) as (m' & -> & _). naive_solver.
  - destruct (clear_owned pv vs Hown) as [-> _]. naive_solver.
  - destruct c as [v|].
    + destruct (decide (pos ≤ length vs)%nat) as [Hpos|Hpos].
      * destruct (emplace_owned pv vs pos v Hown Hpos) as (p & _ & -> & _).
        split; [done|]. intros [[? _]|[(? & ? & [= -> ->] & ?)|(? & ? & ? & _)]];
          (done || lia).
      * rewrite emplace_past_end by lia. split; [|done]. intros _. right. left.
        exists pos, v. split; [done | lia].
    + rewrite emplace_throws. naive_solver.
  - destruct (decide (first ≤ last ≤ length vs)%nat) as [Hr|Hr].
    + destruct (erase_range_owned pv vs first last Hown Hr) as (m' & -> & _).
      split; [done|]. intros [[? _]|[(? & ? & ? & _)|(? & ? & [= -> ->] & ?)]]; done.
    + rewrite erase_range_outside by (by rewrite Hlen). split; [|done].
      intros _. right. right. by exists first, last.
  - destruct (resize_owned pv vs count (λ _, Constructs v) v Hown) as (pv1 & -> & _);
      [done|]. naive_solver.
Qed.

(** [resize] to a larger size when the copy constructor returns [i] times
    and then throws. *)
Lemma resize_throws pv vs (count i : nat) copy v :
  owned (storage_ pv) (memory_ pv) vs →
  (i < count - length vs)%nat →
  (∀ j, (j < i)%nat → copy j = Constructs v) → copy i = CtorThrows →
  if decide (i = 1)%nat then
    ∃ p m', resize pv count copy
            = Some ({| storage_ := storage_ pv; memory_ := m' |}, Throws) ∧
            owned (storage_ pv ++ [Some p]) m' (vs ++ [v])
  else resize pv count copy = None.
Proof.
  intros Hown Hi Hcopy Hthrow. pose proof (owned_length _ _ _ Hown) as Hlen.
  pose proof (insert_count_throws pv vs (length vs) (count - length vs) i copy
                (λ _, v) Hown ltac:(lia) Hi Hcopy Hthrow) as Hins.
  assert (resize pv count copy
          = '(pv2, r) ← insert_count pv (length vs) (count - length vs) copy;
            Some (pv2, match r with Returns _ => Returns tt | Throws => Throws end))
    as ->.
  { unfold resize. rewrite decide_False by lia. simpl.
    rewrite decide_False by lia. rewrite decide_True by lia. by rewrite Hlen. }
  destruct (decide (i = 1)%nat) as [->|Hne].
  - destruct Hins as (p & m' & -> & Hown'). exists p, m'. split; [done|].
    rewrite <- Hlen, (take_ge vs), (drop_ge vs) in Hown' by lia.
    by rewrite firstn_all, drop_all in Hown'.
  - by rewrite Hins.
Qed.

Lemma owned_leak st m vs p v :
  owned (st ++ [Some p]) m (vs ++ [v]) →
  contents {| storage_ := st; memory_ := m |} = Some vs ∧
  leaked {| storage_ := st; memory_ := m |} = {[p]} ∧
  deref m (Some p) = Some v.
Proof.
  intros Hown. pose proof (owned_length _ _ _ Hown) as Hlen.
  destruct Hown as (Hnd & Hvs & Hdom). rewrite !length_app in Hlen. simpl in Hlen.
  apply Forall2_app_inv in Hvs as [Hvs Hv]; [|lia].
  apply NoDup_app in Hnd as (_ & Hnew & _).
  split; [by apply mapM_Some|]. split.
  - unfold leaked. simpl. apply set_eq. intros q.
    rewrite elem_of_difference, elem_of_dom, elem_of_pointers, elem_of_singleton.
    rewrite Hdom, elem_of_app, list_elem_of_singleton. split.
    + intros [[Hin|[= ->]] Hout]; done.
    + intros ->. split; [by right|]. intros Hin. apply (Hnew _ Hin). by left.
  - by inversion Hv.
Qed.

Lemma new_owned : owned [] (∅ : gmap positive (block T)) [].
Proof.
  split; [constructor|]. split; [constructor|]. intros q.
  rewrite lookup_empty. split; [by intros [? ?] | by intros ?%elem_of_nil].
Qed.

Lemma owned_wf st m vs :
  owned st m vs →
  wf_ptr_vector {| storage_ := st; memory_ := m |} ∧
  contents {| storage_ := st; memory_ := m |} = Some vs.
Proof. intros Hown. by apply owned_iff. Qed.

Lemma wf_not_leaked pv : wf_ptr_vector pv → leaked pv = ∅.
Proof. intros (_ & _ & Hdom). unfold leaked. rewrite Hdom. set_solver. Qed.
End ptr_vector_facts.

(** X27. A vector reached from an empty one by calls of [emplace_back],
    [pop_back], [clear], [emplace], the range [erase] and [resize] (its
    copy constructor returning), in any order, also when the constructor
    throws in [emplace_back] or [emplace], owns its blocks: every entry of
    [storage_] points at a live object, no two entries at the same one, and
    the allocator has no block out that [storage_] does not hold (nothing
    leaked, nothing freed twice).  On such a vector the only calls without
    a defined result are [pop_back] on an empty vector, [emplace] behind
    [end()] and [erase] of a range that is not inside the vector. *)
Theorem ptr_vector_calls_keep_ownership {T : Type}
    (calls : list (PtrVector.vector_call T)) (pv : PtrVector.ptr_vector T) :
  PtrVector.vector_calls PtrVector.new calls = Some pv →
  PtrVector.wf_ptr_vector pv ∧
  PtrVector.leaked pv = ∅ ∧
  (∃ vs, PtrVector.contents pv = Some vs ∧ length vs = PtrVector.size pv) ∧
  ∀ call, PtrVector.vector_apply pv call = None ↔
    (call = PtrVector.CallPopBack ∧ PtrVector.size pv = 0%nat) ∨
    (∃ pos v, call = PtrVector.CallEmplace pos (PtrVector.Constructs v) ∧
              (PtrVector.size pv < pos)%nat) ∨
    (∃ first last, call = PtrVector.CallEraseRange first last ∧
                   ¬ (first ≤ last ≤ PtrVector.size pv)%nat).
Proof.
  intros Hrun.
  destruct (vector_calls_owned calls PtrVector.new [] pv new_owned Hrun)
    as [vs Hown].
  pose proof (owned_length _ _ _ Hown) as Hlen.
  destruct (proj2 (owned_iff pv vs) Hown) as [Hwf Hvs].
  split; [done|]. split; [by apply wf_not_leaked|]. split.
  - exists vs. split; [done|]. unfold PtrVector.size. lia.
  - intros call. rewrite (vector_apply_stuck pv vs call Hown).
    unfold PtrVector.size. rewrite Hlen.
    assert (vs = [] ↔ length vs = 0%nat) as ->; [|done].
    split; [by intros -> | apply nil_length_inv].
Qed.

(** X28. A vector that owns its blocks acts as the list of its elements:
    [size], [empty], [operator[]], [at], [front] and [back] read that list
    ([at] throws from [size()] on, the others have no defined result
    there); [emplace_back] appends the new value, returns its address, and
    every element stays in the block it had; when the constructor throws,
    [emplace_back] leaves the vector and the allocator as they were;
    [pop_back] takes the last element off and [clear] all of them, giving
    their blocks back. *)
Theorem ptr_vector_acts_as_a_list {T : Type} (pv : PtrVector.ptr_vector T)
    (vs : list T) (v : T) :
  PtrVector.wf_ptr_vector pv → PtrVector.contents pv = Some vs →
  PtrVector.size pv = length vs ∧
  (PtrVector.empty pv = true ↔ vs = []) ∧
  (∀ i, PtrVector.subscript pv i = vs !! i) ∧
  (∀ i, PtrVector.at_ pv i
        = Some (match vs !! i with
                | Some x => PtrVector.Returns x
                | None => PtrVector.Throws
                end)) ∧
  PtrVector.front pv = head vs ∧
  PtrVector.back pv = last vs ∧
  (∃ pv' p,
     PtrVector.emplace_back pv (PtrVector.Constructs v) = Some (pv', PtrVector.Returns p) ∧
     PtrVector.wf_ptr_vector pv' ∧
     PtrVector.contents pv' = Some (vs ++ [v]) ∧
     PtrVector.storage_ pv' = PtrVector.storage_ pv ++ [Some p] ∧
     PtrVector.deref (PtrVector.memory_ pv') (Some p) = Some v ∧
     ∀ ptr, ptr ∈ PtrVector.storage_ pv →
            PtrVector.deref (PtrVector.memory_ pv') ptr
            = PtrVector.deref (PtrVector.memory_ pv) ptr) ∧
  PtrVector.emplace_back pv PtrVector.CtorThrows = Some (pv, PtrVector.Throws) ∧
  (vs = [] → PtrVector.pop_back pv = None) ∧
  (vs ≠ [] →
   ∃ pv', PtrVector.pop_back pv = Some pv' ∧
          PtrVector.wf_ptr_vector pv' ∧
          PtrVector.contents pv' = Some (removelast vs) ∧
          PtrVector.storage_ pv' = removelast (PtrVector.storage_ pv)) ∧
  PtrVector.clear pv = Some PtrVector.new.
Proof.
  intros Hwf Hvs.
  pose proof (proj1 (owned_iff pv vs) (conj Hwf Hvs)) as Hown.
  pose proof (owned_length _ _ _ Hown) as Hlen.
  split; [done|]. split.
  { unfold PtrVector.empty. rewrite bool_decide_eq_true. split.
    - intros Hst. rewrite Hst in Hlen. by destruct vs.
    - intros ->. by apply nil_length_inv. }
  split; [intros i; apply (owned_lookup _ _ _ i Hown)|]. split.
  { intros i. pose proof (owned_lookup _ _ _ i Hown) as Hi.
    unfold PtrVector.at_.
    destruct (PtrVector.storage_ pv !! i) as [ptr|] eqn:Hst; simpl in *.
    - rewrite Hi. destruct (vs !! i) eqn:Hv; [done|].
      apply lookup_lt_Some in Hst. apply lookup_ge_None in Hv. lia.
    - by rewrite <- Hi. }
  split.
  { unfold PtrVector.front. rewrite !head_lookup. apply (owned_lookup _ _ _ 0%nat Hown). }
  split.
  { unfold PtrVector.back. rewrite !last_lookup, Hlen.
    apply (owned_lookup _ _ _ _ Hown). }
  split.
  { destruct (emplace_back_owned pv vs v Hown) as (p & Hp & He & Hown').
    eexists _, p. split; [exact He|].
    destruct (owned_wf _ _ _ Hown') as [Hwf' Hvs'].
    split; [done|]. split; [done|]. split; [done|]. simpl. split.
    - unfold PtrVector.deref. simpl. by rewrite lookup_insert_eq.
    - intros [q|] Hin; unfold PtrVector.deref; simpl; [|done].
      rewrite lookup_insert_ne; [done|].
      intros ->. destruct Hown as (_ & _ & Hdom).
      apply Hdom in Hin. rewrite Hp in Hin. by destruct Hin. }
  split; [apply emplace_back_throws|]. split.
  { intros ->. apply pop_back_empty. by apply nil_length_inv. }
  split; [|by destruct (clear_owned pv vs Hown)].
  intros Hne. destruct (pop_back_owned pv vs Hown Hne) as (m' & Hp & Hown').
  eexists. split; [exact Hp|]. simpl.
  rewrite !removelast_firstn_len. unfold firstn.
  replace (Init.Nat.pred (length vs)) with (length vs - 1)%nat by lia.
  replace (Init.Nat.pred (length (PtrVector.storage_ pv)))
    with (length (PtrVector.storage_ pv) - 1)%nat by lia.
  by destruct (owned_wf _ _ _ Hown').
Qed.

(** X29. [erase(pos)] destroys the element but never gives its block back:
    on a vector that owns its blocks, after [erase] at a position below
    [size()] the element is gone from the list of elements, while its raw
    block stays with the allocator with no entry of [storage_] pointing at
    it, so the vector no longer owns exactly its blocks.  [erase(pos,
    pos + 1)] removes the same element and does give the block back. *)
Theorem erase_at_position_keeps_the_block {T : Type}
    (pv : PtrVector.ptr_vector T) (vs : list T) (pos : nat) :
  PtrVector.wf_ptr_vector pv → PtrVector.contents pv = Some vs →
  (pos < length vs)%nat →
  (∃ pv' p,
     PtrVector.erase pv pos = Some (pv', pos) ∧
     PtrVector.contents pv' = Some (delete pos vs) ∧
     PtrVector.storage_ pv !! pos = Some (Some p) ∧
     PtrVector.memory_ pv' !! p = Some PtrVector.Raw ∧
     PtrVector.leaked pv' = {[p]} ∧
     ¬ PtrVector.wf_ptr_vector pv') ∧
  (∃ pv',
     PtrVector.erase_range pv pos (S pos) = Some (pv', pos) ∧
     PtrVector.contents pv' = Some (delete pos vs) ∧
     PtrVector.wf_ptr_vector pv' ∧
     PtrVector.leaked pv' = ∅).
Proof.
  intros Hwf Hvs Hpos.
  pose proof (proj1 (owned_iff pv vs) (conj Hwf Hvs)) as Hown.
  split.
  - destruct (erase_owned pv vs pos Hown Hpos)
      as (p & Hptr & He & Hnd & Hgone & Hvs' & Hblocks).
    eexists _, p. split; [exact He|]. simpl.
    assert (PtrVector.leaked
              {| PtrVector.storage_ := delete pos (PtrVector.storage_ pv);
                 PtrVector.memory_ := <[p := PtrVector.Raw]> (PtrVector.memory_ pv) |}
            = {[p]}) as Hleak.
    { unfold PtrVector.leaked. simpl. apply set_eq. intros q.
      rewrite elem_of_difference, elem_of_dom, elem_of_pointers, elem_of_singleton.
      destruct (decide (q = p)) as [->|Hne].
      - rewrite lookup_insert_eq. split; [done|]. intros _. split; [by eexists | done].
      - rewrite lookup_insert_ne by done. rewrite Hblocks. naive_solver. }
    split; [by apply mapM_Some|]. split; [done|].
    split; [by rewrite lookup_insert_eq|]. split; [done|].
    intros Hwf'%wf_not_leaked. rewrite Hleak in Hwf'.
    assert (p ∈ (∅ : gset positive)) as Hin by (rewrite <- Hwf'; set_solver).
    set_solver.
  - destruct (erase_range_owned pv vs pos (S pos) Hown ltac:(lia))
      as (m' & He & Hown').
    eexists. split; [exact He|].
    rewrite <- !delete_take_drop in Hown'.
    destruct (owned_wf _ _ _ Hown') as [Hwf' Hvs'].
    rewrite <- delete_take_drop.
    split; [done|]. split; [done|]. by apply wf_not_leaked.
Qed.

(** X30. [resize(count, value)] as it is written, on a vector with [n]
    elements that owns its blocks.  With a copy constructor that returns:
    [count = 0] empties the vector, [count >= n] keeps the elements and
    appends [count - n] copies of the value, and [0 < count < n] keeps the
    first [n - count - 1] elements (it erases from position
    [size() - count - 1]), which is [count] elements only when
    [n = 2 * count + 1]; the vector owns its blocks afterwards.  When the
    vector grows and a copy throws: at the second copy the exception leaves
    with the elements as they were and the first copy left in a block that
    no entry points at; at any other copy
    [_undo_partial_construction] does not return. *)
Theorem resize_as_written {T : Type} (pv : PtrVector.ptr_vector T)
    (vs : list T) (count : nat) (v : T) (copy : nat → PtrVector.construction T) :
  PtrVector.wf_ptr_vector pv → PtrVector.contents pv = Some vs →
  ((∀ j : nat, copy j = PtrVector.Constructs v) →
   ∃ pv', PtrVector.resize pv count copy = Some (pv', PtrVector.Returns tt) ∧
          PtrVector.wf_ptr_vector pv' ∧
          PtrVector.contents pv'
          = Some (if decide (count = 0)%nat then []
                  else if decide (count < length vs)%nat
                       then take (length vs - count - 1) vs
                       else vs ++ replicate (count - length vs) v)) ∧
  (∀ i : nat,
     (i < count - length vs)%nat →
     (∀ j, (j < i)%nat → copy j = PtrVector.Constructs v) → copy i = PtrVector.CtorThrows →
     if decide (i = 1)%nat then
       ∃ pv' p,
         PtrVector.resize pv count copy = Some (pv', PtrVector.Throws) ∧
         PtrVector.storage_ pv' = PtrVector.storage_ pv ∧
         PtrVector.contents pv' = Some vs ∧
         PtrVector.leaked pv' = {[p]} ∧
         PtrVector.deref (PtrVector.memory_ pv') (Some p) = Some v
     else PtrVector.resize pv count copy = None).
Proof.
  intros Hwf Hvs.
  pose proof (proj1 (owned_iff pv vs) (conj Hwf Hvs)) as Hown. split.
  - intros Hcopy.
    destruct (resize_owned pv vs count copy v Hown Hcopy) as (pv' & Hr & Hown').
    exists pv'. split; [done|]. by apply owned_iff.
  - intros i Hi Hcopy Hthrow.
    pose proof (resize_throws pv vs count i copy v Hown Hi Hcopy Hthrow) as Hr.
    destruct (decide (i = 1)%nat) as [->|Hne]; [|done].
    destruct Hr as (p & m' & Hr & Hown').
    destruct (owned_leak _ _ _ _ _ Hown') as (Hvs' & Hleak & Hp).
    eexists _, p. split; [exact Hr|]. done.
Qed.

Section ptr_vector_example.

Lemma ptr_vector_calls_keep_ownership_witness :
  let calls : list (PtrVector.vector_call Z) :=
    [PtrVector.CallEmplaceBack (PtrVector.Constructs 1);
     PtrVector.CallEmplaceBack (PtrVector.Constructs 2);
     PtrVector.CallEmplaceBack PtrVector.CtorThrows;
     PtrVector.CallEmplaceBack (PtrVector.Constructs 3);
     PtrVector.CallPopBack;
     PtrVector.CallEmplace 1%nat (PtrVector.Constructs 7);
     PtrVector.CallResize 5%nat 9;
     PtrVector.CallEraseRange 0%nat 1%nat] in
  let pv : PtrVector.ptr_vector Z :=
    {| PtrVector.storage_ :=
         [Some 3%positive; Some 2%positive; Some 4%positive; Some 5%positive];
       PtrVector.memory_ :=
         <[2%positive := PtrVector.Object 2]>
           (<[3%positive := PtrVector.Object 7]>
              (<[4%positive := PtrVector.Object 9]>
                 (<[5%positive := PtrVector.Object 9]> ∅))) |} in
  PtrVector.wf_ptr_vector pv ∧
  PtrVector.leaked pv = ∅ ∧
  (∃ vs, PtrVector.contents pv = Some vs ∧ length vs = PtrVector.size pv) ∧
  ∀ call, PtrVector.vector_apply pv call = None ↔
    (call = PtrVector.CallPopBack ∧ PtrVector.size pv = 0%nat) ∨
    (∃ pos v, call = PtrVector.CallEmplace pos (PtrVector.Constructs v) ∧
              (PtrVector.size pv < pos)%nat) ∨
    (∃ first last, call = PtrVector.CallEraseRange first last ∧
                   ¬ (first ≤ last ≤ PtrVector.size pv)%nat).
Proof.
  intros calls pv. refine (ptr_vector_calls_keep_ownership calls pv _).
  vm_compute. reflexivity.
Defined.

Lemma ptr_vector_acts_as_a_list_witness :
  let pv : PtrVector.ptr_vector Z :=
    {| PtrVector.storage_ := [Some 1%positive; Some 2%positive];
       PtrVector.memory_ :=
         <[1%positive := PtrVector.Object 10]>
           (<[2%positive := PtrVector.Object 20]> ∅) |} in
  let vs := [10; 20] in
  let v := 30 in
  PtrVector.size pv = length vs ∧
  (PtrVector.empty pv = true ↔ vs = []) ∧
  (∀ i, PtrVector.subscript pv i = vs !! i) ∧
  (∀ i, PtrVector.at_ pv i
        = Some (match vs !! i with
                | Some x => PtrVector.Returns x
                | None => PtrVector.Throws
                end)) ∧
  PtrVector.front pv = head vs ∧
  PtrVector.back pv = last vs ∧
  (∃ pv' p,
     PtrVector.emplace_back pv (PtrVector.Constructs v) = Some (pv', PtrVector.Returns p) ∧
     PtrVector.wf_ptr_vector pv' ∧
     PtrVector.contents pv' = Some (vs ++ [v]) ∧
     PtrVector.storage_ pv' = PtrVector.storage_ pv ++ [Some p] ∧
     PtrVector.deref (PtrVector.memory_ pv') (Some p) = Some v ∧
     ∀ ptr, ptr ∈ PtrVector.storage_ pv →
            PtrVector.deref (PtrVector.memory_ pv') ptr
            = PtrVector.deref (PtrVector.memory_ pv) ptr) ∧
  PtrVector.emplace_back pv PtrVector.CtorThrows = Some (pv, PtrVector.Throws) ∧
  (vs = [] → PtrVector.pop_back pv = None) ∧
  (vs ≠ [] →
   ∃ pv', PtrVector.pop_back pv = Some pv' ∧
          PtrVector.wf_ptr_vector pv' ∧
          PtrVector.contents pv' = Some (removelast vs) ∧
          PtrVector.storage_ pv' = removelast (PtrVector.storage_ pv)) ∧
  PtrVector.clear pv = Some PtrVector.new.
Proof.
  intros pv vs v. refine (ptr_vector_acts_as_a_list pv vs v _ _).
  - apply (bool_decide_unpack _). vm_compute. exact I.
  - vm_compute. reflexivity.
Defined.

Lemma erase_at_position_keeps_the_block_witness :
  let pv : PtrVector.ptr_vector Z :=
    {| PtrVector.storage_ := [Some 1%positive; Some 2%positive; Some 3%positive];
       PtrVector.memory_ :=
         <[1%positive := PtrVector.Object 1]>
           (<[2%positive := PtrVector.Object 2]>
              (<[3%positive := PtrVector.Object 3]> ∅)) |} in
  let vs := [1; 2; 3] in
  let pos := 1%nat in
  (∃ pv' p,
     PtrVector.erase pv pos = Some (pv', pos) ∧
     PtrVector.contents pv' = Some (delete pos vs) ∧
     PtrVector.storage_ pv !! pos = Some (Some p) ∧
     PtrVector.memory_ pv' !! p = Some PtrVector.Raw ∧
     PtrVector.leaked pv' = {[p]} ∧
     ¬ PtrVector.wf_ptr_vector pv') ∧
  (∃ pv',
     PtrVector.erase_range pv pos (S pos) = Some (pv', pos) ∧
     PtrVector.contents pv' = Some (delete pos vs) ∧
     PtrVector.wf_ptr_vector pv' ∧
     PtrVector.leaked pv' = ∅).
Proof.
  intros pv vs pos. refine (erase_at_position_keeps_the_block pv vs pos _ _ _).
  - apply (bool_decide_unpack _). vm_compute. exact I.
  - vm_compute. reflexivity.
  - simpl. lia.
Defined.

Lemma resize_as_written_witness :
  let pv : PtrVector.ptr_vector Z :=
    {| PtrVector.storage_ :=
         [Some 1%positive; Some 2%positive; Some 3%positive; Some 4%positive;
          Some 5%positive];
       PtrVector.memory_ :=
         <[1%positive := PtrVector.Object 1]>
           (<[2%positive := PtrVector.Object 2]>
              (<[3%positive := PtrVector.Object 3]>
                 (<[4%positive := PtrVector.Object 4]>
                    (<[5%positive := PtrVector.Object 5]> ∅)))) |} in
  let vs := [1; 2; 3; 4; 5] in
  let count := 1%nat in
  let v := 9 in
  let copy : nat → PtrVector.construction Z := λ _, PtrVector.Constructs 9 in
  ((∀ j : nat, copy j = PtrVector.Constructs v) →
   ∃ pv', PtrVector.resize pv count copy = Some (pv', PtrVector.Returns tt) ∧
          PtrVector.wf_ptr_vector pv' ∧
          PtrVector.contents pv'
          = Some (if decide (count = 0)%nat then []
                  else if decide (count < length vs)%nat
                       then take (length vs - count - 1) vs
                       else vs ++ replicate (count - length vs) v)) ∧
  (∀ i : nat,
     (i < count - length vs)%nat →
     (∀ j, (j < i)%nat → copy j = PtrVector.Constructs v) → copy i = PtrVector.CtorThrows →
     if decide (i = 1)%nat then
       ∃ pv' p,
         PtrVector.resize pv count copy = Some (pv', PtrVector.Throws) ∧
         PtrVector.storage_ pv' = PtrVector.storage_ pv ∧
         PtrVector.contents pv' = Some vs ∧
         PtrVector.leaked pv' = {[p]} ∧
         PtrVector.deref (PtrVector.memory_ pv') (Some p) = Some v
     else PtrVector.resize pv count copy = None).
Proof.
  intros pv vs count v copy. refine (resize_as_written pv vs count v copy _ _).
  - apply (bool_decide_unpack _). vm_compute. exact I.
  - vm_compute. reflexivity.
Defined.
End ptr_vector_example.

